(** * Template pipeline: ingestion, phases and reification

A shallow embedding of the template compilation pipeline
([ingest.ts], [phases/create_i18n_contexts.ts],
[phases/resolve_sanitizers.ts], [phases/resolve_dollar_event.ts] and
[phases/reify.ts]) together with the properties the specification states
about it.

Conventions.
- A JavaScript [throw] is the [Throw] result; the message is kept.
- Code that mutates the job (id allocation, op-list pushes) is written in a
  state-and-error monad over the job.
- An op-list is a [list]; [OpList.replace] is a pointwise rewrite of that
  list, [push] appends.
- [x!] (a non-null assertion) has no runtime effect: a [null] is passed on. *)

From stdpp Require Import base option list gmap strings pretty.
From Stdlib Require Import ZArith Btauto.

Set Warnings "-register-all".
Open Scope string_scope.
Open Scope list_scope.

(** ** Results and the job monad *)

Inductive Result (A : Type) : Type :=
  | Ok (a : A)
  | Throw (msg : string).
Arguments Ok {A} a.
Arguments Throw {A} msg.

Definition rbind {A B} (r : Result A) (k : A → Result B) : Result B :=
  match r with
  | Ok a => k a
  | Throw m => Throw m
  end.

Notation "'let?' x ':=' c 'in' k" := (rbind c (fun x => k))
  (at level 10, x pattern, c at level 100, k at level 200).

Definition isOk {A} (r : Result A) : bool :=
  match r with Ok _ => true | Throw _ => false end.

(** The result type of code that only has effects. *)
Abbreviation void := Datatypes.unit (only parsing).

(** State passing with errors: the state is dropped when the code throws. *)
Definition M (S A : Type) : Type := S → Result (A * S).

Definition ret {S A} (a : A) : M S A := fun s => Ok (a, s).
Definition bind {S A B} (c : M S A) (k : A → M S B) : M S B :=
  fun s => match c s with
           | Ok (a, s') => k a s'
           | Throw m => Throw m
           end.
Definition throw {S A} (msg : string) : M S A := fun _ => Throw msg.
Definition get {S} : M S S := fun s => Ok (s, s).
Definition put {S} (s : S) : M S unit := fun _ => Ok (tt, s).
Definition modify {S} (f : S → S) : M S unit := fun s => Ok (tt, f s).
Definition lift {S A} (r : Result A) : M S A :=
  fun s => match r with Ok a => Ok (a, s) | Throw m => Throw m end.

Notation "'let*' x ':=' c 'in' k" := (bind c (fun x => k))
  (at level 10, x pattern, c at level 100, k at level 200).

Section Traversals.
Context {S A B : Type}.
Variable f : A → M S B.

(** [array.map(f)] for an effectful [f]: left to right. *)
Fixpoint mapM (l : list A) : M S (list B) :=
  match l with
  | [] => ret []
  | x :: l' =>
      let* y := f x in
      let* ys := mapM l' in
      ret (y :: ys)
  end.

Definition optM (o : option A) : M S (option B) :=
  match o with
  | None => ret None
  | Some x => let* y := f x in ret (Some y)
  end.
End Traversals.

Section PureTraversals.
Context {A B : Type}.
Variable f : A → Result B.

Fixpoint rmap (l : list A) : Result (list B) :=
  match l with
  | [] => Ok []
  | x :: l' =>
      let? y := f x in
      let? ys := rmap l' in
      Ok (y :: ys)
  end.
End PureTraversals.

(** [for (const x of l) body(x)] over a mutable state. *)
Fixpoint forEach {S A} (body : A → M S unit) (l : list A) : M S unit :=
  match l with
  | [] => ret tt
  | x :: l' => let* _ := body x in forEach body l'
  end.

(** ** Identifiers, spans and enumerations *)

Definition XrefId := nat.

(** [ParseSpan]: offsets relative to the start of an expression. *)
Record ParseSpan := { span_start : nat; span_end : nat }.

(** [ParseSourceSpan]: absolute locations.  A location is its offset and
  [moveBy] adds to it. *)
Record ParseSourceSpan := { start : nat; end_ : nat; fullStart : nat }.

Definition SourceSpan := option ParseSourceSpan.

Definition moveBy (loc delta : nat) : nat := loc + delta.

Definition convertSourceSpan (span : ParseSpan) (baseSourceSpan : SourceSpan)
  : SourceSpan :=
  match baseSourceSpan with
  | None => None
  | Some base =>
      Some {| start := moveBy (start base) (span_start span);
              end_ := moveBy (start base) (span_end span);
              fullStart := moveBy (fullStart base) (span_start span) |}
  end.

Record SlotHandle := { slot : option nat }.
Definition newSlotHandle : SlotHandle := {| slot := None |}.

Inductive SecurityContext := NONE | HTML | STYLE | SCRIPT | URL | RESOURCE_URL.

Inductive SanitizerFn := Html | Script | Style | Url | ResourceUrl | IframeAttribute.

Inductive Namespace := NsHTML | NsSVG | NsMath.

Inductive BindingKind :=
  | BkAttribute | BkClassName | BkStyleProperty | BkProperty | BkTemplate
  | BkI18n | BkAnimation.

Inductive DerivedRepeaterVarIdentity := First | Last | Even | Odd.

Inductive I18nContextKind := RootI18n | Icu.

(** [o.BinaryOperator] is a numeric enumeration; its members are not needed
  here, only that [BINARY_OPERATORS] yields one. *)
Definition BinaryOperator := nat.

(** [VisitorContextFlag]: a bit set. *)
Definition VisitorContextFlag := N.
Definition FlagNone : VisitorContextFlag := 0%N.
Definition InChildOperation : VisitorContextFlag := 1%N.

Inductive LiteralValue :=
  | LitNull
  | LitUndefined
  | LitBool (b : bool)
  | LitNum (n : Z)
  | LitStr (s : string).

(** i18n metadata, as far as the pipeline looks into it. *)
Record Message := { id : string; messageString : string }.
Record TagPlaceholder := { startName : string; closeName : string }.

(** [t.Variable]: a declared template variable. *)
Record TVariable := { var_name : string; var_value : string }.

(** ** Expressions

One type for the output AST ([o.Expression]) and the IR-specific kinds
([ir.Expression], the subclasses of [ExpressionBase]); statements are
mutual with expressions because of [o.FunctionExpr]. *)

Inductive Expr : Type :=
  (* output AST *)
  | ReadVarExpr (name : option string)
  | LiteralExpr (value : LiteralValue) (sourceSpan : SourceSpan)
  | ExternalExpr (value : string)
  | ReadPropExpr (receiver : Expr) (name : string) (sourceSpan : SourceSpan)
  | ReadKeyExpr (receiver index : Expr) (sourceSpan : SourceSpan)
  | WritePropExpr (receiver : Expr) (name : string) (value : Expr)
      (sourceSpan : SourceSpan)
  | WriteKeyExpr (receiver index value : Expr) (sourceSpan : SourceSpan)
  | WriteVarExpr (name : string) (value : Expr)
  | InvokeFunctionExpr (fn : Expr) (args : list Expr) (sourceSpan : SourceSpan)
  | BinaryOperatorExpr (operator : BinaryOperator) (lhs rhs : Expr)
      (sourceSpan : SourceSpan)
  | ConditionalExpr (condition trueCase falseCase : Expr)
      (sourceSpan : SourceSpan)
  | LiteralArrayExpr (entries : list Expr)
  | LiteralMapExpr (entries : list (string * Expr * bool))
      (sourceSpan : SourceSpan)
  | FunctionExpr (params : list string) (statements : list Stmt)
      (name : option string)
  (* IR-specific kinds *)
  | LexicalReadExpr (name : string)
  | ContextExpr (view : XrefId)
  | NextContextExpr (steps : nat)
  | ReferenceExpr (target : XrefId) (targetSlot : SlotHandle) (offset : nat)
  | GetCurrentViewExpr
  | RestoreViewExpr (view : XrefId + Expr)
  | ResetViewExpr (expr : Expr)
  | ReadVariableExpr (xref : XrefId) (name : option string)
  | ReadTemporaryExpr (xref : XrefId) (name : option string)
  | AssignTemporaryExpr (expr : Expr) (xref : XrefId) (name : option string)
  | PureFunctionExpr (fn : option Expr) (varOffset : option nat)
      (args : list Expr)
  | PureFunctionParameterExpr (index : nat)
  | PipeBindingExpr (target : XrefId) (targetSlot : SlotHandle) (name : string)
      (args : list Expr) (varOffset : option nat)
  | PipeBindingVariadicExpr (target : XrefId) (targetSlot : SlotHandle)
      (name : string) (args : Expr) (numArgs : nat) (varOffset : option nat)
  | SafePropertyReadExpr (receiver : Expr) (name : string)
  | SafeKeyedReadExpr (receiver index : Expr) (sourceSpan : SourceSpan)
  | SafeInvokeFunctionExpr (receiver : Expr) (args : list Expr)
  | SafeTernaryExpr (guard expr : Expr)
  | EmptyExpr (sourceSpan : SourceSpan)
  | SanitizerExpr (fn : SanitizerFn)
  | SlotLiteralExpr (slot : SlotHandle)
  | ConditionalCaseExpr (expr : option Expr) (target : XrefId)
      (targetSlot : SlotHandle) (alias : option TVariable)
  | DerivedRepeaterVarExpr (xref : XrefId)
      (identity : DerivedRepeaterVarIdentity)
with Stmt : Type :=
  | ExpressionStatement (expr : Expr) (sourceSpan : SourceSpan)
  | ReturnStatement (value : Expr) (sourceSpan : SourceSpan)
  | DeclareVarStmt (name : string) (value : option Expr).

(** [ir.Interpolation] is not an expression: it is a separate class that the
  binding ops carry in place of one. *)
Record Interpolation := { strings : list string; expressions : list Expr }.

Inductive ExprOrInterpolation :=
  | PlainExpr (e : Expr)
  | Interp (i : Interpolation).

(** [ir.ExpressionKind], with the names [ir.ExpressionKind[kind]] prints. *)
Inductive ExpressionKind :=
  | KLexicalRead | KContext | KNextContext | KReference | KGetCurrentView
  | KRestoreView | KResetView | KReadVariable | KReadTemporaryExpr
  | KAssignTemporaryExpr | KPureFunctionExpr | KPureFunctionParameterExpr
  | KPipeBinding | KPipeBindingVariadic | KSafePropertyRead | KSafeKeyedRead
  | KSafeInvokeFunction | KSafeTernaryExpr | KEmptyExpr | KSanitizerExpr
  | KSlotLiteralExpr | KConditionalCase | KDerivedRepeaterVar.

Definition ExpressionKind_name (k : ExpressionKind) : string :=
  match k with
  | KLexicalRead => "LexicalRead" | KContext => "Context"
  | KNextContext => "NextContext" | KReference => "Reference"
  | KGetCurrentView => "GetCurrentView" | KRestoreView => "RestoreView"
  | KResetView => "ResetView" | KReadVariable => "ReadVariable"
  | KReadTemporaryExpr => "ReadTemporaryExpr"
  | KAssignTemporaryExpr => "AssignTemporaryExpr"
  | KPureFunctionExpr => "PureFunctionExpr"
  | KPureFunctionParameterExpr => "PureFunctionParameterExpr"
  | KPipeBinding => "PipeBinding" | KPipeBindingVariadic => "PipeBindingVariadic"
  | KSafePropertyRead => "SafePropertyRead" | KSafeKeyedRead => "SafeKeyedRead"
  | KSafeInvokeFunction => "SafeInvokeFunction"
  | KSafeTernaryExpr => "SafeTernaryExpr" | KEmptyExpr => "EmptyExpr"
  | KSanitizerExpr => "SanitizerExpr" | KSlotLiteralExpr => "SlotLiteralExpr"
  | KConditionalCase => "ConditionalCase"
  | KDerivedRepeaterVar => "DerivedRepeaterVar"
  end.

(** [expr.kind] of an IR expression; an output expression has none. *)
Definition kindOf (e : Expr) : option ExpressionKind :=
  match e with
  | LexicalReadExpr _ => Some KLexicalRead
  | ContextExpr _ => Some KContext
  | NextContextExpr _ => Some KNextContext
  | ReferenceExpr _ _ _ => Some KReference
  | GetCurrentViewExpr => Some KGetCurrentView
  | RestoreViewExpr _ => Some KRestoreView
  | ResetViewExpr _ => Some KResetView
  | ReadVariableExpr _ _ => Some KReadVariable
  | ReadTemporaryExpr _ _ => Some KReadTemporaryExpr
  | AssignTemporaryExpr _ _ _ => Some KAssignTemporaryExpr
  | PureFunctionExpr _ _ _ => Some KPureFunctionExpr
  | PureFunctionParameterExpr _ => Some KPureFunctionParameterExpr
  | PipeBindingExpr _ _ _ _ _ => Some KPipeBinding
  | PipeBindingVariadicExpr _ _ _ _ _ _ => Some KPipeBindingVariadic
  | SafePropertyReadExpr _ _ => Some KSafePropertyRead
  | SafeKeyedReadExpr _ _ _ => Some KSafeKeyedRead
  | SafeInvokeFunctionExpr _ _ => Some KSafeInvokeFunction
  | SafeTernaryExpr _ _ => Some KSafeTernaryExpr
  | EmptyExpr _ => Some KEmptyExpr
  | SanitizerExpr _ => Some KSanitizerExpr
  | SlotLiteralExpr _ => Some KSlotLiteralExpr
  | ConditionalCaseExpr _ _ _ _ => Some KConditionalCase
  | DerivedRepeaterVarExpr _ _ => Some KDerivedRepeaterVar
  | _ => None
  end.

(** [ir.isIrExpression(expr)]: [expr instanceof ExpressionBase]. *)
Definition isIrExpression (e : Expr) : bool :=
  match kindOf e with Some _ => true | None => false end.

(** No IR-specific kind anywhere in the expression, function bodies
    included. *)
Fixpoint irFree (e : Expr) : bool :=
  match e with
  | ReadVarExpr _ | LiteralExpr _ _ | ExternalExpr _ => true
  | ReadPropExpr r _ _ => irFree r
  | ReadKeyExpr r i _ => irFree r && irFree i
  | WritePropExpr r _ v _ => irFree r && irFree v
  | WriteKeyExpr r i v _ => irFree r && irFree i && irFree v
  | WriteVarExpr _ v => irFree v
  | InvokeFunctionExpr f args _ => irFree f && forallb irFree args
  | BinaryOperatorExpr _ l r _ => irFree l && irFree r
  | ConditionalExpr c t f _ => irFree c && irFree t && irFree f
  | LiteralArrayExpr es => forallb irFree es
  | LiteralMapExpr es _ => forallb (fun '(_, v, _) => irFree v) es
  | FunctionExpr _ body _ => forallb irFreeStmt body
  | _ => false
  end
with irFreeStmt (s : Stmt) : bool :=
  match s with
  | ExpressionStatement e _ => irFree e
  | ReturnStatement e _ => irFree e
  | DeclareVarStmt _ None => true
  | DeclareVarStmt _ (Some e) => irFree e
  end.

(** ** Traversal of expressions *)

Section TransformExpressions.
Context {S : Type}.
Variable transform : Expr → VisitorContextFlag → M S Expr.

(** Modelled from the spec: [ir.transformExpressionsInExpression], whose
    file (ir/src/expression.ts) is not under src/.  The phases use it to
    rewrite every expression of an op: the sub-expressions are transformed
    first, left to right, then the expression itself; an output expression
    it cannot look into ([o.FunctionExpr]) is a fatal error. *)
Fixpoint transformExpressionsInExpression (expr : Expr)
    (flags : VisitorContextFlag) : M S Expr :=
  let go := fun e => transformExpressionsInExpression e flags in
  let* expr' :=
    match expr with
    | ReadVarExpr _ | LiteralExpr _ _ | ExternalExpr _ => ret expr
    | ReadPropExpr r n sp =>
        let* r' := go r in ret (ReadPropExpr r' n sp)
    | ReadKeyExpr r i sp =>
        let* r' := go r in let* i' := go i in ret (ReadKeyExpr r' i' sp)
    | WritePropExpr r n v sp =>
        let* r' := go r in let* v' := go v in ret (WritePropExpr r' n v' sp)
    | WriteKeyExpr r i v sp =>
        let* r' := go r in let* i' := go i in let* v' := go v in
        ret (WriteKeyExpr r' i' v' sp)
    | WriteVarExpr n v =>
        let* v' := go v in ret (WriteVarExpr n v')
    | InvokeFunctionExpr f args sp =>
        let* f' := go f in let* args' := mapM go args in
        ret (InvokeFunctionExpr f' args' sp)
    | BinaryOperatorExpr op l r sp =>
        let* l' := go l in let* r' := go r in
        ret (BinaryOperatorExpr op l' r' sp)
    | ConditionalExpr c t f sp =>
        let* c' := go c in let* t' := go t in let* f' := go f in
        ret (ConditionalExpr c' t' f' sp)
    | LiteralArrayExpr es =>
        let* es' := mapM go es in ret (LiteralArrayExpr es')
    | LiteralMapExpr es sp =>
        let* es' := mapM (fun '(k, v, q) =>
                            let* v' := go v in ret (k, v', q)) es in
        ret (LiteralMapExpr es' sp)
    | FunctionExpr _ _ _ => throw "Unhandled expression kind: FunctionExpr"
    (* [expr.transformInternalExpressions(transform, flags)] *)
    | LexicalReadExpr _ | ContextExpr _ | NextContextExpr _
    | ReferenceExpr _ _ _ | GetCurrentViewExpr | ReadVariableExpr _ _
    | ReadTemporaryExpr _ _ | PureFunctionParameterExpr _ | EmptyExpr _
    | SanitizerExpr _ | SlotLiteralExpr _ | DerivedRepeaterVarExpr _ _ =>
        ret expr
    | RestoreViewExpr (inl _) => ret expr
    | RestoreViewExpr (inr v) =>
        let* v' := go v in ret (RestoreViewExpr (inr v'))
    | ResetViewExpr e =>
        let* e' := go e in ret (ResetViewExpr e')
    | AssignTemporaryExpr e x n =>
        let* e' := go e in ret (AssignTemporaryExpr e' x n)
    | PureFunctionExpr f off args =>
        let* f' := optM go f in let* args' := mapM go args in
        ret (PureFunctionExpr f' off args')
    | PipeBindingExpr t h n args off =>
        let* args' := mapM go args in ret (PipeBindingExpr t h n args' off)
    | PipeBindingVariadicExpr t h n args num off =>
        let* args' := go args in
        ret (PipeBindingVariadicExpr t h n args' num off)
    | SafePropertyReadExpr r n =>
        let* r' := go r in ret (SafePropertyReadExpr r' n)
    | SafeKeyedReadExpr r i sp =>
        let* r' := go r in let* i' := go i in ret (SafeKeyedReadExpr r' i' sp)
    | SafeInvokeFunctionExpr r args =>
        let* r' := go r in let* args' := mapM go args in
        ret (SafeInvokeFunctionExpr r' args')
    | SafeTernaryExpr g e =>
        let* g' := go g in let* e' := go e in ret (SafeTernaryExpr g' e')
    | ConditionalCaseExpr e t h a =>
        let* e' := optM go e in ret (ConditionalCaseExpr e' t h a)
    end in
  transform expr' flags.

(** Modelled from the spec: [ir.transformExpressionsInInterpolation] (same
    missing file): every expression of the interpolation. *)
Definition transformExpressionsInInterpolation (i : Interpolation)
    (flags : VisitorContextFlag) : M S Interpolation :=
  let* es := mapM (fun e => transformExpressionsInExpression e flags)
               (expressions i) in
  ret {| strings := strings i; expressions := es |}.

Definition transformExpressionOrInterpolation (e : ExprOrInterpolation)
    (flags : VisitorContextFlag) : M S ExprOrInterpolation :=
  match e with
  | PlainExpr e =>
      let* e' := transformExpressionsInExpression e flags in ret (PlainExpr e')
  | Interp i =>
      let* i' := transformExpressionsInInterpolation i flags in ret (Interp i')
  end.

(** Modelled from the spec: [ir.transformExpressionsInStatement] (same
    missing file): the expression a statement carries. *)
Definition transformExpressionsInStatement (stmt : Stmt)
      (flags : VisitorContextFlag) : M S Stmt :=
    match stmt with
    | ExpressionStatement e sp =>
        let* e' := transformExpressionsInExpression e flags in
        ret (ExpressionStatement e' sp)
    | ReturnStatement e sp =>
        let* e' := transformExpressionsInExpression e flags in
        ret (ReturnStatement e' sp)
    | DeclareVarStmt n v =>
        let* v' := optM (fun e => transformExpressionsInExpression e flags) v in
        ret (DeclareVarStmt n v')
    end.
End TransformExpressions.

(** ** Operations

One constructor per [ir.OpKind] the modelled code creates, reads or
rewrites.  The larger ops are records, each in a module of its name. *)

Record LocalRef := { ref_name : string; ref_target : string }.

(** [op.localRefs]: the array ingestion fills, later a constant index. *)
Inductive LocalRefs :=
  | LocalRefArray (refs : list LocalRef)
  | LocalRefConst (index : option nat).

Record SemanticVariable := { variable_name : option string }.

Record R3DeferBlockMetadata := { deps : list string }.

Record DeferTriggerTarget := {
  targetName : option string;
  targetXref : option XrefId;
  targetSlot : option SlotHandle;
  targetView : option XrefId;
  targetSlotViewSteps : option nat }.

Inductive DeferTriggerKind :=
  | Idle | Immediate | Timer | Hover | Interaction | Viewport.

Inductive DeferTrigger :=
  | IdleTrigger
  | ImmediateTrigger
  | TimerTrigger (delay : nat)
  | HoverTrigger (t : DeferTriggerTarget)
  | InteractionTrigger (t : DeferTriggerTarget)
  | ViewportTrigger (t : DeferTriggerTarget).

Definition triggerKind (t : DeferTrigger) : DeferTriggerKind :=
  match t with
  | IdleTrigger => Idle
  | ImmediateTrigger => Immediate
  | TimerTrigger _ => Timer
  | HoverTrigger _ => Hover
  | InteractionTrigger _ => Interaction
  | ViewportTrigger _ => Viewport
  end.

Record ConditionalCase := {
  cc_expr : option Expr;
  cc_target : XrefId;
  cc_targetSlot : SlotHandle;
  cc_alias : option TVariable }.

Record RepeaterVarNames := {
  v_index : string; v_count : string; v_first : string; v_last : string;
  v_even : string; v_odd : string; v_implicit : string }.

Module ElementOpBase.
Record t := {
  tag : option string;
  xref : XrefId;
  handle : SlotHandle;
  attributes : option nat;
  localRefs : LocalRefs;
  namespace : Namespace;
  i18nPlaceholder : option TagPlaceholder;
  sourceSpan : SourceSpan }.
End ElementOpBase.

Module TemplateOp.
Record t := {
  xref : XrefId;
  handle : SlotHandle;
  tag : option string;
  functionNameSuffix : string;
  attributes : option nat;
  localRefs : LocalRefs;
  namespace : Namespace;
  i18nPlaceholder : option TagPlaceholder;
  sourceSpan : SourceSpan }.
End TemplateOp.

Module I18nStartOp.
Record t := {
  xref : XrefId;
  handle : SlotHandle;
  root : XrefId;
  message : Message;
  context : option XrefId;
  messageIndex : option nat;
  subTemplateIndex : option nat }.
Definition set_context (c : option XrefId) (op : t) : t :=
  {| xref := xref op; handle := handle op; root := root op;
     message := message op; context := c;
     messageIndex := messageIndex op;
     subTemplateIndex := subTemplateIndex op |}.
End I18nStartOp.

Module IcuStartOp.
Record t := {
  xref : XrefId;
  message : Message;
  messagePlaceholder : string;
  context : option XrefId;
  sourceSpan : SourceSpan }.
Definition set_context (c : option XrefId) (op : t) : t :=
  {| xref := xref op; message := message op;
     messagePlaceholder := messagePlaceholder op; context := c;
     sourceSpan := sourceSpan op |}.
End IcuStartOp.

Module I18nContextOp.
Record t := {
  contextKind : I18nContextKind;
  xref : XrefId;
  i18nBlock : XrefId;
  message : Message;
  sourceSpan : SourceSpan }.
End I18nContextOp.

Module DeferOp.
Record t := {
  xref : XrefId;
  handle : SlotHandle;
  mainView : XrefId;
  mainSlot : SlotHandle;
  metadata : R3DeferBlockMetadata;
  loadingSlot : option SlotHandle;
  loadingConfig : option Expr;
  loadingMinimumTime : option nat;
  loadingAfterTime : option nat;
  placeholderView : option XrefId;
  placeholderSlot : option SlotHandle;
  placeholderConfig : option Expr;
  placeholderMinimumTime : option nat;
  errorSlot : option SlotHandle;
  resolverFn : option Expr;
  sourceSpan : SourceSpan }.
End DeferOp.

Module DeferOnOp.
Record t := {
  defer : XrefId;
  trigger : DeferTrigger;
  prefetch : bool;
  sourceSpan : SourceSpan }.
End DeferOnOp.

Module DeferWhenOp.
Record t := {
  target : XrefId;
  expr : Expr;
  prefetch : bool;
  sourceSpan : SourceSpan }.
End DeferWhenOp.

Module RepeaterCreateOp.
Record t := {
  xref : XrefId;
  handle : SlotHandle;
  emptyView : option XrefId;
  tag : option string;
  attributes : option nat;
  track : Expr;
  trackByFn : option Expr;
  varNames : RepeaterVarNames;
  usesComponentInstance : bool;
  decls : option nat;
  vars : option nat;
  sourceSpan : SourceSpan }.
End RepeaterCreateOp.

Module ProjectionOp.
Record t := {
  xref : XrefId;
  handle : SlotHandle;
  selector : string;
  projectionSlotIndex : nat;
  attributes : list string;
  sourceSpan : SourceSpan }.
End ProjectionOp.

Module BindingOp.
Record t := {
  target : XrefId;
  kind : BindingKind;
  name : string;
  expression : ExprOrInterpolation;
  unit : option string;
  securityContext : SecurityContext;
  isTextAttribute : bool;
  isStructuralTemplateAttribute : bool;
  sourceSpan : SourceSpan }.
End BindingOp.

(** [PropertyOp] and [AttributeOp]: the fields the phases read and write. *)
Module PropertyOp.
Record t := {
  target : XrefId;
  name : string;
  expression : ExprOrInterpolation;
  sanitizer : option Expr;
  securityContext : SecurityContext;
  sourceSpan : SourceSpan }.
Definition set_sanitizer (s : option Expr) (op : t) : t :=
  {| target := target op; name := name op; expression := expression op;
     sanitizer := s; securityContext := securityContext op;
     sourceSpan := sourceSpan op |}.
Definition set_expression (e : ExprOrInterpolation) (s : option Expr)
    (op : t) : t :=
  {| target := target op; name := name op; expression := e;
     sanitizer := s; securityContext := securityContext op;
     sourceSpan := sourceSpan op |}.
End PropertyOp.

Module ConditionalOp.
  (** [target] and [targetSlot] are [firstXref!] and [firstSlotHandle!] of
      the ingested block: [null] when the block has no branch. *)
Record t := {
    target : option XrefId;
    targetSlot : option SlotHandle;
    test : option Expr;
    conditions : list ConditionalCase;
    processed : option Expr;
    contextValue : option Expr;
    sourceSpan : SourceSpan }.
End ConditionalOp.

Inductive UpdateOp :=
  | StatementOpU (statement : Stmt)
  | VariableOpU (xref : XrefId) (variable : SemanticVariable)
      (initializer : Expr)
  | AdvanceOp (delta : nat) (sourceSpan : SourceSpan)
  | BindingOp (op : BindingOp.t)
  | PropertyOp (op : PropertyOp.t)
  | AttributeOp (op : PropertyOp.t)
  | StylePropOp (target : XrefId) (name : string)
      (expression : ExprOrInterpolation) (unit : option string)
      (sourceSpan : SourceSpan)
  | ClassPropOp (target : XrefId) (name : string) (expression : Expr)
      (sourceSpan : SourceSpan)
  | StyleMapOp (target : XrefId) (expression : ExprOrInterpolation)
      (sourceSpan : SourceSpan)
  | ClassMapOp (target : XrefId) (expression : ExprOrInterpolation)
      (sourceSpan : SourceSpan)
  | HostPropertyOp (name : string) (expression : ExprOrInterpolation)
      (isAnimationTrigger : bool) (sourceSpan : SourceSpan)
  | InterpolateTextOp (target : XrefId) (interpolation : Interpolation)
      (i18nPlaceholders : list string) (sourceSpan : SourceSpan)
  | I18nExpressionOp (target : XrefId) (expression : Expr)
      (sourceSpan : SourceSpan)
  | I18nApplyOp (target : XrefId) (handle : SlotHandle)
      (sourceSpan : SourceSpan)
  | ConditionalOp (op : ConditionalOp.t)
  | RepeaterOp (target : XrefId) (targetSlot : SlotHandle) (collection : Expr)
      (sourceSpan : SourceSpan)
  | DeferWhenOp (op : DeferWhenOp.t).

Module ListenerOp.
Record t := {
  target : XrefId;
  targetSlot : SlotHandle;
  tag : option string;
  hostListener : bool;
  name : string;
  handlerOps : list UpdateOp;
  handlerFnName : option string;
  consumesDollarEvent : bool;
  isAnimationListener : bool;
  animationPhase : option string;
  sourceSpan : SourceSpan }.
Definition set_handler (ops : list UpdateOp) (consumes : bool) (op : t) : t :=
  {| target := target op; targetSlot := targetSlot op; tag := tag op;
     hostListener := hostListener op; name := name op; handlerOps := ops;
     handlerFnName := handlerFnName op; consumesDollarEvent := consumes;
     isAnimationListener := isAnimationListener op;
     animationPhase := animationPhase op; sourceSpan := sourceSpan op |}.
End ListenerOp.

Inductive CreateOp :=
  | StatementOpC (statement : Stmt)
  | VariableOpC (xref : XrefId) (variable : SemanticVariable)
      (initializer : Expr)
  | ElementStartOp (op : ElementOpBase.t)
  | ElementOp (op : ElementOpBase.t)
  | ElementEndOp (xref : XrefId) (sourceSpan : SourceSpan)
  | ContainerStartOp (op : ElementOpBase.t)
  | ContainerOp (op : ElementOpBase.t)
  | ContainerEndOp (xref : XrefId) (sourceSpan : SourceSpan)
  | TemplateOp (op : TemplateOp.t)
  | DisableBindingsOp (xref : XrefId)
  | EnableBindingsOp (xref : XrefId)
  | TextOp (xref : XrefId) (handle : SlotHandle) (initialValue : string)
      (sourceSpan : SourceSpan)
  | ListenerOp (op : ListenerOp.t)
  | PipeOp (xref : XrefId) (handle : SlotHandle) (name : string)
  | NamespaceOp (active : Namespace)
  | ProjectionDefOp (def : option Expr)
  | ProjectionOp (op : ProjectionOp.t)
  | ExtractedAttributeOp (target : XrefId) (bindingKind : BindingKind)
      (name : string) (expression : option Expr)
  | DeferOp (op : DeferOp.t)
  | DeferOnOp (op : DeferOnOp.t)
  | RepeaterCreateOp (op : RepeaterCreateOp.t)
  | I18nStartOp (op : I18nStartOp.t)
  | I18nOp (op : I18nStartOp.t)
  | I18nEndOp (xref : XrefId)
  | IcuStartOp (op : IcuStartOp.t)
  | IcuEndOp (xref : XrefId)
  | I18nContextOp (op : I18nContextOp.t).

(** [ir.OpKind[op.kind]]. *)
Definition updateKindName (op : UpdateOp) : string :=
  match op with
  | StatementOpU _ => "Statement" | VariableOpU _ _ _ => "Variable"
  | AdvanceOp _ _ => "Advance" | BindingOp _ => "Binding"
  | PropertyOp _ => "Property" | AttributeOp _ => "Attribute"
  | StylePropOp _ _ _ _ _ => "StyleProp" | ClassPropOp _ _ _ _ => "ClassProp"
  | StyleMapOp _ _ _ => "StyleMap" | ClassMapOp _ _ _ => "ClassMap"
  | HostPropertyOp _ _ _ _ => "HostProperty"
  | InterpolateTextOp _ _ _ _ => "InterpolateText"
  | I18nExpressionOp _ _ _ => "I18nExpression"
  | I18nApplyOp _ _ _ => "I18nApply" | ConditionalOp _ => "Conditional"
  | RepeaterOp _ _ _ _ => "Repeater" | DeferWhenOp _ => "DeferWhen"
  end.

Definition createKindName (op : CreateOp) : string :=
  match op with
  | StatementOpC _ => "Statement" | VariableOpC _ _ _ => "Variable"
  | ElementStartOp _ => "ElementStart" | ElementOp _ => "Element"
  | ElementEndOp _ _ => "ElementEnd" | ContainerStartOp _ => "ContainerStart"
  | ContainerOp _ => "Container" | ContainerEndOp _ _ => "ContainerEnd"
  | TemplateOp _ => "Template" | DisableBindingsOp _ => "DisableBindings"
  | EnableBindingsOp _ => "EnableBindings" | TextOp _ _ _ _ => "Text"
  | ListenerOp _ => "Listener" | PipeOp _ _ _ => "Pipe"
  | NamespaceOp _ => "Namespace" | ProjectionDefOp _ => "ProjectionDef"
  | ProjectionOp _ => "Projection"
  | ExtractedAttributeOp _ _ _ _ => "ExtractedAttribute"
  | DeferOp _ => "Defer" | DeferOnOp _ => "DeferOn"
  | RepeaterCreateOp _ => "RepeaterCreate" | I18nStartOp _ => "I18nStart"
  | I18nOp _ => "I18n" | I18nEndOp _ => "I18nEnd"
  | IcuStartOp _ => "IcuStart" | IcuEndOp _ => "IcuEnd"
  | I18nContextOp _ => "I18nContext"
  end.

Definition isStatementU (op : UpdateOp) : bool :=
  match op with StatementOpU _ => true | _ => false end.
Definition isStatementC (op : CreateOp) : bool :=
  match op with StatementOpC _ => true | _ => false end.
Definition isListener (op : CreateOp) : bool :=
  match op with ListenerOp _ => true | _ => false end.

Section TransformOps.
Context {S : Type}.
Variable transform : Expr → VisitorContextFlag → M S Expr.

Let onExpr (flags : VisitorContextFlag) (e : Expr) : M S Expr :=
  transformExpressionsInExpression transform e flags.

Definition transformConditionalCase (flags : VisitorContextFlag)
    (c : ConditionalCase) : M S ConditionalCase :=
  let* e' := optM (onExpr flags) (cc_expr c) in
  ret {| cc_expr := e'; cc_target := cc_target c;
         cc_targetSlot := cc_targetSlot c; cc_alias := cc_alias c |}.

(** Modelled from the spec: [ir.transformExpressionsInOp] on update ops
    (ir/src/expression.ts is not under src/): the transform reaches every
    expression the op holds. *)
Definition transformExpressionsInUpdateOp (op : UpdateOp)
    (flags : VisitorContextFlag) : M S UpdateOp :=
  match op with
  | StatementOpU st =>
      let* st' := transformExpressionsInStatement transform st flags in
      ret (StatementOpU st')
  | VariableOpU x v init =>
      let* init' := onExpr flags init in ret (VariableOpU x v init')
  | AdvanceOp _ _ | I18nApplyOp _ _ _ => ret op
  | BindingOp b =>
      let* e' := transformExpressionOrInterpolation transform
                   (BindingOp.expression b) flags in
      ret (BindingOp
             {| BindingOp.target := BindingOp.target b;
                BindingOp.kind := BindingOp.kind b;
                BindingOp.name := BindingOp.name b;
                BindingOp.expression := e';
                BindingOp.unit := BindingOp.unit b;
                BindingOp.securityContext := BindingOp.securityContext b;
                BindingOp.isTextAttribute := BindingOp.isTextAttribute b;
                BindingOp.isStructuralTemplateAttribute :=
                  BindingOp.isStructuralTemplateAttribute b;
                BindingOp.sourceSpan := BindingOp.sourceSpan b |})
  | PropertyOp p =>
      let* e' := transformExpressionOrInterpolation transform
                   (PropertyOp.expression p) flags in
      let* s' := optM (onExpr flags) (PropertyOp.sanitizer p) in
      ret (PropertyOp (PropertyOp.set_expression e' s' p))
  | AttributeOp p =>
      let* e' := transformExpressionOrInterpolation transform
                   (PropertyOp.expression p) flags in
      let* s' := optM (onExpr flags) (PropertyOp.sanitizer p) in
      ret (AttributeOp (PropertyOp.set_expression e' s' p))
  | StylePropOp t n e u sp =>
      let* e' := transformExpressionOrInterpolation transform e flags in
      ret (StylePropOp t n e' u sp)
  | ClassPropOp t n e sp =>
      let* e' := onExpr flags e in ret (ClassPropOp t n e' sp)
  | StyleMapOp t e sp =>
      let* e' := transformExpressionOrInterpolation transform e flags in
      ret (StyleMapOp t e' sp)
  | ClassMapOp t e sp =>
      let* e' := transformExpressionOrInterpolation transform e flags in
      ret (ClassMapOp t e' sp)
  | HostPropertyOp n e a sp =>
      let* e' := transformExpressionOrInterpolation transform e flags in
      ret (HostPropertyOp n e' a sp)
  | InterpolateTextOp t i ph sp =>
      let* i' := transformExpressionsInInterpolation transform i flags in
      ret (InterpolateTextOp t i' ph sp)
  | I18nExpressionOp t e sp =>
      let* e' := onExpr flags e in ret (I18nExpressionOp t e' sp)
  | ConditionalOp c =>
      let* test' := optM (onExpr flags) (ConditionalOp.test c) in
      let* conds' := mapM (transformConditionalCase flags)
                       (ConditionalOp.conditions c) in
      let* processed' := optM (onExpr flags) (ConditionalOp.processed c) in
      let* ctx' := optM (onExpr flags) (ConditionalOp.contextValue c) in
      ret (ConditionalOp
             {| ConditionalOp.target := ConditionalOp.target c;
                ConditionalOp.targetSlot := ConditionalOp.targetSlot c;
                ConditionalOp.test := test';
                ConditionalOp.conditions := conds';
                ConditionalOp.processed := processed';
                ConditionalOp.contextValue := ctx';
                ConditionalOp.sourceSpan := ConditionalOp.sourceSpan c |})
  | RepeaterOp t h c sp =>
      let* c' := onExpr flags c in ret (RepeaterOp t h c' sp)
  | DeferWhenOp d =>
      let* e' := onExpr flags (DeferWhenOp.expr d) in
      ret (DeferWhenOp
             {| DeferWhenOp.target := DeferWhenOp.target d;
                DeferWhenOp.expr := e';
                DeferWhenOp.prefetch := DeferWhenOp.prefetch d;
                DeferWhenOp.sourceSpan := DeferWhenOp.sourceSpan d |})
  end.

(** Modelled from the spec: [ir.transformExpressionsInOp] on create ops
    (same missing file).  A listener's expressions are those of its handler
    ops, visited with the [InChildOperation] flag added. *)
Definition transformExpressionsInCreateOp (op : CreateOp)
      (flags : VisitorContextFlag) : M S CreateOp :=
    match op with
    | StatementOpC st =>
        let* st' := transformExpressionsInStatement transform st flags in
        ret (StatementOpC st')
    | VariableOpC x v init =>
        let* init' := onExpr flags init in ret (VariableOpC x v init')
    | ListenerOp l =>
        let* ops' := mapM (fun innerOp =>
                             transformExpressionsInUpdateOp innerOp
                               (N.lor flags InChildOperation))
                       (ListenerOp.handlerOps l) in
        ret (ListenerOp
               (ListenerOp.set_handler ops' (ListenerOp.consumesDollarEvent l) l))
    | ExtractedAttributeOp t k n e =>
        let* e' := optM (onExpr flags) e in ret (ExtractedAttributeOp t k n e')
    | ProjectionDefOp d =>
        let* d' := optM (onExpr flags) d in ret (ProjectionDefOp d')
    | RepeaterCreateOp r =>
        let* track' := onExpr flags (RepeaterCreateOp.track r) in
        let* fn' := optM (onExpr flags) (RepeaterCreateOp.trackByFn r) in
        ret (RepeaterCreateOp
               {| RepeaterCreateOp.xref := RepeaterCreateOp.xref r;
                  RepeaterCreateOp.handle := RepeaterCreateOp.handle r;
                  RepeaterCreateOp.emptyView := RepeaterCreateOp.emptyView r;
                  RepeaterCreateOp.tag := RepeaterCreateOp.tag r;
                  RepeaterCreateOp.attributes := RepeaterCreateOp.attributes r;
                  RepeaterCreateOp.track := track';
                  RepeaterCreateOp.trackByFn := fn';
                  RepeaterCreateOp.varNames := RepeaterCreateOp.varNames r;
                  RepeaterCreateOp.usesComponentInstance :=
                    RepeaterCreateOp.usesComponentInstance r;
                  RepeaterCreateOp.decls := RepeaterCreateOp.decls r;
                  RepeaterCreateOp.vars := RepeaterCreateOp.vars r;
                  RepeaterCreateOp.sourceSpan := RepeaterCreateOp.sourceSpan r |})
    | DeferOp d =>
        let* lc := optM (onExpr flags) (DeferOp.loadingConfig d) in
        let* pc := optM (onExpr flags) (DeferOp.placeholderConfig d) in
        let* rf := optM (onExpr flags) (DeferOp.resolverFn d) in
        ret (DeferOp
               {| DeferOp.xref := DeferOp.xref d;
                  DeferOp.handle := DeferOp.handle d;
                  DeferOp.mainView := DeferOp.mainView d;
                  DeferOp.mainSlot := DeferOp.mainSlot d;
                  DeferOp.metadata := DeferOp.metadata d;
                  DeferOp.loadingSlot := DeferOp.loadingSlot d;
                  DeferOp.loadingConfig := lc;
                  DeferOp.loadingMinimumTime := DeferOp.loadingMinimumTime d;
                  DeferOp.loadingAfterTime := DeferOp.loadingAfterTime d;
                  DeferOp.placeholderView := DeferOp.placeholderView d;
                  DeferOp.placeholderSlot := DeferOp.placeholderSlot d;
                  DeferOp.placeholderConfig := pc;
                  DeferOp.placeholderMinimumTime :=
                    DeferOp.placeholderMinimumTime d;
                  DeferOp.errorSlot := DeferOp.errorSlot d;
                  DeferOp.resolverFn := rf;
                  DeferOp.sourceSpan := DeferOp.sourceSpan d |})
    | _ => ret op
    end.
End TransformOps.

(** ** Compilation units and jobs *)

Record AliasVariable := {
  alias_identifier : string;
  alias_expression : Expr }.

Module Unit.
Record t := {
  xref : XrefId;
  parent : option XrefId;
  create : list CreateOp;
  update : list UpdateOp;
  contextVariables : gmap string string;
  aliases : list AliasVariable;
  fnName : option string;
  decls : option nat;
  vars : option nat }.

Definition set_create (c : list CreateOp) (u : t) : t :=
  {| xref := xref u; parent := parent u; create := c; update := update u;
     contextVariables := contextVariables u; aliases := aliases u;
     fnName := fnName u; decls := decls u; vars := vars u |}.
Definition set_update (c : list UpdateOp) (u : t) : t :=
  {| xref := xref u; parent := parent u; create := create u; update := c;
     contextVariables := contextVariables u; aliases := aliases u;
     fnName := fnName u; decls := decls u; vars := vars u |}.
Definition set_contextVariables (m : gmap string string) (u : t) : t :=
  {| xref := xref u; parent := parent u; create := create u;
     update := update u; contextVariables := m; aliases := aliases u;
     fnName := fnName u; decls := decls u; vars := vars u |}.
Definition set_aliases (a : list AliasVariable) (u : t) : t :=
  {| xref := xref u; parent := parent u; create := create u;
     update := update u; contextVariables := contextVariables u;
     aliases := a; fnName := fnName u; decls := decls u; vars := vars u |}.

Definition empty (x : XrefId) (p : option XrefId) : t :=
  {| xref := x; parent := p; create := []; update := [];
     contextVariables := ∅; aliases := []; fnName := None; decls := None;
     vars := None |}.
End Unit.

(** [ComponentCompilationJob] or [HostBindingCompilationJob]. *)
Inductive JobKind := Tmpl | Host.

Module Job.
  (** [units] is [job.units]: the views in the order they were allocated (a
      host-binding job has its single root unit).  [deferBlocksMeta] is keyed
      by the identity of the deferred-block node. *)
Record t := {
    kind : JobKind;
    componentName : string;
    root : XrefId;
    units : list Unit.t;
    nextXrefId : XrefId;
    compatibility : bool;
    deferBlocksMeta : gmap nat R3DeferBlockMetadata }.

Definition set_units (us : list Unit.t) (j : t) : t :=
  {| kind := kind j; componentName := componentName j; root := root j;
     units := us; nextXrefId := nextXrefId j;
     compatibility := compatibility j;
     deferBlocksMeta := deferBlocksMeta j |}.
Definition set_nextXrefId (n : XrefId) (j : t) : t :=
  {| kind := kind j; componentName := componentName j; root := root j;
     units := units j; nextXrefId := n; compatibility := compatibility j;
     deferBlocksMeta := deferBlocksMeta j |}.

(** [job.views.get(xref)]. *)
Definition view (x : XrefId) (j : t) : option Unit.t :=
  List.find (fun u => Nat.eqb (Unit.xref u) x) (units j).

Definition updateUnit (x : XrefId) (f : Unit.t → Unit.t) (j : t) : t :=
  set_units
    (map (fun u => if Nat.eqb (Unit.xref u) x then f u else u) (units j)) j.
End Job.

(** ** Phase: [$event] resolution (phases/resolve_dollar_event.ts) *)

Module ResolveDollarEvent.

(** The closure handed to [transformExpressionsInOp].  Its one side effect,
    [op.consumesDollarEvent = true], is the state of the traversal. *)
Definition dollarEventTransform (expr : Expr) (_ : VisitorContextFlag)
  : M bool Expr :=
  match expr with
  | LexicalReadExpr name =>
      if String.eqb name "$event"
      then let* _ := put true in ret (ReadVarExpr (Some name))
      else ret expr
  | _ => ret expr
  end.

Definition setConsumesDollarEvent (b : bool) (op : CreateOp) : CreateOp :=
  match op with
  | ListenerOp l =>
      ListenerOp (ListenerOp.set_handler (ListenerOp.handlerOps l) b l)
  | _ => op
  end.

(** The body of the loop of [transformDollarEvent], on a create op. *)
Definition transformDollarEventOp (op : CreateOp) : Result CreateOp :=
  match op with
  | ListenerOp l =>
      let? (op', consumes) :=
        transformExpressionsInCreateOp dollarEventTransform op
          InChildOperation (ListenerOp.consumesDollarEvent l) in
      Ok (setConsumesDollarEvent consumes op')
  | _ => Ok op
  end.

Definition transformDollarEvent (ops : list CreateOp)
  : Result (list CreateOp) :=
  rmap transformDollarEventOp ops.

(** [transformDollarEvent(unit, unit.update)]: no update op has kind
    [Listener], so the loop body does nothing. *)
Definition transformDollarEventU (ops : list UpdateOp)
  : Result (list UpdateOp) :=
  rmap (fun op => Ok op) ops.

Definition resolveUnit (unit : Unit.t) : Result Unit.t :=
  let? c := transformDollarEvent (Unit.create unit) in
  let? u := transformDollarEventU (Unit.update unit) in
  Ok (Unit.set_update u (Unit.set_create c unit)).

Definition resolveDollarEvent (job : Job.t) : Result Job.t :=
  let? us := rmap resolveUnit (Job.units job) in
  Ok (Job.set_units us job).

End ResolveDollarEvent.

(** ** Phase: sanitizer resolution (phases/resolve_sanitizers.ts) *)

(** [String.prototype.toLowerCase], on ASCII letters. *)
Definition lowerAscii (c : Ascii.ascii) : Ascii.ascii :=
  let n := Ascii.nat_of_ascii c in
  if (65 <=? n)%nat && (n <=? 90)%nat then Ascii.ascii_of_nat (n + 32) else c.

Fixpoint toLowerCase (s : string) : string :=
  match s with
  | EmptyString => EmptyString
  | String c s' => String (lowerAscii c) (toLowerCase s')
  end.

Module ResolveSanitizers.
Section WithCollaborators.

(** Whether the runtime value of an [ir.SanitizerFn] member is truthy.  The
    declaration of the enumeration is not under src/, and the phase tests
    the looked-up member with [||] and [?:]. *)
Variable truthy : SanitizerFn → bool.

(** [isIframeSecuritySensitiveAttr] (schema/dom_security_schema.ts, not
    under src/). *)
Variable isIframeSecuritySensitiveAttr : string → bool.

(** The table [sanitizers]. *)
Definition sanitizers (c : SecurityContext) : option SanitizerFn :=
  match c with
  | HTML => Some Html
  | SCRIPT => Some Script
  | STYLE => Some Style
  | URL => Some Url
  | RESOURCE_URL => Some ResourceUrl
  | NONE => None
  end.

(** The xref under which an op that owns a slot is registered. *)
Definition consumesSlot (op : CreateOp) : option XrefId :=
  match op with
  | ElementStartOp e | ElementOp e | ContainerStartOp e | ContainerOp e =>
      Some (ElementOpBase.xref e)
  | TemplateOp t => Some (TemplateOp.xref t)
  | TextOp x _ _ _ | PipeOp x _ _ => Some x
  | ProjectionOp p => Some (ProjectionOp.xref p)
  | DeferOp d => Some (DeferOp.xref d)
  | RepeaterCreateOp r => Some (RepeaterCreateOp.xref r)
  | I18nStartOp i | I18nOp i => Some (I18nStartOp.xref i)
  | _ => None
  end.

(** Modelled from the spec: [createOpXrefMap] (util/elements.ts, not under
    src/), the lookup that resolves an op's declared target id to its owner
    op: the slot-owning create ops of the unit by xref. *)
Definition createOpXrefMap (unit : Unit.t) : gmap XrefId CreateOp :=
  foldl (fun m op =>
           match consumesSlot op with
           | Some x => <[x := op]> m
           | None => m
           end) ∅ (Unit.create unit).

(** Modelled from the spec: [ir.isElementOrContainerOp] (not under src/),
    the element-like owner ops. *)
Definition isElementOrContainerOp (op : CreateOp) : bool :=
  match op with
  | ElementStartOp _ | ElementOp _ | ContainerStartOp _ | ContainerOp _
  | TemplateOp _ | RepeaterCreateOp _ => true
  | _ => false
  end.

Definition isIframeElement (op : CreateOp) : bool :=
  match op with
  | ElementStartOp e =>
      match ElementOpBase.tag e with
      | Some tag => String.eqb (toLowerCase tag) "iframe"
      | None => false
      end
  | _ => false
  end.

(** The [Property]/[Attribute] case of the loop body. *)
Definition resolveSanitizerOf (elements : gmap XrefId CreateOp)
    (op : PropertyOp.t) : Result PropertyOp.t :=
  (* sanitizerFn = sanitizers.get(op.securityContext) || null *)
  let sanitizerFn :=
    match sanitizers (PropertyOp.securityContext op) with
    | Some f => if truthy f then Some f else None
    | None => None
    end in
  (* op.sanitizer = sanitizerFn ? new ir.SanitizerExpr(sanitizerFn) : null *)
  let sanitizer :=
    match sanitizerFn with
    | Some f => if truthy f then Some (SanitizerExpr f) else None
    | None => None
    end in
  match sanitizer with
  | Some _ => Ok (PropertyOp.set_sanitizer sanitizer op)
  | None =>
      match elements !! PropertyOp.target op with
      | None => Throw "Property should have an element-like owner"
      | Some ownerOp =>
          if negb (isElementOrContainerOp ownerOp)
          then Throw "Property should have an element-like owner"
          else if isIframeElement ownerOp
                  && isIframeSecuritySensitiveAttr (PropertyOp.name op)
          then Ok (PropertyOp.set_sanitizer
                     (Some (SanitizerExpr IframeAttribute)) op)
          else Ok (PropertyOp.set_sanitizer None op)
      end
  end.

Definition resolveOp (elements : gmap XrefId CreateOp) (op : UpdateOp)
  : Result UpdateOp :=
  match op with
  | PropertyOp p =>
      let? p' := resolveSanitizerOf elements p in Ok (PropertyOp p')
  | AttributeOp p =>
      let? p' := resolveSanitizerOf elements p in Ok (AttributeOp p')
  | _ => Ok op
  end.

Definition resolveUnit (unit : Unit.t) : Result Unit.t :=
  let elements := createOpXrefMap unit in
  let? ops := rmap (resolveOp elements) (Unit.update unit) in
  Ok (Unit.set_update ops unit).

Definition resolveSanitizers (job : Job.t) : Result Job.t :=
  let? us := rmap resolveUnit (Job.units job) in
  Ok (Job.set_units us job).

End WithCollaborators.
End ResolveSanitizers.

(** ** Phase: i18n contexts (phases/create_i18n_contexts.ts) *)

Module CreateI18nContexts.

(** The variables of [createI18nContexts] that live across the first pass,
    with the job's id counter and the ops pushed onto the unit being
    walked.  [currentI18nOp] is a reference to the op in the list: the
    record kept here is the op as the pass has left it. *)
Record State := {
  currentI18nOp : option I18nStartOp.t;
  rootContexts : gmap XrefId XrefId;
  nextXrefId : XrefId;
  pushed : list CreateOp }.

Definition allocateXrefId : M State XrefId :=
  fun s => Ok (nextXrefId s,
               {| currentI18nOp := currentI18nOp s;
                  rootContexts := rootContexts s;
                  nextXrefId := S (nextXrefId s);
                  pushed := pushed s |}).

Definition push (op : CreateOp) : M State unit :=
  modify (fun s => {| currentI18nOp := currentI18nOp s;
                      rootContexts := rootContexts s;
                      nextXrefId := nextXrefId s;
                      pushed := pushed s ++ [op] |}).

Definition setCurrent (o : option I18nStartOp.t) : M State unit :=
  modify (fun s => {| currentI18nOp := o;
                      rootContexts := rootContexts s;
                      nextXrefId := nextXrefId s;
                      pushed := pushed s |}).

Definition setRootContext (block ctx : XrefId) : M State unit :=
  modify (fun s => {| currentI18nOp := currentI18nOp s;
                      rootContexts := <[block := ctx]> (rootContexts s);
                      nextXrefId := nextXrefId s;
                      pushed := pushed s |}).

(** The [switch] of the first pass. *)
Definition firstPassOp (op : CreateOp) : M State CreateOp :=
  match op with
  | I18nStartOp o =>
      if Nat.eqb (I18nStartOp.xref o) (I18nStartOp.root o) then
        let* xref := allocateXrefId in
        let* _ := push (I18nContextOp
                          {| I18nContextOp.contextKind := RootI18n;
                             I18nContextOp.xref := xref;
                             I18nContextOp.i18nBlock := I18nStartOp.xref o;
                             I18nContextOp.message := I18nStartOp.message o;
                             I18nContextOp.sourceSpan := None |}) in
        let o' := I18nStartOp.set_context (Some xref) o in
        let* _ := setRootContext (I18nStartOp.xref o) xref in
        let* _ := setCurrent (Some o') in
        ret (I18nStartOp o')
      else
        let* _ := setCurrent (Some o) in
        ret op
  | I18nEndOp _ =>
      let* _ := setCurrent None in
      ret op
  | IcuStartOp i =>
      let* s := get in
      match currentI18nOp s with
      | None => throw "Unexpected ICU outside of an i18n block."
      | Some cur =>
          if negb (String.eqb (id (IcuStartOp.message i))
                     (id (I18nStartOp.message cur))) then
            let* xref := allocateXrefId in
            let* _ := push (I18nContextOp
                              {| I18nContextOp.contextKind := Icu;
                                 I18nContextOp.xref := xref;
                                 I18nContextOp.i18nBlock :=
                                   I18nStartOp.xref cur;
                                 I18nContextOp.message :=
                                   IcuStartOp.message i;
                                 I18nContextOp.sourceSpan := None |}) in
            ret (IcuStartOp (IcuStartOp.set_context (Some xref) i))
          else
            ret (IcuStartOp
                   (IcuStartOp.set_context (I18nStartOp.context cur) i))
      end
  | _ => ret op
  end.

(** One unit of the first pass.  The context ops are pushed at the end of
    the list being walked; the walk reaches them last and they match no
    case. *)
Definition firstPassUnit (unit : Unit.t) : M State Unit.t :=
  let* _ := modify (fun s => {| currentI18nOp := currentI18nOp s;
                                rootContexts := rootContexts s;
                                nextXrefId := nextXrefId s;
                                pushed := [] |}) in
  let* ops := mapM firstPassOp (Unit.create unit) in
  let* s := get in
  ret (Unit.set_create (ops ++ pushed s) unit).

(** The second pass: [op.context = rootContexts.get(op.root)!]. *)
Definition secondPassOp (roots : gmap XrefId XrefId) (op : CreateOp)
  : CreateOp :=
  match op with
  | I18nStartOp o =>
      if negb (Nat.eqb (I18nStartOp.xref o) (I18nStartOp.root o))
      then I18nStartOp
             (I18nStartOp.set_context (roots !! I18nStartOp.root o) o)
      else op
  | _ => op
  end.

Definition secondPassUnit (roots : gmap XrefId XrefId) (unit : Unit.t)
  : Unit.t :=
  Unit.set_create (map (secondPassOp roots) (Unit.create unit)) unit.

Definition createI18nContexts (job : Job.t) : Result Job.t :=
  let? (us, s) :=
    mapM firstPassUnit (Job.units job)
      {| currentI18nOp := None; rootContexts := ∅;
         nextXrefId := Job.nextXrefId job; pushed := [] |} in
  Ok (Job.set_nextXrefId (nextXrefId s)
        (Job.set_units (map (secondPassUnit (rootContexts s)) us) job)).

End CreateI18nContexts.

(** ** Reification (phases/reify.ts) *)

Module Reify.

(** [o.literal(value)] for the values the instruction builders receive. *)
Definition literal (v : LiteralValue) : Expr := LiteralExpr v None.
Definition litNat (n : nat) : Expr := literal (LitNum (Z.of_nat n)).
Definition litOptNat (n : option nat) : Expr :=
    match n with Some n => litNat n | None => literal LitNull end.
Definition litStr (s : string) : Expr := literal (LitStr s).
Definition litOptStr (s : option string) : Expr :=
    match s with Some s => litStr s | None => literal LitNull end.
Definition litBool (b : bool) : Expr := literal (LitBool b).
Definition orNull (e : option Expr) : Expr :=
    match e with Some e => e | None => literal LitNull end.
Definition litLocalRefs (r : LocalRefs) : Expr :=
    match r with
    | LocalRefConst i => litOptNat i
    | LocalRefArray refs =>
        LiteralArrayExpr
          (flat_map (fun r => [litStr (ref_name r); litStr (ref_target r)])
             refs)
    end.

(** Modelled from the spec: the instruction builders [ng.*] of
    instruction.ts (not under src/).  Each yields a statement wrapping one
    call of the named runtime instruction; the arguments are those handed
    to the builder, in order, plain values as literals. *)
Definition ng (instruction : string) (args : list Expr)
    (sourceSpan : SourceSpan) : Stmt :=
  ExpressionStatement
    (InvokeFunctionExpr (ExternalExpr instruction) args sourceSpan)
    sourceSpan.

(** Modelled from the spec: the expression builders of instruction.ts
    ([ng.nextContext], [ng.reference], [ng.pipeBind], ...): a call of the
    named instruction. *)
Definition ngExpr (instruction : string) (args : list Expr) : Expr :=
  InvokeFunctionExpr (ExternalExpr instruction) args None.

(** The strings and expressions of an interpolation, interleaved. *)
Fixpoint interpolationArgs (strs : list string) (exprs : list Expr)
  : list Expr :=
  match strs, exprs with
  | s :: strs', e :: exprs' => litStr s :: e :: interpolationArgs strs' exprs'
  | strs, [] => map litStr strs
  | [], exprs => exprs
  end.

(** [sanitizerIdentifierMap]. *)
Definition sanitizerIdentifierMap (f : SanitizerFn) : string :=
  match f with
  | Html => "sanitizeHtml"
  | IframeAttribute => "validateIframeAttribute"
  | ResourceUrl => "sanitizeResourceUrl"
  | Script => "sanitizeScript"
  | Style => "sanitizeStyle"
  | Url => "sanitizeUrl"
  end.

Definition unsupportedExpression (k : ExpressionKind) : string :=
  "AssertionError: Unsupported reification of ir.Expression kind: "
  ++ ExpressionKind_name k.

Definition reifyIrExpression (expr : Expr) : Result Expr :=
  match kindOf expr with
  | None => Ok expr
  | Some k =>
      match expr with
      | NextContextExpr steps => Ok (ngExpr "nextContext" [litNat steps])
      | ReferenceExpr _ targetSlot offset =>
          (* [null + 1 + offset] is [1 + offset] *)
          Ok (ngExpr "reference"
                [litNat (default 0 (slot targetSlot) + 1 + offset)])
      | LexicalReadExpr name =>
          Throw ("AssertionError: unresolved LexicalRead of " ++ name)
      | RestoreViewExpr (inl _) =>
          Throw "AssertionError: unresolved RestoreView"
      | RestoreViewExpr (inr view) => Ok (ngExpr "restoreView" [view])
      | ResetViewExpr e => Ok (ngExpr "resetView" [e])
      | GetCurrentViewExpr => Ok (ngExpr "getCurrentView" [])
      | ReadVariableExpr xref None =>
          Throw ("Read of unnamed variable " ++ pretty xref)
      | ReadVariableExpr _ (Some name) => Ok (ReadVarExpr (Some name))
      | ReadTemporaryExpr xref None =>
          Throw ("Read of unnamed temporary " ++ pretty xref)
      | ReadTemporaryExpr _ (Some name) => Ok (ReadVarExpr (Some name))
      | AssignTemporaryExpr _ xref None =>
          Throw ("Assign of unnamed temporary " ++ pretty xref)
      | AssignTemporaryExpr e _ (Some name) => Ok (WriteVarExpr name e)
      | PureFunctionExpr None _ _ =>
          Throw "AssertionError: expected PureFunctions to have been extracted"
      | PureFunctionExpr (Some fn) varOffset args =>
          Ok (ngExpr "pureFunction" (litOptNat varOffset :: fn :: args))
      | PureFunctionParameterExpr _ =>
          Throw "AssertionError: expected PureFunctionParameterExpr to have been extracted"
      | PipeBindingExpr _ targetSlot _ args varOffset =>
          Ok (ngExpr "pipeBind"
                (litOptNat (slot targetSlot) :: litOptNat varOffset :: args))
      | PipeBindingVariadicExpr _ targetSlot _ args _ varOffset =>
          Ok (ngExpr "pipeBindV"
                [litOptNat (slot targetSlot); litOptNat varOffset; args])
      | SanitizerExpr fn => Ok (ExternalExpr (sanitizerIdentifierMap fn))
      | SlotLiteralExpr h => Ok (litOptNat (slot h))
      | _ => Throw (unsupportedExpression k)
      end
  end.

Definition reifyTransform (e : Expr) (_ : VisitorContextFlag) : M unit Expr :=
  lift (reifyIrExpression e).

Definition run {A} (c : M unit A) : Result A :=
  let? (a, _) := c tt in Ok a.

Definition unsupportedUpdate (op : UpdateOp) : string :=
  "AssertionError: Unsupported reification of update op "
  ++ updateKindName op.

(** One turn of the loop of [reifyUpdateOperations]; the result is what
    [OpList.replace] leaves in the op's place. *)
Definition reifyUpdateOp (op : UpdateOp) : Result UpdateOp :=
  let? op := run (transformExpressionsInUpdateOp reifyTransform op FlagNone) in
  match op with
  | AdvanceOp delta sp => Ok (StatementOpU (ng "advance" [litNat delta] sp))
  | PropertyOp p =>
      match PropertyOp.expression p with
      | Interp i =>
          Ok (StatementOpU
                (ng "propertyInterpolate"
                   (litStr (PropertyOp.name p)
                    :: interpolationArgs (strings i) (expressions i)
                    ++ [orNull (PropertyOp.sanitizer p)])
                   (PropertyOp.sourceSpan p)))
      | PlainExpr e =>
          Ok (StatementOpU
                (ng "property"
                   [litStr (PropertyOp.name p); e;
                    orNull (PropertyOp.sanitizer p)]
                   (PropertyOp.sourceSpan p)))
      end
  | StylePropOp _ name expression unit sp =>
      match expression with
      | Interp i =>
          Ok (StatementOpU
                (ng "stylePropInterpolate"
                   (litStr name
                    :: interpolationArgs (strings i) (expressions i)
                    ++ [litOptStr unit]) sp))
      | PlainExpr e =>
          Ok (StatementOpU (ng "styleProp" [litStr name; e; litOptStr unit] sp))
      end
  | ClassPropOp _ name e sp =>
      Ok (StatementOpU (ng "classProp" [litStr name; e] sp))
  | StyleMapOp _ expression sp =>
      match expression with
      | Interp i =>
          Ok (StatementOpU
                (ng "styleMapInterpolate"
                   (interpolationArgs (strings i) (expressions i)) sp))
      | PlainExpr e => Ok (StatementOpU (ng "styleMap" [e] sp))
      end
  | ClassMapOp _ expression sp =>
      match expression with
      | Interp i =>
          Ok (StatementOpU
                (ng "classMapInterpolate"
                   (interpolationArgs (strings i) (expressions i)) sp))
      | PlainExpr e => Ok (StatementOpU (ng "classMap" [e] sp))
      end
  | I18nExpressionOp _ e sp => Ok (StatementOpU (ng "i18nExp" [e] sp))
  | I18nApplyOp _ handle sp =>
      Ok (StatementOpU (ng "i18nApply" [litOptNat (slot handle)] sp))
  | InterpolateTextOp _ i _ sp =>
      Ok (StatementOpU
            (ng "textInterpolate"
               (interpolationArgs (strings i) (expressions i)) sp))
  | AttributeOp p =>
      match PropertyOp.expression p with
      | Interp i =>
          Ok (StatementOpU
                (ng "attributeInterpolate"
                   (litStr (PropertyOp.name p)
                    :: interpolationArgs (strings i) (expressions i)
                    ++ [orNull (PropertyOp.sanitizer p)])
                   (PropertyOp.sourceSpan p)))
      | PlainExpr e =>
          Ok (StatementOpU
                (ng "attribute"
                   [litStr (PropertyOp.name p); e;
                    orNull (PropertyOp.sanitizer p)] None))
      end
  | HostPropertyOp name expression isAnimationTrigger sp =>
      match expression with
      | Interp _ => Throw "not yet handled"
      | PlainExpr e =>
          if isAnimationTrigger
          then Ok (StatementOpU (ng "syntheticHostProperty" [litStr name; e] sp))
          else Ok (StatementOpU (ng "hostProperty" [litStr name; e] sp))
      end
  | VariableOpU xref variable initializer =>
      match variable_name variable with
      | None => Throw ("AssertionError: unnamed variable " ++ pretty xref)
      | Some name => Ok (StatementOpU (DeclareVarStmt name (Some initializer)))
      end
  | ConditionalOp c =>
      match ConditionalOp.processed c with
      | None => Throw "Conditional test was not set."
      | Some processed =>
          match ConditionalOp.targetSlot c with
          | None =>
              Throw "TypeError: Cannot read properties of null (reading 'slot')"
          | Some {| slot := None |} => Throw "Conditional slot was not set."
          | Some {| slot := Some s |} =>
              Ok (StatementOpU
                    (ng "conditional"
                       [litNat s; processed;
                        orNull (ConditionalOp.contextValue c)]
                       (ConditionalOp.sourceSpan c)))
          end
      end
  | RepeaterOp _ _ collection sp =>
      Ok (StatementOpU (ng "repeater" [collection] sp))
  | DeferWhenOp d =>
      Ok (StatementOpU
            (ng "deferWhen"
               [litBool (DeferWhenOp.prefetch d); DeferWhenOp.expr d]
               (DeferWhenOp.sourceSpan d)))
  | StatementOpU _ => Ok op
  | BindingOp _ => Throw (unsupportedUpdate op)
  end.

Definition reifyUpdateOperations (ops : list UpdateOp)
  : Result (list UpdateOp) :=
  rmap reifyUpdateOp ops.

Definition expectStatement (op : UpdateOp) : Result Stmt :=
  match op with
  | StatementOpU statement => Ok statement
  | _ => Throw ("AssertionError: expected reified statements, but found op "
                ++ updateKindName op)
  end.

Definition reifyListenerHandler (name : option string)
    (handlerOps : list UpdateOp) (consumesDollarEvent : bool)
  : Result Expr :=
  let? handlerOps := reifyUpdateOperations handlerOps in
  let? handlerStmts := rmap expectStatement handlerOps in
  let params := if consumesDollarEvent then ["$event"] else [] in
  Ok (FunctionExpr params handlerStmts name).

(** [!!x] for a nullable number. *)
Definition truthyTime (t : option nat) : bool :=
  match t with Some (S _) => true | _ => false end.

Definition triggerKindName (k : DeferTriggerKind) : string :=
  match k with
  | Idle => "Idle" | Immediate => "Immediate" | Timer => "Timer"
  | Hover => "Hover" | Interaction => "Interaction" | Viewport => "Viewport"
  end.

Definition targetArgs (k : DeferTriggerKind) (t : DeferTriggerTarget)
  : Result (list nat) :=
  match targetSlot t, targetSlotViewSteps t with
  | Some {| slot := Some s |}, Some steps =>
      Ok (if Nat.eqb steps 0 then [s] else [s; steps])
  | _, _ =>
      Throw ("Slot or view steps not set in trigger reification for trigger kind "
             ++ triggerKindName k)
  end.

Definition unsupportedCreate (op : CreateOp) : string :=
  "AssertionError: Unsupported reification of create op "
  ++ createKindName op.

Definition undefinedView : string :=
  "TypeError: Cannot read properties of undefined (reading 'fnName')".

(** One turn of the loop of [reifyCreateOperations].  [isView] is
    [unit instanceof ViewCompilationUnit]; [job] is [unit.job]. *)
Definition reifyCreateOp (job : Job.t) (isView : bool) (op : CreateOp)
  : Result CreateOp :=
  let? op := run (transformExpressionsInCreateOp reifyTransform op FlagNone) in
  match op with
  | TextOp _ handle initialValue sp =>
      Ok (StatementOpC
            (ng "text" [litOptNat (slot handle); litStr initialValue] sp))
  | ElementStartOp e =>
      Ok (StatementOpC
            (ng "elementStart"
               [litOptNat (slot (ElementOpBase.handle e));
                litOptStr (ElementOpBase.tag e);
                litOptNat (ElementOpBase.attributes e);
                litLocalRefs (ElementOpBase.localRefs e)]
               (ElementOpBase.sourceSpan e)))
  | ElementOp e =>
      Ok (StatementOpC
            (ng "element"
               [litOptNat (slot (ElementOpBase.handle e));
                litOptStr (ElementOpBase.tag e);
                litOptNat (ElementOpBase.attributes e);
                litLocalRefs (ElementOpBase.localRefs e)]
               (ElementOpBase.sourceSpan e)))
  | ElementEndOp _ sp => Ok (StatementOpC (ng "elementEnd" [] sp))
  | ContainerStartOp e =>
      Ok (StatementOpC
            (ng "elementContainerStart"
               [litOptNat (slot (ElementOpBase.handle e));
                litOptNat (ElementOpBase.attributes e);
                litLocalRefs (ElementOpBase.localRefs e)]
               (ElementOpBase.sourceSpan e)))
  | ContainerOp e =>
      Ok (StatementOpC
            (ng "elementContainer"
               [litOptNat (slot (ElementOpBase.handle e));
                litOptNat (ElementOpBase.attributes e);
                litLocalRefs (ElementOpBase.localRefs e)]
               (ElementOpBase.sourceSpan e)))
  | ContainerEndOp _ _ => Ok (StatementOpC (ng "elementContainerEnd" [] None))
  | I18nStartOp i =>
      Ok (StatementOpC
            (ng "i18nStart"
               [litOptNat (slot (I18nStartOp.handle i));
                litOptNat (I18nStartOp.messageIndex i);
                litOptNat (I18nStartOp.subTemplateIndex i)] None))
  | I18nEndOp _ => Ok (StatementOpC (ng "i18nEnd" [] None))
  | I18nOp i =>
      Ok (StatementOpC
            (ng "i18n"
               [litOptNat (slot (I18nStartOp.handle i));
                litOptNat (I18nStartOp.messageIndex i);
                litOptNat (I18nStartOp.subTemplateIndex i)] None))
  | TemplateOp t =>
      if negb isView
      then Throw "AssertionError: must be compiling a component"
      else
        match TemplateOp.localRefs t with
        | LocalRefArray _ =>
            Throw "AssertionError: local refs array should have been extracted into a constant"
        | LocalRefConst localRefs =>
            match Job.view (TemplateOp.xref t) job with
            | None => Throw undefinedView
            | Some childView =>
                Ok (StatementOpC
                      (ng "template"
                         [litOptNat (slot (TemplateOp.handle t));
                          ReadVarExpr (Unit.fnName childView);
                          litOptNat (Unit.decls childView);
                          litOptNat (Unit.vars childView);
                          litOptStr (TemplateOp.tag t);
                          litOptNat (TemplateOp.attributes t);
                          litOptNat localRefs]
                         (TemplateOp.sourceSpan t)))
            end
        end
  | DisableBindingsOp _ => Ok (StatementOpC (ng "disableBindings" [] None))
  | EnableBindingsOp _ => Ok (StatementOpC (ng "enableBindings" [] None))
  | PipeOp _ handle name =>
      Ok (StatementOpC (ng "pipe" [litOptNat (slot handle); litStr name] None))
  | ListenerOp l =>
      let? listenerFn :=
        reifyListenerHandler (ListenerOp.handlerFnName l)
          (ListenerOp.handlerOps l) (ListenerOp.consumesDollarEvent l) in
      let reified :=
        if ListenerOp.hostListener l && ListenerOp.isAnimationListener l
        then ng "syntheticHostListener"
               [litStr (ListenerOp.name l); listenerFn]
               (ListenerOp.sourceSpan l)
        else ng "listener" [litStr (ListenerOp.name l); listenerFn]
               (ListenerOp.sourceSpan l) in
      Ok (StatementOpC reified)
  | VariableOpC xref variable initializer =>
      match variable_name variable with
      | None => Throw ("AssertionError: unnamed variable " ++ pretty xref)
      | Some name => Ok (StatementOpC (DeclareVarStmt name (Some initializer)))
      end
  | NamespaceOp active =>
      match active with
      | NsHTML => Ok (StatementOpC (ng "namespaceHTML" [] None))
      | NsSVG => Ok (StatementOpC (ng "namespaceSVG" [] None))
      | NsMath => Ok (StatementOpC (ng "namespaceMath" [] None))
      end
  | DeferOp d =>
      let timerScheduling :=
        truthyTime (DeferOp.loadingMinimumTime d)
        || truthyTime (DeferOp.loadingAfterTime d)
        || truthyTime (DeferOp.placeholderMinimumTime d) in
      let slotOf (h : option SlotHandle) : option nat :=
        match h with Some h => slot h | None => None end in
      Ok (StatementOpC
            (ng "defer"
               [litOptNat (slot (DeferOp.handle d));
                litOptNat (slot (DeferOp.mainSlot d));
                orNull (DeferOp.resolverFn d);
                litOptNat (slotOf (DeferOp.loadingSlot d));
                litOptNat (slotOf (DeferOp.placeholderSlot d));
                litOptNat (slotOf (DeferOp.errorSlot d));
                orNull (DeferOp.loadingConfig d);
                orNull (DeferOp.placeholderConfig d);
                litBool timerScheduling]
               (DeferOp.sourceSpan d)))
  | DeferOnOp d =>
      let? args :=
        match DeferOnOp.trigger d with
        | IdleTrigger | ImmediateTrigger => Ok []
        | TimerTrigger delay => Ok [delay]
        | InteractionTrigger t => targetArgs Interaction t
        | HoverTrigger t => targetArgs Hover t
        | ViewportTrigger t => targetArgs Viewport t
        end in
      Ok (StatementOpC
            (ng "deferOn"
               (litStr (triggerKindName (triggerKind (DeferOnOp.trigger d)))
                :: litBool (DeferOnOp.prefetch d) :: map litNat args)
               (DeferOnOp.sourceSpan d)))
  | ProjectionDefOp def => Ok (StatementOpC (ng "projectionDef" [orNull def] None))
  | ProjectionOp p =>
      match slot (ProjectionOp.handle p) with
      | None => Throw "No slot was assigned for project instruction"
      | Some s =>
          Ok (StatementOpC
                (ng "projection"
                   [litNat s; litNat (ProjectionOp.projectionSlotIndex p);
                    LiteralArrayExpr (map litStr (ProjectionOp.attributes p))]
                   (ProjectionOp.sourceSpan p)))
      end
  | RepeaterCreateOp r =>
      match slot (RepeaterCreateOp.handle r) with
      | None => Throw "No slot was assigned for repeater instruction"
      | Some s =>
          if negb isView
          then Throw "AssertionError: must be compiling a component"
          else
            match Job.view (RepeaterCreateOp.xref r) job with
            | None => Throw undefinedView
            | Some repeaterView =>
                match Unit.fnName repeaterView with
                | None =>
                    Throw "AssertionError: expected repeater primary view to have been named"
                | Some fnName =>
                    let? empty :=
                      match RepeaterCreateOp.emptyView r with
                      | None => Ok (None, None, None)
                      | Some ev =>
                          match Job.view ev job with
                          | None =>
                              Throw "AssertionError: repeater had empty view xref, but empty view was not found"
                          | Some emptyView =>
                              match Unit.fnName emptyView,
                                    Unit.decls emptyView,
                                    Unit.vars emptyView with
                              | Some n, Some d, Some v =>
                                  Ok (Some n, Some d, Some v)
                              | _, _, _ =>
                                  Throw "AssertionError: expected repeater empty view to have been named and counted"
                              end
                          end
                      end in
                    let '(emptyViewFnName, emptyDecls, emptyVars) := empty in
                    Ok (StatementOpC
                          (ng "repeaterCreate"
                             [litNat s; litStr fnName;
                              litOptNat (RepeaterCreateOp.decls r);
                              litOptNat (RepeaterCreateOp.vars r);
                              litOptStr (RepeaterCreateOp.tag r);
                              litOptNat (RepeaterCreateOp.attributes r);
                              orNull (RepeaterCreateOp.trackByFn r);
                              litBool (RepeaterCreateOp.usesComponentInstance r);
                              litOptStr emptyViewFnName;
                              litOptNat emptyDecls; litOptNat emptyVars]
                             (RepeaterCreateOp.sourceSpan r)))
                end
            end
      end
  | StatementOpC _ => Ok op
  | ExtractedAttributeOp _ _ _ _ | IcuStartOp _ | IcuEndOp _
  | I18nContextOp _ => Throw (unsupportedCreate op)
  end.

Definition reifyCreateOperations (job : Job.t) (isView : bool)
    (ops : list CreateOp) : Result (list CreateOp) :=
  rmap (reifyCreateOp job isView) ops.

Definition isViewUnit (job : Job.t) : bool :=
  match Job.kind job with Tmpl => true | Host => false end.

Definition reifyUnit (job : Job.t) (unit : Unit.t) : Result Unit.t :=
  let? c := reifyCreateOperations job (isViewUnit job) (Unit.create unit) in
  let? u := reifyUpdateOperations (Unit.update unit) in
  Ok (Unit.set_update u (Unit.set_create c unit)).

Definition reify (job : Job.t) : Result Job.t :=
  let? us := rmap (reifyUnit job) (Job.units job) in
  Ok (Job.set_units us job).

End Reify.

(** ** The input: expression AST and template AST *)

(** [e.AST].  [ThisReceiver] is a subclass of [ImplicitReceiver], so
    [instanceof e.ImplicitReceiver] holds of both ([isImplicitReceiver]). *)
Inductive AST : Type :=
  | ASTWithSource (span : ParseSpan) (ast : AST)
  | ImplicitReceiver (span : ParseSpan)
  | ThisReceiver (span : ParseSpan)
  | PropertyRead (span : ParseSpan) (receiver : AST) (name : string)
  | PropertyWrite (span : ParseSpan) (receiver : AST) (name : string)
      (value : AST)
  | KeyedRead (span : ParseSpan) (receiver key : AST)
  | KeyedWrite (span : ParseSpan) (receiver key value : AST)
  | Call (span : ParseSpan) (receiver : AST) (args : list AST)
  | LiteralPrimitive (span : ParseSpan) (value : LiteralValue)
  | Binary (span : ParseSpan) (operation : string) (left right : AST)
  | Chain (span : ParseSpan) (expressions : list AST)
  | LiteralMap (span : ParseSpan) (keys : list (string * bool))
      (values : list AST)
  | LiteralArray (span : ParseSpan) (expressions : list AST)
  | Conditional (span : ParseSpan) (condition trueExp falseExp : AST)
  | NonNullAssert (span : ParseSpan) (expression : AST)
  | BindingPipe (span : ParseSpan) (exp : AST) (name : string)
      (args : list AST)
  | SafeKeyedRead (span : ParseSpan) (receiver key : AST)
  | SafePropertyRead (span : ParseSpan) (receiver : AST) (name : string)
  | SafeCall (span : ParseSpan) (receiver : AST) (args : list AST)
  | EmptyExprAst (span : ParseSpan)
  | InterpolationAst (span : ParseSpan) (strings : list string)
      (expressions : list AST)
  | PrefixNot (span : ParseSpan) (expression : AST).

Definition isImplicitReceiver (a : AST) : bool :=
  match a with ImplicitReceiver _ | ThisReceiver _ => true | _ => false end.
Definition isThisReceiver (a : AST) : bool :=
  match a with ThisReceiver _ => true | _ => false end.

Definition spanOf (a : AST) : ParseSpan :=
  match a with
  | ASTWithSource s _ | ImplicitReceiver s | ThisReceiver s
  | PropertyRead s _ _ | PropertyWrite s _ _ _ | KeyedRead s _ _
  | KeyedWrite s _ _ _ | Call s _ _ | LiteralPrimitive s _ | Binary s _ _ _
  | Chain s _ | LiteralMap s _ _ | LiteralArray s _ | Conditional s _ _ _
  | NonNullAssert s _ | BindingPipe s _ _ _ | SafeKeyedRead s _ _
  | SafePropertyRead s _ _ | SafeCall s _ _ | EmptyExprAst s
  | InterpolationAst s _ _ | PrefixNot s _ => s
  end.

(** [ast.constructor.name]. *)
Definition constructorName (a : AST) : string :=
  match a with
  | ASTWithSource _ _ => "ASTWithSource"
  | ImplicitReceiver _ => "ImplicitReceiver"
  | ThisReceiver _ => "ThisReceiver"
  | PropertyRead _ _ _ => "PropertyRead"
  | PropertyWrite _ _ _ _ => "PropertyWrite"
  | KeyedRead _ _ _ => "KeyedRead"
  | KeyedWrite _ _ _ _ => "KeyedWrite"
  | Call _ _ _ => "Call"
  | LiteralPrimitive _ _ => "LiteralPrimitive"
  | Binary _ _ _ _ => "Binary"
  | Chain _ _ => "Chain"
  | LiteralMap _ _ _ => "LiteralMap"
  | LiteralArray _ _ => "LiteralArray"
  | Conditional _ _ _ _ => "Conditional"
  | NonNullAssert _ _ => "NonNullAssert"
  | BindingPipe _ _ _ _ => "BindingPipe"
  | SafeKeyedRead _ _ _ => "SafeKeyedRead"
  | SafePropertyRead _ _ _ => "SafePropertyRead"
  | SafeCall _ _ _ => "SafeCall"
  | EmptyExprAst _ => "EmptyExpr"
  | InterpolationAst _ _ _ => "Interpolation"
  | PrefixNot _ _ => "PrefixNot"
  end.

Inductive BindingType :=
  | BtProperty | BtAttribute | BtClass | BtStyle | BtAnimation.

Inductive ParsedEventType := Regular | Animation.

(** i18n metadata attached to template nodes. *)
Inductive I18nChild :=
  | I18nPlaceholder (name : string)
  | I18nOtherChild.

Inductive I18nMeta :=
  | I18nMessage (m : Message)
  | I18nTagPlaceholder (p : TagPlaceholder)
  | I18nContainer (children : list I18nChild)
  | I18nOtherMeta (constructorName : string).

Definition i18nMetaName (m : I18nMeta) : string :=
  match m with
  | I18nMessage _ => "Message"
  | I18nTagPlaceholder _ => "TagPlaceholder"
  | I18nContainer _ => "Container"
  | I18nOtherMeta n => n
  end.

Record TextAttribute := {
  ta_name : string; ta_value : string; ta_sourceSpan : SourceSpan }.

Record BoundAttribute := {
  ba_name : string;
  ba_type : BindingType;
  ba_securityContext : SecurityContext;
  ba_value : AST;
  ba_unit : option string;
  ba_sourceSpan : SourceSpan }.

Record BoundEvent := {
  be_name : string;
  be_type : ParsedEventType;
  be_handler : AST;
  be_phase : option string;
  be_sourceSpan : SourceSpan;
  be_handlerSpan : SourceSpan }.

Record Reference := { r_name : string; r_value : string }.

Record TextNode := { text_value : string; text_sourceSpan : SourceSpan }.
Record BoundTextNode := {
  bt_value : AST;
  bt_sourceSpan : SourceSpan;
  bt_i18n : option I18nMeta }.

(** The values of [icu.vars] and [icu.placeholders]. *)
Inductive IcuPlaceholder :=
  | IcuText (t : TextNode)
  | IcuBoundText (t : BoundTextNode).

Record ForLoopBlockContext := {
  c_index : TVariable; c_count : TVariable; c_first : TVariable;
  c_last : TVariable; c_even : TVariable; c_odd : TVariable }.

Record DeferredTrigger := { trigger_sourceSpan : SourceSpan }.
Record TimerDeferredTrigger := {
  timer_delay : nat; timer_sourceSpan : SourceSpan }.
Record ReferenceDeferredTrigger := {
  trigger_reference : option string; reference_sourceSpan : SourceSpan }.
Record BoundDeferredTrigger := {
  when_value : AST; when_sourceSpan : SourceSpan }.

(** [t.DeferredBlockTriggers]: every trigger is optional. *)
Record DeferredBlockTriggers := {
  when : option BoundDeferredTrigger;
  idle : option DeferredTrigger;
  immediate : option DeferredTrigger;
  hover : option ReferenceDeferredTrigger;
  timer : option TimerDeferredTrigger;
  interaction : option ReferenceDeferredTrigger;
  viewport : option ReferenceDeferredTrigger }.

Inductive Node : Type :=
  | Element (name : string) (attributes : list TextAttribute)
      (inputs : list BoundAttribute) (outputs : list BoundEvent)
      (children : list Node) (references : list Reference)
      (startSourceSpan : SourceSpan) (endSourceSpan : SourceSpan)
      (i18n : option I18nMeta)
  | Template (tagName : option string) (attributes : list TextAttribute)
      (inputs : list BoundAttribute) (outputs : list BoundEvent)
      (templateAttrs : list (TextAttribute + BoundAttribute))
      (children : list Node) (references : list Reference)
      (variables : list TVariable) (startSourceSpan : SourceSpan)
      (i18n : option I18nMeta)
  | Content (selector : string) (attributes : list TextAttribute)
      (sourceSpan : SourceSpan)
  | Text (t : TextNode)
  | BoundText (t : BoundTextNode)
  | IfBlock (branches : list IfBlockBranch) (sourceSpan : SourceSpan)
  | SwitchBlock (expression : AST) (cases : list SwitchBlockCase)
      (sourceSpan startSourceSpan : SourceSpan)
  | ForLoopBlock (block : ForLoop)
  | DeferredBlock (identity : nat) (children : list Node)
      (triggers prefetchTriggers : DeferredBlockTriggers)
      (placeholder : option DeferredBlockPart)
      (loading : option DeferredBlockPart)
      (error : option DeferredBlockPart) (sourceSpan : SourceSpan)
  | IcuNode (vars : list (string * BoundTextNode))
      (placeholders : list (string * IcuPlaceholder))
      (i18n : option I18nMeta)
  | Comment (value : string)
  | UnknownBlock (name : string)
with IfBlockBranch : Type :=
  | mkIfBlockBranch (expression : option AST) (children : list Node)
      (expressionAlias : option TVariable) (sourceSpan : SourceSpan)
with SwitchBlockCase : Type :=
  | mkSwitchBlockCase (expression : option AST) (children : list Node)
      (sourceSpan : SourceSpan)
with ForLoop : Type :=
  | mkForLoop (item : TVariable) (expression : AST) (trackBy : AST)
      (contextVariables : ForLoopBlockContext) (children : list Node)
      (empty : option (list Node)) (sourceSpan : SourceSpan)
with DeferredBlockPart : Type :=
  (* [@placeholder], [@loading] and [@error]: the times a part does not
     have are [None] *)
  | mkDeferredBlockPart (children : list Node) (minimumTime : option nat)
      (afterTime : option nat) (sourceSpan : SourceSpan).

Definition nodeName (n : Node) : string :=
  match n with
  | Element _ _ _ _ _ _ _ _ _ => "Element"
  | Template _ _ _ _ _ _ _ _ _ _ => "Template"
  | Content _ _ _ => "Content"
  | Text _ => "Text"
  | BoundText _ => "BoundText"
  | IfBlock _ _ => "IfBlock"
  | SwitchBlock _ _ _ _ => "SwitchBlock"
  | ForLoopBlock _ => "ForLoopBlock"
  | DeferredBlock _ _ _ _ _ _ _ _ => "DeferredBlock"
  | IcuNode _ _ _ => "Icu"
  | Comment _ => "Comment"
  | UnknownBlock _ => "UnknownBlock"
  end.

Definition branchChildren (b : IfBlockBranch) : list Node :=
  match b with mkIfBlockBranch _ c _ _ => c end.
Definition forChildren (b : ForLoop) : list Node :=
  match b with mkForLoop _ _ _ _ c _ _ => c end.

(** ** Ingestion (ingest.ts) *)

(** Helpers of other files that ingestion calls; none is under src/. *)
Record Collaborators := {
  (** [splitNsName(name)]: the namespace key, if any, and the local name. *)
  splitNsName : string → option string * string;
  namespaceForKey : option string → Namespace;
  prefixWithNamespace : string → Namespace → string;
  (** [BINARY_OPERATORS.get(operation)]. *)
  BINARY_OPERATORS : string → option BinaryOperator;
  isSingleI18nIcu : Message → bool;
  (** [icuFromI18nMessage(message).name]. *)
  icuFromI18nMessage : Message → string }.

(** [ir.CTX_REF]. *)
Definition CTX_REF : string := "CTX_REF_MARKER".

(** [BindingFlags]. *)
Definition BindingFlags := N.
Definition FlagsNone : BindingFlags := 0%N.
Definition TextValue : BindingFlags := 1%N.
Definition BindingTargetsTemplate : BindingFlags := 2%N.
Definition IsStructuralTemplateAttribute : BindingFlags := 4%N.
Definition OnNgTemplateElement : BindingFlags := 8%N.

(** [flags & flag], as a truth value. *)
Definition hasFlag (flags flag : BindingFlags) : bool :=
  negb (N.eqb (N.land flags flag) 0%N).

(** The table [BINDING_KINDS]. *)
Definition BINDING_KINDS (t : BindingType) : BindingKind :=
  match t with
  | BtProperty => BkProperty
  | BtAttribute => BkAttribute
  | BtClass => BkClassName
  | BtStyle => BkStyleProperty
  | BtAnimation => BkAnimation
  end.

(** [expr.sourceSpan]. *)
Definition sourceSpanOf (e : Expr) : SourceSpan :=
  match e with
  | LiteralExpr _ sp | ReadPropExpr _ _ sp | ReadKeyExpr _ _ sp
  | WritePropExpr _ _ _ sp | WriteKeyExpr _ _ _ sp
  | InvokeFunctionExpr _ _ sp | BinaryOperatorExpr _ _ _ sp
  | ConditionalExpr _ _ _ sp | LiteralMapExpr _ sp
  | SafeKeyedReadExpr _ _ sp | EmptyExpr sp => sp
  | _ => None
  end.

(** What [ingestBinding] accepts as a value: [e.AST | o.Expression]. *)
Inductive BindingValue :=
  | AstValue (a : AST)
  | ExprValue (e : Expr).

Module Ingest.

(** *** The job as mutable state *)

Definition allocateXrefId : M Job.t XrefId :=
  fun job => Ok (Job.nextXrefId job,
                 Job.set_nextXrefId (S (Job.nextXrefId job)) job).

(** [job.allocateView(parent)]: a new, empty view under a fresh id. *)
Definition allocateView (parent : XrefId) : M Job.t XrefId :=
  let* xref := allocateXrefId in
  let* _ := modify (fun job =>
              Job.set_units
                (Job.units job ++ [Unit.empty xref (Some parent)]) job) in
  ret xref.

Definition pushCreate (unit : XrefId) (ops : list CreateOp)
  : M Job.t void :=
  modify (Job.updateUnit unit
            (fun u => Unit.set_create (Unit.create u ++ ops) u)).

Definition pushUpdate (unit : XrefId) (ops : list UpdateOp)
  : M Job.t void :=
  modify (Job.updateUnit unit
            (fun u => Unit.set_update (Unit.update u ++ ops) u)).

Definition setContextVariable (view : XrefId) (name value : string)
  : M Job.t void :=
  modify (Job.updateUnit view
            (fun u => Unit.set_contextVariables
                        (<[name := value]> (Unit.contextVariables u)) u)).

Definition addAlias (view : XrefId) (a : AliasVariable) : M Job.t void :=
  modify (Job.updateUnit view
            (fun u => Unit.set_aliases (Unit.aliases u ++ [a]) u)).

Section WithCollaborators.
Variable env : Collaborators.

(** *** Expression conversion *)

Definition dquote : string := String (Ascii.ascii_of_nat 34) EmptyString.

Definition unhandledExpression (ast : AST) (baseSourceSpan : SourceSpan)
  : string :=
  "Unhandled expression type " ++ dquote ++ constructorName ast ++ dquote
  ++ " in file " ++ dquote
  ++ match baseSourceSpan with
     | Some _ => "<url>"
     | None => "undefined"
     end ++ dquote.

Fixpoint convertAst (ast : AST) (baseSourceSpan : SourceSpan) {struct ast}
  : M Job.t Expr :=
  let go := fun a => convertAst a baseSourceSpan in
  match ast with
  | ASTWithSource _ a => go a
  | PropertyRead span receiver name =>
      if isImplicitReceiver receiver && negb (isThisReceiver receiver)
      then ret (LexicalReadExpr name)
      else
        let* r := go receiver in
        ret (ReadPropExpr r name (convertSourceSpan span baseSourceSpan))
  | PropertyWrite span receiver name value =>
      if isImplicitReceiver receiver then
        let* job := get in
        let* v := go value in
        ret (WritePropExpr (ContextExpr (Job.root job)) name v
               (convertSourceSpan span baseSourceSpan))
      else
        let* r := go receiver in
        let* v := go value in
        ret (WritePropExpr r name v (convertSourceSpan span baseSourceSpan))
  | KeyedWrite span receiver key value =>
      let* r := go receiver in
      let* k := go key in
      let* v := go value in
      ret (WriteKeyExpr r k v (convertSourceSpan span baseSourceSpan))
  | Call span receiver args =>
      if isImplicitReceiver receiver
      then throw "Unexpected ImplicitReceiver"
      else
        let* r := go receiver in
        let* args' := mapM go args in
        ret (InvokeFunctionExpr r args'
               (convertSourceSpan span baseSourceSpan))
  | LiteralPrimitive span value =>
      ret (LiteralExpr value (convertSourceSpan span baseSourceSpan))
  | Binary span operation lhs rhs =>
      match BINARY_OPERATORS env operation with
      | None =>
          throw ("AssertionError: unknown binary operator " ++ operation)
      | Some operator =>
          let* l := go lhs in
          let* r := go rhs in
          ret (BinaryOperatorExpr operator l r
                 (convertSourceSpan span baseSourceSpan))
      end
  | ThisReceiver _ =>
      let* job := get in
      ret (ContextExpr (Job.root job))
  | KeyedRead span receiver key =>
      let* r := go receiver in
      let* k := go key in
      ret (ReadKeyExpr r k (convertSourceSpan span baseSourceSpan))
  | Chain _ _ => throw "AssertionError: Chain in unknown context"
  | LiteralMap span keys values =>
      (* [ast.keys.map((key, idx) => ... ast.values[idx] ...)]: a key
         without a value makes [convertAst(undefined, ...)] fail *)
      let* entries :=
        (fix entriesOf (keys : list (string * bool)) (values : list AST)
           {struct values} : M Job.t (list (string * Expr * bool)) :=
           match keys, values with
           | [], _ => ret []
           | _ :: _, [] =>
               throw "TypeError: Cannot read properties of undefined (reading 'constructor')"
           | (key, quoted) :: keys', value :: values' =>
               let* v := go value in
               let* rest := entriesOf keys' values' in
               ret ((key, v, quoted) :: rest)
           end) keys values in
      ret (LiteralMapExpr entries (convertSourceSpan span baseSourceSpan))
  | LiteralArray _ expressions =>
      let* es := mapM go expressions in
      ret (LiteralArrayExpr es)
  | Conditional span condition trueExp falseExp =>
      let* c := go condition in
      let* t := go trueExp in
      let* f := go falseExp in
      ret (ConditionalExpr c t f (convertSourceSpan span baseSourceSpan))
  | NonNullAssert _ expression => go expression
  | BindingPipe _ exp name args =>
      let* xref := allocateXrefId in
      let* e := go exp in
      let* args' := mapM go args in
      ret (PipeBindingExpr xref newSlotHandle name (e :: args') None)
  | SafeKeyedRead span receiver key =>
      let* r := go receiver in
      let* k := go key in
      ret (SafeKeyedReadExpr r k (convertSourceSpan span baseSourceSpan))
  | SafePropertyRead _ receiver name =>
      let* r := go receiver in
      ret (SafePropertyReadExpr r name)
  | SafeCall _ receiver args =>
      let* r := go receiver in
      let* args' := mapM go args in
      ret (SafeInvokeFunctionExpr r args')
  | EmptyExprAst span =>
      ret (EmptyExpr (convertSourceSpan span baseSourceSpan))
  | ImplicitReceiver _ | InterpolationAst _ _ _ | PrefixNot _ _ =>
      throw (unhandledExpression ast baseSourceSpan)
  end.

(** *** Bindings *)

Definition createBindingOp (target : XrefId) (kind : BindingKind)
    (name : string) (expression : ExprOrInterpolation) (unit : option string)
    (securityContext : SecurityContext) (isTextAttribute : bool)
    (isStructuralTemplateAttribute : bool) (sourceSpan : SourceSpan)
  : UpdateOp :=
  BindingOp {| BindingOp.target := target;
               BindingOp.kind := kind;
               BindingOp.name := name;
               BindingOp.expression := expression;
               BindingOp.unit := unit;
               BindingOp.securityContext := securityContext;
               BindingOp.isTextAttribute := isTextAttribute;
               BindingOp.isStructuralTemplateAttribute :=
                 isStructuralTemplateAttribute;
               BindingOp.sourceSpan := sourceSpan |}.

Definition unwrapSource (a : AST) : AST :=
  match a with ASTWithSource _ inner => inner | _ => a end.

Definition ingestBinding (view : XrefId) (xref : XrefId) (name : string)
    (value : BindingValue) (type : BindingType) (unit : option string)
    (securityContext : SecurityContext) (sourceSpan : SourceSpan)
    (flags : BindingFlags) : M Job.t void :=
  let value :=
    match value with
    | AstValue a => AstValue (unwrapSource a)
    | ExprValue _ => value
    end in
  if hasFlag flags OnNgTemplateElement
     && negb (hasFlag flags BindingTargetsTemplate)
     && match type with BtProperty => true | _ => false end
  then
    pushCreate view [ExtractedAttributeOp xref BkProperty name None]
  else
    let* expression :=
      match value with
      | AstValue (InterpolationAst _ strs exprs) =>
          let* es := mapM (fun expr => convertAst expr None) exprs in
          ret (Interp {| strings := strs; expressions := es |})
      | AstValue a =>
          let* e := convertAst a None in ret (PlainExpr e)
      | ExprValue e => ret (PlainExpr e)
      end in
    let kind := BINDING_KINDS type in
    pushUpdate view
      [createBindingOp xref kind name expression unit securityContext
         (hasFlag flags TextValue)
         (hasFlag flags IsStructuralTemplateAttribute) sourceSpan].

(** [o.literal(attr.value)]. *)
Definition literalOf (s : string) : BindingValue :=
  ExprValue (LiteralExpr (LitStr s) None).

(** *** Content-projection inference *)

Definition isComment (n : Node) : bool :=
  match n with Comment _ => true | _ => false end.

(** [child instanceof t.Element ||
     (child instanceof t.Template && child.tagName !== null)]. *)
Definition isRootCandidate (n : Node) : bool :=
  match n with
  | Element _ _ _ _ _ _ _ _ _ => true
  | Template (Some _) _ _ _ _ _ _ _ _ _ => true
  | _ => false
  end.

(** The loop of [ingestControlFlowInsertionPoint].  [None] is the early
    [return null]; [Some root] is the value of [root] when the loop ends. *)
Fixpoint findRoot (children : list Node) (root : option Node)
  : option (option Node) :=
  match children with
  | [] => Some root
  | child :: rest =>
      if isComment child then findRoot rest root
      else
        match root with
        | Some _ => None
        | None =>
            if isRootCandidate child then findRoot rest (Some child)
            else findRoot rest root
        end
  end.

Definition rootAttributes (root : Node) : list TextAttribute :=
  match root with
  | Element _ attributes _ _ _ _ _ _ _ => attributes
  | Template _ attributes _ _ _ _ _ _ _ _ => attributes
  | _ => []
  end.

(** [root instanceof t.Element ? root.name : root.tagName]. *)
Definition rootTagName (root : Node) : option string :=
  match root with
  | Element name _ _ _ _ _ _ _ _ => Some name
  | Template tagName _ _ _ _ _ _ _ _ _ => tagName
  | _ => None
  end.

Definition ingestControlFlowInsertionPoint (unit : XrefId) (xref : XrefId)
    (children : list Node) : M Job.t (option string) :=
  match findRoot children None with
  | None => ret None
  | Some None => ret None
  | Some (Some root) =>
      let* _ :=
        forEach (fun attr =>
                   ingestBinding unit xref (ta_name attr)
                     (literalOf (ta_value attr)) BtAttribute None NONE
                     (ta_sourceSpan attr) TextValue)
          (rootAttributes root) in
      let tagName := rootTagName root in
      ret (match tagName with
           | Some t => if String.eqb t "ng-template" then None else Some t
           | None => None
           end)
  end.

(** *** Defer triggers *)

Definition createDeferOnOp (defer : XrefId) (trigger : DeferTrigger)
    (prefetch : bool) (sourceSpan : SourceSpan) : DeferOnOp.t :=
  {| DeferOnOp.defer := defer; DeferOnOp.trigger := trigger;
     DeferOnOp.prefetch := prefetch; DeferOnOp.sourceSpan := sourceSpan |}.

Definition unresolvedTarget (reference : option string)
  : DeferTriggerTarget :=
  {| targetName := reference; targetXref := None; targetSlot := None;
     targetView := None; targetSlotViewSteps := None |}.

Definition pushIf {A B} (o : option A) (f : A → B) (l : list B) : list B :=
  match o with Some a => l ++ [f a] | None => l end.

(** One turn of the loop over
    [[deferBlock.triggers, deferBlock.prefetchTriggers]]; [deferOnOps] and
    [deferWhenOps] are the two arrays the loop fills. *)
Definition ingestDeferTriggers (deferXref : XrefId)
    (triggers : DeferredBlockTriggers) (prefetch : bool)
    (deferOnOps : list DeferOnOp.t) (deferWhenOps : list DeferWhenOp.t)
  : M Job.t (list DeferOnOp.t * list DeferWhenOp.t) :=
  let deferOnOps :=
    pushIf (idle triggers)
      (fun t => createDeferOnOp deferXref IdleTrigger prefetch
                  (trigger_sourceSpan t)) deferOnOps in
  let deferOnOps :=
    pushIf (immediate triggers)
      (fun t => createDeferOnOp deferXref ImmediateTrigger prefetch
                  (trigger_sourceSpan t)) deferOnOps in
  let deferOnOps :=
    pushIf (timer triggers)
      (fun t => createDeferOnOp deferXref (TimerTrigger (timer_delay t))
                  prefetch (timer_sourceSpan t)) deferOnOps in
  let deferOnOps :=
    pushIf (hover triggers)
      (fun t => createDeferOnOp deferXref
                  (HoverTrigger (unresolvedTarget (trigger_reference t)))
                  prefetch (reference_sourceSpan t)) deferOnOps in
  let deferOnOps :=
    pushIf (interaction triggers)
      (fun t => createDeferOnOp deferXref
                  (InteractionTrigger
                     (unresolvedTarget (trigger_reference t)))
                  prefetch (reference_sourceSpan t)) deferOnOps in
  let deferOnOps :=
    pushIf (viewport triggers)
      (fun t => createDeferOnOp deferXref
                  (ViewportTrigger (unresolvedTarget (trigger_reference t)))
                  prefetch (reference_sourceSpan t)) deferOnOps in
  let* deferWhenOps :=
    match when triggers with
    | Some w =>
        let* e := convertAst (when_value w) (when_sourceSpan w) in
        ret (deferWhenOps
             ++ [{| DeferWhenOp.target := deferXref; DeferWhenOp.expr := e;
                    DeferWhenOp.prefetch := prefetch;
                    DeferWhenOp.sourceSpan := when_sourceSpan w |}])
    | None => ret deferWhenOps
    end in
  (* If no (non-prefetching) defer triggers were provided, default to idle. *)
  let deferOnOps :=
    if Nat.eqb (length deferOnOps) 0 && Nat.eqb (length deferWhenOps) 0
    then deferOnOps ++ [createDeferOnOp deferXref IdleTrigger false None]
    else deferOnOps in
  ret (deferOnOps, deferWhenOps).

(** The whole loop: the primary group with [prefetch = false], then the
    prefetch group with [prefetch = true]. *)
Definition ingestAllDeferTriggers (deferXref : XrefId)
    (triggers prefetchTriggers : DeferredBlockTriggers)
  : M Job.t (list DeferOnOp.t * list DeferWhenOp.t) :=
  let* (deferOnOps, deferWhenOps) :=
    ingestDeferTriggers deferXref triggers false [] [] in
  ingestDeferTriggers deferXref prefetchTriggers true deferOnOps deferWhenOps.

(** *** Template nodes *)

Definition createTemplateOp (xref : XrefId) (tag : option string)
    (functionNameSuffix : string) (namespace : Namespace)
    (i18nPlaceholder : option TagPlaceholder) (sourceSpan : SourceSpan)
  : TemplateOp.t :=
  {| TemplateOp.xref := xref;
     TemplateOp.handle := newSlotHandle;
     TemplateOp.tag := tag;
     TemplateOp.functionNameSuffix := functionNameSuffix;
     TemplateOp.attributes := None;
     TemplateOp.localRefs := LocalRefArray [];
     TemplateOp.namespace := namespace;
     TemplateOp.i18nPlaceholder := i18nPlaceholder;
     TemplateOp.sourceSpan := sourceSpan |}.

Definition createElementStartOp (tag : string) (xref : XrefId)
    (namespace : Namespace) (i18nPlaceholder : option TagPlaceholder)
    (sourceSpan : SourceSpan) : ElementOpBase.t :=
  {| ElementOpBase.tag := Some tag;
     ElementOpBase.xref := xref;
     ElementOpBase.handle := newSlotHandle;
     ElementOpBase.attributes := None;
     ElementOpBase.localRefs := LocalRefArray [];
     ElementOpBase.namespace := namespace;
     ElementOpBase.i18nPlaceholder := i18nPlaceholder;
     ElementOpBase.sourceSpan := sourceSpan |}.

(** [createI18nStartOp(xref, message)]: without a root, the block is its
    own root. *)
Definition createI18nStartOp (xref : XrefId) (message : Message)
  : I18nStartOp.t :=
  {| I18nStartOp.xref := xref;
     I18nStartOp.handle := newSlotHandle;
     I18nStartOp.root := xref;
     I18nStartOp.message := message;
     I18nStartOp.context := None;
     I18nStartOp.messageIndex := None;
     I18nStartOp.subTemplateIndex := None |}.

Definition createListenerOp (target : XrefId) (targetSlot : SlotHandle)
    (name : string) (tag : option string) (animationPhase : option string)
    (hostListener : bool) (sourceSpan : SourceSpan) : ListenerOp.t :=
  {| ListenerOp.target := target;
     ListenerOp.targetSlot := targetSlot;
     ListenerOp.tag := tag;
     ListenerOp.hostListener := hostListener;
     ListenerOp.name := name;
     ListenerOp.handlerOps := [];
     ListenerOp.handlerFnName := None;
     ListenerOp.consumesDollarEvent := false;
     ListenerOp.isAnimationListener :=
       match animationPhase with Some _ => true | None => false end;
     ListenerOp.animationPhase := animationPhase;
     ListenerOp.sourceSpan := sourceSpan |}.

(** The side of a [t.Element] or [t.Template] that [ingestBindings] and
    [ingestReferences] look at. *)
Record ElementLike := {
  el_isTemplate : bool;
  el_tagName : option string;
  el_templateAttrs : list (TextAttribute + BoundAttribute);
  el_attributes : list TextAttribute;
  el_inputs : list BoundAttribute;
  el_outputs : list BoundEvent;
  el_references : list Reference }.

Definition isPlainTemplate (tagName : option string) : bool :=
  String.eqb (snd (splitNsName env (default "" tagName))) "ng-template".

Definition ingestListener (unit : XrefId) (opXref : XrefId)
    (opHandle : SlotHandle) (opTag : option string) (el : ElementLike)
    (output : BoundEvent) : M Job.t void :=
  match be_type output, be_phase output with
  | Animation, None => throw "Animation listener should have a phase"
  | _, _ =>
      if el_isTemplate el && negb (isPlainTemplate (el_tagName el)) then
        pushCreate unit
          [ExtractedAttributeOp opXref BkProperty (be_name output) None]
      else
        let listenerOp :=
          createListenerOp opXref opHandle (be_name output) opTag
            (be_phase output) false (be_sourceSpan output) in
        let handler := unwrapSource (be_handler output) in
        let handlerExprs :=
          match handler with
          | Chain _ expressions => expressions
          | _ => [handler]
          end in
        match handlerExprs with
        | [] => throw "Expected listener to have non-empty expression list."
        | _ :: _ =>
            let* expressions :=
              mapM (fun expr => convertAst expr (be_handlerSpan output))
                handlerExprs in
            match List.rev expressions with
            | [] => throw "Expected listener to have non-empty expression list."
            | returnExpr :: others =>
                let handlerOps :=
                  map (fun expr =>
                         StatementOpU
                           (ExpressionStatement expr (sourceSpanOf expr)))
                    (List.rev others)
                  ++ [StatementOpU
                        (ReturnStatement returnExpr
                           (sourceSpanOf returnExpr))] in
                pushCreate unit
                  [ListenerOp
                     (ListenerOp.set_handler handlerOps
                        (ListenerOp.consumesDollarEvent listenerOp)
                        listenerOp)]
            end
        end
  end.

Definition ingestBindings (unit : XrefId) (opXref : XrefId)
    (opHandle : SlotHandle) (opTag : option string) (el : ElementLike)
  : M Job.t void :=
  let flags :=
    if el_isTemplate el then
      if isPlainTemplate (el_tagName el)
      then N.lor OnNgTemplateElement BindingTargetsTemplate
      else OnNgTemplateElement
    else FlagsNone in
  let templateAttrFlags :=
    N.lor (N.lor flags BindingTargetsTemplate)
      IsStructuralTemplateAttribute in
  let* _ :=
    if el_isTemplate el then
      forEach (fun attr =>
                 match attr with
                 | inl a =>
                     ingestBinding unit opXref (ta_name a)
                       (literalOf (ta_value a)) BtAttribute None NONE
                       (ta_sourceSpan a) (N.lor templateAttrFlags TextValue)
                 | inr a =>
                     ingestBinding unit opXref (ba_name a)
                       (AstValue (ba_value a)) (ba_type a) (ba_unit a)
                       (ba_securityContext a) (ba_sourceSpan a)
                       templateAttrFlags
                 end) (el_templateAttrs el)
    else ret tt in
  let* _ :=
    forEach (fun attr =>
               ingestBinding unit opXref (ta_name attr)
                 (literalOf (ta_value attr)) BtAttribute None NONE
                 (ta_sourceSpan attr) (N.lor flags TextValue))
      (el_attributes el) in
  let* _ :=
    forEach (fun input =>
               ingestBinding unit opXref (ba_name input)
                 (AstValue (ba_value input)) (ba_type input) (ba_unit input)
                 (ba_securityContext input) (ba_sourceSpan input) flags)
      (el_inputs el) in
  forEach (ingestListener unit opXref opHandle opTag el) (el_outputs el).

(** [op.localRefs.push(...)] on the op that [ingestReferences] is given:
    the element-like op of that xref, already in the unit's create list. *)
Definition pushLocalRefs (xref : XrefId) (refs : list LocalRef)
    (op : CreateOp) : Result CreateOp :=
  match op with
  | ElementStartOp e =>
      if Nat.eqb (ElementOpBase.xref e) xref then
        match ElementOpBase.localRefs e with
        | LocalRefArray l =>
            Ok (ElementStartOp
                  {| ElementOpBase.tag := ElementOpBase.tag e;
                     ElementOpBase.xref := ElementOpBase.xref e;
                     ElementOpBase.handle := ElementOpBase.handle e;
                     ElementOpBase.attributes := ElementOpBase.attributes e;
                     ElementOpBase.localRefs := LocalRefArray (l ++ refs);
                     ElementOpBase.namespace := ElementOpBase.namespace e;
                     ElementOpBase.i18nPlaceholder :=
                       ElementOpBase.i18nPlaceholder e;
                     ElementOpBase.sourceSpan := ElementOpBase.sourceSpan e |})
        | LocalRefConst _ => Throw "AssertionError: expected an array"
        end
      else Ok op
  | TemplateOp t =>
      if Nat.eqb (TemplateOp.xref t) xref then
        match TemplateOp.localRefs t with
        | LocalRefArray l =>
            Ok (TemplateOp
                  {| TemplateOp.xref := TemplateOp.xref t;
                     TemplateOp.handle := TemplateOp.handle t;
                     TemplateOp.tag := TemplateOp.tag t;
                     TemplateOp.functionNameSuffix :=
                       TemplateOp.functionNameSuffix t;
                     TemplateOp.attributes := TemplateOp.attributes t;
                     TemplateOp.localRefs := LocalRefArray (l ++ refs);
                     TemplateOp.namespace := TemplateOp.namespace t;
                     TemplateOp.i18nPlaceholder :=
                       TemplateOp.i18nPlaceholder t;
                     TemplateOp.sourceSpan := TemplateOp.sourceSpan t |})
        | LocalRefConst _ => Throw "AssertionError: expected an array"
        end
      else Ok op
  | _ => Ok op
  end.

Definition ingestReferences (unit : XrefId) (opXref : XrefId)
    (el : ElementLike) : M Job.t void :=
  let refs :=
    map (fun r => {| ref_name := r_name r; ref_target := r_value r |})
      (el_references el) in
  fun job =>
    let? us :=
      rmap (fun u =>
              if Nat.eqb (Unit.xref u) unit then
                let? c := rmap (pushLocalRefs opXref refs) (Unit.create u) in
                Ok (Unit.set_create c u)
              else Ok u) (Job.units job) in
    Ok (tt, Job.set_units us job).

(** [OpList.insertAfter(op, before)] and [OpList.insertBefore(op, after)],
    the op already in the list being told by [P]. *)
Fixpoint insertAfter (P : CreateOp → bool) (op : CreateOp)
    (l : list CreateOp) : list CreateOp :=
  match l with
  | [] => []
  | x :: r => if P x then x :: op :: r else x :: insertAfter P op r
  end.

Fixpoint insertBefore (P : CreateOp → bool) (op : CreateOp)
    (l : list CreateOp) : list CreateOp :=
  match l with
  | [] => []
  | x :: r => if P x then op :: x :: r else x :: insertBefore P op r
  end.

Definition isStartOp (id : XrefId) (op : CreateOp) : bool :=
  match op with
  | ElementStartOp e => Nat.eqb (ElementOpBase.xref e) id
  | _ => false
  end.

Definition isEndOp (id : XrefId) (op : CreateOp) : bool :=
  match op with
  | ElementEndOp x _ => Nat.eqb x id
  | _ => false
  end.

Definition ingestText (unit : XrefId) (text : TextNode) : M Job.t void :=
  let* xref := allocateXrefId in
  pushCreate unit
    [TextOp xref newSlotHandle (text_value text) (text_sourceSpan text)].

Definition ingestBoundText (unit : XrefId) (text : BoundTextNode)
    (i18nPlaceholders : option (list string)) : M Job.t void :=
  let value := unwrapSource (bt_value text) in
  match value with
  | InterpolationAst _ strs exprs =>
      match bt_i18n text with
      | Some (I18nMessage _ as m) | Some (I18nTagPlaceholder _ as m)
      | Some (I18nOtherMeta _ as m) =>
          throw ("Unhandled i18n metadata type for text interpolation: "
                 ++ i18nMetaName m)
      | _ =>
          let i18nPlaceholders :=
            match i18nPlaceholders with
            | Some l => l
            | None =>
                match bt_i18n text with
                | Some (I18nContainer children) =>
                    omap (fun c => match c with
                                   | I18nPlaceholder n => Some n
                                   | I18nOtherChild => None
                                   end) children
                | _ => []
                end
            end in
          if negb (Nat.eqb (length i18nPlaceholders) 0)
             && negb (Nat.eqb (length i18nPlaceholders) (length exprs))
          then
            throw ("Unexpected number of i18n placeholders ("
                   ++ pretty (length exprs) ++ ") for BoundText with "
                   ++ pretty (length exprs) ++ " expressions")
          else
            let* textXref := allocateXrefId in
            let* _ := pushCreate unit
                        [TextOp textXref newSlotHandle ""
                           (bt_sourceSpan text)] in
            let* job := get in
            let baseSourceSpan :=
              if Job.compatibility job then None else bt_sourceSpan text in
            let* es := mapM (fun expr => convertAst expr baseSourceSpan)
                         exprs in
            pushUpdate unit
              [InterpolateTextOp textXref
                 {| strings := strs; expressions := es |}
                 i18nPlaceholders (bt_sourceSpan text)]
      end
  | _ =>
      throw ("AssertionError: expected Interpolation for BoundText node, got "
             ++ constructorName value)
  end.

Definition ingestContent (unit : XrefId) (selector : string)
    (attributes : list TextAttribute) (sourceSpan : SourceSpan)
  : M Job.t void :=
  let* xref := allocateXrefId in
  let op := {| ProjectionOp.xref := xref;
               ProjectionOp.handle := newSlotHandle;
               ProjectionOp.selector := selector;
               ProjectionOp.projectionSlotIndex := 0;
               ProjectionOp.attributes := [];
               ProjectionOp.sourceSpan := sourceSpan |} in
  let* _ :=
    forEach (fun attr =>
               ingestBinding unit xref (ta_name attr)
                 (literalOf (ta_value attr)) BtAttribute None NONE
                 (ta_sourceSpan attr) TextValue) attributes in
  pushCreate unit [ProjectionOp op].

(** [Object.entries({...icu.vars, ...icu.placeholders})]: the keys of
    [vars] in order, a value replaced by the placeholder of the same key,
    then the remaining placeholders. *)
Definition icuEntries (vars : list (string * BoundTextNode))
    (placeholders : list (string * IcuPlaceholder))
  : list (string * IcuPlaceholder) :=
  let lookup k :=
    List.find (fun p => String.eqb (fst p) k) placeholders in
  map (fun '(k, v) =>
         match lookup k with
         | Some (_, p) => (k, p)
         | None => (k, IcuBoundText v)
         end) vars
  ++ List.filter
       (fun '(k, _) =>
          negb (existsb (fun v => String.eqb (fst v) k) vars))
       placeholders.

Definition ingestIcu (unit : XrefId) (vars : list (string * BoundTextNode))
    (placeholders : list (string * IcuPlaceholder))
    (i18n : option I18nMeta) : M Job.t void :=
  let unhandled :=
    ("Unhandled i18n metadata type for ICU: "
     ++ match i18n with Some m => i18nMetaName m | None => "undefined" end
    )%string in
  match i18n with
  | Some (I18nMessage message) =>
      if isSingleI18nIcu env message then
        let* xref := allocateXrefId in
        let* _ :=
          pushCreate unit
            [IcuStartOp
               {| IcuStartOp.xref := xref;
                  IcuStartOp.message := message;
                  IcuStartOp.messagePlaceholder :=
                    icuFromI18nMessage env message;
                  IcuStartOp.context := None;
                  IcuStartOp.sourceSpan := None |}] in
        let* _ :=
          forEach (fun '(placeholder, text) =>
                     match text with
                     | IcuBoundText t =>
                         ingestBoundText unit t (Some [placeholder])
                     | IcuText t => ingestText unit t
                     end) (icuEntries vars placeholders) in
        pushCreate unit [IcuEndOp xref]
      else throw unhandled
  | _ => throw unhandled
  end.

Section Blocks.
  (** The recursive call [ingestNodes(view, nodes)]. *)
Variable ingestNodes : XrefId → list Node → M Job.t void.

Definition checkI18n (what : string) (i18n : option I18nMeta)
  : M Job.t void :=
  match i18n with
  | Some (I18nContainer _ as m) | Some (I18nOtherMeta _ as m) =>
      throw ("Unhandled i18n metadata type for " ++ what ++ ": "
             ++ i18nMetaName m)
  | _ => ret tt
  end.

Definition tagPlaceholderOf (i18n : option I18nMeta)
  : option TagPlaceholder :=
  match i18n with Some (I18nTagPlaceholder p) => Some p | _ => None end.

Definition ingestElement (unit : XrefId) (name : string)
    (el : ElementLike) (children : list Node)
    (startSourceSpan endSourceSpan : SourceSpan) (i18n : option I18nMeta)
  : M Job.t void :=
  let* _ := checkI18n "element" i18n in
  let* id := allocateXrefId in
  let '(namespaceKey, elementName) := splitNsName env name in
  let startOp :=
    createElementStartOp elementName id (namespaceForKey env namespaceKey)
      (tagPlaceholderOf i18n) startSourceSpan in
  let* _ := pushCreate unit [ElementStartOp startOp] in
  let* _ := ingestBindings unit id (ElementOpBase.handle startOp)
              (ElementOpBase.tag startOp) el in
  let* _ := ingestReferences unit id el in
  let* _ := ingestNodes unit children in
  let endOp :=
    ElementEndOp id
      (match endSourceSpan with
       | Some s => Some s
       | None => startSourceSpan
       end) in
  let* _ := pushCreate unit [endOp] in
  match i18n with
  | Some (I18nMessage message) =>
      let* i18nBlockId := allocateXrefId in
      modify (Job.updateUnit unit
                (fun u =>
                   Unit.set_create
                     (insertBefore (isEndOp id) (I18nEndOp i18nBlockId)
                        (insertAfter (isStartOp id)
                           (I18nStartOp
                              (createI18nStartOp i18nBlockId message))
                           (Unit.create u))) u))
  | _ => ret tt
  end.

Definition ingestTemplate (unit : XrefId) (tagName : option string)
    (el : ElementLike) (children : list Node)
    (variables : list TVariable) (startSourceSpan : SourceSpan)
    (i18n : option I18nMeta) : M Job.t void :=
  let* _ := checkI18n "template" i18n in
  let* childView := allocateView unit in
  let '(namespacePrefix, tagNameWithoutNamespace) :=
    match tagName with
    | Some t =>
        if String.eqb t "" then (Some "", tagName)
        else let '(p, n) := splitNsName env t in (p, Some n)
    | None => (Some "", tagName)
    end in
  let i18nPlaceholder := tagPlaceholderOf i18n in
  let namespace := namespaceForKey env namespacePrefix in
  let functionNameSuffix :=
    match tagNameWithoutNamespace with
    | None => ""
    | Some t => prefixWithNamespace env t namespace
    end in
  let tplOp :=
    createTemplateOp childView tagNameWithoutNamespace functionNameSuffix
      namespace i18nPlaceholder startSourceSpan in
  let* _ := pushCreate unit [TemplateOp tplOp] in
  let* _ := ingestBindings unit childView (TemplateOp.handle tplOp)
              (TemplateOp.tag tplOp) el in
  let* _ := ingestReferences unit childView el in
  let* _ := ingestNodes childView children in
  let* _ :=
    forEach (fun v =>
               setContextVariable childView (var_name v)
                 (if String.eqb (var_value v) "" then "$implicit"
                  else var_value v)) variables in
  match i18n with
  | Some (I18nMessage message) =>
      if isPlainTemplate tagName then
        let* id := allocateXrefId in
        modify (Job.updateUnit childView
                  (fun u =>
                     Unit.set_create
                       ((I18nStartOp (createI18nStartOp id message)
                         :: Unit.create u) ++ [I18nEndOp id]) u))
      else ret tt
  | _ => ret tt
  end.

(** The body of the loop of [ingestIfBlock], for branch [i]; [first]
    holds [firstXref] and [firstSlotHandle]. *)
Definition ingestIfBranch (unit : XrefId) (i : nat)
    (ifCase : IfBlockBranch)
    (first : option (XrefId * SlotHandle))
    (conditions : list ConditionalCase)
  : M Job.t (option (XrefId * SlotHandle) * list ConditionalCase) :=
  let '(mkIfBlockBranch expression children expressionAlias sourceSpan) :=
    ifCase in
  let* cView := allocateView unit in
  let* tagName :=
    if Nat.eqb i 0
    then ingestControlFlowInsertionPoint unit cView children
    else ret None in
  let* _ :=
    match expressionAlias with
    | Some a => setContextVariable cView (var_name a) CTX_REF
    | None => ret tt
    end in
  let tmplOp :=
    createTemplateOp cView tagName "Conditional" NsHTML None sourceSpan in
  let* _ := pushCreate unit [TemplateOp tmplOp] in
  let first :=
    match first with
    | None => Some (cView, TemplateOp.handle tmplOp)
    | Some _ => first
    end in
  let* caseExpr := optM (fun e => convertAst e None) expression in
  let conditionalCaseExpr :=
    {| cc_expr := caseExpr; cc_target := TemplateOp.xref tmplOp;
       cc_targetSlot := TemplateOp.handle tmplOp;
       cc_alias := expressionAlias |} in
  let* _ := ingestNodes cView children in
  ret (first, conditions ++ [conditionalCaseExpr]).

Fixpoint ingestIfBranches (unit : XrefId) (i : nat)
    (branches : list IfBlockBranch)
    (first : option (XrefId * SlotHandle))
    (conditions : list ConditionalCase)
  : M Job.t (option (XrefId * SlotHandle) * list ConditionalCase) :=
  match branches with
  | [] => ret (first, conditions)
  | ifCase :: rest =>
      let* (first', conditions') :=
        ingestIfBranch unit i ifCase first conditions in
      ingestIfBranches unit (S i) rest first' conditions'
  end.

Definition createConditionalOp (target : option XrefId)
    (targetSlot : option SlotHandle) (test : option Expr)
    (conditions : list ConditionalCase) (sourceSpan : SourceSpan)
  : UpdateOp :=
  ConditionalOp {| ConditionalOp.target := target;
                   ConditionalOp.targetSlot := targetSlot;
                   ConditionalOp.test := test;
                   ConditionalOp.conditions := conditions;
                   ConditionalOp.processed := None;
                   ConditionalOp.contextValue := None;
                   ConditionalOp.sourceSpan := sourceSpan |}.

Definition ingestIfBlock (unit : XrefId) (branches : list IfBlockBranch)
    (sourceSpan : SourceSpan) : M Job.t void :=
  let* (first, conditions) := ingestIfBranches unit 0 branches None [] in
  pushUpdate unit
    [createConditionalOp (fst <$> first) (snd <$> first) None conditions
       sourceSpan].

Fixpoint ingestSwitchCases (unit : XrefId)
    (startSourceSpan : SourceSpan) (cases : list SwitchBlockCase)
    (first : option (XrefId * SlotHandle))
    (conditions : list ConditionalCase)
  : M Job.t (option (XrefId * SlotHandle) * list ConditionalCase) :=
  match cases with
  | [] => ret (first, conditions)
  | mkSwitchBlockCase expression children sourceSpan :: rest =>
      let* cView := allocateView unit in
      let tmplOp :=
        createTemplateOp cView None "Case" NsHTML None sourceSpan in
      let* _ := pushCreate unit [TemplateOp tmplOp] in
      let first :=
        match first with
        | None => Some (cView, TemplateOp.handle tmplOp)
        | Some _ => first
        end in
      let* caseExpr :=
        optM (fun e => convertAst e startSourceSpan) expression in
      let conditionalCaseExpr :=
        {| cc_expr := caseExpr; cc_target := TemplateOp.xref tmplOp;
           cc_targetSlot := TemplateOp.handle tmplOp;
           cc_alias := None |} in
      let* _ := ingestNodes cView children in
      ingestSwitchCases unit startSourceSpan rest first
        (conditions ++ [conditionalCaseExpr])
  end.

Definition ingestSwitchBlock (unit : XrefId) (expression : AST)
    (cases : list SwitchBlockCase)
    (sourceSpan startSourceSpan : SourceSpan) : M Job.t void :=
  let* (first, conditions) :=
    ingestSwitchCases unit startSourceSpan cases None [] in
  let* test := convertAst expression None in
  pushUpdate unit
    [createConditionalOp (fst <$> first) (snd <$> first) (Some test)
       conditions sourceSpan].

Definition ingestDeferView (unit : XrefId) (suffix : string)
    (children : option (list Node)) (sourceSpan : SourceSpan)
  : M Job.t (option TemplateOp.t) :=
  match children with
  | None => ret None
  | Some children =>
      let* secondaryView := allocateView unit in
      let* _ := ingestNodes secondaryView children in
      let templateOp :=
        createTemplateOp secondaryView None ("Defer" ++ suffix) NsHTML
          None sourceSpan in
      let* _ := pushCreate unit [TemplateOp templateOp] in
      ret (Some templateOp)
  end.

Definition partChildren (p : option DeferredBlockPart)
  : option (list Node) :=
  match p with
  | Some (mkDeferredBlockPart c _ _ _) => Some c
  | None => None
  end.
Definition partSourceSpan (p : option DeferredBlockPart) : SourceSpan :=
  match p with
  | Some (mkDeferredBlockPart _ _ _ s) => s
  | None => None
  end.
Definition partMinimumTime (p : option DeferredBlockPart) : option nat :=
  match p with
  | Some (mkDeferredBlockPart _ m _ _) => m
  | None => None
  end.
Definition partAfterTime (p : option DeferredBlockPart) : option nat :=
  match p with
  | Some (mkDeferredBlockPart _ _ a _) => a
  | None => None
  end.

Definition ingestDeferBlock (unit : XrefId) (identity : nat)
    (children : list Node)
    (triggers prefetchTriggers : DeferredBlockTriggers)
    (placeholder loading error : option DeferredBlockPart)
    (sourceSpan : SourceSpan) : M Job.t void :=
  let* job := get in
  match Job.deferBlocksMeta job !! identity with
  | None =>
      throw "AssertionError: unable to find metadata for deferred block"
  | Some blockMeta =>
      let* main := ingestDeferView unit "" (Some children) sourceSpan in
      let* loadingOp :=
        ingestDeferView unit "Loading" (partChildren loading)
          (partSourceSpan loading) in
      let* placeholderOp :=
        ingestDeferView unit "Placeholder" (partChildren placeholder)
          (partSourceSpan placeholder) in
      let* errorOp :=
        ingestDeferView unit "Error" (partChildren error)
          (partSourceSpan error) in
      match main with
      | None =>
          throw "TypeError: Cannot read properties of null (reading 'xref')"
      | Some main =>
          let* deferXref := allocateXrefId in
          let deferOp :=
            {| DeferOp.xref := deferXref;
               DeferOp.handle := newSlotHandle;
               DeferOp.mainView := TemplateOp.xref main;
               DeferOp.mainSlot := TemplateOp.handle main;
               DeferOp.metadata := blockMeta;
               DeferOp.loadingSlot := TemplateOp.handle <$> loadingOp;
               DeferOp.loadingConfig := None;
               DeferOp.loadingMinimumTime := partMinimumTime loading;
               DeferOp.loadingAfterTime := partAfterTime loading;
               DeferOp.placeholderView := TemplateOp.xref <$> placeholderOp;
               DeferOp.placeholderSlot :=
                 TemplateOp.handle <$> placeholderOp;
               DeferOp.placeholderConfig := None;
               DeferOp.placeholderMinimumTime :=
                 partMinimumTime placeholder;
               DeferOp.errorSlot := TemplateOp.handle <$> errorOp;
               DeferOp.resolverFn := None;
               DeferOp.sourceSpan := sourceSpan |} in
          let* _ := pushCreate unit [DeferOp deferOp] in
          let* (deferOnOps, deferWhenOps) :=
            ingestAllDeferTriggers deferXref triggers prefetchTriggers in
          let* _ := pushCreate unit (map DeferOnOp deferOnOps) in
          pushUpdate unit (map DeferWhenOp deferWhenOps)
      end
  end.

Definition ingestForBlock (unit : XrefId) (forBlock : ForLoop)
  : M Job.t void :=
  let '(mkForLoop item expression trackBy contextVariables children empty
          sourceSpan) := forBlock in
  let* repeaterView := allocateView unit in
  let createRepeaterAlias (ident : string)
      (repeaterVar : DerivedRepeaterVarIdentity) :=
    addAlias repeaterView
      {| alias_identifier := ident;
         alias_expression :=
           DerivedRepeaterVarExpr repeaterView repeaterVar |} in
  let* _ := setContextVariable repeaterView (var_name item)
              (var_value item) in
  let* _ := setContextVariable repeaterView
              (var_name (c_index contextVariables))
              (var_value (c_index contextVariables)) in
  let* _ := setContextVariable repeaterView
              (var_name (c_count contextVariables))
              (var_value (c_count contextVariables)) in
  let* _ := createRepeaterAlias (var_name (c_first contextVariables))
              First in
  let* _ := createRepeaterAlias (var_name (c_last contextVariables))
              Last in
  let* _ := createRepeaterAlias (var_name (c_even contextVariables))
              Even in
  let* _ := createRepeaterAlias (var_name (c_odd contextVariables)) Odd in
  let* track :=
    convertAst trackBy (convertSourceSpan (spanOf trackBy) sourceSpan) in
  let* _ := ingestNodes repeaterView children in
  let* emptyView :=
    match empty with
    | Some emptyChildren =>
        let* v := allocateView unit in
        let* _ := ingestNodes v emptyChildren in
        ret (Some v)
    | None => ret None
    end in
  let varNames :=
    {| v_index := var_name (c_index contextVariables);
       v_count := var_name (c_count contextVariables);
       v_first := var_name (c_first contextVariables);
       v_last := var_name (c_last contextVariables);
       v_even := var_name (c_even contextVariables);
       v_odd := var_name (c_odd contextVariables);
       v_implicit := var_name item |} in
  let* tagName :=
    ingestControlFlowInsertionPoint unit repeaterView children in
  let repeaterCreate :=
    {| RepeaterCreateOp.xref := repeaterView;
       RepeaterCreateOp.handle := newSlotHandle;
       RepeaterCreateOp.emptyView := emptyView;
       RepeaterCreateOp.tag := tagName;
       RepeaterCreateOp.attributes := None;
       RepeaterCreateOp.track := track;
       RepeaterCreateOp.trackByFn := None;
       RepeaterCreateOp.varNames := varNames;
       RepeaterCreateOp.usesComponentInstance := false;
       RepeaterCreateOp.decls := None;
       RepeaterCreateOp.vars := None;
       RepeaterCreateOp.sourceSpan := sourceSpan |} in
  let* _ := pushCreate unit [RepeaterCreateOp repeaterCreate] in
  let* collection :=
    convertAst expression
      (convertSourceSpan (spanOf expression) sourceSpan) in
  pushUpdate unit
    [RepeaterOp (RepeaterCreateOp.xref repeaterCreate)
       (RepeaterCreateOp.handle repeaterCreate) collection sourceSpan].

(** The body of the loop of [ingestNodes]. *)
Definition ingestNode (unit : XrefId) (node : Node) : M Job.t void :=
      match node with
      | Element name attributes inputs outputs children references
          startSourceSpan endSourceSpan i18n =>
          ingestElement unit name
            {| el_isTemplate := false; el_tagName := None;
               el_templateAttrs := []; el_attributes := attributes;
               el_inputs := inputs; el_outputs := outputs;
               el_references := references |}
            children startSourceSpan endSourceSpan i18n
      | Template tagName attributes inputs outputs templateAttrs children
          references variables startSourceSpan i18n =>
          ingestTemplate unit tagName
            {| el_isTemplate := true; el_tagName := tagName;
               el_templateAttrs := templateAttrs; el_attributes := attributes;
               el_inputs := inputs; el_outputs := outputs;
               el_references := references |}
            children variables startSourceSpan i18n
      | Content selector attributes sourceSpan =>
          ingestContent unit selector attributes sourceSpan
      | Text t => ingestText unit t
      | BoundText t => ingestBoundText unit t None
      | IfBlock branches sourceSpan => ingestIfBlock unit branches sourceSpan
      | SwitchBlock expression cases sourceSpan startSourceSpan =>
          ingestSwitchBlock unit expression cases sourceSpan startSourceSpan
      | DeferredBlock identity children triggers prefetchTriggers placeholder
          loading error sourceSpan =>
          ingestDeferBlock unit identity children triggers prefetchTriggers
            placeholder loading error sourceSpan
      | IcuNode vars placeholders i18n => ingestIcu unit vars placeholders i18n
      | ForLoopBlock forBlock => ingestForBlock unit forBlock
      | Comment _ | UnknownBlock _ =>
          throw ("Unsupported template node: " ++ nodeName node)
      end.
End Blocks.

(** The model's bound on the nesting depth of the template; not an error
    of the code. *)
Definition fuelExhausted : string := "model: nesting deeper than the fuel".

(** [ingestNodes(unit, template)]; every nested call spends one unit of
    fuel. *)
Fixpoint ingestNodes (fuel : nat) (unit : XrefId) (template : list Node)
  : M Job.t void :=
  match fuel with
  | 0 => throw fuelExhausted
  | S fuel' => forEach (ingestNode (ingestNodes fuel') unit) template
  end.

(** [new ComponentCompilationJob(...)]: the root view takes the first id.
    [compatibility] is the truth value of the job's compatibility mode. *)
Definition newComponentJob (componentName : string) (compatibility : bool)
    (deferBlocksMeta : gmap nat R3DeferBlockMetadata) : Job.t :=
  {| Job.kind := Tmpl;
     Job.componentName := componentName;
     Job.root := 0;
     Job.units := [Unit.empty 0 None];
     Job.nextXrefId := 1;
     Job.compatibility := compatibility;
     Job.deferBlocksMeta := deferBlocksMeta |}.

Definition ingestComponent (fuel : nat) (componentName : string)
    (template : list Node) (compatibility : bool)
    (deferBlocksMeta : gmap nat R3DeferBlockMetadata) : Result Job.t :=
  let job := newComponentJob componentName compatibility deferBlocksMeta in
  let? (_, job') := ingestNodes fuel (Job.root job) template job in
  Ok job'.

End WithCollaborators.
End Ingest.

(** ** Ingestion of host bindings (ingest.ts) *)

(** [e.ParsedProperty] and [e.ParsedEvent], as far as ingestion reads
    them.  [pp_expression] is [property.expression.ast] and [pe_handler] is
    [event.handler.ast]. *)
Record ParsedProperty := {
  pp_name : string;
  pp_expression : AST;
  pp_isAnimation : bool;
  pp_sourceSpan : SourceSpan }.

Record ParsedEvent := {
  pe_name : string;
  pe_targetOrPhase : option string;
  pe_handler : AST;
  pe_sourceSpan : SourceSpan;
  pe_handlerSpan : SourceSpan }.

(** [HostBindingInput].  [hb_attributes] is [Object.entries(input.attributes)]:
    the attributes in the order JavaScript enumerates them. *)
Record HostBindingInput := {
  hb_componentName : string;
  hb_properties : option (list ParsedProperty);
  hb_attributes : list (string * Expr);
  hb_events : option (list ParsedEvent) }.

Module IngestHost.
Section WithCollaborators.
Variable env : Collaborators.

(** Modelled from the spec: [new HostBindingCompilationJob(...)], whose
    class (compilation.ts) is not under src/: a job with the root unit alone,
    which takes the first id. *)
Definition newHostBindingJob (componentName : string) : Job.t :=
  {| Job.kind := Host;
     Job.componentName := componentName;
     Job.root := 0;
     Job.units := [Unit.empty 0 None];
     Job.nextXrefId := 1;
     Job.compatibility := true;
     Job.deferBlocksMeta := ∅ |}.

(** [property.name] once [ingestHostProperty] has looked at it. *)
Definition hostPropertyName (name : string) : string :=
  if String.prefix "attr." name
  then String.substring 5 (String.length name - 5) name
  else name.

Definition hostPropertyKind (property : ParsedProperty) : BindingKind :=
  if pp_isAnimation property then BkAnimation
  else if String.prefix "attr." (pp_name property) then BkAttribute
  else BkProperty.

Definition ingestHostProperty (property : ParsedProperty)
    (isTextAttribute : bool) : M Job.t void :=
  let ast := pp_expression property in
  let* expression :=
    match ast with
    | InterpolationAst _ strs exprs =>
        let* es :=
          mapM (fun expr => Ingest.convertAst env expr (pp_sourceSpan property))
            exprs in
        ret (Interp {| strings := strs; expressions := es |})
    | _ =>
        let* e := Ingest.convertAst env ast (pp_sourceSpan property) in
        ret (PlainExpr e)
    end in
  let* job := get in
  Ingest.pushUpdate (Job.root job)
    [Ingest.createBindingOp (Job.root job) (hostPropertyKind property)
       (hostPropertyName (pp_name property)) expression None NONE
       isTextAttribute false (pp_sourceSpan property)].

Definition ingestHostAttribute (name : string) (value : Expr)
  : M Job.t void :=
  let* job := get in
  Ingest.pushUpdate (Job.root job)
    [Ingest.createBindingOp (Job.root job) BkAttribute name (PlainExpr value)
       None NONE true false None].

Definition ingestHostEvent (event : ParsedEvent) : M Job.t void :=
  let* job := get in
  let eventBinding :=
    Ingest.createListenerOp (Job.root job) newSlotHandle (pe_name event)
      None (pe_targetOrPhase event) true (pe_sourceSpan event) in
  let* handler :=
    Ingest.convertAst env (pe_handler event) (pe_sourceSpan event) in
  Ingest.pushCreate (Job.root job)
    [ListenerOp
       (ListenerOp.set_handler
          [StatementOpU (ReturnStatement handler (pe_handlerSpan event))]
          (ListenerOp.consumesDollarEvent eventBinding) eventBinding)].

Definition ingestHostBinding (input : HostBindingInput) : Result Job.t :=
  let job := newHostBindingJob (hb_componentName input) in
  let? (_, job) :=
    (let* _ :=
       forEach (fun property => ingestHostProperty property false)
         (default [] (hb_properties input)) in
     let* _ :=
       forEach (fun '(name, expr) => ingestHostAttribute name expr)
         (hb_attributes input) in
     forEach ingestHostEvent (default [] (hb_events input))) job in
  Ok job.

End WithCollaborators.
End IngestHost.

(** * Specification vocabulary *)

(** ** Expressions and the expressions of an op *)

(** The sub-expressions the traversal visits. *)
Definition children (e : Expr) : list Expr :=
  match e with
  | ReadPropExpr r _ _ => [r]
  | ReadKeyExpr r i _ => [r; i]
  | WritePropExpr r _ v _ => [r; v]
  | WriteKeyExpr r i v _ => [r; i; v]
  | WriteVarExpr _ v => [v]
  | InvokeFunctionExpr f args _ => f :: args
  | BinaryOperatorExpr _ l r _ => [l; r]
  | ConditionalExpr c t f _ => [c; t; f]
  | LiteralArrayExpr es => es
  | LiteralMapExpr es _ => map (fun '(_, v, _) => v) es
  | RestoreViewExpr (inr v) => [v]
  | ResetViewExpr e => [e]
  | AssignTemporaryExpr e _ _ => [e]
  | PureFunctionExpr f _ args => option_list f ++ args
  | PipeBindingExpr _ _ _ args _ => args
  | PipeBindingVariadicExpr _ _ _ args _ _ => [args]
  | SafePropertyReadExpr r _ => [r]
  | SafeKeyedReadExpr r i _ => [r; i]
  | SafeInvokeFunctionExpr r args => r :: args
  | SafeTernaryExpr g e => [g; e]
  | ConditionalCaseExpr e _ _ _ => option_list e
  | _ => []
  end.

Import Reify.

(** The traversal with [reifyIrExpression] takes [e] to [e']. *)
Definition reifiesTo (flags : VisitorContextFlag) (e e' : Expr) : Prop :=
  transformExpressionsInExpression reifyTransform e flags tt = Ok (e', tt).

(** Whatever [e] reifies to holds no IR expression. *)
Definition reifiesFree (e : Expr) : Prop :=
  ∀ flags e', reifiesTo flags e e' → irFree e' = true.

Definition eoiFree (e : ExprOrInterpolation) : bool :=
  match e with
  | PlainExpr e => irFree e
  | Interp i => forallb irFree (expressions i)
  end.

(** A [Statement] op whose statement holds no IR expression. *)
Definition statementFreeU (op : UpdateOp) : Prop :=
  ∃ st, op = StatementOpU st ∧ irFreeStmt st = true.

Definition statementFreeC (op : CreateOp) : Prop :=
  ∃ st, op = StatementOpC st ∧ irFreeStmt st = true.

(** Some visited sub-expression satisfies [p]. *)
Fixpoint anyExpr (p : Expr → bool) (e : Expr) : bool :=
  p e ||
  match e with
  | ReadPropExpr r _ _ => anyExpr p r
  | ReadKeyExpr r i _ => anyExpr p r || anyExpr p i
  | WritePropExpr r _ v _ => anyExpr p r || anyExpr p v
  | WriteKeyExpr r i v _ => anyExpr p r || anyExpr p i || anyExpr p v
  | WriteVarExpr _ v => anyExpr p v
  | InvokeFunctionExpr f args _ => anyExpr p f || existsb (anyExpr p) args
  | BinaryOperatorExpr _ l r _ => anyExpr p l || anyExpr p r
  | ConditionalExpr c t f _ => anyExpr p c || anyExpr p t || anyExpr p f
  | LiteralArrayExpr es => existsb (anyExpr p) es
  | LiteralMapExpr es _ => existsb (fun '(_, v, _) => anyExpr p v) es
  | RestoreViewExpr (inr v) => anyExpr p v
  | ResetViewExpr e => anyExpr p e
  | AssignTemporaryExpr e _ _ => anyExpr p e
  | PureFunctionExpr f _ args =>
      match f with Some f => anyExpr p f | None => false end
      || existsb (anyExpr p) args
  | PipeBindingExpr _ _ _ args _ => existsb (anyExpr p) args
  | PipeBindingVariadicExpr _ _ _ args _ _ => anyExpr p args
  | SafePropertyReadExpr r _ => anyExpr p r
  | SafeKeyedReadExpr r i _ => anyExpr p r || anyExpr p i
  | SafeInvokeFunctionExpr r args => anyExpr p r || existsb (anyExpr p) args
  | SafeTernaryExpr g e => anyExpr p g || anyExpr p e
  | ConditionalCaseExpr (Some e) _ _ _ => anyExpr p e
  | _ => false
  end.

(** The expression itself is one [reifyIrExpression] refuses. *)
Definition rejected (e : Expr) : bool := negb (isOk (reifyIrExpression e)).

(** If the traversal with [reifyIrExpression] succeeds on [e], no
    sub-expression of [e] was one it refuses. *)
Definition reifiesClean (e : Expr) : Prop :=
  ∀ flags r,
    transformExpressionsInExpression reifyTransform e flags tt = Ok r →
    anyExpr rejected e = false.

Import ResolveDollarEvent.

(** A lexical read of the literal name [$event]. *)
Definition isDollarEventRead (e : Expr) : bool :=
  match e with
  | LexicalReadExpr name => String.eqb name "$event"
  | _ => false
  end.

Abbreviation readsEvent := (anyExpr isDollarEventRead).

(** What the traversal with [dollarEventTransform] does to an expression:
    the flag is raised exactly when a read of [$event] is met, and no such
    read is left. *)
Definition resolvesEvent (e : Expr) : Prop :=
  ∀ flags s e' s',
    transformExpressionsInExpression dollarEventTransform e flags s
    = Ok (e', s') →
    s' = s || readsEvent e ∧ readsEvent e' = false.

(** The expressions an op holds, as the traversal meets them. *)
Definition stmtExprs (st : Stmt) : list Expr :=
  match st with
  | ExpressionStatement e _ | ReturnStatement e _ => [e]
  | DeclareVarStmt _ v => option_list v
  end.

Definition eoiExprs (e : ExprOrInterpolation) : list Expr :=
  match e with
  | PlainExpr e => [e]
  | Interp i => expressions i
  end.

Definition updateOpExprs (op : UpdateOp) : list Expr :=
  match op with
  | StatementOpU st => stmtExprs st
  | VariableOpU _ _ init => [init]
  | AdvanceOp _ _ | I18nApplyOp _ _ _ => []
  | BindingOp b => eoiExprs (BindingOp.expression b)
  | PropertyOp p | AttributeOp p =>
      eoiExprs (PropertyOp.expression p) ++ option_list (PropertyOp.sanitizer p)
  | StylePropOp _ _ e _ _ | StyleMapOp _ e _ | ClassMapOp _ e _
  | HostPropertyOp _ e _ _ => eoiExprs e
  | ClassPropOp _ _ e _ | I18nExpressionOp _ e _ => [e]
  | InterpolateTextOp _ i _ _ => expressions i
  | ConditionalOp c =>
      option_list (ConditionalOp.test c)
      ++ flat_map (fun c => option_list (cc_expr c)) (ConditionalOp.conditions c)
      ++ option_list (ConditionalOp.processed c)
      ++ option_list (ConditionalOp.contextValue c)
  | RepeaterOp _ _ c _ => [c]
  | DeferWhenOp d => [DeferWhenOp.expr d]
  end.

Definition createOpExprs (op : CreateOp) : list Expr :=
  match op with
  | StatementOpC st => stmtExprs st
  | VariableOpC _ _ init => [init]
  | ListenerOp l => flat_map updateOpExprs (ListenerOp.handlerOps l)
  | ExtractedAttributeOp _ _ _ e => option_list e
  | ProjectionDefOp d => option_list d
  | RepeaterCreateOp r =>
      RepeaterCreateOp.track r :: option_list (RepeaterCreateOp.trackByFn r)
  | DeferOp d =>
      option_list (DeferOp.loadingConfig d)
      ++ option_list (DeferOp.placeholderConfig d)
      ++ option_list (DeferOp.resolverFn d)
  | _ => []
  end.

(** A traversal that scans for [p]: the state is raised exactly when a
    sub-expression satisfies [p], and the result holds none. *)
Definition scans (transform : Expr → VisitorContextFlag → M bool Expr)
    (p : Expr → bool) (e : Expr) : Prop :=
  ∀ flags s e' s',
    transformExpressionsInExpression transform e flags s = Ok (e', s') →
    s' = s || anyExpr p e ∧ anyExpr p e' = false.

(** ** The cases of reification *)

(** The IR expression kinds [reifyIrExpression] has a [case] for. *)
Definition hasExpressionCase (k : ExpressionKind) : bool :=
  match k with
  | KNextContext | KReference | KLexicalRead | KRestoreView | KResetView
  | KGetCurrentView | KReadVariable | KReadTemporaryExpr
  | KAssignTemporaryExpr | KPureFunctionExpr | KPureFunctionParameterExpr
  | KPipeBinding | KPipeBindingVariadic | KSanitizerExpr
  | KSlotLiteralExpr => true
  | _ => false
  end.

(** The update op kinds [reifyUpdateOperations] has a [case] for. *)
Definition hasUpdateCase (op : UpdateOp) : bool :=
  match op with
  | BindingOp _ => false
  | _ => true
  end.

(** The create op kinds [reifyCreateOperations] has a [case] for. *)
Definition hasCreateCase (op : CreateOp) : bool :=
  match op with
  | ExtractedAttributeOp _ _ _ _ | IcuStartOp _ | IcuEndOp _
  | I18nContextOp _ => false
  | _ => true
  end.

(** An IR expression of a kind without a [case]. *)
Definition noCase (e : Expr) : bool :=
  match kindOf e with
  | Some k => negb (hasExpressionCase k)
  | None => false
  end.

(** ** Listeners and [$event] *)

(** Some expression of the handler ops is, or holds, a read of [$event]. *)
Definition handlerReadsDollarEvent (ops : list UpdateOp) : bool :=
  existsb (anyExpr isDollarEventRead) (flat_map updateOpExprs ops).

(** The parameters a function expression declares. *)
Definition fnParams (fn : Expr) : list string :=
  match fn with
  | FunctionExpr params _ _ => params
  | _ => []
  end.

(** ** Owners of properties *)

Import ResolveSanitizers.

(** The op's declared target id resolves to an element-like owner op. *)
Definition ownerResolves (unit : Unit.t) (p : PropertyOp.t) : bool :=
  match createOpXrefMap unit !! PropertyOp.target p with
  | Some owner => isElementOrContainerOp owner
  | None => false
  end.

(** C4 as stated: an op whose target resolves to no element-like owner
    makes the phase fail. *)
Definition unresolved_owner_is_fatal : Prop :=
  ∀ truthy sens (job : Job.t) (unit : Unit.t) (p : PropertyOp.t),
    In unit (Job.units job) →
    In (PropertyOp p) (Unit.update unit) →
    ownerResolves unit p = false →
    isOk (resolveSanitizers truthy sens job) = false.

Definition danglingUrlProperty : PropertyOp.t :=
  {| PropertyOp.target := 7;
     PropertyOp.name := "href";
     PropertyOp.expression := PlainExpr (ReadVarExpr (Some "link"));
     PropertyOp.sanitizer := None;
     PropertyOp.securityContext := URL;
     PropertyOp.sourceSpan := None |}.

Definition danglingUrlUnit : Unit.t :=
  Unit.set_update [PropertyOp danglingUrlProperty] (Unit.empty 0 None).

Definition danglingUrlJob : Job.t :=
  {| Job.kind := Tmpl; Job.componentName := "C"; Job.root := 0;
     Job.units := [danglingUrlUnit];
     Job.nextXrefId := 8; Job.compatibility := true;
     Job.deferBlocksMeta := ∅ |}.

(** ** Context expressions and views *)

Import Ingest.

(** A context expression that names another view than [owner]. *)
Definition foreignContext (owner : XrefId) (e : Expr) : bool :=
  match e with
  | ContextExpr view => negb (Nat.eqb view owner)
  | _ => false
  end.

(** C7 as stated: whatever view an expression is ingested into, the context
    expressions of its ops name that view. *)
Definition context_names_owning_view : Prop :=
  ∀ env fuel name template compatibility meta job,
    ingestComponent env fuel name template compatibility meta = Ok job →
    ∀ unit op,
      In unit (Job.units job) → In op (Unit.update unit) →
      existsb (anyExpr (foreignContext (Unit.xref unit))) (updateOpExprs op)
      = false.

Definition plainEnv : Collaborators :=
  {| splitNsName := fun s => (None, s);
     namespaceForKey := fun _ => NsHTML;
     prefixWithNamespace := fun s _ => s;
     BINARY_OPERATORS := fun _ => None;
     isSingleI18nIcu := fun _ => true;
     icuFromI18nMessage := fun m => id m |}.

Definition noSpan : ParseSpan := {| span_start := 0; span_end := 0 |}.

(** [@if (show) { {{ this.title }} }]. *)
Definition thisInBranch : list Node :=
  [IfBlock
     [mkIfBlockBranch
        (Some (PropertyRead noSpan (ImplicitReceiver noSpan) "show"))
        [BoundText
           {| bt_value :=
                ASTWithSource noSpan
                  (InterpolationAst noSpan [""; ""]
                     [PropertyRead noSpan (ThisReceiver noSpan) "title"]);
              bt_sourceSpan := None; bt_i18n := None |}]
        None None]
     None].

Definition thisInBranchOp : UpdateOp :=
  InterpolateTextOp 2
    {| strings := [""; ""];
       expressions := [ReadPropExpr (ContextExpr 0) "title" None] |}
    [] None.

(** The view of the branch, as ingestion leaves it. *)
Definition thisInBranchView : Unit.t :=
  Unit.set_update [thisInBranchOp]
    (Unit.set_create [TextOp 2 newSlotHandle "" None]
       (Unit.empty 1 (Some 0))).

(** ** Triggers of deferred blocks *)

(** The group configures no [on] trigger and no [when] trigger. *)
Definition noTriggers (t : DeferredBlockTriggers) : Prop :=
  when t = None ∧ idle t = None ∧ immediate t = None ∧ hover t = None
  ∧ timer t = None ∧ interaction t = None ∧ viewport t = None.

(** The [on] triggers a group configures, in the order the code looks at
    them. *)
Definition configuredOn (t : DeferredBlockTriggers) : list DeferTriggerKind :=
  let on {A} (o : option A) (k : DeferTriggerKind) :=
    match o with Some _ => [k] | None => [] end in
  on (idle t) Idle ++ on (immediate t) Immediate ++ on (timer t) Timer
  ++ on (hover t) Hover ++ on (interaction t) Interaction
  ++ on (viewport t) Viewport.

Definition kindOfOn (op : DeferOnOp.t) : DeferTriggerKind :=
  triggerKind (DeferOnOp.trigger op).

(** The [DeferOn] ops one group contributes by itself. *)
Definition explicitOn (deferXref : XrefId) (t : DeferredBlockTriggers)
    (prefetch : bool) : list DeferOnOp.t :=
  option_list
    ((fun t => createDeferOnOp deferXref IdleTrigger prefetch
                 (trigger_sourceSpan t)) <$> idle t)
  ++ option_list
       ((fun t => createDeferOnOp deferXref ImmediateTrigger prefetch
                    (trigger_sourceSpan t)) <$> immediate t)
  ++ option_list
       ((fun t => createDeferOnOp deferXref (TimerTrigger (timer_delay t))
                    prefetch (timer_sourceSpan t)) <$> timer t)
  ++ option_list
       ((fun t => createDeferOnOp deferXref
                    (HoverTrigger (unresolvedTarget (trigger_reference t)))
                    prefetch (reference_sourceSpan t)) <$> hover t)
  ++ option_list
       ((fun t => createDeferOnOp deferXref
                    (InteractionTrigger
                       (unresolvedTarget (trigger_reference t)))
                    prefetch (reference_sourceSpan t)) <$> interaction t)
  ++ option_list
       ((fun t => createDeferOnOp deferXref
                    (ViewportTrigger (unresolvedTarget (trigger_reference t)))
                    prefetch (reference_sourceSpan t)) <$> viewport t).

(** ** Control-flow branches *)

Definition fooAttr : TextAttribute :=
  {| ta_name := "foo"; ta_value := "1"; ta_sourceSpan := None |}.

Definition divFoo : Node :=
  Element "div" [fooAttr] [] [] [] [] None None None.

Definition helloText : Node :=
  Text {| text_value := "hello"; text_sourceSpan := None |}.

Definition ifShow (children : list Node) : list Node :=
  [IfBlock
     [mkIfBlockBranch
        (Some (PropertyRead noSpan (ImplicitReceiver noSpan) "show"))
        children None None]
     None].

(** The wrapper of the first branch: the [Template] op of the root view, and
    the bindings copied onto it. *)
Definition wrapperOf (r : Result Job.t)
  : option (option string * list UpdateOp) :=
  match r with
  | Ok job =>
      match Job.view 0 job with
      | Some root =>
          match Unit.create root with
          | [TemplateOp t] =>
              Some (TemplateOp.tag t,
                    List.filter (fun op => match op with
                                           | BindingOp _ => true
                                           | _ => false
                                           end) (Unit.update root))
          | _ => None
          end
      | None => None
      end
  | Throw _ => None
  end.

Definition copiedFoo : UpdateOp :=
  createBindingOp 1 BkAttribute "foo"
    (PlainExpr (LiteralExpr (LitStr "1") None)) None NONE true false None.

(** ** Nested i18n blocks *)

Import CreateI18nContexts.

Definition greeting : Message := {| id := "m1"; messageString := "{count, plural, ...}" |}.

Definition rootBlock : I18nStartOp.t :=
  {| I18nStartOp.xref := 1; I18nStartOp.handle := newSlotHandle;
     I18nStartOp.root := 1; I18nStartOp.message := greeting;
     I18nStartOp.context := None; I18nStartOp.messageIndex := None;
     I18nStartOp.subTemplateIndex := None |}.

Definition childBlock : I18nStartOp.t :=
  {| I18nStartOp.xref := 3; I18nStartOp.handle := newSlotHandle;
     I18nStartOp.root := 1; I18nStartOp.message := greeting;
     I18nStartOp.context := None; I18nStartOp.messageIndex := None;
     I18nStartOp.subTemplateIndex := None |}.

Definition childIcu : IcuStartOp.t :=
  {| IcuStartOp.xref := 4; IcuStartOp.message := greeting;
     IcuStartOp.messagePlaceholder := "ICU"; IcuStartOp.context := None;
     IcuStartOp.sourceSpan := None |}.

(** A root i18n block around a template, and in the template's view the
    child block of the same message with an ICU of that message. *)
Definition icuInChildBlock : Job.t :=
  {| Job.kind := Tmpl; Job.componentName := "C"; Job.root := 0;
     Job.units :=
       [Unit.set_create
          [I18nStartOp rootBlock;
           TemplateOp (Ingest.createTemplateOp 2 None "" NsHTML None None);
           I18nEndOp 1]
          (Unit.empty 0 None);
        Unit.set_create
          [I18nStartOp childBlock; IcuStartOp childIcu; IcuEndOp 4;
           I18nEndOp 3]
          (Unit.empty 2 (Some 0))];
     Job.nextXrefId := 5; Job.compatibility := true;
     Job.deferBlocksMeta := ∅ |}.

(** The contexts of the i18n blocks and ICUs of a unit, by xref. *)
Definition contextsOf (unit : Unit.t) : list (XrefId * option XrefId) :=
  omap (fun op => match op with
                  | I18nStartOp o =>
                      Some (I18nStartOp.xref o, I18nStartOp.context o)
                  | IcuStartOp i =>
                      Some (IcuStartOp.xref i, IcuStartOp.context i)
                  | _ => None
                  end) (Unit.create unit).

Definition contextsAfter (job : Job.t) : option (list (list (XrefId * option XrefId))) :=
  match createI18nContexts job with
  | Ok job' => Some (map contextsOf (Job.units job'))
  | Throw _ => None
  end.

(** ** Sample inputs *)

(** A listener on a button whose handler returns [$event]. *)
Definition clickHandler : list UpdateOp :=
  [StatementOpU (ReturnStatement (LexicalReadExpr "$event") None)].

Definition clickListener : ListenerOp.t :=
  ListenerOp.set_handler clickHandler false
    (createListenerOp 1 {| slot := Some 0 |} "click" (Some "button") None
       false None).

(** The same listener once [$event] is resolved. *)
Definition clickListenerResolved : ListenerOp.t :=
  ListenerOp.set_handler
    [StatementOpU (ReturnStatement (ReadVarExpr (Some "$event")) None)]
    true clickListener.

(** A root view with a text node, a listener, and the text's interpolation. *)
Definition sampleJob : Job.t :=
  {| Job.kind := Tmpl; Job.componentName := "C"; Job.root := 0;
     Job.units :=
       [Unit.set_update
          [AdvanceOp 1 None;
           InterpolateTextOp 1
             {| strings := ["a"; "b"];
                expressions := [ReadVarExpr (Some "ctx")] |} [] None]
          (Unit.set_create
             [TextOp 1 {| slot := Some 0 |} "" None;
              ListenerOp clickListenerResolved]
             (Unit.empty 0 None))];
     Job.nextXrefId := 2; Job.compatibility := true;
     Job.deferBlocksMeta := ∅ |}.

(** A read of [$event] in an update op, outside any listener. *)
Definition strayEventRead : UpdateOp :=
  StatementOpU (ReturnStatement (LexicalReadExpr "$event") None).

(** Every sanitizer function is a truthy value; no attribute is
    iframe-sensitive. *)
Definition allTruthy (f : SanitizerFn) : bool := true.
Definition notSensitive (name : string) : bool := false.

(** A property with no security context whose target names no create op. *)
Definition danglingPlainProperty : PropertyOp.t :=
  {| PropertyOp.target := 7;
     PropertyOp.name := "title";
     PropertyOp.expression := PlainExpr (ReadVarExpr (Some "title"));
     PropertyOp.sanitizer := None;
     PropertyOp.securityContext := NONE;
     PropertyOp.sourceSpan := None |}.

Definition danglingPlainUnit : Unit.t :=
  Unit.set_update [PropertyOp danglingPlainProperty] (Unit.empty 0 None).

Definition danglingPlainJob : Job.t :=
  Job.set_units [danglingPlainUnit] danglingUrlJob.

(** The truthiness of the members of a numeric enumeration that declares
    [Html] first: its value is 0, the only falsy one. *)
Definition htmlFalsy (f : SanitizerFn) : bool :=
  match f with Html => false | _ => true end.




(** [@defer (prefetch on hover(btn)) { }]: nothing in the primary group. *)
Definition emptyTriggers : DeferredBlockTriggers :=
  {| when := None; idle := None; immediate := None; hover := None;
     timer := None; interaction := None; viewport := None |}.

Definition hoverPrefetch : DeferredBlockTriggers :=
  {| when := None; idle := None; immediate := None;
     hover := Some {| trigger_reference := Some "btn";
                      reference_sourceSpan := None |};
     timer := None; interaction := None; viewport := None |}.

Definition deferJob : Job.t :=
  newComponentJob "C" true {[ 0 := {| deps := [] |} ]}.

(** The method call [f()] and the malformed call on the receiver itself. *)
Definition callOfF : AST :=
  Call noSpan (PropertyRead noSpan (ImplicitReceiver noSpan) "f") [].

(** [this.title = 1]. *)
Definition writeTitle : AST :=
  PropertyWrite noSpan (ThisReceiver noSpan) "title"
    (LiteralPrimitive noSpan (LitNum 1)).

(** ** Pipes of a template expression *)

(** The sub-expressions of a template expression. *)
Definition astChildren (ast : AST) : list AST :=
  match ast with
  | ASTWithSource _ a | NonNullAssert _ a | PrefixNot _ a => [a]
  | PropertyRead _ r _ | SafePropertyRead _ r _ => [r]
  | PropertyWrite _ r _ v => [r; v]
  | KeyedRead _ r k | SafeKeyedRead _ r k => [r; k]
  | KeyedWrite _ r k v => [r; k; v]
  | Call _ r args | SafeCall _ r args => r :: args
  | Binary _ _ l r => [l; r]
  | Chain _ es | LiteralArray _ es | InterpolationAst _ _ es => es
  | LiteralMap _ _ values => values
  | Conditional _ c t f => [c; t; f]
  | BindingPipe _ e _ args => e :: args
  | ImplicitReceiver _ | ThisReceiver _ | LiteralPrimitive _ _
  | EmptyExprAst _ => []
  end.

Definition sum (l : list nat) : nat := foldr Nat.add 0 l.

(** The number of pipes conversion meets in an expression.  A literal map is
    walked along its keys, so the values past the last key are not met. *)
Fixpoint pipeCount (ast : AST) : nat :=
  match ast with
  | ASTWithSource _ a | NonNullAssert _ a => pipeCount a
  | PropertyRead _ r _ | SafePropertyRead _ r _ => pipeCount r
  | PropertyWrite _ r _ v => pipeCount r + pipeCount v
  | KeyedRead _ r k | SafeKeyedRead _ r k => pipeCount r + pipeCount k
  | KeyedWrite _ r k v => pipeCount r + pipeCount k + pipeCount v
  | Call _ r args | SafeCall _ r args =>
      pipeCount r + sum (map pipeCount args)
  | Binary _ _ l r => pipeCount l + pipeCount r
  | LiteralArray _ es => sum (map pipeCount es)
  | LiteralMap _ keys values =>
      sum (take (length keys) (map pipeCount values))
  | Conditional _ c t f => pipeCount c + pipeCount t + pipeCount f
  | BindingPipe _ e _ args => S (pipeCount e + sum (map pipeCount args))
  | _ => 0
  end.

(** The ids of the pipe bindings of an output expression, an outer pipe
    before the pipes of its arguments, sub-expressions from left to right. *)
Fixpoint pipeXrefs (e : Expr) : list XrefId :=
  match e with
  | ReadPropExpr r _ _ => pipeXrefs r
  | ReadKeyExpr r i _ => pipeXrefs r ++ pipeXrefs i
  | WritePropExpr r _ v _ => pipeXrefs r ++ pipeXrefs v
  | WriteKeyExpr r i v _ => pipeXrefs r ++ pipeXrefs i ++ pipeXrefs v
  | WriteVarExpr _ v => pipeXrefs v
  | InvokeFunctionExpr f args _ => pipeXrefs f ++ flat_map pipeXrefs args
  | BinaryOperatorExpr _ l r _ => pipeXrefs l ++ pipeXrefs r
  | ConditionalExpr c t f _ => pipeXrefs c ++ pipeXrefs t ++ pipeXrefs f
  | LiteralArrayExpr es => flat_map pipeXrefs es
  | LiteralMapExpr es _ => flat_map (fun '(_, v, _) => pipeXrefs v) es
  | PipeBindingExpr x _ _ args _ => x :: flat_map pipeXrefs args
  | SafePropertyReadExpr r _ => pipeXrefs r
  | SafeKeyedReadExpr r i _ => pipeXrefs r ++ pipeXrefs i
  | SafeInvokeFunctionExpr r args => pipeXrefs r ++ flat_map pipeXrefs args
  | _ => []
  end.

(** The job with its id counter advanced by [n]. *)
Definition advanced (n : nat) (job : Job.t) : Job.t :=
  Job.set_nextXrefId (Job.nextXrefId job + n) job.

Section Convertible.
Variable env : Collaborators.

(** The expressions conversion accepts. *)
Fixpoint convertible (ast : AST) : bool :=
  match ast with
  | ASTWithSource _ a | NonNullAssert _ a => convertible a
  | PropertyRead _ r _ =>
      isImplicitReceiver r && negb (isThisReceiver r) || convertible r
  | PropertyWrite _ r _ v => (isImplicitReceiver r || convertible r) && convertible v
  | KeyedRead _ r k | SafeKeyedRead _ r k => convertible r && convertible k
  | KeyedWrite _ r k v => convertible r && convertible k && convertible v
  | Call _ r args =>
      negb (isImplicitReceiver r) && convertible r && forallb convertible args
  | SafeCall _ r args => convertible r && forallb convertible args
  | Binary _ operation l r =>
      match BINARY_OPERATORS env operation with
      | Some _ => convertible l && convertible r
      | None => false
      end
  | LiteralArray _ es => forallb convertible es
  | LiteralMap _ keys values =>
      Nat.leb (length keys) (length values)
      && forallb (fun b => b) (take (length keys) (map convertible values))
  | Conditional _ c t f => convertible c && convertible t && convertible f
  | BindingPipe _ e _ args => convertible e && forallb convertible args
  | SafePropertyRead _ r _ => convertible r
  | LiteralPrimitive _ _ | ThisReceiver _ | EmptyExprAst _ => true
  | Chain _ _ | ImplicitReceiver _ | InterpolationAst _ _ _ | PrefixNot _ _ =>
      false
  end.
End Convertible.

Section ConversionFacts.
Variable env : Collaborators.

(** What one conversion does: the counter moves by the number of pipes, and
    the pipes of the result take the ids in between. *)
Definition convertsWell (ast : AST) : Prop :=
  ∀ span job e job',
    convertAst env ast span job = Ok (e, job') →
    job' = advanced (pipeCount ast) job
    ∧ pipeXrefs e = seq (Job.nextXrefId job) (pipeCount ast).

(** Conversion succeeds on [ast] exactly when [convertible] says so. *)
Definition accepts (ast : AST) : Prop :=
  ∀ span job, isOk (convertAst env ast span job) = convertible env ast.
End ConversionFacts.

(** ** The views of a job *)

(** The ids of the views, in the order the views were allocated. *)
Definition viewIds (job : Job.t) : list XrefId :=
  map Unit.xref (Job.units job).

(** A view without a parent is the root; the parent of any other view is a
    view of the job with a smaller id. *)
Definition parentOk (root : XrefId) (ids : list XrefId) (u : Unit.t)
  : Prop :=
  match Unit.parent u with
  | None => Unit.xref u = root
  | Some p => (p < Unit.xref u)%nat ∧ In p ids
  end.

(** The views have distinct ids below the id counter and form a tree. *)
Record wellFormed (job : Job.t) : Prop := {
  wf_distinct : NoDup (viewIds job);
  wf_below : Forall (fun x => (x < Job.nextXrefId job)%nat) (viewIds job);
  wf_parents :
    Forall (parentOk (Job.root job) (viewIds job)) (Job.units job) }.

(** [job'] has the views of [job], in place, and maybe more; the counter has
    not gone back and the rest of the job is the same. *)
Record extends (job job' : Job.t) : Prop := {
  ext_views : ∃ new, viewIds job' = viewIds job ++ new;
  ext_parents :
    ∃ new, map Unit.parent (Job.units job')
           = map Unit.parent (Job.units job) ++ new;
  ext_next : (Job.nextXrefId job ≤ Job.nextXrefId job')%nat;
  ext_root : Job.root job' = Job.root job;
  ext_kind : Job.kind job' = Job.kind job;
  ext_name : Job.componentName job' = Job.componentName job;
  ext_compatibility : Job.compatibility job' = Job.compatibility job;
  ext_meta : Job.deferBlocksMeta job' = Job.deferBlocksMeta job }.

(** Code that, run on a well-formed job holding the views [us], leaves a
    well-formed job that extends it. *)
Definition keeps {A} (us : list XrefId) (c : M Job.t A) : Prop :=
  ∀ job a job',
    c job = Ok (a, job') →
    wellFormed job → Forall (fun u => In u (viewIds job)) us →
    wellFormed job' ∧ extends job job'.

(** An update of one view that keeps its id and its parent. *)
Definition sameView (f : Unit.t → Unit.t) : Prop :=
  ∀ u, Unit.xref (f u) = Unit.xref u ∧ Unit.parent (f u) = Unit.parent u.

(** ** The views ingestion touches *)

(** [job'] has every view of [job] whose id is not in [vs] as it was; the
    id counter has not gone back. *)
Definition untouched (vs : list XrefId) (job job' : Job.t) : Prop :=
  (Job.nextXrefId job ≤ Job.nextXrefId job')%nat
  ∧ ∀ x, (x < Job.nextXrefId job)%nat → ¬ In x vs →
         Job.view x job' = Job.view x job.

(** Code that touches the views [vs] and the views it allocates only. *)
Definition touches {A} (vs : list XrefId) (c : M Job.t A) : Prop :=
  ∀ job a job', c job = Ok (a, job') → untouched vs job job'.

(** ** The conditions of a conditional *)

Definition branchExpression (b : IfBlockBranch) : option AST :=
  match b with mkIfBlockBranch e _ _ _ => e end.
Definition branchAlias (b : IfBlockBranch) : option TVariable :=
  match b with mkIfBlockBranch _ _ a _ => a end.
Definition caseExpression (c : SwitchBlockCase) : option AST :=
  match c with mkSwitchBlockCase e _ _ => e end.

(** The condition of a branch: it has the alias, and a test exactly when
    the branch or case has one. *)
Definition conditionOf (expression : option AST) (alias : option TVariable)
    (c : ConditionalCase) : Prop :=
  cc_alias c = alias ∧ (cc_expr c = None ↔ expression = None).

(** Ids in increasing order, from [lo] on and below [hi]. *)
Fixpoint increasingWithin (lo hi : XrefId) (l : list XrefId) : Prop :=
  match l with
  | [] => (lo ≤ hi)%nat
  | x :: r => (lo ≤ x)%nat ∧ increasingWithin (S x) hi r
  end.

(** The conditional op that ends an [@if] or [@switch] block. *)
Definition conditionalOf (test : option Expr)
    (conditions : list ConditionalCase) (sourceSpan : SourceSpan)
  : UpdateOp :=
  createConditionalOp (head (map cc_target conditions))
    (head (map cc_targetSlot conditions)) test conditions sourceSpan.

(** ** What a block appends to its view *)

(** A view with create ops and update ops appended. *)
Definition growBy (cs : list CreateOp) (us : list UpdateOp) (u : Unit.t)
  : Unit.t :=
  Unit.set_update (Unit.update u ++ us)
    (Unit.set_create (Unit.create u ++ cs) u).

(** From [job] to [job'] the view [unit] has got [cs] and [us] at the end of
    its lists and is otherwise the same; the counter has not gone back. *)
Record grown (unit : XrefId) (cs : list CreateOp) (us : list UpdateOp)
    (job job' : Job.t) : Prop := {
  gr_next : (Job.nextXrefId job ≤ Job.nextXrefId job')%nat;
  gr_view : Job.view unit job' = growBy cs us <$> Job.view unit job }.

(** The bindings that content projection copies from the single root
    element of a branch to the template of the branch: one text attribute
    binding for each static attribute of the root. *)
Definition projectedBindings (xref : XrefId) (children : list Node)
  : list UpdateOp :=
  match findRoot children None with
  | Some (Some root) =>
      map (fun attr =>
             createBindingOp xref BkAttribute (ta_name attr)
               (PlainExpr (LiteralExpr (LitStr (ta_value attr)) None))
               None NONE true false (ta_sourceSpan attr))
        (rootAttributes root)
  | _ => []
  end.

(** A view of the job with this id, allocated under [parent]. *)
Definition childView (job : Job.t) (parent x : XrefId) : Prop :=
  ∃ v, Job.view x job = Some v ∧ Unit.parent v = Some parent.

(** ** Listeners as ingested *)

(** The expressions of a handler: those of a chain, or the handler alone. *)
Definition handlerExpressions (output : BoundEvent) : list AST :=
  let handler := unwrapSource (be_handler output) in
  match handler with
  | Chain _ expressions => expressions
  | _ => [handler]
  end.

(** The handler ops for the converted expressions: a statement for each but
    the last, which is returned. *)
Definition handlerStatements (exprs : list Expr) (returned : Expr)
  : list UpdateOp :=
  map (fun e => StatementOpU (ExpressionStatement e (sourceSpanOf e))) exprs
  ++ [StatementOpU (ReturnStatement returned (sourceSpanOf returned))].

(** The views of two jobs agree on everything reification does not
    rewrite. *)
Definition sameShape (u u' : Unit.t) : Prop :=
  Unit.xref u' = Unit.xref u
  ∧ Unit.parent u' = Unit.parent u
  ∧ Unit.contextVariables u' = Unit.contextVariables u
  ∧ Unit.aliases u' = Unit.aliases u
  ∧ Unit.fnName u' = Unit.fnName u
  ∧ Unit.decls u' = Unit.decls u
  ∧ Unit.vars u' = Unit.vars u
  ∧ length (Unit.create u') = length (Unit.create u)
  ∧ length (Unit.update u') = length (Unit.update u).

(** ** Host bindings as ingested *)

Import IngestHost.

(** What a binding op binds: its target, kind and name, and whether it is a
    text attribute. *)
Definition bindingOf (op : UpdateOp)
  : option (XrefId * BindingKind * string * bool) :=
  match op with
  | BindingOp b =>
      Some (BindingOp.target b, BindingOp.kind b, BindingOp.name b,
            BindingOp.isTextAttribute b)
  | _ => None
  end.

(** What a listener listens to: its target and event, whether it is a host
    listener, and how many ops its handler has. *)
Definition listenerOf (op : CreateOp)
  : option (XrefId * string * bool * nat) :=
  match op with
  | ListenerOp l =>
      Some (ListenerOp.target l, ListenerOp.name l, ListenerOp.hostListener l,
            length (ListenerOp.handlerOps l))
  | _ => None
  end.

(** A job with its root unit alone, seen through its bindings and
    listeners. *)
Definition hostShaped (job : Job.t)
    (bindings : list (option (XrefId * BindingKind * string * bool)))
    (listeners : list (option (XrefId * string * bool * nat))) : Prop :=
  Job.root job = 0 ∧ Job.kind job = Host
  ∧ ∃ root,
      Job.units job = [root] ∧ Unit.xref root = 0
      ∧ map bindingOf (Unit.update root) = bindings
      ∧ map listenerOf (Unit.create root) = listeners.

(** The binding a host property gives. *)
Definition propertySummary (isText : bool) (p : ParsedProperty) :=
  Some (0, hostPropertyKind p, hostPropertyName (pp_name p), isText).

(** ** Settled results *)

(** Code that returns [a] and leaves the state alone, whatever the flags
    and the state. *)
Definition fixedPoint {S A} (c : VisitorContextFlag → M S A) (a : A)
  : Prop :=
  ∀ flags s, c flags s = Ok (a, s).

(** What a traversal makes of an expression, the traversal leaves as it is,
    in any state. *)
Definition settles {S} (transform : Expr → VisitorContextFlag → M S Expr)
    (e : Expr) : Prop :=
  ∀ flags s e' s',
    transformExpressionsInExpression transform e flags s = Ok (e', s') →
    fixedPoint (transformExpressionsInExpression transform e') e'.

(** ** What the i18n context phase adds *)

(** An op without the context the phase gives it. *)
Definition forgetContext (op : CreateOp) : CreateOp :=
  match op with
  | I18nStartOp o => I18nStartOp (I18nStartOp.set_context None o)
  | IcuStartOp i => IcuStartOp (IcuStartOp.set_context None i)
  | _ => op
  end.

(** The root i18n blocks of a list of ops with their contexts, and the
    blocks that a list of context ops gives a root context to. *)
Definition rootBlocks (ops : list CreateOp)
  : list (XrefId * Message * option XrefId) :=
  omap (fun op =>
          match op with
          | I18nStartOp o =>
              if Nat.eqb (I18nStartOp.xref o) (I18nStartOp.root o)
              then Some (I18nStartOp.xref o, I18nStartOp.message o,
                         I18nStartOp.context o)
              else None
          | _ => None
          end) ops.

Definition rootContextOps (contexts : list I18nContextOp.t)
  : list (XrefId * Message * option XrefId) :=
  omap (fun c =>
          match I18nContextOp.contextKind c with
          | RootI18n =>
              Some (I18nContextOp.i18nBlock c, I18nContextOp.message c,
                    Some (I18nContextOp.xref c))
          | _ => None
          end) contexts.

(** What the phase does to one view: the ops stay in place, changed in
    their context at most; the new context ops come after them, one root
    context for each root block, in order; nothing else changes. *)
Record contextsAdded (u u' : Unit.t) (new : list I18nContextOp.t)
  : Prop := {
  ca_ops :
    ∃ ops', Unit.create u' = ops' ++ map I18nContextOp new
            ∧ map forgetContext ops' = map forgetContext (Unit.create u)
            ∧ rootBlocks ops' = rootContextOps new;
  ca_rest : Unit.set_create (Unit.create u) u' = u }.


(** A root i18n block of a job, with its context. *)
Definition rootBlockOf (job : Job.t) (r : XrefId) (c : option XrefId)
  : Prop :=
  ∃ u b, In u (Job.units job) ∧ In (I18nStartOp b) (Unit.create u)
         ∧ I18nStartOp.xref b = I18nStartOp.root b
         ∧ I18nStartOp.xref b = r ∧ I18nStartOp.context b = c.

(** Whether an i18n block is open after an op, whether an op is an ICU
    with no block open, and both along a list of ops. *)
Definition openAfterOp (open : bool) (op : CreateOp) : bool :=
  match op with
  | I18nStartOp _ => true
  | I18nEndOp _ => false
  | _ => open
  end.

Definition enclosedOp (open : bool) (op : CreateOp) : bool :=
  match op with
  | IcuStartOp _ => open
  | _ => true
  end.

Definition openAfter (open : bool) (ops : list CreateOp) : bool :=
  fold_left openAfterOp ops open.

Fixpoint icusEnclosed (open : bool) (ops : list CreateOp) : bool :=
  match ops with
  | [] => true
  | op :: rest =>
      enclosedOp open op && icusEnclosed (openAfterOp open op) rest
  end.

(** One step of the first pass, seen from the state. *)
Definition pushedBy (s s' : CreateI18nContexts.State)
    (new : list I18nContextOp.t) : Prop :=
  pushed s' = pushed s ++ map I18nContextOp new
  ∧ map I18nContextOp.xref new = seq (CreateI18nContexts.nextXrefId s) (length new)
  ∧ CreateI18nContexts.nextXrefId s'
    = CreateI18nContexts.nextXrefId s + length new.

Definition blockOpen (s : CreateI18nContexts.State) : bool :=
  match currentI18nOp s with Some _ => true | None => false end.

(** A root block among [ops], and what the first pass knows of the root
    blocks after walking [ops]. *)
Definition rootAmong (ops : list CreateOp) (r : XrefId) (c : option XrefId)
  : Prop :=
  ∃ b, In (I18nStartOp b) ops
       ∧ I18nStartOp.xref b = I18nStartOp.root b
       ∧ I18nStartOp.xref b = r ∧ I18nStartOp.context b = c.

Record rootsKnown (roots roots' : gmap XrefId XrefId) (ops : list CreateOp)
  : Prop := {
  rk_found : ∀ r c, roots' !! r = Some c →
                    roots !! r = Some c ∨ rootAmong ops r (Some c);
  rk_kept : ∀ r, is_Some (roots !! r) → is_Some (roots' !! r);
  rk_all : ∀ r c, rootAmong ops r c → is_Some (roots' !! r) }.

(** ** Further sample inputs *)

(** [a | f | g:1]: a pipe applied to a pipe. *)
Definition pipeOfPipe : AST :=
  BindingPipe noSpan
    (BindingPipe noSpan
       (PropertyRead noSpan (ImplicitReceiver noSpan) "a") "f" [])
    "g" [LiteralPrimitive noSpan (LitNum 1)].

(** [(click)="a = 1; f.g($event)"] on a [button]. *)
Definition clickOutput : BoundEvent :=
  {| be_name := "click"; be_type := Regular;
     be_handler :=
       ASTWithSource noSpan
         (Chain noSpan
            [PropertyWrite noSpan (ImplicitReceiver noSpan) "a"
               (LiteralPrimitive noSpan (LitNum 1));
             Call noSpan
               (PropertyRead noSpan
                  (PropertyRead noSpan (ImplicitReceiver noSpan) "f") "g")
               [PropertyRead noSpan (ImplicitReceiver noSpan) "$event"]]);
     be_phase := None; be_sourceSpan := None; be_handlerSpan := None |}.

Definition buttonElement : ElementLike :=
  {| el_isTemplate := false; el_tagName := Some "button";
     el_templateAttrs := []; el_attributes := []; el_inputs := [];
     el_outputs := [clickOutput]; el_references := [] |}.

(** A host with [[attr.role]="role"], [[@fade]="state"], the attribute
    [class] and a [(click)] listener. *)
Definition sampleHost : HostBindingInput :=
  {| hb_componentName := "C";
     hb_properties :=
       Some [{| pp_name := "attr.role";
                pp_expression :=
                  PropertyRead noSpan (ImplicitReceiver noSpan) "role";
                pp_isAnimation := false; pp_sourceSpan := None |};
             {| pp_name := "fade";
                pp_expression :=
                  PropertyRead noSpan (ImplicitReceiver noSpan) "state";
                pp_isAnimation := true; pp_sourceSpan := None |}];
     hb_attributes := [("class", LiteralExpr (LitStr "c") None)];
     hb_events :=
       Some [{| pe_name := "click"; pe_targetOrPhase := None;
                pe_handler :=
                  PropertyRead noSpan (ImplicitReceiver noSpan) "$event";
                pe_sourceSpan := None; pe_handlerSpan := None |}] |}.

(** A root view with the listener of [clickListener], not yet resolved. *)
Definition unresolvedJob : Job.t :=
  {| Job.kind := Tmpl; Job.componentName := "C"; Job.root := 0;
     Job.units :=
       [Unit.set_create [ListenerOp clickListener] (Unit.empty 0 None)];
     Job.nextXrefId := 2; Job.compatibility := true;
     Job.deferBlocksMeta := ∅ |}.

(** [@if (show; as shown) { <div foo="1"></div> } @else { b }]. *)
Definition ifElse : list IfBlockBranch :=
  [mkIfBlockBranch
     (Some (PropertyRead noSpan (ImplicitReceiver noSpan) "show"))
     [divFoo]
     (Some {| var_name := "shown"; var_value := "" |}) None;
   mkIfBlockBranch None
     [Text {| text_value := "b"; text_sourceSpan := None |}] None None].

(** [@switch (kind | lower) { @case (1) { a } @default { b } }]. *)
Definition switchCases : list SwitchBlockCase :=
  [mkSwitchBlockCase (Some (LiteralPrimitive noSpan (LitNum 1)))
     [Text {| text_value := "a"; text_sourceSpan := None |}] None;
   mkSwitchBlockCase None
     [Text {| text_value := "b"; text_sourceSpan := None |}] None].

Definition switchedOn : AST :=
  BindingPipe noSpan (PropertyRead noSpan (ImplicitReceiver noSpan) "kind")
    "lower" [].

(** A root view with an unresolved listener and a property bound to a
    URL. *)
Definition listenerAndUrlJob : Job.t :=
  {| Job.kind := Tmpl; Job.componentName := "C"; Job.root := 0;
     Job.units :=
       [Unit.set_update [PropertyOp danglingUrlProperty]
          (Unit.set_create [ListenerOp clickListener] (Unit.empty 0 None))];
     Job.nextXrefId := 2; Job.compatibility := true;
     Job.deferBlocksMeta := ∅ |}.

(** * Properties *)

(** ** Reasoning about results and the job monad *)
Lemma rbind_Ok {A B} (r : Result A) (k : A → Result B) (b : B) :
  rbind r k = Ok b → ∃ a, r = Ok a ∧ k a = Ok b.
Proof. destruct r as [a|m]; simpl; [eauto | discriminate]. Qed.

Lemma bind_Ok {S A B} (c : M S A) (k : A → M S B) (s : S) (r : B * S) :
  bind c k s = Ok r → ∃ a s1, c s = Ok (a, s1) ∧ k a s1 = Ok r.
Proof.
  unfold bind. destruct (c s) as [[a s1]|m]; [eauto | discriminate].
Qed.

Lemma bind_Throw {S A B} (c : M S A) (k : A → M S B) (s : S) (m : string) :
  c s = Throw m → bind c k s = Throw m.
Proof. unfold bind. now intros ->. Qed.

Lemma ret_Ok {S A} (a : A) (s : S) (r : A * S) :
  ret a s = Ok r → r = (a, s).
Proof. unfold ret. congruence. Qed.

Lemma rmap_Forall2 {A B} (f : A → Result B) (l : list A) (l' : list B) :
  rmap f l = Ok l' → Forall2 (fun x y => f x = Ok y) l l'.
Proof.
  revert l'. induction l as [|x l IH]; simpl; intros l' H.
  - injection H as <-. constructor.
  - apply rbind_Ok in H as (y & Hy & H).
    apply rbind_Ok in H as (ys & Hys & H).
    injection H as <-. constructor; auto.
Qed.

Lemma Forall2_rmap {A B} (f : A → Result B) (l : list A) (l' : list B) :
  Forall2 (fun x y => f x = Ok y) l l' → rmap f l = Ok l'.
Proof.
  induction 1 as [|x y l l' Hxy _ IH]; simpl; [reflexivity|].
  now rewrite Hxy, IH.
Qed.



(** With no state to thread, [mapM] is a pointwise map. *)
Lemma mapM_unit_Forall2 {A B} (f : A → M unit B) (l : list A) (r : list B * unit) :
  mapM f l tt = Ok r → Forall2 (fun x y => f x tt = Ok (y, tt)) l (fst r).
Proof.
  revert r. induction l as [|x l IH]; simpl; intros r H.
  - apply ret_Ok in H as ->. constructor.
  - apply bind_Ok in H as (y & [] & Hy & H).
    apply bind_Ok in H as (ys & [] & Hys & H).
    apply ret_Ok in H as ->. simpl. constructor; [assumption|].
    apply (IH _ Hys).
Qed.

Lemma Expr_children_ind (P : Expr → Prop) :
  (∀ e, Forall P (children e) → P e) → ∀ e, P e.
Proof.
  intros step.
  fix IH 1. intros e. apply step.
  destruct e;
    try match goal with v : (XrefId + Expr)%type |- _ => destruct v end;
    try match goal with o : option Expr |- _ => destruct o end;
    simpl;
    lazymatch goal with
    | |- Forall P (map _ ?es) =>
        induction es as [|[[k v] q] es IHes]; simpl; constructor;
        [apply IH | exact IHes]
    | |- Forall P (_ :: ?l) =>
        first [ is_var l; constructor; [apply IH | ];
                induction l; constructor; solve [apply IH | assumption]
              | repeat constructor; apply IH ]
    | |- Forall P [] => constructor
    | |- Forall P ?l =>
        induction l; constructor; solve [apply IH | assumption]
    end.
Qed.

(** ** Reification leaves statements only *)

Lemma lift_Ok {S A} (r : Result A) (s : S) (x : A * S) :
  lift r s = Ok x → r = Ok (fst x) ∧ snd x = s.
Proof. unfold lift. destruct r; intros H; inversion H; auto. Qed.

Lemma optM_unit_Ok {A B} (f : A → M unit B) (o : option A) (r : option B * unit) :
  optM f o tt = Ok r →
  match o with
  | Some x => ∃ y, f x tt = Ok (y, tt) ∧ fst r = Some y
  | None => fst r = None
  end.
Proof.
  destruct o; simpl; intros H.
  - apply bind_Ok in H as (y & [] & Hy & H). apply ret_Ok in H as ->. eauto.
  - apply ret_Ok in H as ->. reflexivity.
Qed.

Ltac inv_monad :=
  repeat match goal with
  | u : unit |- _ => destruct u
  | H : bind _ _ _ = Ok _ |- _ =>
      let a := fresh "a" in let s := fresh "s" in let Ha := fresh "Ha" in
      apply bind_Ok in H as (a & s & Ha & H)
  | H : ret _ _ = Ok _ |- _ => apply ret_Ok in H; subst
  | H : throw _ _ = Ok _ |- _ => discriminate H
  | H : put _ _ = Ok _ |- _ => unfold put in H
  | H : get _ = Ok _ |- _ => unfold get in H
  | H : modify _ _ = Ok _ |- _ => unfold modify in H
  | H : Throw _ = Ok _ |- _ => discriminate H
  | H : Ok _ = Ok _ |- _ => injection H as H; subst
  | H : (_, _) = (_, _) |- _ => injection H as H; subst
  | H : rbind _ _ = Ok _ |- _ =>
      let a := fresh "a" in let Ha := fresh "Ha" in
      apply rbind_Ok in H as (a & Ha & H)
  end.

Lemma forallb_irFree_Forall2 (R : Expr → Expr → Prop) (l l' : list Expr) :
  Forall (fun x => ∀ y, R x y → irFree y = true) l →
  Forall2 R l l' → forallb irFree l' = true.
Proof.
  intros Hl H. induction H as [|x y l l' Hxy _ IH]; simpl; [reflexivity|].
  inversion Hl; subst. rewrite (H1 _ Hxy). simpl. auto.
Qed.

Lemma forallb_map_entries (es : list (string * Expr * bool)) :
  forallb irFree (map (fun '(_, v, _) => v) es)
  = forallb (fun '(_, v, _) => irFree v) es.
Proof.
  induction es as [|[[k v] q] es IH]; simpl; [reflexivity | now rewrite IH].
Qed.

Ltac btrue :=
  repeat match goal with
         | H : _ && _ = true |- _ => apply andb_prop in H; destruct H
         end;
  repeat (apply andb_true_intro; split); try assumption; try reflexivity.

Lemma reifyIrExpression_irFree (e e' : Expr) :
  forallb irFree (children e) = true →
  match e with FunctionExpr _ _ _ => False | _ => True end →
  reifyIrExpression e = Ok e' → irFree e' = true.
Proof.
  intros Hc Hf H. unfold reifyIrExpression in H.
  destruct e; simpl in *; try contradiction;
    repeat match goal with
           | o : option _ |- _ => destruct o
           | v : (_ + _)%type |- _ => destruct v
           | s : SlotHandle |- _ => destruct s
           end; simpl in *; inv_monad; simpl;
    rewrite ?andb_true_r in *; try reflexivity; try assumption; btrue.
  now rewrite <- forallb_map_entries.
Qed.

Lemma mapM_reifiesFree (flags : VisitorContextFlag) (l l' : list Expr) :
  Forall reifiesFree l →
  mapM (fun e => transformExpressionsInExpression reifyTransform e flags) l tt
  = Ok (l', tt) →
  forallb irFree l' = true.
Proof.
  intros Hl H%mapM_unit_Forall2. simpl in H.
  eapply forallb_irFree_Forall2; [|exact H].
  eapply List.Forall_impl; [|exact Hl]. intros x Hx y Hy. exact (Hx _ _ Hy).
Qed.

Lemma mapM_entries_reifiesFree (flags : VisitorContextFlag)
    (es es' : list (string * Expr * bool)) :
  Forall reifiesFree (map (fun '(_, v, _) => v) es) →
  mapM (fun '(k, v, q) =>
          let* v' := transformExpressionsInExpression reifyTransform v flags in
          ret (k, v', q)) es tt = Ok (es', tt) →
  forallb irFree (map (fun '(_, v, _) => v) es') = true.
Proof.
  intros Hl H%mapM_unit_Forall2. simpl in H.
  induction H as [|[[k v] q] y es es' Hxy _ IH]; simpl; [reflexivity|].
  simpl in Hl. inversion Hl as [|? ? Hv Hes]; subst.
  inv_monad. simpl. rewrite (Hv _ _ Ha). simpl. auto.
Qed.

Lemma transform_irFree (e : Expr) : reifiesFree e.
Proof.
  induction e as [e IH] using Expr_children_ind.
  intros flags e' H. unfold reifiesTo in H.
  destruct e; simpl in H, IH;
    try match goal with v : (XrefId + Expr)%type |- _ => destruct v end;
    try match goal with o : option Expr |- _ => destruct o end;
    simpl in H, IH; inv_monad.
  all: unfold reifyTransform in H; apply lift_Ok in H as [H _]; simpl in H.
  all: apply reifyIrExpression_irFree in H; [assumption| |exact I].
  all: simpl.
  all: repeat match goal with
              | IH : Forall _ (_ :: _) |- _ =>
                  apply List.Forall_cons_iff in IH; destruct IH
              | IH : reifiesFree ?c,
                H : transformExpressionsInExpression _ ?c _ _ = Ok (?a, _)
                |- _ => apply IH in H; rewrite H; clear IH
              | IH : Forall _ ?l,
                H : mapM _ ?l _ = Ok (?a, _) |- _ =>
                  first [ apply (mapM_reifiesFree _ _ _ IH) in H
                        | apply (mapM_entries_reifiesFree _ _ _ IH) in H ];
                  rewrite H; clear IH
              end; try reflexivity.
  all: match goal with
       | IH : Forall _ (map _ ?l), H : mapM _ ?l _ = Ok _ |- _ =>
           apply (mapM_entries_reifiesFree _ _ _ IH) in H; exact H
       end.
Qed.

Lemma all_reifiesFree (l : list Expr) : Forall reifiesFree l.
Proof. apply List.Forall_forall. intros x _. apply transform_irFree. Qed.

Lemma optM_irFree (o : option Expr) (flags : VisitorContextFlag)
    (r : option Expr) :
  optM (fun e => transformExpressionsInExpression reifyTransform e flags) o tt
  = Ok (r, tt) →
  irFree (orNull r) = true.
Proof.
  destruct o; simpl; intros H; inv_monad; simpl; [|reflexivity].
  eapply transform_irFree. exact Ha.
Qed.

Lemma interpolation_irFree (i i' : Interpolation) (flags : VisitorContextFlag) :
  transformExpressionsInInterpolation reifyTransform i flags tt = Ok (i', tt) →
  forallb irFree (expressions i') = true.
Proof.
  unfold transformExpressionsInInterpolation. intros H. inv_monad. simpl.
  eapply mapM_reifiesFree; [apply all_reifiesFree | exact Ha].
Qed.

Lemma eoi_irFree (e e' : ExprOrInterpolation) (flags : VisitorContextFlag) :
  transformExpressionOrInterpolation reifyTransform e flags tt = Ok (e', tt) →
  eoiFree e' = true.
Proof.
  destruct e; simpl; intros H; inv_monad; simpl.
  - eapply transform_irFree. exact Ha.
  - eapply interpolation_irFree. exact Ha.
Qed.

Lemma stmt_irFree (st st' : Stmt) (flags : VisitorContextFlag) :
  transformExpressionsInStatement reifyTransform st flags tt = Ok (st', tt) →
  irFreeStmt st' = true.
Proof.
  destruct st; simpl; intros H; inv_monad; simpl;
    try (eapply transform_irFree; eassumption).
  apply optM_irFree in Ha. destruct a; [exact Ha | reflexivity].
Qed.

Lemma interpolationArgs_irFree (strs : list string) (exprs : list Expr) :
  forallb irFree exprs = true →
  forallb irFree (interpolationArgs strs exprs) = true.
Proof.
  revert exprs. induction strs as [|s strs IH]; intros [|e exprs] H;
    simpl in *; try reflexivity; try assumption.
  - clear. induction strs; simpl; auto.
  - apply andb_prop in H as [-> H]. simpl. auto.
Qed.

Lemma forallb_irFree_app (l1 l2 : list Expr) :
  forallb irFree l1 = true → forallb irFree l2 = true →
  forallb irFree (l1 ++ l2) = true.
Proof. intros H1 H2. rewrite forallb_app, H1, H2. reflexivity. Qed.

Lemma lit_irFree :
  (∀ n, irFree (litNat n) = true) ∧ (∀ n, irFree (litOptNat n) = true)
  ∧ (∀ s, irFree (litStr s) = true) ∧ (∀ s, irFree (litOptStr s) = true)
  ∧ (∀ b, irFree (litBool b) = true) ∧ (∀ r, irFree (litLocalRefs r) = true).
Proof.
  repeat split; intros; try reflexivity.
  - destruct n; reflexivity.
  - destruct s; reflexivity.
  - destruct r as [refs|[i|]]; simpl; try reflexivity.
    induction refs; simpl; auto.
Qed.

Ltac free_facts :=
  repeat match goal with
         | H : transformExpressionsInExpression reifyTransform _ _ _ = Ok _
           |- _ => apply transform_irFree in H
         | H : optM _ _ _ = Ok _ |- _ => apply optM_irFree in H
         | H : transformExpressionOrInterpolation _ _ _ _ = Ok _ |- _ =>
             apply eoi_irFree in H
         | H : transformExpressionsInInterpolation _ _ _ _ = Ok _ |- _ =>
             apply interpolation_irFree in H
         | H : transformExpressionsInStatement _ _ _ _ = Ok _ |- _ =>
             apply stmt_irFree in H
         end.

Lemma forallb_irFree_litStr (l : list string) :
  forallb irFree (map litStr l) = true.
Proof. induction l; simpl; auto. Qed.

Lemma forallb_irFree_litNat (l : list nat) :
  forallb irFree (map litNat l) = true.
Proof. induction l; simpl; auto. Qed.

Ltac split_cases :=
  repeat match goal with
         | H : match ?x with _ => _ end = Ok _ |- _ =>
             destruct x eqn:?; simpl in *; inv_monad
         | H : (if ?b then _ else _) = Ok _ |- _ =>
             destruct b eqn:?; simpl in *; inv_monad
         end.

Ltac free_goal :=
  simpl;
  repeat first
    [ reflexivity
    | assumption
    | apply andb_true_intro; split
    | apply forallb_irFree_app
    | apply interpolationArgs_irFree
    | apply lit_irFree
    | apply forallb_irFree_litStr
    | apply forallb_irFree_litNat
    | match goal with |- context [if ?b then _ else _] => destruct b end
    | match goal with
      | H : eoiFree ?e = true, E : ?e = _ |- _ =>
          rewrite E in H; simpl in H
      | H : irFree (orNull ?e) = true, E : ?e = _ |- _ =>
          rewrite E in H; simpl in H
      end ].

Lemma reifyUpdateOp_statement (op op' : UpdateOp) :
  reifyUpdateOp op = Ok op' → statementFreeU op'.
Proof.
  unfold reifyUpdateOp, run. intros H. inv_monad.
  destruct op; simpl in Ha0; inv_monad; free_facts; simpl in *;
    split_cases; (eexists; split; [reflexivity|]); free_goal.
Qed.

Lemma reifyListenerHandler_irFree (name : option string)
    (ops : list UpdateOp) (consumes : bool) (fn : Expr) :
  reifyListenerHandler name ops consumes = Ok fn → irFree fn = true.
Proof.
  unfold reifyListenerHandler, reifyUpdateOperations. intros H. inv_monad.
  simpl. apply rmap_Forall2 in Ha, Ha0.
  assert (Hs : Forall statementFreeU a).
  { clear Ha0. induction Ha; constructor; eauto using reifyUpdateOp_statement. }
  clear Ha. induction Ha0 as [|x y l l' Hxy _ IH]; simpl; [reflexivity|].
  inversion Hs as [|? ? (st & -> & Hst) Hl]; subst.
  simpl in Hxy. injection Hxy as <-. rewrite Hst. simpl. auto.
Qed.

Lemma reifyCreateOp_statement (job : Job.t) (isView : bool)
    (op op' : CreateOp) :
  reifyCreateOp job isView op = Ok op' → statementFreeC op'.
Proof.
  unfold reifyCreateOp, run. intros H. inv_monad.
  destruct op; simpl in Ha0; inv_monad; free_facts; simpl in *;
    split_cases;
    try match goal with
        | H : reifyListenerHandler _ _ _ = Ok _ |- _ =>
            apply reifyListenerHandler_irFree in H
        end;
    (eexists; split; [reflexivity|]); free_goal.
Qed.

Lemma existsb_map_entries (p : Expr → bool) (es : list (string * Expr * bool)) :
  existsb p (map (fun '(_, v, _) => v) es)
  = existsb (fun '(_, v, _) => p v) es.
Proof.
  induction es as [|[[k v] q] es IH]; simpl; [reflexivity | now rewrite IH].
Qed.

Lemma anyExpr_children (p : Expr → bool) (e : Expr) :
  anyExpr p e = p e || existsb (anyExpr p) (children e).
Proof.
  destruct e; simpl;
    try match goal with v : (XrefId + Expr)%type |- _ => destruct v end;
    try match goal with o : option Expr |- _ => destruct o end;
    simpl; rewrite ?orb_false_r, ?existsb_map_entries, ?orb_assoc;
    reflexivity.
Qed.

Lemma mapM_reifiesClean (flags : VisitorContextFlag) (l : list Expr)
    (r : list Expr * unit) :
  Forall reifiesClean l →
  mapM (fun e => transformExpressionsInExpression reifyTransform e flags) l tt
  = Ok r →
  existsb (anyExpr rejected) l = false.
Proof.
  intros Hl H%mapM_unit_Forall2. simpl in H.
  induction H as [|x y l l' Hxy _ IH]; simpl; [reflexivity|].
  inversion Hl as [|? ? Hx Hl']; subst.
  rewrite (Hx _ _ Hxy), IH by assumption. reflexivity.
Qed.

Lemma mapM_entries_reifiesClean (flags : VisitorContextFlag)
    (es : list (string * Expr * bool))
    (r : list (string * Expr * bool) * unit) :
  Forall reifiesClean (map (fun '(_, v, _) => v) es) →
  mapM (fun '(k, v, q) =>
          let* v' := transformExpressionsInExpression reifyTransform v flags in
          ret (k, v', q)) es tt = Ok r →
  existsb (anyExpr rejected) (map (fun '(_, v, _) => v) es) = false.
Proof.
  intros Hl H%mapM_unit_Forall2. simpl in H.
  induction H as [|[[k v] q] y es es' Hxy _ IH]; simpl; [reflexivity|].
  simpl in Hl. inversion Hl as [|? ? Hv Hes]; subst.
  inv_monad. rewrite (Hv _ _ Ha), IH by assumption. reflexivity.
Qed.

Lemma transform_Ok_clean (e : Expr) : reifiesClean e.
Proof.
  induction e as [e IH] using Expr_children_ind.
  intros flags r H. rewrite anyExpr_children.
  destruct e; simpl in H, IH |- *;
    try match goal with v : (XrefId + Expr)%type |- _ => destruct v end;
    try match goal with o : option Expr |- _ => destruct o end;
    simpl in H, IH |- *; inv_monad.
  all: repeat match goal with
              | IH : Forall _ (_ :: _) |- _ =>
                  apply List.Forall_cons_iff in IH; destruct IH
              | IH : reifiesClean ?c,
                H : transformExpressionsInExpression _ ?c _ _ = Ok _
                |- _ => apply IH in H; rewrite H; clear IH
              | IH : Forall _ ?l,
                H : mapM _ ?l _ = Ok _ |- _ =>
                  apply (mapM_reifiesClean _ _ _ IH) in H;
                  rewrite H; clear IH
              | IH : Forall _ (map _ ?l), H : mapM _ ?l _ = Ok _ |- _ =>
                  apply (mapM_entries_reifiesClean _ _ _ IH) in H;
                  rewrite H; clear IH
              end.
  all: rewrite ?orb_false_r.
  all: unfold rejected, reifyTransform, lift, reifyIrExpression in *;
    simpl in *; try reflexivity.
  all: repeat match goal with
              | o : option _ |- _ => destruct o
              end; simpl in *; try reflexivity; try discriminate.
Qed.

Lemma mapM_resolvesEvent (flags : VisitorContextFlag) (l l' : list Expr)
    (s s' : bool) :
  Forall resolvesEvent l →
  mapM (fun e => transformExpressionsInExpression dollarEventTransform e flags)
    l s = Ok (l', s') →
  s' = s || existsb readsEvent l ∧ existsb readsEvent l' = false.
Proof.
  intros Hl. revert l' s s'.
  induction Hl as [|x l Hx _ IH]; simpl; intros l' s s' H; inv_monad.
  - split; [btauto | reflexivity].
  - apply Hx in Ha as [-> Ha]. apply IH in Ha0 as [-> Ha0].
    simpl. rewrite Ha, Ha0. split; [btauto | reflexivity].
Qed.

Lemma mapM_entries_resolvesEvent (flags : VisitorContextFlag)
    (es es' : list (string * Expr * bool)) (s s' : bool) :
  Forall resolvesEvent (map (fun '(_, v, _) => v) es) →
  mapM (fun '(k, v, q) =>
          let* v' := transformExpressionsInExpression dollarEventTransform v
                       flags in
          ret (k, v', q)) es s = Ok (es', s') →
  s' = s || existsb (fun '(_, v, _) => readsEvent v) es
  ∧ existsb (fun '(_, v, _) => readsEvent v) es' = false.
Proof.
  revert es' s s'.
  induction es as [|[[k v] q] es IH]; simpl; intros es' s s' Hl H; inv_monad.
  - split; [btauto | reflexivity].
  - apply List.Forall_cons_iff in Hl as [Hv Hl].
    apply Hv in Ha1 as [-> Ha1]. apply (IH _ _ _ Hl) in Ha0 as [-> Ha0].
    simpl. rewrite Ha1, Ha0. split; [btauto | reflexivity].
Qed.

Lemma optM_resolvesEvent (flags : VisitorContextFlag) (o o' : option Expr)
    (s s' : bool) :
  optM (fun e => transformExpressionsInExpression dollarEventTransform e flags)
    o s = Ok (o', s') →
  Forall resolvesEvent (option_list o) →
  s' = s || existsb readsEvent (option_list o)
  ∧ existsb readsEvent (option_list o') = false.
Proof.
  destruct o; simpl; intros H Hl; inv_monad; simpl.
  - apply List.Forall_cons_iff in Hl as [He _].
    apply He in Ha as [-> Ha]. rewrite Ha. split; [btauto | reflexivity].
  - split; [btauto | reflexivity].
Qed.

Lemma transform_resolvesEvent (e : Expr) : resolvesEvent e.
Proof.
  induction e as [e IH] using Expr_children_ind.
  intros flags s e' s' H.
  destruct e; simpl in H, IH;
    try match goal with v : (XrefId + Expr)%type |- _ => destruct v end;
    try match goal with o : option Expr |- _ => destruct o end;
    simpl in H, IH; inv_monad.
  all: repeat match goal with
              | IH : Forall _ (_ :: _) |- _ =>
                  apply List.Forall_cons_iff in IH; destruct IH
              | IH : resolvesEvent ?c,
                H : transformExpressionsInExpression _ ?c _ _ = Ok _
                |- _ => apply IH in H; destruct H as [? H]; subst; clear IH
              | IH : Forall _ ?l,
                H : mapM _ ?l _ = Ok _ |- _ =>
                  apply (mapM_resolvesEvent _ _ _ _ _ IH) in H;
                  destruct H as [? H]; subst; clear IH
              | IH : Forall _ (map _ ?l), H : mapM _ ?l _ = Ok _ |- _ =>
                  apply (mapM_entries_resolvesEvent _ _ _ _ _ IH) in H;
                  destruct H as [? H]; subst; clear IH
              end.
  all: simpl in H;
    try match type of H with
        | context [String.eqb ?n ?m] => destruct (String.eqb n m) eqn:?
        end; inv_monad.
  all: simpl;
    repeat match goal with H : _ = false |- _ => rewrite H; clear H end;
    try match goal with H : String.eqb _ _ = true |- _ => rewrite H end;
    (split; first [btauto | reflexivity]).
Qed.

(** *** Traversals that scan for a kind of expression *)

Section Scans.

(** A traversal that scans for [p], raising the state when it finds it,
    and leaves nothing that satisfies [p]. *)
Context (transform : Expr → VisitorContextFlag → M bool Expr)
        (p : Expr → bool).

Hypothesis transform_scans : ∀ e, scans transform p e.

Lemma mapM_scans (flags : VisitorContextFlag) (l l' : list Expr)
    (s s' : bool) :
  mapM (fun e => transformExpressionsInExpression transform e flags) l s
  = Ok (l', s') →
  s' = s || existsb (anyExpr p) l ∧ existsb (anyExpr p) l' = false.
Proof.
  revert l' s s'.
  induction l as [|x l IH]; simpl; intros l' s s' H; inv_monad.
  - split; [btauto | reflexivity].
  - apply transform_scans in Ha as [-> Ha]. apply IH in Ha0 as [-> Ha0].
    simpl. rewrite Ha, Ha0. split; [btauto | reflexivity].
Qed.

Lemma optM_scans (flags : VisitorContextFlag) (o o' : option Expr)
    (s s' : bool) :
  optM (fun e => transformExpressionsInExpression transform e flags) o s
  = Ok (o', s') →
  s' = s || existsb (anyExpr p) (option_list o)
  ∧ existsb (anyExpr p) (option_list o') = false.
Proof.
  destruct o; simpl; intros H; inv_monad; simpl.
  - apply transform_scans in Ha as [-> Ha]. rewrite Ha.
    split; [btauto | reflexivity].
  - split; [btauto | reflexivity].
Qed.

Lemma interpolation_scans (flags : VisitorContextFlag)
    (i i' : Interpolation) (s s' : bool) :
  transformExpressionsInInterpolation transform i flags s = Ok (i', s') →
  s' = s || existsb (anyExpr p) (expressions i)
  ∧ existsb (anyExpr p) (expressions i') = false.
Proof.
  unfold transformExpressionsInInterpolation. intros H. inv_monad.
  simpl. eapply mapM_scans. exact Ha.
Qed.

Lemma eoi_scans (flags : VisitorContextFlag) (e e' : ExprOrInterpolation)
    (s s' : bool) :
  transformExpressionOrInterpolation transform e flags s = Ok (e', s') →
  s' = s || existsb (anyExpr p) (eoiExprs e)
  ∧ existsb (anyExpr p) (eoiExprs e') = false.
Proof.
  destruct e; simpl; intros H; inv_monad; simpl.
  - apply transform_scans in Ha as [-> Ha]. rewrite Ha.
    split; [btauto | reflexivity].
  - eapply interpolation_scans. exact Ha.
Qed.

Lemma stmt_scans (flags : VisitorContextFlag) (st st' : Stmt) (s s' : bool) :
  transformExpressionsInStatement transform st flags s = Ok (st', s') →
  s' = s || existsb (anyExpr p) (stmtExprs st)
  ∧ existsb (anyExpr p) (stmtExprs st') = false.
Proof.
  destruct st; simpl; intros H; inv_monad; simpl;
    try (apply transform_scans in Ha as [-> Ha]; rewrite Ha;
         split; [btauto | reflexivity]).
  eapply optM_scans. exact Ha.
Qed.

Lemma conditions_scans (flags : VisitorContextFlag)
    (l l' : list ConditionalCase) (s s' : bool) :
  mapM (transformConditionalCase transform flags) l s = Ok (l', s') →
  s' = s || existsb (anyExpr p) (flat_map (fun c => option_list (cc_expr c)) l)
  ∧ existsb (anyExpr p) (flat_map (fun c => option_list (cc_expr c)) l')
    = false.
Proof.
  revert l' s s'.
  induction l as [|x l IH]; simpl; intros l' s s' H; inv_monad.
  - split; [btauto | reflexivity].
  - unfold transformConditionalCase in Ha. inv_monad.
    apply optM_scans in Ha1 as [-> Ha1]. apply IH in Ha0 as [-> Ha0].
    simpl. rewrite !existsb_app, Ha1, Ha0. split; [btauto | reflexivity].
Qed.

Ltac scan_facts :=
  repeat match goal with
         | H : transformExpressionsInExpression transform _ _ _ = Ok _
           |- _ => apply transform_scans in H; destruct H as [? H]; subst
         | H : optM _ _ _ = Ok _ |- _ =>
             apply optM_scans in H; destruct H as [? H]; subst
         | H : transformExpressionOrInterpolation _ _ _ _ = Ok _ |- _ =>
             apply eoi_scans in H; destruct H as [? H]; subst
         | H : transformExpressionsInInterpolation _ _ _ _ = Ok _ |- _ =>
             apply interpolation_scans in H; destruct H as [? H]; subst
         | H : transformExpressionsInStatement _ _ _ _ = Ok _ |- _ =>
             apply stmt_scans in H; destruct H as [? H]; subst
         | H : mapM (transformConditionalCase _ _) _ _ = Ok _ |- _ =>
             apply conditions_scans in H; destruct H as [? H]; subst
         end.

Ltac scan_goal :=
  simpl; rewrite ?existsb_app;
  repeat match goal with H : _ = false |- _ => rewrite H; clear H end;
  split; first [btauto | reflexivity].

Lemma updateOp_scans (flags : VisitorContextFlag) (op op' : UpdateOp)
    (s s' : bool) :
  transformExpressionsInUpdateOp transform op flags s = Ok (op', s') →
  s' = s || existsb (anyExpr p) (updateOpExprs op)
  ∧ existsb (anyExpr p) (updateOpExprs op') = false.
Proof.
  destruct op; simpl; intros H; inv_monad; scan_facts; scan_goal.
Qed.

Lemma handlerOps_scans (flags : VisitorContextFlag) (l l' : list UpdateOp)
    (s s' : bool) :
  mapM (fun op => transformExpressionsInUpdateOp transform op flags) l s
  = Ok (l', s') →
  s' = s || existsb (anyExpr p) (flat_map updateOpExprs l)
  ∧ existsb (anyExpr p) (flat_map updateOpExprs l') = false.
Proof.
  revert l' s s'.
  induction l as [|x l IH]; simpl; intros l' s s' H; inv_monad.
  - split; [btauto | reflexivity].
  - apply updateOp_scans in Ha as [-> Ha]. apply IH in Ha0 as [-> Ha0].
    simpl. rewrite !existsb_app, Ha, Ha0. split; [btauto | reflexivity].
Qed.

Lemma createOp_scans (flags : VisitorContextFlag) (op op' : CreateOp)
    (s s' : bool) :
  transformExpressionsInCreateOp transform op flags s = Ok (op', s') →
  s' = s || existsb (anyExpr p) (createOpExprs op)
  ∧ existsb (anyExpr p) (createOpExprs op') = false.
Proof.
  destruct op; simpl; intros H; inv_monad; scan_facts;
    try match goal with
        | H : mapM _ _ _ = Ok _ |- _ =>
            apply handlerOps_scans in H; destruct H as [? H]; subst
        end; scan_goal.
Qed.

End Scans.

(** *** What a successful reifying traversal excludes *)

Lemma mapM_clean (flags : VisitorContextFlag) (l : list Expr)
    (r : list Expr * unit) :
  mapM (fun e => transformExpressionsInExpression reifyTransform e flags) l tt
  = Ok r →
  existsb (anyExpr rejected) l = false.
Proof.
  apply mapM_reifiesClean, List.Forall_forall. intros x _.
  apply transform_Ok_clean.
Qed.

Lemma optM_clean (flags : VisitorContextFlag) (o : option Expr)
    (r : option Expr * unit) :
  optM (fun e => transformExpressionsInExpression reifyTransform e flags) o tt
  = Ok r →
  existsb (anyExpr rejected) (option_list o) = false.
Proof.
  destruct o; simpl; intros H; inv_monad; [|reflexivity].
  apply transform_Ok_clean in Ha. now rewrite Ha.
Qed.

Lemma interpolation_clean (flags : VisitorContextFlag) (i : Interpolation)
    (r : Interpolation * unit) :
  transformExpressionsInInterpolation reifyTransform i flags tt = Ok r →
  existsb (anyExpr rejected) (expressions i) = false.
Proof.
  unfold transformExpressionsInInterpolation. intros H. inv_monad.
  eapply mapM_clean. exact Ha.
Qed.

Lemma eoi_clean (flags : VisitorContextFlag) (e : ExprOrInterpolation)
    (r : ExprOrInterpolation * unit) :
  transformExpressionOrInterpolation reifyTransform e flags tt = Ok r →
  existsb (anyExpr rejected) (eoiExprs e) = false.
Proof.
  destruct e; simpl; intros H; inv_monad.
  - apply transform_Ok_clean in Ha. now rewrite Ha.
  - eapply interpolation_clean. exact Ha.
Qed.

Lemma stmt_clean (flags : VisitorContextFlag) (st : Stmt) (r : Stmt * unit) :
  transformExpressionsInStatement reifyTransform st flags tt = Ok r →
  existsb (anyExpr rejected) (stmtExprs st) = false.
Proof.
  destruct st; simpl; intros H; inv_monad;
    try (apply transform_Ok_clean in Ha; now rewrite Ha).
  eapply optM_clean. exact Ha.
Qed.

Lemma conditions_clean (flags : VisitorContextFlag)
    (l : list ConditionalCase) (r : list ConditionalCase * unit) :
  mapM (transformConditionalCase reifyTransform flags) l tt = Ok r →
  existsb (anyExpr rejected) (flat_map (fun c => option_list (cc_expr c)) l)
  = false.
Proof.
  revert r. induction l as [|x l IH]; simpl; intros r H; inv_monad;
    [reflexivity|].
  unfold transformConditionalCase in Ha. inv_monad.
  apply optM_clean in Ha1. apply IH in Ha0.
  now rewrite existsb_app, Ha1, Ha0.
Qed.

Ltac clean_facts :=
  repeat match goal with
         | H : transformExpressionsInExpression reifyTransform _ _ _ = Ok _
           |- _ => apply transform_Ok_clean in H
         | H : optM _ _ _ = Ok _ |- _ => apply optM_clean in H
         | H : transformExpressionOrInterpolation _ _ _ _ = Ok _ |- _ =>
             apply eoi_clean in H
         | H : transformExpressionsInInterpolation _ _ _ _ = Ok _ |- _ =>
             apply interpolation_clean in H
         | H : transformExpressionsInStatement _ _ _ _ = Ok _ |- _ =>
             apply stmt_clean in H
         | H : mapM (transformConditionalCase _ _) _ _ = Ok _ |- _ =>
             apply conditions_clean in H
         end.

Ltac clean_goal :=
  simpl; rewrite ?existsb_app;
  repeat match goal with H : _ = false |- _ => rewrite H; clear H end;
  reflexivity.

Lemma updateOp_clean (flags : VisitorContextFlag) (op : UpdateOp)
    (r : UpdateOp * unit) :
  transformExpressionsInUpdateOp reifyTransform op flags tt = Ok r →
  existsb (anyExpr rejected) (updateOpExprs op) = false.
Proof.
  destruct op; simpl; intros H; inv_monad; clean_facts; clean_goal.
Qed.

Lemma handlerOps_clean (flags : VisitorContextFlag) (l : list UpdateOp)
    (r : list UpdateOp * unit) :
  mapM (fun op => transformExpressionsInUpdateOp reifyTransform op flags) l tt
  = Ok r →
  existsb (anyExpr rejected) (flat_map updateOpExprs l) = false.
Proof.
  revert r. induction l as [|x l IH]; simpl; intros r H; inv_monad;
    [reflexivity|].
  apply updateOp_clean in Ha. apply IH in Ha0.
  now rewrite existsb_app, Ha, Ha0.
Qed.

Lemma createOp_clean (flags : VisitorContextFlag) (op : CreateOp)
    (r : CreateOp * unit) :
  transformExpressionsInCreateOp reifyTransform op flags tt = Ok r →
  existsb (anyExpr rejected) (createOpExprs op) = false.
Proof.
  destruct op; simpl; intros H; inv_monad; clean_facts;
    try match goal with
        | H : mapM _ _ _ = Ok _ |- _ => apply handlerOps_clean in H
        end; clean_goal.
Qed.

Lemma anyExpr_mono (p q : Expr → bool) :
  (∀ e, p e = true → q e = true) →
  ∀ e, anyExpr p e = true → anyExpr q e = true.
Proof.
  intros Hpq e. induction e as [e IH] using Expr_children_ind.
  rewrite !anyExpr_children. intros [H|H]%orb_true_iff.
  - now rewrite (Hpq _ H).
  - apply orb_true_iff. right. apply existsb_exists in H as (c & Hin & Hc).
    apply existsb_exists. exists c. split; [assumption|].
    rewrite List.Forall_forall in IH. now apply IH.
Qed.

Lemma existsb_anyExpr_mono (p q : Expr → bool) (l : list Expr) :
  (∀ e, p e = true → q e = true) →
  existsb (anyExpr q) l = false → existsb (anyExpr p) l = false.
Proof.
  intros Hpq H. destruct (existsb (anyExpr p) l) eqn:Hp; [|reflexivity].
  apply existsb_exists in Hp as (c & Hin & Hc).
  apply (anyExpr_mono _ _ Hpq) in Hc.
  assert (existsb (anyExpr q) l = true) by (apply existsb_exists; eauto).
  congruence.
Qed.

Lemma noCase_Throw (e : Expr) (k : ExpressionKind) :
  kindOf e = Some k → hasExpressionCase k = false →
  reifyIrExpression e = Throw (unsupportedExpression k).
Proof.
  intros Hk Hc. unfold reifyIrExpression. rewrite Hk.
  destruct e; simpl in Hk; try discriminate; injection Hk as <-;
    simpl in Hc; try discriminate; reflexivity.
Qed.

Lemma noCase_rejected (e : Expr) : noCase e = true → rejected e = true.
Proof.
  unfold noCase, rejected. destruct (kindOf e) as [k|] eqn:Hk; [|discriminate].
  intros Hc%negb_true_iff. now rewrite (noCase_Throw _ _ Hk Hc).
Qed.

Lemma reifyUpdateOp_inputs (op op' : UpdateOp) :
  reifyUpdateOp op = Ok op' →
  hasUpdateCase op = true
  ∧ existsb (anyExpr noCase) (updateOpExprs op) = false.
Proof.
  unfold reifyUpdateOp, run. intros H. inv_monad. split.
  - destruct op; try reflexivity; simpl in Ha0; inv_monad; try discriminate.
  - apply updateOp_clean in Ha0.
    eapply existsb_anyExpr_mono; [apply noCase_rejected | exact Ha0].
Qed.

Lemma reifyCreateOp_inputs (job : Job.t) (isView : bool) (op op' : CreateOp) :
  reifyCreateOp job isView op = Ok op' →
  hasCreateCase op = true
  ∧ existsb (anyExpr noCase) (createOpExprs op) = false.
Proof.
  unfold reifyCreateOp, run. intros H. inv_monad. split.
  - destruct op; try reflexivity; simpl in Ha0; inv_monad; try discriminate.
  - apply createOp_clean in Ha0.
    eapply existsb_anyExpr_mono; [apply noCase_rejected | exact Ha0].
Qed.

Lemma Forall2_In_l {A B} (R : A → B → Prop) (l : list A) (l' : list B) (x : A) :
  Forall2 R l l' → In x l → ∃ y, In y l' ∧ R x y.
Proof.
  induction 1 as [|a b l l' Hab _ IH]; simpl; [tauto|].
  intros [->|Hin]; [eauto|]. destruct (IH Hin) as (y & ? & ?); eauto.
Qed.

Lemma Forall2_In_r {A B} (R : A → B → Prop) (l : list A) (l' : list B) (y : B) :
  Forall2 R l l' → In y l' → ∃ x, In x l ∧ R x y.
Proof.
  induction 1 as [|a b l l' Hab _ IH]; simpl; [tauto|].
  intros [->|Hin]; [eauto|]. destruct (IH Hin) as (x & ? & ?); eauto.
Qed.

(** C1: when [reify] returns a job, every op of every unit's create and
    update list is a [Statement] op whose statement holds no IR expression;
    the job it was given held only ops with an explicit case and no
    expression of a kind without one; and an IR expression whose kind has no
    case makes [reifyIrExpression] throw the assertion for that kind. *)
Theorem C1_reify_leaves_only_statements (job job' : Job.t) :
  reify job = Ok job' →
  (∀ unit, In unit (Job.units job') →
     Forall statementFreeC (Unit.create unit)
     ∧ Forall statementFreeU (Unit.update unit))
  ∧ (∀ unit, In unit (Job.units job) →
       (∀ op, In op (Unit.create unit) →
          hasCreateCase op = true
          ∧ existsb (anyExpr noCase) (createOpExprs op) = false)
       ∧ (∀ op, In op (Unit.update unit) →
            hasUpdateCase op = true
            ∧ existsb (anyExpr noCase) (updateOpExprs op) = false))
  ∧ (∀ e k, kindOf e = Some k → hasExpressionCase k = false →
       reifyIrExpression e = Throw (unsupportedExpression k)).
Proof.
  unfold reify. intros H. inv_monad. simpl.
  apply rmap_Forall2 in Ha. split; [|split].
  - intros unit' Hin.
    destruct (Forall2_In_r _ _ _ _ Ha Hin) as (unit & _ & Hu).
    unfold reifyUnit, reifyCreateOperations, reifyUpdateOperations in Hu.
    inv_monad. simpl. apply rmap_Forall2 in Ha0, Ha1. split.
    + apply List.Forall_forall. intros op' Hop.
      destruct (Forall2_In_r _ _ _ _ Ha0 Hop) as (op & _ & Hr).
      eapply reifyCreateOp_statement. exact Hr.
    + apply List.Forall_forall. intros op' Hop.
      destruct (Forall2_In_r _ _ _ _ Ha1 Hop) as (op & _ & Hr).
      eapply reifyUpdateOp_statement. exact Hr.
  - intros unit Hin.
    destruct (Forall2_In_l _ _ _ _ Ha Hin) as (unit' & _ & Hu).
    unfold reifyUnit, reifyCreateOperations, reifyUpdateOperations in Hu.
    inv_monad. apply rmap_Forall2 in Ha0, Ha1. split.
    + intros op Hop.
      destruct (Forall2_In_l _ _ _ _ Ha0 Hop) as (op' & _ & Hr).
      eapply reifyCreateOp_inputs. exact Hr.
    + intros op Hop.
      destruct (Forall2_In_l _ _ _ _ Ha1 Hop) as (op' & _ & Hr).
      eapply reifyUpdateOp_inputs. exact Hr.
  - apply noCase_Throw.
Qed.

(** [reify] succeeds on [sampleJob], and leaves statements only. *)
Lemma C1_reify_leaves_only_statements_witness :
  ∃ job',
    reify sampleJob = Ok job'
    ∧ length (Job.units job') = 1
    ∧ ∀ unit, In unit (Job.units job') →
        Forall statementFreeC (Unit.create unit)
        ∧ Forall statementFreeU (Unit.update unit).
Proof.
  eexists. split; [vm_compute; reflexivity|]. split; [reflexivity|].
  exact (proj1 (C1_reify_leaves_only_statements sampleJob _ eq_refl)).
Defined.

(** ** The [$event] parameter *)

Lemma dollarEvent_scans (e : Expr) : scans dollarEventTransform isDollarEventRead e.
Proof. exact (transform_resolvesEvent e). Qed.

Lemma transformDollarEventOp_listener (l : ListenerOp.t) (op' : CreateOp) :
  transformDollarEventOp (ListenerOp l) = Ok op' →
  ∃ ops',
    op' = ListenerOp
            (ListenerOp.set_handler ops'
               (ListenerOp.consumesDollarEvent l
                || handlerReadsDollarEvent (ListenerOp.handlerOps l)) l)
    ∧ handlerReadsDollarEvent ops' = false.
Proof.
  unfold transformDollarEventOp. intros H. simpl in H. inv_monad.
  apply (handlerOps_scans _ _ dollarEvent_scans) in Ha0 as [-> Hclean].
  exists a0. split; [|exact Hclean].
  simpl. unfold ListenerOp.set_handler. simpl. reflexivity.
Qed.

(** C6: for a listener as ingestion creates it (not yet marked), the phase
    returns a listener marked as consuming [$event] exactly when its handler
    ops held a lexical read of [$event]; no such read is left in the handler,
    each one having become a direct variable read; and the function that
    reification builds from the resolved listener declares the [$event]
    parameter if and only if the handler held such a read. *)
Theorem C6_event_parameter_iff_read (l : ListenerOp.t) (op' : CreateOp) :
  ListenerOp.consumesDollarEvent l = false →
  transformDollarEventOp (ListenerOp l) = Ok op' →
  ∃ l',
    op' = ListenerOp l'
    ∧ ListenerOp.consumesDollarEvent l'
      = handlerReadsDollarEvent (ListenerOp.handlerOps l)
    ∧ handlerReadsDollarEvent (ListenerOp.handlerOps l') = false
    ∧ (∀ flags s,
         dollarEventTransform (LexicalReadExpr "$event") flags s
         = Ok (ReadVarExpr (Some "$event"), true))
    ∧ ∀ fn,
        reifyListenerHandler (ListenerOp.handlerFnName l')
          (ListenerOp.handlerOps l') (ListenerOp.consumesDollarEvent l')
        = Ok fn →
        (In "$event" (fnParams fn)
         ↔ handlerReadsDollarEvent (ListenerOp.handlerOps l) = true).
Proof.
  intros Hflag H.
  apply transformDollarEventOp_listener in H as (ops' & -> & Hclean).
  rewrite Hflag. simpl.
  eexists. split; [reflexivity|]. simpl.
  split; [reflexivity|]. split; [exact Hclean|]. split; [reflexivity|].
  intros fn Hfn. unfold reifyListenerHandler in Hfn. inv_monad. simpl.
  destruct (handlerReadsDollarEvent (ListenerOp.handlerOps l)); simpl.
  - split; [reflexivity | auto].
  - split; [tauto | discriminate].
Qed.

(** The click listener reads [$event]; its function declares it. *)
Lemma C6_event_parameter_iff_read_witness :
  ListenerOp.consumesDollarEvent clickListener = false
  ∧ transformDollarEventOp (ListenerOp clickListener)
    = Ok (ListenerOp clickListenerResolved)
  ∧ ∃ fn,
      reifyListenerHandler (ListenerOp.handlerFnName clickListenerResolved)
        (ListenerOp.handlerOps clickListenerResolved)
        (ListenerOp.consumesDollarEvent clickListenerResolved)
      = Ok fn
      ∧ In "$event" (fnParams fn).
Proof.
  split; [reflexivity|]. split; [reflexivity|].
  eexists. split; [vm_compute; reflexivity|].
  destruct (C6_event_parameter_iff_read clickListener
              (ListenerOp clickListenerResolved) eq_refl eq_refl)
    as (l' & Hl' & _ & _ & _ & Hfn).
  injection Hl' as <-.
  apply (Hfn _ eq_refl). reflexivity.
Defined.

Lemma reads_rejected (e : Expr) : isDollarEventRead e = true → rejected e = true.
Proof. destruct e; try discriminate. reflexivity. Qed.

Lemma rmap_id {A} (l : list A) : rmap (fun x => Ok x) l = Ok l.
Proof. induction l as [|x l IH]; simpl; [reflexivity | now rewrite IH]. Qed.

(** ** What [$event] resolution leaves alone *)

(** C10: the phase returns every op that is not a listener as it was, and
    every update list as it was; over a job, each unit keeps its update list
    and each create op that is not a listener.  A lexical read is rejected by
    [reifyIrExpression], so an op that still holds a read of [$event] makes
    reification of that op fail. *)
Theorem C10_only_listeners_change :
  (∀ op, isListener op = false → transformDollarEventOp op = Ok op)
  ∧ (∀ ops, transformDollarEventU ops = Ok ops)
  ∧ (∀ job job',
       resolveDollarEvent job = Ok job' →
       Forall2
         (fun unit unit' =>
            Unit.update unit' = Unit.update unit
            ∧ Forall2 (fun op op' => isListener op = false → op' = op)
                (Unit.create unit) (Unit.create unit'))
         (Job.units job) (Job.units job'))
  ∧ (∀ name,
       reifyIrExpression (LexicalReadExpr name)
       = Throw ("AssertionError: unresolved LexicalRead of " ++ name))
  ∧ (∀ op,
       existsb (anyExpr isDollarEventRead) (updateOpExprs op) = true →
       isOk (reifyUpdateOp op) = false)
  ∧ (∀ job isView op,
       existsb (anyExpr isDollarEventRead) (createOpExprs op) = true →
       isOk (reifyCreateOp job isView op) = false).
Proof.
  repeat split.
  - intros op Hop. destruct op; try reflexivity. discriminate.
  - intros ops. apply rmap_id.
  - intros job job' H. unfold resolveDollarEvent in H. inv_monad. simpl.
    apply rmap_Forall2 in Ha.
    eapply Forall2_impl; [exact Ha|]. intros unit unit' Hu. simpl in Hu.
    unfold ResolveDollarEvent.resolveUnit, transformDollarEvent, transformDollarEventU in Hu.
    inv_monad. rewrite rmap_id in Ha1. injection Ha1 as <-. simpl.
    split; [reflexivity|].
    apply rmap_Forall2 in Ha0.
    eapply Forall2_impl; [exact Ha0|]. intros op op' Hop Hl. simpl in Hop.
    destruct op; simpl in Hop; try discriminate; congruence.
  - intros op Hop.
    destruct (reifyUpdateOp op) as [op'|] eqn:Hr; [exfalso | reflexivity].
    unfold reifyUpdateOp, run in Hr. inv_monad.
    apply updateOp_clean in Ha0.
    apply (existsb_anyExpr_mono _ _ _ reads_rejected) in Ha0. congruence.
  - intros job isView op Hop.
    destruct (reifyCreateOp job isView op) as [op'|] eqn:Hr;
      [exfalso | reflexivity].
    unfold reifyCreateOp, run in Hr. inv_monad.
    apply createOp_clean in Ha0.
    apply (existsb_anyExpr_mono _ _ _ reads_rejected) in Ha0. congruence.
Qed.

(** A read of [$event] in an update op stays, and reification refuses it. *)
Lemma C10_only_listeners_change_witness :
  existsb (anyExpr isDollarEventRead) (updateOpExprs strayEventRead) = true
  ∧ transformDollarEventU [strayEventRead] = Ok [strayEventRead]
  ∧ isOk (reifyUpdateOp strayEventRead) = false.
Proof.
  destruct C10_only_listeners_change as (_ & Hupdate & _ & _ & Hreject & _).
  split; [reflexivity|]. split; [apply Hupdate|].
  apply Hreject. reflexivity.
Defined.

(** ** Sanitizer resolution *)

Lemma resolveSanitizerOf_idem truthy sens elements (p p' : PropertyOp.t) :
  resolveSanitizerOf truthy sens elements p = Ok p' →
  resolveSanitizerOf truthy sens elements p' = Ok p'.
Proof.
  unfold resolveSanitizerOf. intros H.
  assert (Hctx : PropertyOp.securityContext p' = PropertyOp.securityContext p
                 ∧ PropertyOp.target p' = PropertyOp.target p
                 ∧ PropertyOp.name p' = PropertyOp.name p
                 ∧ ∀ s, PropertyOp.set_sanitizer s p'
                        = PropertyOp.set_sanitizer s p).
  { repeat match type of H with
           | match ?x with _ => _ end = Ok _ => destruct x
           | (if ?b then _ else _) = Ok _ => destruct b
           end; try discriminate; injection H as <-; repeat split. }
  destruct Hctx as (-> & -> & -> & Hset).
  repeat match type of H with
         | match ?x with _ => _ end = Ok _ => destruct x
         | (if ?b then _ else _) = Ok _ => destruct b
         end; try discriminate; rewrite Hset; injection H as <-; reflexivity.
Qed.

Lemma resolveOp_idem truthy sens elements (op op' : UpdateOp) :
  resolveOp truthy sens elements op = Ok op' →
  resolveOp truthy sens elements op' = Ok op'.
Proof.
  destruct op; simpl; intros H; inv_monad; simpl; try reflexivity;
    now rewrite (resolveSanitizerOf_idem _ _ _ _ _ Ha).
Qed.

Lemma rmap_idem {A} (f : A → Result A) (l l' : list A) :
  (∀ x y, f x = Ok y → f y = Ok y) → rmap f l = Ok l' → rmap f l' = Ok l'.
Proof.
  intros Hf H%rmap_Forall2. apply Forall2_rmap.
  induction H; constructor; eauto.
Qed.

Lemma resolveUnit_idem truthy sens (unit unit' : Unit.t) :
  resolveUnit truthy sens unit = Ok unit' →
  resolveUnit truthy sens unit' = Ok unit'.
Proof.
  unfold resolveUnit. intros H. inv_monad.
  assert (Hmap : createOpXrefMap (Unit.set_update a unit) = createOpXrefMap unit)
    by reflexivity.
  rewrite Hmap. simpl.
  rewrite (rmap_idem _ _ _ (resolveOp_idem truthy sens _) Ha). reflexivity.
Qed.

(** C9: a job that sanitizer resolution returned is a fixed point of the
    phase: running it on that job succeeds and returns the same job. *)
Theorem C9_sanitizer_resolution_idempotent truthy sens (job job' : Job.t) :
  resolveSanitizers truthy sens job = Ok job' →
  resolveSanitizers truthy sens job' = Ok job'.
Proof.
  unfold resolveSanitizers. intros H. inv_monad. simpl.
  rewrite (rmap_idem _ _ _ (resolveUnit_idem truthy sens) Ha). reflexivity.
Qed.

(** The phase succeeds on [danglingUrlJob], and a second time on its result. *)
Lemma C9_sanitizer_resolution_idempotent_witness :
  ∃ job',
    resolveSanitizers allTruthy notSensitive danglingUrlJob = Ok job'
    ∧ resolveSanitizers allTruthy notSensitive job' = Ok job'.
Proof.
  eexists. split; [vm_compute; reflexivity|].
  apply (C9_sanitizer_resolution_idempotent allTruthy notSensitive
           danglingUrlJob).
  vm_compute. reflexivity.
Defined.

Lemma unresolved_owner_not_fatal : ¬ unresolved_owner_is_fatal.
Proof.
  intros H.
  specialize (H htmlFalsy (fun _ => false) danglingUrlJob
                danglingUrlUnit danglingUrlProperty).
  discriminate H; [left | left |]; reflexivity.
Qed.




(** ** Expression conversion *)

(** C8: a call whose receiver is the implicit receiver (or [this], its
    subclass) makes conversion throw; any other call converts its receiver,
    then its arguments from left to right, and is the invocation of the one on
    the others, failing where one of them fails. *)
Theorem C8_call_conversion (env : Collaborators) (span : ParseSpan)
    (receiver : AST) (args : list AST) (baseSourceSpan : SourceSpan)
    (job : Job.t) :
  (isImplicitReceiver receiver = true →
   convertAst env (Call span receiver args) baseSourceSpan job
   = Throw "Unexpected ImplicitReceiver")
  ∧ (isImplicitReceiver receiver = false →
     convertAst env (Call span receiver args) baseSourceSpan job
     = match convertAst env receiver baseSourceSpan job with
       | Ok (fn, job1) =>
           match mapM (fun arg => convertAst env arg baseSourceSpan) args job1
           with
           | Ok (args', job2) =>
               Ok (InvokeFunctionExpr fn args'
                     (convertSourceSpan span baseSourceSpan), job2)
           | Throw m => Throw m
           end
       | Throw m => Throw m
       end).
Proof.
  split; intros H; simpl; rewrite H; [reflexivity|].
  unfold bind. destruct (convertAst env receiver baseSourceSpan job) as [[fn job1]|];
    [|reflexivity].
  destruct (mapM _ args job1) as [[args' job2]|]; reflexivity.
Qed.

(** A call on the implicit receiver is refused; [f()] is converted. *)
Lemma C8_call_conversion_witness :
  isImplicitReceiver (ImplicitReceiver noSpan) = true
  ∧ convertAst plainEnv (Call noSpan (ImplicitReceiver noSpan) []) None
      deferJob
    = Throw "Unexpected ImplicitReceiver"
  ∧ isImplicitReceiver (PropertyRead noSpan (ImplicitReceiver noSpan) "f")
    = false
  ∧ convertAst plainEnv callOfF None deferJob
    = Ok (InvokeFunctionExpr (LexicalReadExpr "f") [] None, deferJob).
Proof.
  split; [reflexivity|]. split.
  - apply (proj1 (C8_call_conversion plainEnv noSpan (ImplicitReceiver noSpan)
                    [] None deferJob)).
    reflexivity.
  - split; [reflexivity|]. unfold callOfF.
    rewrite (proj2 (C8_call_conversion plainEnv noSpan
                      (PropertyRead noSpan (ImplicitReceiver noSpan) "f")
                      [] None deferJob) eq_refl).
    reflexivity.
Defined.

(** C7, amended: [this], and the receiver of a property write on the implicit
    receiver, become the context expression of the job's root view, whatever
    view the expression is converted for. *)
Theorem C7_this_is_the_root_context (env : Collaborators) (span : ParseSpan)
    (baseSourceSpan : SourceSpan) (job : Job.t) :
  convertAst env (ThisReceiver span) baseSourceSpan job
  = Ok (ContextExpr (Job.root job), job)
  ∧ ∀ receiver name value,
      isImplicitReceiver receiver = true →
      convertAst env (PropertyWrite span receiver name value) baseSourceSpan
        job
      = match convertAst env value baseSourceSpan job with
        | Ok (v, job') =>
            Ok (WritePropExpr (ContextExpr (Job.root job)) name v
                  (convertSourceSpan span baseSourceSpan), job')
        | Throw m => Throw m
        end.
Proof.
  split; [reflexivity|]. intros receiver name value H. simpl. rewrite H.
  unfold bind, get.
  destruct (convertAst env value baseSourceSpan job) as [[v job']|];
    reflexivity.
Qed.

(** [this.title = 1] writes to the context of the root view. *)
Lemma C7_this_is_the_root_context_witness :
  isImplicitReceiver (ThisReceiver noSpan) = true
  ∧ convertAst plainEnv writeTitle None deferJob
    = Ok (WritePropExpr (ContextExpr 0) "title" (LiteralExpr (LitNum 1) None)
            None, deferJob).
Proof.
  split; [reflexivity|]. unfold writeTitle.
  rewrite (proj2 (C7_this_is_the_root_context plainEnv noSpan None deferJob)
             (ThisReceiver noSpan) "title"
             (LiteralPrimitive noSpan (LitNum 1)) eq_refl).
  reflexivity.
Defined.

Lemma context_not_owning_view : ¬ context_names_owning_view.
Proof.
  intros H.
  destruct (ingestComponent plainEnv 3 "C" thisInBranch true ∅) as [job|]
    eqn:Hjob; [|discriminate Hjob].
  vm_compute in Hjob. injection Hjob as <-.
  specialize (H plainEnv 3 "C" thisInBranch true ∅ _ eq_refl
                thisInBranchView thisInBranchOp).
  discriminate H; [right; left | left]; reflexivity.
Qed.

(** C7, as stated, fails on [@if (show) { {{ this.title }} }]: the
    interpolation is ingested into the branch's view, whose xref is 1, and
    its [this] becomes the context of view 0, the root. *)
Lemma C7_counterexample :
  ∃ job,
    ingestComponent plainEnv 3 "C" thisInBranch true ∅ = Ok job
    ∧ Job.root job = 0
    ∧ In thisInBranchView (Job.units job)
    ∧ Unit.xref thisInBranchView = 1
    ∧ In thisInBranchOp (Unit.update thisInBranchView)
    ∧ existsb (anyExpr (foreignContext (Unit.xref thisInBranchView)))
        (updateOpExprs thisInBranchOp)
      = true.
Proof.
  eexists. split; [vm_compute; reflexivity|].
  repeat split; [right; left | left]; reflexivity.
Qed.

(** ** The triggers of a deferred block *)

Lemma pushIf_app {A B} (o : option A) (f : A → B) (l : list B) :
  pushIf o f l = l ++ option_list (f <$> o).
Proof. destruct o; simpl; [reflexivity | now rewrite app_nil_r]. Qed.

Lemma explicitOn_kinds deferXref t prefetch :
  map kindOfOn (explicitOn deferXref t prefetch) = configuredOn t.
Proof.
  unfold explicitOn, configuredOn.
  destruct (idle t), (immediate t), (timer t), (hover t), (interaction t),
    (viewport t); reflexivity.
Qed.

Lemma explicitOn_prefetch deferXref t prefetch :
  Forall (fun op => DeferOnOp.prefetch op = prefetch)
    (explicitOn deferXref t prefetch).
Proof.
  unfold explicitOn.
  destruct (idle t), (immediate t), (timer t), (hover t), (interaction t),
    (viewport t); simpl; repeat constructor.
Qed.

(** One turn of the loop: the group's own ops are appended, then the
    default if both arrays are still empty. *)
Lemma ingestDeferTriggers_spec env deferXref triggers prefetch ons whens job
    ons' whens' job' :
  ingestDeferTriggers env deferXref triggers prefetch ons whens job
  = Ok ((ons', whens'), job') →
  let explicit := ons ++ explicitOn deferXref triggers prefetch in
  ons' = explicit
         ++ (if Nat.eqb (length explicit) 0 && Nat.eqb (length whens') 0
             then [createDeferOnOp deferXref IdleTrigger false None]
             else [])
  ∧ ∃ added,
      whens' = whens ++ added
      ∧ Forall (fun w => DeferWhenOp.prefetch w = prefetch) added
      ∧ length added = length (option_list (when triggers)).
Proof.
  unfold ingestDeferTriggers, explicitOn. rewrite !pushIf_app.
  intros H. inv_monad. simpl. split.
  - rewrite <- !app_assoc.
    destruct (_ && _); rewrite <- ?app_assoc, ?app_nil_r; reflexivity.
  - destruct (when triggers) as [w|]; inv_monad.
    + eexists. split; [reflexivity|]. split; [repeat constructor | reflexivity].
    + exists []. rewrite app_nil_r. repeat split. constructor.
Qed.

Lemma filter_all {A} (P : A → bool) (l : list A) :
  Forall (fun x => P x = true) l → List.filter P l = l.
Proof.
  induction 1 as [|x l Hx _ IH]; simpl; [reflexivity|]. now rewrite Hx, IH.
Qed.

Lemma filter_none {A} (P : A → bool) (l : list A) :
  Forall (fun x => P x = false) l → List.filter P l = [].
Proof.
  induction 1 as [|x l Hx _ IH]; simpl; [reflexivity|]. now rewrite Hx.
Qed.

Lemma ingestAllDeferTriggers_spec env deferXref triggers prefetchTriggers job
    ons whens job' :
  ingestAllDeferTriggers env deferXref triggers prefetchTriggers job
  = Ok ((ons, whens), job') →
  ∃ primary,
    ons = primary ++ explicitOn deferXref prefetchTriggers true
    ∧ Forall (fun op => DeferOnOp.prefetch op = false) primary
    ∧ (noTriggers triggers →
       primary = [createDeferOnOp deferXref IdleTrigger false None]
       ∧ Forall (fun w => DeferWhenOp.prefetch w = true) whens
       ∧ length whens = length (option_list (when prefetchTriggers))).
Proof.
  unfold ingestAllDeferTriggers. intros H. inv_monad.
  destruct a as [ons1 whens1].
  apply ingestDeferTriggers_spec in Ha as (Hons1 & added1 & Hw1 & Hp1 & Hl1).
  apply ingestDeferTriggers_spec in H as (Hons & added & Hw & Hp & Hl).
  simpl in *. exists ons1.
  assert (Hne : Nat.eqb (length (ons1 ++ explicitOn deferXref prefetchTriggers true)) 0
                && Nat.eqb (length whens) 0 = false).
  { rewrite Hons1, Hw, Hw1, !length_app.
    destruct (explicitOn deferXref triggers false) as [|o l]; simpl;
      [|reflexivity].
    destruct added1; simpl; [reflexivity|]. simpl. now rewrite andb_false_r. }
  rewrite Hne, app_nil_r in Hons. split; [exact Hons|]. split.
  - rewrite Hons1. apply Forall_app. split.
    + apply explicitOn_prefetch.
    + destruct (_ && _); repeat constructor.
  - intros (Hwhen & Hidle & Himm & Hhover & Htimer & Hint & Hview).
    rewrite Hwhen in Hl1. destruct added1; [|discriminate].
    subst whens1. simpl in Hw. subst whens.
    unfold explicitOn in Hons1.
    rewrite Hidle, Himm, Hhover, Htimer, Hint, Hview in Hons1.
    simpl in Hons1. auto.
Qed.

(** ** Content projection of control-flow branches *)

(** C2, where the code departs from the claim: in [@if (show) { hello <div
    foo=1></div> }] the branch has a text node and an element, yet the
    wrapper takes the tag name [div] and the attribute [foo]; with the text
    after the element nothing is inferred; the element alone is the case the
    claim describes. *)
Theorem C2_text_before_root_keeps_inference :
  (* a text node, then the element: two roots, yet the element is taken *)
  wrapperOf (ingestComponent plainEnv 3 "C" (ifShow [helloText; divFoo])
               true ∅)
  = Some (Some "div", [copiedFoo])
  (* the element, then the text node: nothing is inferred *)
  ∧ wrapperOf (ingestComponent plainEnv 3 "C" (ifShow [divFoo; helloText])
                 true ∅)
    = Some (None, [])
  (* the element alone *)
  ∧ wrapperOf (ingestComponent plainEnv 3 "C" (ifShow [divFoo]) true ∅)
    = Some (Some "div", [copiedFoo]).
Proof. repeat split; vm_compute; reflexivity. Qed.

(** What the loop does find: the only non-comment child, when it is an
    element or a template with a tag name. *)
Lemma findRoot_comments (children : list Node) (root : option Node) :
  forallb isComment children = true → findRoot children root = Some root.
Proof.
  induction children as [|c l IH]; simpl; [reflexivity|].
  intros [Hc Hl]%andb_prop. rewrite Hc. auto.
Qed.

Lemma findRoot_single_root (before after : list Node) (root : Node) :
  forallb isComment before = true → forallb isComment after = true →
  isRootCandidate root = true →
  findRoot (before ++ root :: after) None = Some (Some root).
Proof.
  intros Hb Ha Hr. induction before as [|c l IH]; simpl.
  - assert (isComment root = false) as -> by (destruct root; try reflexivity; discriminate).
    rewrite Hr. now apply findRoot_comments.
  - simpl in Hb. apply andb_prop in Hb as [-> Hb]. auto.
Qed.

Lemma findRoot_second_root (root : Node) (between after : list Node)
    (other : Node) :
  isComment other = false → forallb isComment between = true →
  findRoot (between ++ other :: after) (Some root) = None.
Proof.
  intros Ho Hb. induction between as [|c l IH]; simpl.
  - now rewrite Ho.
  - simpl in Hb. apply andb_prop in Hb as [-> Hb]. auto.
Qed.

(** ** Contexts of i18n blocks *)

(** C3, where the code departs from the claim: an ICU of the same message as
    the child block around it takes the block's context while that is still
    unset, and keeps none; the block itself is given the root's context in the
    second pass.  Contexts by xref: the root block 1, the child block 3 and
    its ICU 4. *)
Theorem C3_icu_in_child_block_keeps_stale_context :
  contextsAfter icuInChildBlock
  = Some [[(1, Some 5)]; [(3, Some 5); (4, None)]].
Proof. vm_compute. reflexivity. Qed.

(** * Ingestion, views and phases *)

(** ** Expression conversion and the id counter *)

Lemma AST_children_ind (P : AST → Prop) :
  (∀ ast, Forall P (astChildren ast) → P ast) → ∀ ast, P ast.
Proof.
  intros step. fix IH 1. intros ast. apply step.
  destruct ast; simpl;
    repeat match goal with
    | |- Forall P [] => constructor
    | |- Forall P (?a :: _) => constructor; [apply IH|]
    | |- Forall P ?l => is_var l; induction l; constructor; [apply IH | assumption]
    end.
Qed.

Lemma advanced_0 (job : Job.t) : advanced 0 job = job.
Proof. destruct job. unfold advanced, Job.set_nextXrefId. simpl. now rewrite Nat.add_0_r. Qed.

Lemma advanced_advanced (n m : nat) (job : Job.t) :
  advanced m (advanced n job) = advanced (n + m) job.
Proof. unfold advanced, Job.set_nextXrefId. simpl. now rewrite Nat.add_assoc. Qed.

Lemma next_advanced (n : nat) (job : Job.t) :
  Job.nextXrefId (advanced n job) = Job.nextXrefId job + n.
Proof. reflexivity. Qed.

Lemma allocateXrefId_advanced (job : Job.t) :
  Ingest.allocateXrefId job = Ok (Job.nextXrefId job, advanced 1 job).
Proof. unfold Ingest.allocateXrefId, advanced. now rewrite Nat.add_1_r. Qed.

Lemma implicit_no_pipe (r : AST) : isImplicitReceiver r = true → pipeCount r = 0.
Proof. destruct r; simpl; congruence. Qed.

Section Conversion.
Variable env : Collaborators.

Lemma mapM_convertsWell (l : list AST) (span : SourceSpan) :
  Forall (convertsWell env) l →
  ∀ job es job',
    mapM (fun a => convertAst env a span) l job = Ok (es, job') →
    job' = advanced (sum (map pipeCount l)) job
    ∧ flat_map pipeXrefs es
      = seq (Job.nextXrefId job) (sum (map pipeCount l)).
Proof.
  induction 1 as [|a l Ha _ IH]; simpl; intros job es job' H; inv_monad.
  - now rewrite advanced_0.
  - apply Ha in Ha0 as [-> Hx]. apply IH in Ha1 as [-> Hxs].
    rewrite advanced_advanced. split; [reflexivity|].
    simpl. rewrite Hx, Hxs, next_advanced, seq_app. reflexivity.
Qed.

Ltac use_children :=
  repeat match goal with
  | Hf : Forall _ (_ :: _) |- _ =>
      apply Forall_cons_1 in Hf as [? Hf]; cbv beta in *
  | Hf : Forall _ [] |- _ => clear Hf
  end;
  repeat match goal with
  | IH : (convertsWell env) ?a, H : convertAst env ?a _ _ = Ok _ |- _ =>
      apply IH in H as [-> ?]
  | IH : Forall _ ?l,
    H : mapM (fun a => convertAst env a _) ?l _ = Ok _ |- _ =>
      apply (mapM_convertsWell _ _ IH) in H as [-> ?]
  end.

Ltac counted :=
  simpl;
  rewrite ?allocateXrefId_advanced in *;
  rewrite ?advanced_advanced, ?advanced_0, ?next_advanced, ?seq_app,
    ?Nat.add_assoc;
  repeat match goal with H : pipeXrefs _ = _ |- _ => rewrite H; clear H end;
  repeat match goal with H : flat_map pipeXrefs _ = _ |- _ => rewrite H; clear H end;
  rewrite ?next_advanced, ?Nat.add_assoc, <- ?app_assoc.

Lemma entries_convertsWell (span : SourceSpan) (values : list AST) :
  Forall (convertsWell env) values →
  ∀ keys job es job',
    (fix entriesOf (keys : list (string * bool)) (values : list AST)
       {struct values} : M Job.t (list (string * Expr * bool)) :=
       match keys, values with
       | [], _ => ret []
       | _ :: _, [] =>
           throw "TypeError: Cannot read properties of undefined (reading 'constructor')"
       | (key, quoted) :: keys', value :: values' =>
           let* v := convertAst env value span in
           let* rest := entriesOf keys' values' in
           ret ((key, v, quoted) :: rest)
       end) keys values job = Ok (es, job') →
    (length keys ≤ length values)%nat
    ∧ job' = advanced (sum (take (length keys) (map pipeCount values))) job
    ∧ flat_map (fun '(_, v, _) => pipeXrefs v) es
      = seq (Job.nextXrefId job)
          (sum (take (length keys) (map pipeCount values))).
Proof.
  induction 1 as [|v values Hv _ IH]; intros [|[key quoted] keys] job es job' H;
    try discriminate H; inv_monad.
  - simpl. rewrite advanced_0. auto with arith.
  - simpl. rewrite advanced_0. auto with arith.
  - apply Hv in Ha as [-> Hx]. apply IH in Ha0 as (Hlen & -> & Hxs).
    simpl. rewrite advanced_advanced, Hx, Hxs, next_advanced, seq_app.
    auto with arith.
Qed.

Lemma convertAst_convertsWell (ast : AST) : (convertsWell env) ast.
Proof.
  induction ast as [ast IH] using AST_children_ind.
  intros span job e job' H.
  destruct ast; simpl in H, IH.
  all: try discriminate H.
  all: try (inv_monad; use_children; counted; split; reflexivity).
  - (* PropertyRead *)
    destruct (isImplicitReceiver ast) eqn:Hi; simpl in H.
    + destruct (isThisReceiver ast); simpl in H; inv_monad.
      * use_children. counted. split; reflexivity.
      * simpl. rewrite (implicit_no_pipe _ Hi), advanced_0. split; reflexivity.
    + inv_monad. use_children. counted. split; reflexivity.
  - (* PropertyWrite *)
    destruct (isImplicitReceiver ast1) eqn:Hi; inv_monad; use_children.
    + simpl. rewrite (implicit_no_pipe _ Hi). simpl. split; [reflexivity | assumption].
    + counted. split; reflexivity.
  - (* Call *)
    destruct (isImplicitReceiver ast); [discriminate H|].
    inv_monad. use_children. counted. split; reflexivity.
  - (* Binary *)
    destruct (BINARY_OPERATORS env operation); [|discriminate H].
    inv_monad. use_children. counted. split; reflexivity.
  - (* LiteralMap *)
    inv_monad. apply (entries_convertsWell _ _ IH) in Ha as (_ & -> & Hx).
    simpl. split; [reflexivity | exact Hx].
  - (* BindingPipe *)
    inv_monad. rewrite allocateXrefId_advanced in Ha. inv_monad.
    use_children. counted.
    split; [f_equal; lia|]. now rewrite Nat.add_1_r.
Qed.
End Conversion.

(** X1: a successful conversion leaves the job as it was but for the id
    counter, which has moved by the number of pipes in the expression. *)
Theorem convertAst_only_allocates (env : Collaborators) (ast : AST)
    (span : SourceSpan) (job job' : Job.t) (e : Expr) :
  convertAst env ast span job = Ok (e, job') →
  job' = Job.set_nextXrefId (Job.nextXrefId job + pipeCount ast) job.
Proof. intros H. now apply convertAst_convertsWell in H as [-> _]. Qed.

(** Converting [a | f | g:1] in a new job moves the counter by two. *)
Lemma convertAst_only_allocates_witness :
  ∃ e job',
    convertAst plainEnv pipeOfPipe None deferJob = Ok (e, job')
    ∧ job' = Job.set_nextXrefId (Job.nextXrefId deferJob + pipeCount pipeOfPipe)
               deferJob.
Proof.
  destruct (convertAst plainEnv pipeOfPipe None deferJob) as [[e job']|] eqn:E.
  - exists e, job'. split; [reflexivity|].
    exact (convertAst_only_allocates _ _ _ _ _ _ E).
  - vm_compute in E. discriminate E.
Defined.

(** X2: the pipe bindings of a converted expression carry the ids the
    conversion allocated: consecutive from the counter, an outer pipe before
    the pipes inside it, from left to right. *)
Theorem convertAst_pipe_ids (env : Collaborators) (ast : AST)
    (span : SourceSpan) (job job' : Job.t) (e : Expr) :
  convertAst env ast span job = Ok (e, job') →
  pipeXrefs e = seq (Job.nextXrefId job) (pipeCount ast)
  ∧ NoDup (pipeXrefs e)
  ∧ ∀ x, In x (pipeXrefs e) →
         Job.nextXrefId job ≤ x < Job.nextXrefId job'.
Proof.
  intros H. apply convertAst_convertsWell in H as [-> Hx].
  rewrite Hx. split; [reflexivity|]. split; [apply NoDup_ListNoDup, seq_NoDup|].
  intros x Hin%in_seq. simpl. lia.
Qed.

(** The two pipes of [a | f | g:1] take the ids 1 and 2. *)
Lemma convertAst_pipe_ids_witness :
  ∃ e job',
    convertAst plainEnv pipeOfPipe None deferJob = Ok (e, job')
    ∧ pipeXrefs e = seq (Job.nextXrefId deferJob) (pipeCount pipeOfPipe)
    ∧ NoDup (pipeXrefs e)
    ∧ ∀ x, In x (pipeXrefs e) →
           (Job.nextXrefId deferJob ≤ x < Job.nextXrefId job')%nat.
Proof.
  destruct (convertAst plainEnv pipeOfPipe None deferJob) as [[e job']|] eqn:E.
  - exists e, job'. split; [reflexivity|].
    exact (convertAst_pipe_ids _ _ _ _ _ _ E).
  - vm_compute in E. discriminate E.
Defined.

Lemma isOk_bind {S A B} (c : M S A) (k : A → M S B) (s : S) :
  isOk (bind c k s)
  = match c s with Ok (a, s') => isOk (k a s') | Throw _ => false end.
Proof. unfold bind. destruct (c s) as [[a s']|]; reflexivity. Qed.

Section Acceptance.
Variable env : Collaborators.

Lemma mapM_accepts (l : list AST) (span : SourceSpan) :
  Forall (accepts env) l →
  ∀ job, isOk (mapM (fun a => convertAst env a span) l job)
         = forallb (convertible env) l.
Proof.
  induction 1 as [|a l Ha _ IH]; intros job; simpl; [reflexivity|].
  rewrite isOk_bind, <- (Ha span job).
  destruct (convertAst env a span job) as [[e job1]|]; [|reflexivity].
  rewrite isOk_bind, <- (IH job1).
  destruct (mapM _ l job1) as [[es job2]|]; reflexivity.
Qed.

Lemma entries_accepts (span : SourceSpan) (values : list AST) :
  Forall (accepts env) values →
  ∀ keys job,
    isOk ((fix entriesOf (keys : list (string * bool)) (values : list AST)
             {struct values} : M Job.t (list (string * Expr * bool)) :=
             match keys, values with
             | [], _ => ret []
             | _ :: _, [] =>
                 throw "TypeError: Cannot read properties of undefined (reading 'constructor')"
             | (key, quoted) :: keys', value :: values' =>
                 let* v := convertAst env value span in
                 let* rest := entriesOf keys' values' in
                 ret ((key, v, quoted) :: rest)
             end) keys values job)
    = Nat.leb (length keys) (length values)
      && forallb (fun b => b)
           (take (length keys) (map (convertible env) values)).
Proof.
  induction 1 as [|v values Hv _ IH]; intros [|[key quoted] keys] job;
    try reflexivity.
  simpl. rewrite isOk_bind, <- (Hv span job).
  destruct (convertAst env v span job) as [[e job1]|]; simpl;
    [|now rewrite andb_false_r].
  rewrite isOk_bind, <- (IH keys job1).
  match goal with |- _ = isOk ?x => destruct x as [[es job2]|] end;
    reflexivity.
Qed.

Ltac accept_children :=
  repeat match goal with
  | Hf : Forall _ (_ :: _) |- _ =>
      apply Forall_cons_1 in Hf as [? Hf]; cbv beta in *
  | Hf : Forall _ [] |- _ => clear Hf
  end.

Ltac run_child :=
  rewrite ?isOk_bind;
  match goal with
  | IH : (accepts env) ?a |- context [convertAst env ?a ?sp ?j] =>
      rewrite <- (IH sp j);
      destruct (convertAst env a sp j) as [[? ?]|]; simpl;
      rewrite ?andb_false_r; try reflexivity
  | IH : Forall _ ?l |- context [mapM (fun a => convertAst env a ?sp) ?l ?j] =>
      rewrite <- (mapM_accepts l sp IH j);
      destruct (mapM (fun a => convertAst env a sp) l j) as [[? ?]|]; simpl;
      rewrite ?andb_false_r; try reflexivity
  end.

Lemma convertAst_accepts (ast : AST) : (accepts env) ast.
Proof.
  induction ast as [ast IH] using AST_children_ind.
  intros span job. destruct ast; simpl in IH; accept_children;
    cbn [convertAst convertible];
    try reflexivity.
  all: try solve [repeat run_child].
  - destruct (isImplicitReceiver ast && negb (isThisReceiver ast));
      [reflexivity | repeat run_child].
  - destruct (isImplicitReceiver ast1); simpl; [rewrite isOk_bind; simpl|];
      repeat run_child.
  - destruct (isImplicitReceiver ast); simpl; [reflexivity | repeat run_child].
  - destruct (BINARY_OPERATORS env operation); [repeat run_child | reflexivity].
  - rewrite isOk_bind, <- (entries_accepts span values IH keys job).
    match goal with |- _ = isOk ?x => destruct x as [[es job2]|] end;
      reflexivity.
  - rewrite isOk_bind. simpl. repeat run_child.
Qed.
End Acceptance.

(** X3: whether an expression converts is decided by the expression and the
    table of binary operators alone, whatever the job and the base span:
    conversion fails exactly on a call on the implicit receiver, an unknown
    binary operator, a chain, a literal map with fewer values than keys, a
    bare implicit receiver, an interpolation or a prefix-not, anywhere it
    reaches. *)
Theorem convertAst_succeeds_iff (env : Collaborators) (ast : AST)
    (span : SourceSpan) (job : Job.t) :
  isOk (convertAst env ast span job) = convertible env ast.
Proof. apply convertAst_accepts. Qed.

(** ** Ingestion keeps the views well-formed *)

Lemma extends_refl (job : Job.t) : extends job job.
Proof. split; try reflexivity; exists []; now rewrite app_nil_r. Qed.

Lemma extends_trans (j1 j2 j3 : Job.t) :
  extends j1 j2 → extends j2 j3 → extends j1 j3.
Proof.
  intros [[n1 H1] [p1 P1] ? ? ? ? ? ?] [[n2 H2] [p2 P2] ? ? ? ? ? ?].
  split; try congruence; try lia.
  - exists (n1 ++ n2). now rewrite H2, H1, app_assoc.
  - exists (p1 ++ p2). now rewrite P2, P1, app_assoc.
Qed.

Lemma extends_In (job job' : Job.t) (us : list XrefId) :
  extends job job' →
  Forall (fun u => In u (viewIds job)) us →
  Forall (fun u => In u (viewIds job')) us.
Proof.
  intros [[new Hv] _ _ _ _ _ _ _] H. eapply List.Forall_impl; [|exact H].
  simpl. intros u Hu. rewrite Hv. apply in_or_app. now left.
Qed.

Lemma keeps_ret {A} (us : list XrefId) (a : A) : keeps us (ret a).
Proof. intros job x job' H Hw _. inv_monad. split; [assumption | apply extends_refl]. Qed.

Lemma keeps_throw {A} (us : list XrefId) (m : string) : keeps us (@throw _ A m).
Proof. intros job x job' H. discriminate H. Qed.

Lemma keeps_get (us : list XrefId) : keeps us get.
Proof. intros job x job' H Hw _. inv_monad. split; [assumption | apply extends_refl]. Qed.

Lemma keeps_bind {A B} (us : list XrefId) (c : M Job.t A) (k : A → M Job.t B) :
  keeps us c → (∀ a, keeps us (k a)) → keeps us (bind c k).
Proof.
  intros Hc Hk job b job' H Hw Hin. inv_monad.
  destruct (Hc _ _ _ Ha Hw Hin) as [Hw1 He1].
  destruct (Hk _ _ _ _ H Hw1 (extends_In _ _ _ He1 Hin)) as [Hw2 He2].
  split; [assumption | eapply extends_trans; eassumption].
Qed.

Lemma keeps_weaken {A} (us us' : list XrefId) (c : M Job.t A) :
  (∀ u, In u us → In u us') → keeps us c → keeps us' c.
Proof.
  intros Hsub Hc job a job' H Hw Hin. apply (Hc _ _ _ H Hw).
  apply List.Forall_forall. intros u Hu.
  apply (proj1 (List.Forall_forall _ _) Hin). auto.
Qed.

Lemma keeps_forEach {A} (us : list XrefId) (body : A → M Job.t unit) (l : list A) :
  (∀ x, keeps us (body x)) → keeps us (forEach body l).
Proof.
  intros Hb. induction l as [|x l IH]; simpl.
  - apply keeps_ret.
  - apply keeps_bind; [apply Hb | intros _; exact IH].
Qed.

Lemma keeps_mapM {A B} (us : list XrefId) (f : A → M Job.t B) (l : list A) :
  (∀ x, keeps us (f x)) → keeps us (mapM f l).
Proof.
  intros Hf. induction l as [|x l IH]; simpl.
  - apply keeps_ret.
  - apply keeps_bind; [apply Hf | intros y].
    apply keeps_bind; [exact IH | intros ys; apply keeps_ret].
Qed.

Lemma keeps_optM {A B} (us : list XrefId) (f : A → M Job.t B) (o : option A) :
  (∀ x, keeps us (f x)) → keeps us (optM f o).
Proof.
  intros Hf. destruct o; simpl; [|apply keeps_ret].
  apply keeps_bind; [apply Hf | intros y; apply keeps_ret].
Qed.

Lemma parentOk_same (root : XrefId) (ids : list XrefId) (l l' : list Unit.t) :
  map Unit.xref l' = map Unit.xref l →
  map Unit.parent l' = map Unit.parent l →
  Forall (parentOk root ids) l → Forall (parentOk root ids) l'.
Proof.
  intros Hx Hp H. revert l' Hx Hp.
  induction H as [|u l Hu _ IH]; intros [|u' l'] Hx Hp; try discriminate;
    constructor; injection Hx as Hx1 Hx; injection Hp as Hp1 Hp; auto.
  unfold parentOk in *. now rewrite Hx1, Hp1.
Qed.

(** Well-formedness looks at the ids and parents of the views only. *)
Lemma wellFormed_same (job job' : Job.t) :
  viewIds job' = viewIds job →
  map Unit.parent (Job.units job') = map Unit.parent (Job.units job) →
  (Job.nextXrefId job ≤ Job.nextXrefId job')%nat →
  Job.root job' = Job.root job →
  wellFormed job → wellFormed job'.
Proof.
  intros Hi Hq Hn Hr [Hd Hb Hp]. split.
  - now rewrite Hi.
  - rewrite Hi. eapply List.Forall_impl; [|exact Hb]. simpl. intros. lia.
  - rewrite Hi, Hr. eapply parentOk_same; eassumption.
Qed.

Lemma wellFormed_advanced (n : nat) (job : Job.t) :
  wellFormed job → wellFormed (advanced n job) ∧ extends job (advanced n job).
Proof.
  intros Hw. split.
  - eapply wellFormed_same; try eassumption; try reflexivity. simpl. lia.
  - split; try reflexivity; try (exists []; now rewrite app_nil_r).
    simpl. lia.
Qed.

Lemma keeps_allocateXrefId (us : list XrefId) : keeps us Ingest.allocateXrefId.
Proof.
  intros job a job' H Hw _. rewrite allocateXrefId_advanced in H. inv_monad.
  now apply wellFormed_advanced.
Qed.

Lemma keeps_convertAst (env : Collaborators) (us : list XrefId) (ast : AST)
    (span : SourceSpan) :
  keeps us (convertAst env ast span).
Proof.
  intros job e job' H Hw _. apply convertAst_convertsWell in H as [-> _].
  now apply wellFormed_advanced.
Qed.

Lemma updateUnit_ids (x : XrefId) (f : Unit.t → Unit.t) (job : Job.t) :
  sameView f →
  viewIds (Job.updateUnit x f job) = viewIds job
  ∧ map Unit.parent (Job.units (Job.updateUnit x f job))
    = map Unit.parent (Job.units job).
Proof.
  intros Hf. unfold viewIds, Job.updateUnit. simpl.
  induction (Job.units job) as [|u l [IH1 IH2]]; simpl; [auto|].
  rewrite IH1, IH2. destruct (Nat.eqb (Unit.xref u) x);
    [destruct (Hf u) as [-> ->]|]; auto.
Qed.

Lemma wellFormed_updateUnit (x : XrefId) (f : Unit.t → Unit.t) (job : Job.t) :
  sameView f → wellFormed job →
  wellFormed (Job.updateUnit x f job) ∧ extends job (Job.updateUnit x f job).
Proof.
  intros Hf Hw. destruct (updateUnit_ids x f job Hf) as [Hi Hq].
  split.
  - eapply wellFormed_same; try eassumption; reflexivity.
  - split; try reflexivity.
    + exists []. now rewrite app_nil_r.
    + exists []. now rewrite app_nil_r, Hq.
Qed.

Lemma keeps_updateUnit (us : list XrefId) (x : XrefId) (f : Unit.t → Unit.t) :
  sameView f → keeps us (modify (Job.updateUnit x f)).
Proof.
  intros Hf job a job' H Hw _. inv_monad. now apply wellFormed_updateUnit.
Qed.

Lemma keeps_pushCreate (us : list XrefId) (unit : XrefId) (ops : list CreateOp) :
  keeps us (pushCreate unit ops).
Proof. apply keeps_updateUnit. intros u. split; reflexivity. Qed.

Lemma keeps_pushUpdate (us : list XrefId) (unit : XrefId) (ops : list UpdateOp) :
  keeps us (pushUpdate unit ops).
Proof. apply keeps_updateUnit. intros u. split; reflexivity. Qed.

Lemma keeps_setContextVariable (us : list XrefId) (view : XrefId) (n v : string) :
  keeps us (setContextVariable view n v).
Proof. apply keeps_updateUnit. intros u. split; reflexivity. Qed.

Lemma keeps_addAlias (us : list XrefId) (view : XrefId) (a : AliasVariable) :
  keeps us (addAlias view a).
Proof. apply keeps_updateUnit. intros u. split; reflexivity. Qed.

(** A new view: its id is the counter's, its parent a view of the job. *)
Lemma allocateView_spec (parent : XrefId) (job job' : Job.t) (x : XrefId) :
  allocateView parent job = Ok (x, job') →
  wellFormed job → In parent (viewIds job) →
  wellFormed job' ∧ extends job job' ∧ In x (viewIds job').
Proof.
  unfold allocateView. intros H [Hd Hb Hp] Hin. inv_monad.
  rewrite allocateXrefId_advanced in Ha. inv_monad.
  pose proof (proj1 (List.Forall_forall _ _) Hb) as Hlt. simpl in Hlt.
  change (Job.units (advanced 1 job)) with (Job.units job).
  assert (Hids : viewIds
                   (Job.set_units
                      (Job.units job
                       ++ [Unit.empty (Job.nextXrefId job) (Some parent)])
                      (advanced 1 job))
                 = viewIds job ++ [Job.nextXrefId job]).
  { unfold viewIds. simpl. now rewrite map_app. }
  split; [split|split].
  - rewrite Hids. apply NoDup_app. split; [exact Hd|]. split.
    + intros y Hy%list_elem_of_In ->%list_elem_of_singleton.
      apply Hlt in Hy. lia.
    + apply NoDup_singleton.
  - rewrite Hids. apply Forall_app. split.
    + eapply List.Forall_impl; [|exact Hb]. simpl. intros. lia.
    + constructor; [simpl; lia | constructor].
  - rewrite Hids. simpl. apply Forall_app. split.
    + eapply List.Forall_impl; [|exact Hp]. intros u Hu.
      unfold parentOk in *.
      destruct (Unit.parent u); [|exact Hu].
      destruct Hu as [? ?]. split; [assumption | apply in_or_app; now left].
    + constructor; [|constructor]. unfold parentOk. simpl.
      split; [now apply Hlt | apply in_or_app; now left].
  - split; try reflexivity.
    + exists [Job.nextXrefId job]. exact Hids.
    + exists [Some parent]. simpl. now rewrite map_app.
    + simpl. lia.
  - rewrite Hids. apply in_or_app. right. now left.
Qed.

(** A new view under a view of the job, then code that may use both. *)
Lemma keeps_allocateView {A} (us : list XrefId) (parent : XrefId)
    (k : XrefId → M Job.t A) :
  In parent us → (∀ x, keeps (x :: us) (k x)) →
  keeps us (bind (allocateView parent) k).
Proof.
  intros Hp Hk job a job' H Hw Hin. inv_monad.
  pose proof (proj1 (List.Forall_forall _ _) Hin parent Hp) as Hpin.
  destruct (allocateView_spec _ _ _ _ Ha Hw Hpin) as (Hw1 & He1 & Hx).
  destruct (Hk _ _ _ _ H Hw1) as [Hw2 He2].
  { constructor; [exact Hx | exact (extends_In _ _ _ He1 Hin)]. }
  split; [assumption | eapply extends_trans; eassumption].
Qed.

Ltac keeps_leaf :=
  first
    [ apply keeps_ret | apply keeps_throw | apply keeps_get
    | apply keeps_allocateXrefId | apply keeps_convertAst
    | apply keeps_pushCreate | apply keeps_pushUpdate
    | apply keeps_setContextVariable | apply keeps_addAlias
    | apply keeps_updateUnit; intros ?; split; reflexivity ].

Ltac keeps_split :=
  cbv beta;
  first
    [ apply keeps_forEach; intros ?
    | apply keeps_mapM; intros ?
    | apply keeps_optM; intros ?
    | apply keeps_bind; [|intros ?]
    | match goal with
      | |- keeps _ (match ?x with _ => _ end) => destruct x
      | |- keeps _ (if ?b then _ else _) => destruct b
      end ].

Ltac keeps_auto lemmas := repeat first [keeps_leaf | lemmas | keeps_split].

Section LeafIngestion.
Variable env : Collaborators.
Variable us : list XrefId.

Lemma keeps_ingestBinding view xref name value type unit securityContext
    sourceSpan flags :
  keeps us (ingestBinding env view xref name value type unit securityContext
              sourceSpan flags).
Proof. unfold ingestBinding. keeps_auto fail. Qed.

Lemma keeps_ingestControlFlowInsertionPoint unit xref children :
  keeps us (ingestControlFlowInsertionPoint env unit xref children).
Proof.
  unfold ingestControlFlowInsertionPoint.
  keeps_auto ltac:(apply keeps_ingestBinding).
Qed.

Lemma keeps_ingestDeferTriggers deferXref triggers prefetch ons whens :
  keeps us (ingestDeferTriggers env deferXref triggers prefetch ons whens).
Proof. unfold ingestDeferTriggers. keeps_auto fail. Qed.

Lemma keeps_ingestAllDeferTriggers deferXref triggers prefetchTriggers :
  keeps us (ingestAllDeferTriggers env deferXref triggers prefetchTriggers).
Proof.
  unfold ingestAllDeferTriggers.
  keeps_auto ltac:(apply keeps_ingestDeferTriggers).
Qed.

Lemma keeps_ingestListener unit opXref opHandle opTag el output :
  keeps us (ingestListener env unit opXref opHandle opTag el output).
Proof. unfold ingestListener. keeps_auto fail. Qed.

Lemma keeps_ingestBindings unit opXref opHandle opTag el :
  keeps us (ingestBindings env unit opXref opHandle opTag el).
Proof.
  unfold ingestBindings.
  keeps_auto ltac:(first [apply keeps_ingestBinding | apply keeps_ingestListener]).
Qed.

Lemma keeps_ingestText unit text : keeps us (ingestText unit text).
Proof. unfold ingestText. keeps_auto fail. Qed.

Lemma keeps_ingestBoundText unit text placeholders :
  keeps us (ingestBoundText env unit text placeholders).
Proof. unfold ingestBoundText. keeps_auto fail. Qed.

Lemma keeps_ingestContent unit selector attributes sourceSpan :
  keeps us (ingestContent env unit selector attributes sourceSpan).
Proof. unfold ingestContent. keeps_auto ltac:(apply keeps_ingestBinding). Qed.

Lemma keeps_ingestIcu unit vars placeholders i18n :
  keeps us (ingestIcu env unit vars placeholders i18n).
Proof.
  unfold ingestIcu.
  keeps_auto ltac:(first [apply keeps_ingestBoundText | apply keeps_ingestText]).
Qed.
End LeafIngestion.

Lemma keeps_ingestReferences (us : list XrefId) (unit opXref : XrefId)
    (el : ElementLike) :
  keeps us (ingestReferences unit opXref el).
Proof.
  intros job a job' H Hw _. unfold ingestReferences in H. inv_monad.
  apply rmap_Forall2 in Ha.
  match type of Ha with Forall2 _ _ ?l => rename l into units' end.
  assert (Hsame : Forall2 (fun u u' => Unit.xref u' = Unit.xref u
                                       ∧ Unit.parent u' = Unit.parent u)
                    (Job.units job) units').
  { eapply Forall2_impl; [exact Ha|]. intros u u' Hu. simpl in Hu.
    destruct (Nat.eqb (Unit.xref u) unit); inv_monad; auto. }
  assert (Hi : viewIds (Job.set_units units' job) = viewIds job).
  { unfold viewIds. simpl. clear -Hsame.
    induction Hsame as [|u u' l l' [Hx _] _ IH]; simpl; congruence. }
  assert (Hq : map Unit.parent units' = map Unit.parent (Job.units job)).
  { clear -Hsame.
    induction Hsame as [|u u' l l' [_ Hx] _ IH]; simpl; congruence. }
  split.
  - eapply wellFormed_same; try eassumption; reflexivity.
  - split; try reflexivity.
    + exists []. now rewrite app_nil_r.
    + exists []. simpl. now rewrite app_nil_r.
Qed.

Ltac in_views := simpl; tauto.

Ltac keeps_view :=
  cbv beta;
  match goal with
  | |- keeps _ (bind (allocateView _) _) =>
      apply keeps_allocateView; [in_views | intros ?]
  end.

Section BlockIngestion.
Variable env : Collaborators.
Variable rec : XrefId → list Node → M Job.t void.
Hypothesis keeps_rec :
  ∀ us unit nodes, In unit us → keeps us (rec unit nodes).

Ltac leaves :=
  first
    [ apply keeps_ingestBinding | apply keeps_ingestBindings
    | apply keeps_ingestReferences | apply keeps_ingestText
    | apply keeps_ingestBoundText | apply keeps_ingestContent
    | apply keeps_ingestIcu | apply keeps_ingestControlFlowInsertionPoint
    | apply keeps_ingestAllDeferTriggers
    | apply keeps_rec; in_views
    | keeps_view ].

Lemma keeps_checkI18n us what i18n : keeps us (checkI18n what i18n).
Proof. unfold checkI18n. keeps_auto fail. Qed.

Lemma keeps_ingestElement us unit name el children startSourceSpan
    endSourceSpan i18n :
  In unit us →
  keeps us (ingestElement env rec unit name el children startSourceSpan
              endSourceSpan i18n).
Proof.
  intros Hin. unfold ingestElement.
  keeps_auto ltac:(first [apply keeps_checkI18n | leaves]).
Qed.

Lemma keeps_ingestTemplate us unit tagName el children variables
    startSourceSpan i18n :
  In unit us →
  keeps us (ingestTemplate env rec unit tagName el children variables
              startSourceSpan i18n).
Proof.
  intros Hin. unfold ingestTemplate.
  keeps_auto ltac:(first [apply keeps_checkI18n | leaves]).
Qed.

Lemma keeps_ingestIfBranch us unit i ifCase first conditions :
  In unit us →
  keeps us (ingestIfBranch env rec unit i ifCase first conditions).
Proof.
  intros Hin. unfold ingestIfBranch. destruct ifCase.
  keeps_auto leaves.
Qed.

Lemma keeps_ingestIfBranches us unit branches :
  In unit us →
  ∀ i first conditions,
    keeps us (ingestIfBranches env rec unit i branches first conditions).
Proof.
  intros Hin. induction branches as [|b l IH]; intros i first conditions; simpl.
  - apply keeps_ret.
  - apply keeps_bind; [now apply keeps_ingestIfBranch | intros [f c]].
    apply IH.
Qed.

Lemma keeps_ingestIfBlock us unit branches sourceSpan :
  In unit us → keeps us (ingestIfBlock env rec unit branches sourceSpan).
Proof.
  intros Hin. unfold ingestIfBlock.
  apply keeps_bind; [now apply keeps_ingestIfBranches | intros [f c]].
  apply keeps_pushUpdate.
Qed.

Lemma keeps_ingestSwitchCases us unit startSourceSpan cases :
  In unit us →
  ∀ first conditions,
    keeps us (ingestSwitchCases env rec unit startSourceSpan cases first
                conditions).
Proof.
  intros Hin. induction cases as [|[expression children sourceSpan] l IH];
    intros first conditions; simpl.
  - apply keeps_ret.
  - keeps_auto ltac:(first [leaves | apply keeps_weaken with (us := us);
                                       [in_views | apply IH]]).
Qed.

Lemma keeps_ingestSwitchBlock us unit expression cases sourceSpan
    startSourceSpan :
  In unit us →
  keeps us (ingestSwitchBlock env rec unit expression cases sourceSpan
              startSourceSpan).
Proof.
  intros Hin. unfold ingestSwitchBlock.
  apply keeps_bind; [now apply keeps_ingestSwitchCases | intros [f c]].
  keeps_auto fail.
Qed.

Lemma keeps_ingestDeferView us unit suffix children sourceSpan :
  In unit us →
  keeps us (ingestDeferView rec unit suffix children sourceSpan).
Proof. intros Hin. unfold ingestDeferView. keeps_auto leaves. Qed.

Lemma keeps_ingestDeferBlock us unit identity children triggers
    prefetchTriggers placeholder loading error sourceSpan :
  In unit us →
  keeps us (ingestDeferBlock env rec unit identity children triggers
              prefetchTriggers placeholder loading error sourceSpan).
Proof.
  intros Hin. unfold ingestDeferBlock.
  keeps_auto ltac:(first [now apply keeps_ingestDeferView | leaves]).
Qed.

Lemma keeps_ingestForBlock us unit forBlock :
  In unit us → keeps us (ingestForBlock env rec unit forBlock).
Proof.
  intros Hin. unfold ingestForBlock. destruct forBlock.
  keeps_auto leaves.
Qed.

Lemma keeps_ingestNode us unit node :
  In unit us → keeps us (ingestNode env rec unit node).
Proof.
  intros Hin. destruct node; simpl;
    first [ now apply keeps_ingestElement | now apply keeps_ingestTemplate
          | now apply keeps_ingestIfBlock | now apply keeps_ingestSwitchBlock
          | now apply keeps_ingestDeferBlock | now apply keeps_ingestForBlock
          | apply keeps_throw | leaves ].
Qed.
End BlockIngestion.

Lemma keeps_ingestNodes (env : Collaborators) (fuel : nat) :
  ∀ us unit nodes,
    In unit us → keeps us (ingestNodes env fuel unit nodes).
Proof.
  induction fuel as [|fuel IH]; intros us unit nodes Hin; simpl.
  - apply keeps_throw.
  - apply keeps_forEach. intros node. now apply keeps_ingestNode.
Qed.

Lemma wellFormed_new (name : string) (compatibility : bool)
    (meta : gmap nat R3DeferBlockMetadata) :
  wellFormed (newComponentJob name compatibility meta).
Proof.
  split; simpl.
  - apply NoDup_singleton.
  - repeat constructor.
  - repeat constructor.
Qed.

(** X4: ingesting nodes into a view of a well-formed job leaves a well-formed
    job: the views keep distinct ids below the counter and form a tree.  The
    views the job had are still there, in place, with their parents; new
    views come after them; the root, the kind, the name, the compatibility
    mode and the defer metadata of the job are untouched. *)
Theorem ingestNodes_keeps_views (env : Collaborators) (fuel : nat)
    (unit : XrefId) (nodes : list Node) (job job' : Job.t) :
  ingestNodes env fuel unit nodes job = Ok (tt, job') →
  wellFormed job → In unit (viewIds job) →
  wellFormed job' ∧ extends job job'.
Proof.
  intros H Hw Hin.
  apply (keeps_ingestNodes env fuel [unit] unit nodes (or_introl eq_refl)
           _ _ _ H Hw).
  now constructor.
Qed.

(** Ingesting an [@if] block into the root view of a new job. *)
Lemma ingestNodes_keeps_views_witness :
  ∃ job',
    ingestNodes plainEnv 5 0 thisInBranch deferJob = Ok (tt, job')
    ∧ wellFormed deferJob ∧ In 0 (viewIds deferJob)
    ∧ wellFormed job' ∧ extends deferJob job'.
Proof.
  assert (Hw : wellFormed deferJob) by apply wellFormed_new.
  assert (Hin : In 0 (viewIds deferJob)) by (left; reflexivity).
  destruct (ingestNodes plainEnv 5 0 thisInBranch deferJob)
    as [[[] job']|] eqn:E.
  - exists job'. split; [reflexivity|]. split; [exact Hw|].
    split; [exact Hin|].
    exact (ingestNodes_keeps_views _ _ _ _ _ _ E Hw Hin).
  - vm_compute in E. discriminate E.
Defined.

Lemma view_found (job : Job.t) (u : Unit.t) :
  NoDup (viewIds job) → In u (Job.units job) →
  Job.view (Unit.xref u) job = Some u.
Proof.
  unfold Job.view, viewIds. induction (Job.units job) as [|v l IH]; simpl;
    intros Hd Hin; [contradiction|].
  apply NoDup_cons in Hd as [Hv Hd].
  destruct Hin as [->|Hin]; [now rewrite Nat.eqb_refl|].
  destruct (Nat.eqb_spec (Unit.xref v) (Unit.xref u)) as [Heq|_]; [|auto].
  exfalso. apply Hv. rewrite Heq. apply list_elem_of_In, in_map. exact Hin.
Qed.

(** X5: the views of an ingested component have pairwise distinct ids, all
    below the id counter; the first view is the root, with id 0; and the view
    found under the id of a view is that view. *)
Theorem ingestComponent_view_ids (env : Collaborators) (fuel : nat)
    (name : string) (template : list Node) (compatibility : bool)
    (meta : gmap nat R3DeferBlockMetadata) (job : Job.t) :
  ingestComponent env fuel name template compatibility meta = Ok job →
  NoDup (viewIds job)
  ∧ Forall (fun x => (x < Job.nextXrefId job)%nat) (viewIds job)
  ∧ Job.root job = 0
  ∧ (∃ rest, viewIds job = 0 :: rest)
  ∧ ∀ u, In u (Job.units job) → Job.view (Unit.xref u) job = Some u.
Proof.
  unfold ingestComponent. intros H. inv_monad. destruct a as [[] job'].
  inv_monad.
  destruct (keeps_ingestNodes env fuel [0] 0 template (or_introl eq_refl)
              _ _ _ Ha (wellFormed_new name compatibility meta))
    as [[Hd Hb Hp] [[new Hv] _ _ Hr _ _ _ _]].
  { repeat constructor. }
  split; [exact Hd|]. split; [exact Hb|]. split; [exact Hr|].
  split; [exists new; exact Hv|].
  intros u. now apply view_found.
Qed.

(** The views of a component with one [@if] block. *)
Lemma ingestComponent_view_ids_witness :
  ∃ job,
    ingestComponent plainEnv 5 "C" thisInBranch true ∅ = Ok job
    ∧ NoDup (viewIds job)
    ∧ Forall (fun x => (x < Job.nextXrefId job)%nat) (viewIds job)
    ∧ Job.root job = 0
    ∧ (∃ rest, viewIds job = 0 :: rest)
    ∧ ∀ u, In u (Job.units job) → Job.view (Unit.xref u) job = Some u.
Proof.
  destruct (ingestComponent plainEnv 5 "C" thisInBranch true ∅)
    as [job|] eqn:E.
  - exists job. split; [reflexivity|].
    exact (ingestComponent_view_ids _ _ _ _ _ _ _ E).
  - vm_compute in E. discriminate E.
Defined.

(** X6: the views of an ingested component form a tree: the root is the only
    view without a parent, and the parent of any other view is a view of the
    job with a smaller id, that is, one allocated before it. *)
Theorem ingestComponent_view_tree (env : Collaborators) (fuel : nat)
    (name : string) (template : list Node) (compatibility : bool)
    (meta : gmap nat R3DeferBlockMetadata) (job : Job.t) :
  ingestComponent env fuel name template compatibility meta = Ok job →
  ∀ u, In u (Job.units job) →
    match Unit.parent u with
    | None => Unit.xref u = Job.root job
    | Some p =>
        (p < Unit.xref u)%nat
        ∧ ∃ v, In v (Job.units job) ∧ Unit.xref v = p
    end.
Proof.
  unfold ingestComponent. intros H u Hu. inv_monad. destruct a as [[] job'].
  inv_monad.
  destruct (keeps_ingestNodes env fuel [0] 0 template (or_introl eq_refl)
              _ _ _ Ha (wellFormed_new name compatibility meta))
    as [[_ _ Hp] _].
  { repeat constructor. }
  pose proof (proj1 (List.Forall_forall _ _) Hp u Hu) as Hpu.
  unfold parentOk in Hpu. destruct (Unit.parent u) as [p|]; [|exact Hpu].
  destruct Hpu as [Hlt Hin]. split; [exact Hlt|].
  apply in_map_iff in Hin as (v & Hv & Hin). eauto.
Qed.

(** The view of the branch is a child of the root view. *)
Lemma ingestComponent_view_tree_witness :
  ∃ job u,
    ingestComponent plainEnv 5 "C" thisInBranch true ∅ = Ok job
    ∧ In u (Job.units job)
    ∧ Unit.parent u = Some 0
    ∧ (0 < Unit.xref u)%nat
    ∧ ∃ v, In v (Job.units job) ∧ Unit.xref v = 0.
Proof.
  eexists _, _.
  split; [vm_compute; reflexivity|].
  split; [right; left; reflexivity|].
  split; [reflexivity|].
  exact (ingestComponent_view_tree plainEnv 5 "C" thisInBranch true ∅ _
           ltac:(vm_compute; reflexivity) _ ltac:(right; left; reflexivity)).
Defined.

(** ** Ingestion into a view leaves the other views alone *)

Lemma untouched_refl (vs : list XrefId) (job : Job.t) : untouched vs job job.
Proof. split; [lia | reflexivity]. Qed.

Lemma untouched_trans (vs : list XrefId) (j1 j2 j3 : Job.t) :
  untouched vs j1 j2 → untouched vs j2 j3 → untouched vs j1 j3.
Proof.
  intros [Hn1 Hv1] [Hn2 Hv2]. split; [lia|].
  intros x Hx Hnot. rewrite Hv2 by (lia || assumption). now apply Hv1.
Qed.

Lemma untouched_advanced (vs : list XrefId) (n : nat) (job : Job.t) :
  untouched vs job (advanced n job).
Proof. split; [simpl; lia | reflexivity]. Qed.

Lemma touches_ret {A} (vs : list XrefId) (a : A) : touches vs (ret a).
Proof. intros job x job' H. inv_monad. apply untouched_refl. Qed.

Lemma touches_throw {A} (vs : list XrefId) (m : string) :
  touches vs (throw (A := A) m).
Proof. intros job x job' H. discriminate H. Qed.

Lemma touches_get (vs : list XrefId) : touches vs get.
Proof. intros job x job' H. inv_monad. apply untouched_refl. Qed.

Lemma touches_bind {A B} (vs : list XrefId) (c : M Job.t A)
    (k : A → M Job.t B) :
  touches vs c → (∀ a, touches vs (k a)) → touches vs (bind c k).
Proof.
  intros Hc Hk job b job' H. inv_monad.
  eapply untouched_trans; [eapply Hc | eapply Hk]; eassumption.
Qed.

Lemma touches_weaken {A} (vs vs' : list XrefId) (c : M Job.t A) :
  (∀ v, In v vs → In v vs') → touches vs c → touches vs' c.
Proof.
  intros Hsub Hc job a job' H. destruct (Hc _ _ _ H) as [Hn Hv].
  split; [exact Hn|]. intros x Hx Hnot. apply Hv; auto.
Qed.

Lemma touches_forEach {A} (vs : list XrefId) (body : A → M Job.t unit)
    (l : list A) :
  (∀ x, touches vs (body x)) → touches vs (forEach body l).
Proof.
  intros Hb. induction l as [|x l IH]; simpl.
  - apply touches_ret.
  - apply touches_bind; [apply Hb | intros _; exact IH].
Qed.

Lemma touches_mapM {A B} (vs : list XrefId) (f : A → M Job.t B) (l : list A) :
  (∀ x, touches vs (f x)) → touches vs (mapM f l).
Proof.
  intros Hf. induction l as [|x l IH]; simpl.
  - apply touches_ret.
  - apply touches_bind; [apply Hf | intros y].
    apply touches_bind; [exact IH | intros ys; apply touches_ret].
Qed.

Lemma touches_optM {A B} (vs : list XrefId) (f : A → M Job.t B)
    (o : option A) :
  (∀ x, touches vs (f x)) → touches vs (optM f o).
Proof.
  intros Hf. destruct o; simpl; [|apply touches_ret].
  apply touches_bind; [apply Hf | intros y; apply touches_ret].
Qed.

Lemma touches_allocateXrefId (vs : list XrefId) :
  touches vs Ingest.allocateXrefId.
Proof.
  intros job a job' H. rewrite allocateXrefId_advanced in H. inv_monad.
  apply untouched_advanced.
Qed.

Lemma touches_convertAst (env : Collaborators) (vs : list XrefId) (ast : AST)
    (span : SourceSpan) :
  touches vs (convertAst env ast span).
Proof.
  intros job e job' H. apply convertAst_convertsWell in H as [-> _].
  apply untouched_advanced.
Qed.

(** Rewriting the views of one id leaves the views of the other ids. *)
Lemma find_rewritten (x y : XrefId) (l l' : list Unit.t) :
  Forall2 (fun u u' => Unit.xref u' = Unit.xref u
                       ∧ (Unit.xref u ≠ x → u' = u)) l l' →
  y ≠ x →
  List.find (fun u => Nat.eqb (Unit.xref u) y) l'
  = List.find (fun u => Nat.eqb (Unit.xref u) y) l.
Proof.
  intros H Hne. induction H as [|u u' l l' [Hx Hu] _ IH]; simpl;
    [reflexivity|].
  rewrite Hx, IH. destruct (Nat.eqb_spec (Unit.xref u) y) as [Heq|_];
    [|reflexivity].
  rewrite Hu by congruence. reflexivity.
Qed.

Lemma untouched_rewritten (vs : list XrefId) (x : XrefId) (job : Job.t)
    (l' : list Unit.t) :
  Forall2 (fun u u' => Unit.xref u' = Unit.xref u
                       ∧ (Unit.xref u ≠ x → u' = u)) (Job.units job) l' →
  In x vs → untouched vs job (Job.set_units l' job).
Proof.
  intros H Hin. split; [simpl; lia|].
  intros y _ Hnot. unfold Job.view. simpl.
  apply (find_rewritten x); [exact H|]. intros ->. contradiction.
Qed.

Lemma touches_updateUnit (vs : list XrefId) (x : XrefId)
    (f : Unit.t → Unit.t) :
  (∀ u, Unit.xref (f u) = Unit.xref u) → In x vs →
  touches vs (modify (Job.updateUnit x f)).
Proof.
  intros Hf Hin job a job' H. inv_monad. unfold Job.updateUnit.
  apply (untouched_rewritten vs x); [|exact Hin].
  induction (Job.units job) as [|u l IH]; simpl; constructor; [|exact IH].
  destruct (Nat.eqb_spec (Unit.xref u) x) as [Heq|Hne].
  - split; [apply Hf | contradiction].
  - split; reflexivity.
Qed.

Lemma touches_pushCreate (vs : list XrefId) (unit : XrefId)
    (ops : list CreateOp) :
  In unit vs → touches vs (pushCreate unit ops).
Proof. apply touches_updateUnit. reflexivity. Qed.

Lemma touches_pushUpdate (vs : list XrefId) (unit : XrefId)
    (ops : list UpdateOp) :
  In unit vs → touches vs (pushUpdate unit ops).
Proof. apply touches_updateUnit. reflexivity. Qed.

Lemma touches_setContextVariable (vs : list XrefId) (view : XrefId)
    (n v : string) :
  In view vs → touches vs (setContextVariable view n v).
Proof. apply touches_updateUnit. reflexivity. Qed.

Lemma touches_addAlias (vs : list XrefId) (view : XrefId) (a : AliasVariable) :
  In view vs → touches vs (addAlias view a).
Proof. apply touches_updateUnit. reflexivity. Qed.

Lemma find_app_fresh (y : XrefId) (l : list Unit.t) (u : Unit.t) :
  Unit.xref u ≠ y →
  List.find (fun v => Nat.eqb (Unit.xref v) y) (l ++ [u])
  = List.find (fun v => Nat.eqb (Unit.xref v) y) l.
Proof.
  intros Hne. induction l as [|v l IH]; simpl.
  - now apply Nat.eqb_neq in Hne as ->.
  - now rewrite IH.
Qed.

(** A new view, then code that may touch it too. *)
Lemma touches_allocateView {A} (vs : list XrefId) (parent : XrefId)
    (k : XrefId → M Job.t A) :
  (∀ x, touches (x :: vs) (k x)) →
  touches vs (bind (allocateView parent) k).
Proof.
  intros Hk job a job' H. unfold bind at 1 in H.
  unfold allocateView, bind, Ingest.allocateXrefId, modify, ret in H.
  cbv beta iota in H.
  destruct (Hk _ _ _ _ H) as [Hn Hv]. simpl in Hn, Hv.
  split; [lia|].
  intros y Hy Hnot. rewrite Hv.
  - unfold Job.view. simpl. apply find_app_fresh. simpl. lia.
  - lia.
  - intros [<-|Hin]; [lia | contradiction].
Qed.

Ltac in_touched := simpl; tauto.

Ltac touches_leaf :=
  first
    [ apply touches_ret | apply touches_throw | apply touches_get
    | apply touches_allocateXrefId | apply touches_convertAst
    | apply touches_pushCreate; in_touched
    | apply touches_pushUpdate; in_touched
    | apply touches_setContextVariable; in_touched
    | apply touches_addAlias; in_touched
    | apply touches_updateUnit; [intros ?; reflexivity | in_touched] ].

Ltac touches_split :=
  cbv beta;
  first
    [ apply touches_forEach; intros ?
    | apply touches_mapM; intros ?
    | apply touches_optM; intros ?
    | apply touches_bind; [|intros ?]
    | match goal with
      | |- touches _ (match ?x with _ => _ end) => destruct x
      | |- touches _ (if ?b then _ else _) => destruct b
      end ].

Ltac touches_auto lemmas :=
  repeat first [touches_leaf | lemmas | touches_split].

Section LeafTouches.
Variable env : Collaborators.
Variable vs : list XrefId.

Lemma touches_ingestBinding view xref name value type unit securityContext
    sourceSpan flags :
  In view vs →
  touches vs (ingestBinding env view xref name value type unit
                securityContext sourceSpan flags).
Proof. intros Hin. unfold ingestBinding. touches_auto fail. Qed.

Lemma touches_ingestControlFlowInsertionPoint unit xref children :
  In unit vs →
  touches vs (ingestControlFlowInsertionPoint env unit xref children).
Proof.
  intros Hin. unfold ingestControlFlowInsertionPoint.
  touches_auto ltac:(now apply touches_ingestBinding).
Qed.

Lemma touches_ingestDeferTriggers deferXref triggers prefetch ons whens :
  touches vs (ingestDeferTriggers env deferXref triggers prefetch ons whens).
Proof. unfold ingestDeferTriggers. touches_auto fail. Qed.

Lemma touches_ingestAllDeferTriggers deferXref triggers prefetchTriggers :
  touches vs (ingestAllDeferTriggers env deferXref triggers prefetchTriggers).
Proof.
  unfold ingestAllDeferTriggers.
  touches_auto ltac:(apply touches_ingestDeferTriggers).
Qed.

Lemma touches_ingestListener unit opXref opHandle opTag el output :
  In unit vs →
  touches vs (ingestListener env unit opXref opHandle opTag el output).
Proof. intros Hin. unfold ingestListener. touches_auto fail. Qed.

Lemma touches_ingestBindings unit opXref opHandle opTag el :
  In unit vs →
  touches vs (ingestBindings env unit opXref opHandle opTag el).
Proof.
  intros Hin. unfold ingestBindings.
  touches_auto ltac:(first [now apply touches_ingestBinding
                           | now apply touches_ingestListener]).
Qed.

Lemma touches_ingestText unit text :
  In unit vs → touches vs (ingestText unit text).
Proof. intros Hin. unfold ingestText. touches_auto fail. Qed.

Lemma touches_ingestBoundText unit text placeholders :
  In unit vs → touches vs (ingestBoundText env unit text placeholders).
Proof. intros Hin. unfold ingestBoundText. touches_auto fail. Qed.

Lemma touches_ingestContent unit selector attributes sourceSpan :
  In unit vs →
  touches vs (ingestContent env unit selector attributes sourceSpan).
Proof.
  intros Hin. unfold ingestContent.
  touches_auto ltac:(now apply touches_ingestBinding).
Qed.

Lemma touches_ingestIcu unit vars placeholders i18n :
  In unit vs → touches vs (ingestIcu env unit vars placeholders i18n).
Proof.
  intros Hin. unfold ingestIcu.
  touches_auto ltac:(first [now apply touches_ingestBoundText
                           | now apply touches_ingestText]).
Qed.

Lemma touches_ingestReferences unit opXref el :
  In unit vs → touches vs (ingestReferences unit opXref el).
Proof.
  intros Hin job a job' H. unfold ingestReferences in H. inv_monad.
  apply rmap_Forall2 in Ha.
  apply (untouched_rewritten vs unit); [|exact Hin].
  eapply Forall2_impl; [exact Ha|]. intros u u' Hu. simpl in Hu.
  destruct (Nat.eqb_spec (Unit.xref u) unit) as [Heq|Hne]; inv_monad.
  - split; [reflexivity | contradiction].
  - split; reflexivity.
Qed.
End LeafTouches.

Ltac touches_view :=
  cbv beta;
  match goal with
  | |- touches _ (bind (allocateView _) _) =>
      apply touches_allocateView; intros ?
  end.

Section BlockTouches.
Variable env : Collaborators.
Variable rec : XrefId → list Node → M Job.t void.
Hypothesis touches_rec :
  ∀ vs unit nodes, In unit vs → touches vs (rec unit nodes).

Ltac leaves :=
  first
    [ apply touches_ingestBinding; in_touched
    | apply touches_ingestBindings; in_touched
    | apply touches_ingestReferences; in_touched
    | apply touches_ingestText; in_touched
    | apply touches_ingestBoundText; in_touched
    | apply touches_ingestContent; in_touched
    | apply touches_ingestIcu; in_touched
    | apply touches_ingestControlFlowInsertionPoint; in_touched
    | apply touches_ingestAllDeferTriggers
    | apply touches_rec; in_touched
    | touches_view ].

Lemma touches_checkI18n vs what i18n : touches vs (checkI18n what i18n).
Proof. unfold checkI18n. touches_auto fail. Qed.

Lemma touches_ingestElement vs unit name el children startSourceSpan
    endSourceSpan i18n :
  In unit vs →
  touches vs (ingestElement env rec unit name el children startSourceSpan
                endSourceSpan i18n).
Proof.
  intros Hin. unfold ingestElement.
  touches_auto ltac:(first [apply touches_checkI18n | leaves]).
Qed.

Lemma touches_ingestTemplate vs unit tagName el children variables
    startSourceSpan i18n :
  In unit vs →
  touches vs (ingestTemplate env rec unit tagName el children variables
                startSourceSpan i18n).
Proof.
  intros Hin. unfold ingestTemplate.
  touches_auto ltac:(first [apply touches_checkI18n | leaves]).
Qed.

Lemma touches_ingestIfBranch vs unit i ifCase first conditions :
  In unit vs →
  touches vs (ingestIfBranch env rec unit i ifCase first conditions).
Proof.
  intros Hin. unfold ingestIfBranch. destruct ifCase.
  touches_auto leaves.
Qed.

Lemma touches_ingestIfBranches vs unit branches :
  In unit vs →
  ∀ i first conditions,
    touches vs (ingestIfBranches env rec unit i branches first conditions).
Proof.
  intros Hin. induction branches as [|b l IH]; intros i first conditions;
    simpl.
  - apply touches_ret.
  - apply touches_bind; [now apply touches_ingestIfBranch | intros [f c]].
    apply IH.
Qed.

Lemma touches_ingestIfBlock vs unit branches sourceSpan :
  In unit vs → touches vs (ingestIfBlock env rec unit branches sourceSpan).
Proof.
  intros Hin. unfold ingestIfBlock.
  apply touches_bind; [now apply touches_ingestIfBranches | intros [f c]].
  now apply touches_pushUpdate.
Qed.

Lemma touches_ingestSwitchCases vs unit startSourceSpan cases :
  In unit vs →
  ∀ first conditions,
    touches vs (ingestSwitchCases env rec unit startSourceSpan cases first
                  conditions).
Proof.
  intros Hin. induction cases as [|[expression children sourceSpan] l IH];
    intros first conditions; simpl.
  - apply touches_ret.
  - touches_auto ltac:(first [leaves | apply touches_weaken with (vs := vs);
                                         [in_touched | apply IH]]).
Qed.

Lemma touches_ingestSwitchBlock vs unit expression cases sourceSpan
    startSourceSpan :
  In unit vs →
  touches vs (ingestSwitchBlock env rec unit expression cases sourceSpan
                startSourceSpan).
Proof.
  intros Hin. unfold ingestSwitchBlock.
  apply touches_bind; [now apply touches_ingestSwitchCases | intros [f c]].
  touches_auto fail.
Qed.

Lemma touches_ingestDeferView vs unit suffix children sourceSpan :
  In unit vs →
  touches vs (ingestDeferView rec unit suffix children sourceSpan).
Proof. intros Hin. unfold ingestDeferView. touches_auto leaves. Qed.

Lemma touches_ingestDeferBlock vs unit identity children triggers
    prefetchTriggers placeholder loading error sourceSpan :
  In unit vs →
  touches vs (ingestDeferBlock env rec unit identity children triggers
                prefetchTriggers placeholder loading error sourceSpan).
Proof.
  intros Hin. unfold ingestDeferBlock.
  touches_auto ltac:(first [now apply touches_ingestDeferView | leaves]).
Qed.

Lemma touches_ingestForBlock vs unit forBlock :
  In unit vs → touches vs (ingestForBlock env rec unit forBlock).
Proof.
  intros Hin. unfold ingestForBlock. destruct forBlock.
  touches_auto leaves.
Qed.

Lemma touches_ingestNode vs unit node :
  In unit vs → touches vs (ingestNode env rec unit node).
Proof.
  intros Hin. destruct node; simpl;
    first [ now apply touches_ingestElement | now apply touches_ingestTemplate
          | now apply touches_ingestIfBlock
          | now apply touches_ingestSwitchBlock
          | now apply touches_ingestDeferBlock
          | now apply touches_ingestForBlock
          | apply touches_throw | leaves ].
Qed.
End BlockTouches.

Lemma touches_ingestNodes (env : Collaborators) (fuel : nat) :
  ∀ vs unit nodes,
    In unit vs → touches vs (ingestNodes env fuel unit nodes).
Proof.
  induction fuel as [|fuel IH]; intros vs unit nodes Hin; simpl.
  - apply touches_throw.
  - apply touches_forEach. intros node. now apply touches_ingestNode.
Qed.

(** X7: ingesting nodes into a view touches that view and the views it
    allocates, and no other: every other id the job had given out names the
    same view afterwards, with the same ops, variables and aliases, or still
    names none. *)
Theorem ingestNodes_touches_one_view (env : Collaborators) (fuel : nat)
    (unit : XrefId) (nodes : list Node) (job job' : Job.t) :
  ingestNodes env fuel unit nodes job = Ok (tt, job') →
  ∀ x, (x < Job.nextXrefId job)%nat → x ≠ unit →
       Job.view x job' = Job.view x job.
Proof.
  intros H x Hx Hne.
  destruct (touches_ingestNodes env fuel [unit] unit nodes
              (or_introl eq_refl) _ _ _ H) as [_ Hv].
  apply Hv; [exact Hx|]. intros [->|[]]. contradiction.
Qed.

(** Ingesting into the child view of [icuInChildBlock] leaves the root view. *)
Lemma ingestNodes_touches_one_view_witness :
  ∃ job',
    ingestNodes plainEnv 5 2 thisInBranch icuInChildBlock = Ok (tt, job')
    ∧ Job.view 0 job' = Job.view 0 icuInChildBlock.
Proof.
  destruct (ingestNodes plainEnv 5 2 thisInBranch icuInChildBlock)
    as [[[] job']|] eqn:E.
  - exists job'. split; [reflexivity|].
    apply (ingestNodes_touches_one_view _ _ _ _ _ _ E); simpl; lia.
  - vm_compute in E. discriminate E.
Defined.

(** ** What a block appends to its view *)

Lemma increasingWithin_weaken (lo lo' hi hi' : XrefId) (l : list XrefId) :
  (lo' ≤ lo)%nat → (hi ≤ hi')%nat →
  increasingWithin lo hi l → increasingWithin lo' hi' l.
Proof.
  revert lo lo'. induction l as [|x l IH]; simpl; intros lo lo' Hlo Hhi H.
  - lia.
  - destruct H as [Hx H]. split; [lia|]. eapply IH; [| |exact H]; lia.
Qed.

Lemma increasingWithin_le (lo hi : XrefId) (l : list XrefId) :
  increasingWithin lo hi l → (lo ≤ hi)%nat.
Proof.
  revert lo. induction l as [|x l IH]; simpl; intros lo H; [exact H|].
  destruct H as [Hx H]. apply IH in H. lia.
Qed.

(** A new view takes the counter's value, and the counter moves on. *)
Lemma allocateView_next (parent x : XrefId) (job job0 : Job.t) :
  allocateView parent job = Ok (x, job0) →
  x = Job.nextXrefId job ∧ Job.nextXrefId job0 = S (Job.nextXrefId job).
Proof.
  unfold allocateView, bind, Ingest.allocateXrefId, modify, ret.
  intros [= <- <-]. split; reflexivity.
Qed.

Lemma growBy_nil (u : Unit.t) : growBy [] [] u = u.
Proof. destruct u. unfold growBy. simpl. now rewrite !app_nil_r. Qed.

Lemma growBy_growBy cs1 us1 cs2 us2 (u : Unit.t) :
  growBy cs2 us2 (growBy cs1 us1 u) = growBy (cs1 ++ cs2) (us1 ++ us2) u.
Proof. unfold growBy. simpl. now rewrite !app_assoc. Qed.

Lemma grown_same (unit : XrefId) (job job' : Job.t) :
  (Job.nextXrefId job ≤ Job.nextXrefId job')%nat →
  Job.view unit job' = Job.view unit job →
  grown unit [] [] job job'.
Proof.
  intros Hn Hv. split; [exact Hn|]. rewrite Hv.
  destruct (Job.view unit job); simpl; [now rewrite growBy_nil | reflexivity].
Qed.

Lemma grown_trans (unit : XrefId) cs1 us1 cs2 us2 (j1 j2 j3 : Job.t) :
  grown unit cs1 us1 j1 j2 → grown unit cs2 us2 j2 j3 →
  grown unit (cs1 ++ cs2) (us1 ++ us2) j1 j3.
Proof.
  intros [Hn1 Hv1] [Hn2 Hv2]. split; [lia|]. rewrite Hv2, Hv1.
  destruct (Job.view unit j1); simpl; [now rewrite growBy_growBy | reflexivity].
Qed.

(** Code that touches other views leaves this one. *)
Lemma grown_untouched (unit : XrefId) (vs : list XrefId) (job job' : Job.t) :
  untouched vs job job' → (unit < Job.nextXrefId job)%nat → ¬ In unit vs →
  grown unit [] [] job job'.
Proof. intros [Hn Hv] Hlt Hnot. apply grown_same; auto. Qed.

Lemma view_updateUnit (x : XrefId) (f : Unit.t → Unit.t) (job : Job.t) :
  (∀ u, Unit.xref (f u) = Unit.xref u) →
  Job.view x (Job.updateUnit x f job) = f <$> Job.view x job.
Proof.
  intros Hf. unfold Job.view, Job.updateUnit. simpl.
  induction (Job.units job) as [|u l IH]; simpl; [reflexivity|].
  destruct (Nat.eqb (Unit.xref u) x) eqn:E.
  - rewrite Hf, E. reflexivity.
  - rewrite E. exact IH.
Qed.

Lemma grown_pushCreate (unit : XrefId) (ops : list CreateOp)
    (job job' : Job.t) :
  pushCreate unit ops job = Ok (tt, job') → grown unit ops [] job job'.
Proof.
  unfold pushCreate. intros H. inv_monad. split; [simpl; lia|].
  rewrite view_updateUnit by reflexivity.
  destruct (Job.view unit job) as [u|]; simpl; [|reflexivity].
  f_equal. unfold growBy. destruct u; simpl. now rewrite app_nil_r.
Qed.

Lemma grown_pushUpdate (unit : XrefId) (ops : list UpdateOp)
    (job job' : Job.t) :
  pushUpdate unit ops job = Ok (tt, job') → grown unit [] ops job job'.
Proof.
  unfold pushUpdate. intros H. inv_monad. split; [simpl; lia|].
  rewrite view_updateUnit by reflexivity.
  destruct (Job.view unit job) as [u|]; simpl; [|reflexivity].
  f_equal. unfold growBy. destruct u; simpl. now rewrite app_nil_r.
Qed.

Lemma grown_allocateView (unit parent x : XrefId) (job job' : Job.t) :
  allocateView parent job = Ok (x, job') →
  (unit < Job.nextXrefId job)%nat →
  grown unit [] [] job job'.
Proof.
  intros H Hlt.
  assert (Ht : touches [] (let* v := allocateView parent in ret v)).
  { apply touches_allocateView. intros v. apply touches_ret. }
  apply (grown_untouched unit []); [|exact Hlt | intros []].
  apply (Ht job x job'). unfold bind. rewrite H. reflexivity.
Qed.

Section DeferredBlocks.
Variable env : Collaborators.
Variable fuel : nat.

(** A secondary view of a deferred block: its template, if there is one,
    is all the view of the block gets. *)
Lemma ingestDeferView_grown (unit : XrefId) (suffix : string)
    (children : option (list Node)) (sourceSpan : SourceSpan)
    (job job' : Job.t) (r : option TemplateOp.t) :
  ingestDeferView (ingestNodes env fuel) unit suffix children sourceSpan job
  = Ok (r, job') →
  (unit < Job.nextXrefId job)%nat →
  grown unit (map TemplateOp (option_list r)) [] job job'.
Proof.
  unfold ingestDeferView. intros H Hlt.
  destruct children as [children|]; [|inv_monad; now apply grown_same].
  apply bind_Ok in H as (v & job0 & Ha & H).
  pose proof (grown_allocateView unit _ _ _ _ Ha Hlt) as G0.
  apply allocateView_next in Ha as [-> Hn].
  apply bind_Ok in H as ([] & job1 & Hc & H).
  assert (G1 : grown unit [] [] job0 job1).
  { apply (grown_untouched unit [Job.nextXrefId job]).
    - exact (touches_ingestNodes env fuel [Job.nextXrefId job] _ children
               (or_introl eq_refl) _ _ _ Hc).
    - lia.
    - intros [Heq|[]]. lia. }
  apply bind_Ok in H as ([] & job2 & Hp & H). inv_monad.
  apply grown_pushCreate in Hp.
  exact (grown_trans _ _ _ _ _ _ _ _ (grown_trans _ _ _ _ _ _ _ _ G0 G1) Hp).
Qed.

(** C5: a deferred block appends to the create ops of its view the templates
    of its parts, its [Defer] op and its [DeferOn] ops, and to the update
    ops its [DeferWhen] ops, and nothing else; the views the job had
    otherwise stay as they were.  The prefetch [DeferOn] ops are exactly the
    ones the prefetch group configures.  When the primary group configures no
    trigger, the only [DeferOn] op that is not a prefetch is one [Idle]
    trigger, and every [DeferWhen] op is the prefetch group's. *)
Theorem C5_default_idle_trigger (unit : XrefId) (identity : nat)
    (children : list Node)
    (triggers prefetchTriggers : DeferredBlockTriggers)
    (placeholder loading error : option DeferredBlockPart)
    (sourceSpan : SourceSpan) (job job' : Job.t) (u : Unit.t) :
  ingestDeferBlock env (ingestNodes env fuel) unit identity children triggers
    prefetchTriggers placeholder loading error sourceSpan job
  = Ok (tt, job') →
  (unit < Job.nextXrefId job)%nat →
  Job.view unit job = Some u →
  ∃ (templates : list TemplateOp.t) (deferOp : DeferOp.t)
    (primary : list DeferOnOp.t) (whens : list DeferWhenOp.t),
    let deferXref := DeferOp.xref deferOp in
    let ons := primary ++ explicitOn deferXref prefetchTriggers true in
    Job.view unit job'
    = Some (growBy
              (map TemplateOp templates ++ [DeferOp deferOp]
               ++ map DeferOnOp ons)
              (map DeferWhenOp whens) u)
    ∧ (∀ x, (x < Job.nextXrefId job)%nat → x ≠ unit →
            Job.view x job' = Job.view x job)
    ∧ List.filter DeferOnOp.prefetch ons
      = explicitOn deferXref prefetchTriggers true
    ∧ map kindOfOn (List.filter DeferOnOp.prefetch ons)
      = configuredOn prefetchTriggers
    ∧ (noTriggers triggers →
       List.filter (fun op => negb (DeferOnOp.prefetch op)) ons
       = [createDeferOnOp deferXref IdleTrigger false None]
       ∧ Forall (fun w => DeferWhenOp.prefetch w = true) whens
       ∧ length whens = length (option_list (when prefetchTriggers))).
Proof.
  intros H Hlt Hu.
  assert (Hothers : ∀ x, (x < Job.nextXrefId job)%nat → x ≠ unit →
                         Job.view x job' = Job.view x job).
  { intros x Hx Hne.
    destruct (touches_ingestDeferBlock env (ingestNodes env fuel)
                (touches_ingestNodes env fuel) [unit] unit identity children
                triggers prefetchTriggers placeholder loading error
                sourceSpan (or_introl eq_refl) _ _ _ H) as [_ Hv].
    apply Hv; [exact Hx|]. intros [->|[]]. contradiction. }
  unfold ingestDeferBlock in H.
  apply bind_Ok in H as (j & job0 & Hg & H). unfold get in Hg.
  injection Hg as <- <-.
  destruct (Job.deferBlocksMeta job !! identity) as [blockMeta|];
    [|discriminate H].
  apply bind_Ok in H as (main & job1 & H1 & H).
  apply bind_Ok in H as (loadingOp & job2 & H2 & H).
  apply bind_Ok in H as (placeholderOp & job3 & H3 & H).
  apply bind_Ok in H as (errorOp & job4 & H4 & H).
  destruct main as [main|]; [|discriminate H].
  apply ingestDeferView_grown in H1 as G1; [|exact Hlt].
  apply ingestDeferView_grown in H2 as G2; [|destruct G1; lia].
  apply ingestDeferView_grown in H3 as G3; [|destruct G1, G2; lia].
  apply ingestDeferView_grown in H4 as G4; [|destruct G1, G2, G3; lia].
  apply bind_Ok in H as (deferXref & job5 & H5 & H).
  rewrite allocateXrefId_advanced in H5. inv_monad.
  destruct a as [ons whens]. inv_monad.
  assert (G5 : grown unit [] [] job4 (advanced 1 job4))
    by (apply grown_same; [simpl; lia | reflexivity]).
  match goal with
  | Ht : ingestAllDeferTriggers _ _ _ _ ?j = Ok (_, ?j') |- _ =>
      assert (G7 : grown unit [] [] j j');
      [ apply (grown_untouched unit []);
        [ exact (touches_ingestAllDeferTriggers env [] _ _ _ _ _ _ Ht)
        | | intros [] ]
      | apply ingestAllDeferTriggers_spec in Ht
          as (primary & -> & Hprim & Hno) ]
  end.
  { apply grown_pushCreate in Ha. destruct G1, G2, G3, G4, G5, Ha. lia. }
  repeat match goal with
  | Hp : pushCreate _ _ _ = Ok _ |- _ => apply grown_pushCreate in Hp
  | Hp : pushUpdate _ _ _ = Ok _ |- _ => apply grown_pushUpdate in Hp
  end.
  pose proof (grown_trans _ _ _ _ _ _ _ _
                (grown_trans _ _ _ _ _ _ _ _
                   (grown_trans _ _ _ _ _ _ _ _
                      (grown_trans _ _ _ _ _ _ _ _
                         (grown_trans _ _ _ _ _ _ _ _
                            (grown_trans _ _ _ _ _ _ _ _
                               (grown_trans _ _ _ _ _ _ _ _
                                  (grown_trans _ _ _ _ _ _ _ _ G1 G2) G3)
                               G4) G5) Ha) G7) Ha1) H) as [_ Hv].
  rewrite Hu in Hv. simpl in Hv.
  match type of Hv with
  | context [DeferOp ?d] =>
      exists (main :: option_list loadingOp ++ option_list placeholderOp
              ++ option_list errorOp), d, primary, whens
  end.
  cbv zeta. simpl DeferOp.xref.
  pose proof (explicitOn_prefetch (Job.nextXrefId job4) prefetchTriggers true)
    as Hpre.
  assert (Hf : List.filter DeferOnOp.prefetch
                 (primary ++ explicitOn (Job.nextXrefId job4)
                               prefetchTriggers true)
               = explicitOn (Job.nextXrefId job4) prefetchTriggers true).
  { rewrite List.filter_app, (filter_none _ _ Hprim), (filter_all _ _ Hpre).
    reflexivity. }
  split; [|split; [exact Hothers|split; [exact Hf|split]]].
  - rewrite Hv. f_equal. f_equal.
    simpl. rewrite !app_nil_r, !map_app, <- !app_assoc. reflexivity.
  - rewrite Hf. apply explicitOn_kinds.
  - intros Hnone. destruct (Hno Hnone) as (-> & Hw & Hl).
    split; [|split; assumption].
    rewrite List.filter_app. simpl.
    rewrite filter_none; [reflexivity|].
    eapply List.Forall_impl; [|exact Hpre]. simpl. intros op ->. reflexivity.
Qed.
End DeferredBlocks.

(** A block with a prefetch [hover] trigger only, in the root view of a new
    job: the view gets the template of the block, the [Defer] op and two
    [DeferOn] ops, the default [Idle] trigger and the prefetch [hover]. *)
Lemma C5_default_idle_trigger_witness :
  ∃ job',
    ingestDeferBlock plainEnv (ingestNodes plainEnv 2) 0 0 [] emptyTriggers
      hoverPrefetch None None None None deferJob
    = Ok (tt, job')
    ∧ noTriggers emptyTriggers
    ∧ ∃ templates deferOp ons (whens : list DeferWhenOp.t),
        Job.view 0 job'
        = Some (growBy
                  (map TemplateOp templates ++ [DeferOp deferOp]
                   ++ map DeferOnOp ons)
                  (map DeferWhenOp whens) (Unit.empty 0 None))
        ∧ List.filter (fun op => negb (DeferOnOp.prefetch op)) ons
          = [createDeferOnOp (DeferOp.xref deferOp) IdleTrigger false None]
        ∧ map kindOfOn (List.filter DeferOnOp.prefetch ons) = [Hover]
        ∧ length whens = 0.
Proof.
  assert (Hnone : noTriggers emptyTriggers) by (repeat split).
  destruct (ingestDeferBlock plainEnv (ingestNodes plainEnv 2) 0 0 []
              emptyTriggers hoverPrefetch None None None None deferJob)
    as [[[] job']|] eqn:E; [|vm_compute in E; discriminate E].
  exists job'. split; [reflexivity|]. split; [exact Hnone|].
  destruct (C5_default_idle_trigger plainEnv 2 0 0 [] emptyTriggers
              hoverPrefetch None None None None deferJob job'
              (Unit.empty 0 None) E)
    as (templates & deferOp & primary & whens & Hv & _ & _ & Hkinds & Hno);
    [simpl; lia | reflexivity |].
  destruct (Hno Hnone) as (Hidle & _ & Hlen).
  exists templates, deferOp,
    (primary ++ explicitOn (DeferOp.xref deferOp) hoverPrefetch true), whens.
  split; [exact Hv|]. split; [exact Hidle|].
  split; [exact Hkinds | exact Hlen].
Defined.

(** ** Conditionals *)

Lemma ingestControlFlowInsertionPoint_grown (env : Collaborators)
    (unit xref : XrefId) (children : list Node) (job job' : Job.t)
    (tag : option string) :
  ingestControlFlowInsertionPoint env unit xref children job = Ok (tag, job') →
  grown unit [] (projectedBindings xref children) job job'.
Proof.
  unfold ingestControlFlowInsertionPoint, projectedBindings.
  destruct (findRoot children None) as [[root|]|];
    try (intros H; inv_monad; apply grown_same; [lia | reflexivity]).
  intros H. apply bind_Ok in H as ([] & job1 & H & Hr). inv_monad.
  revert job H. induction (rootAttributes root) as [|attr l IH];
    intros job H; simpl in H.
  - inv_monad. apply grown_same; [lia | reflexivity].
  - apply bind_Ok in H as ([] & job0 & Hb & H).
    apply IH in H.
    assert (G : grown unit []
                  [createBindingOp xref BkAttribute (ta_name attr)
                     (PlainExpr (LiteralExpr (LitStr (ta_value attr)) None))
                     None NONE true false (ta_sourceSpan attr)] job job0).
    { unfold ingestBinding in Hb. cbn in Hb. unfold bind, ret in Hb.
      now apply grown_pushUpdate in Hb. }
    exact (grown_trans _ [] _ [] _ _ _ _ G H).
Qed.

Lemma shared_prefix {A B C} (f : A → B) (g : A → C) (l l' : list A)
    (n1 : list B) (n2 : list C) (v : A) :
  map f l' = map f l ++ n1 → map g l' = map g l ++ n2 → In v l →
  ∃ v', In v' l' ∧ f v' = f v ∧ g v' = g v.
Proof.
  revert l'. induction l as [|a l IH]; intros l' Hf Hg Hin; [contradiction|].
  destruct l' as [|a' l']; [discriminate Hf|].
  simpl in Hf, Hg. injection Hf as Hfa Hf. injection Hg as Hga Hg.
  destruct Hin as [->|Hin].
  - exists a'. split; [now left | auto].
  - destruct (IH l' Hf Hg Hin) as (v' & Hv' & H1 & H2).
    exists v'. split; [now right | auto].
Qed.

(** The views of a job are views of a job that extends it, with their
    parents. *)
Lemma extends_unit (job job' : Job.t) (v : Unit.t) :
  extends job job' → In v (Job.units job) →
  ∃ v', In v' (Job.units job')
        ∧ Unit.xref v' = Unit.xref v ∧ Unit.parent v' = Unit.parent v.
Proof.
  intros [[n1 Hv] [n2 Hp] _ _ _ _ _ _] Hin.
  exact (shared_prefix Unit.xref Unit.parent _ _ _ _ _ Hv Hp Hin).
Qed.

Lemma childView_found (job : Job.t) (parent x : XrefId) (v : Unit.t) :
  wellFormed job → In v (Job.units job) →
  Unit.xref v = x → Unit.parent v = Some parent →
  childView job parent x.
Proof.
  intros [Hd _ _] Hin <- Hp. exists v. split; [now apply view_found | exact Hp].
Qed.

Lemma view_fresh (job : Job.t) (x : XrefId) :
  wellFormed job → (Job.nextXrefId job ≤ x)%nat → Job.view x job = None.
Proof.
  intros [_ Hb _] Hx. unfold Job.view, viewIds in *.
  induction (Job.units job) as [|v l IH]; simpl; [reflexivity|].
  apply Forall_cons in Hb as [Hv Hb]. simpl in Hv.
  destruct (Nat.eqb_spec (Unit.xref v) x) as [Heq|_]; [lia | auto].
Qed.

Lemma view_In (job : Job.t) (x : XrefId) (u : Unit.t) :
  Job.view x job = Some u → In x (viewIds job).
Proof.
  unfold Job.view, viewIds. intros H. apply find_some in H as [Hin Hx].
  apply Nat.eqb_eq in Hx as <-. now apply in_map.
Qed.

Lemma view_below (job : Job.t) (x : XrefId) (u : Unit.t) :
  wellFormed job → Job.view x job = Some u → (x < Job.nextXrefId job)%nat.
Proof.
  intros [_ Hb _] H. apply view_In in H.
  exact (proj1 (List.Forall_forall _ _) Hb x H).
Qed.

Lemma allocateView_unit (parent x : XrefId) (job job' : Job.t) :
  allocateView parent job = Ok (x, job') →
  In (Unit.empty x (Some parent)) (Job.units job').
Proof.
  unfold allocateView, bind, Ingest.allocateXrefId, modify, ret.
  intros [= <- <-]. simpl. apply in_or_app. right. now left.
Qed.

(** Code that leaves this view alone, after code that made it grow. *)
Lemma grown_then_untouched (unit : XrefId) cs us (vs : list XrefId)
    (j1 j2 j3 : Job.t) :
  grown unit cs us j1 j2 → untouched vs j2 j3 →
  (unit < Job.nextXrefId j1)%nat → ¬ In unit vs →
  grown unit cs us j1 j3.
Proof.
  intros G Hu Hlt Hnot.
  assert (G' : grown unit [] [] j2 j3).
  { apply (grown_untouched unit vs); [exact Hu | destruct G; lia | exact Hnot]. }
  pose proof (grown_trans _ _ _ _ _ _ _ _ G G') as Gt.
  now rewrite !app_nil_r in Gt.
Qed.

Section Conditionals.
Variable env : Collaborators.
Variable fuel : nat.

Lemma first_head (first : option (XrefId * SlotHandle))
    (acc new : list ConditionalCase) :
  first = head (map (fun c => (cc_target c, cc_targetSlot c)) acc) →
  match first with
  | None => head (map (fun c => (cc_target c, cc_targetSlot c)) new)
  | Some _ => first
  end
  = head (map (fun c => (cc_target c, cc_targetSlot c)) (acc ++ new)).
Proof. intros ->. destruct acc; reflexivity. Qed.

Lemma ingestIfBranch_spec (unit : XrefId) (i : nat) (ifCase : IfBlockBranch)
    (first : option (XrefId * SlotHandle)) (acc : list ConditionalCase)
    (job job' : Job.t) r :
  ingestIfBranch env (ingestNodes env fuel) unit i ifCase first acc job
  = Ok (r, job') →
  ∃ c,
    r = (match first with
         | None => Some (cc_target c, cc_targetSlot c)
         | Some _ => first
         end, acc ++ [c])
    ∧ conditionOf (branchExpression ifCase) (branchAlias ifCase) c
    ∧ cc_target c = Job.nextXrefId job
    ∧ (Job.nextXrefId job < Job.nextXrefId job')%nat.
Proof.
  unfold ingestIfBranch. destruct ifCase as [expression children alias span].
  intros H. apply bind_Ok in H as (cView & job0 & Ha & H).
  apply allocateView_next in Ha as [-> Hn].
  match type of H with
  | ?k ?j = _ =>
      assert (Ht : touches [unit; Job.nextXrefId job] k)
  end.
  { touches_auto ltac:(first
      [ apply touches_ingestControlFlowInsertionPoint; in_touched
      | apply touches_ingestNodes; in_touched ]). }
  destruct (Ht _ _ _ H) as [Hle _].
  inv_monad.
  match goal with |- ∃ c, (_, _ ++ [?c0]) = _ ∧ _ => exists c0 end.
  split; [reflexivity|]. simpl.
  split; [|split; [reflexivity | lia]].
  split; [reflexivity|].
  match goal with
  | Ho : optM _ ?e _ = Ok _ |- _ =>
      destruct e; simpl in Ho; inv_monad; simpl; split; congruence
  end.
Qed.

Lemma head_targets (conditions : list ConditionalCase) :
  fst <$> head (map (fun c => (cc_target c, cc_targetSlot c)) conditions)
  = head (map cc_target conditions)
  ∧ snd <$> head (map (fun c => (cc_target c, cc_targetSlot c)) conditions)
    = head (map cc_targetSlot conditions).
Proof. destruct conditions; split; reflexivity. Qed.

Lemma ingestIfBranch_view (unit : XrefId) (i : nat) (ifCase : IfBlockBranch)
    (first : option (XrefId * SlotHandle)) (acc : list ConditionalCase)
    (job job' : Job.t) r :
  ingestIfBranch env (ingestNodes env fuel) unit i ifCase first acc job
  = Ok (r, job') →
  wellFormed job → In unit (viewIds job) →
  wellFormed job' ∧ extends job job'
  ∧ childView job' unit (Job.nextXrefId job)
  ∧ ∃ t,
      TemplateOp.xref t = Job.nextXrefId job
      ∧ grown unit [TemplateOp t]
          (if Nat.eqb i 0
           then projectedBindings (Job.nextXrefId job) (branchChildren ifCase)
           else [])
          job job'.
Proof.
  unfold ingestIfBranch. destruct ifCase as [expression children alias span].
  intros H Hw Hin.
  assert (Hlt : (unit < Job.nextXrefId job)%nat)
    by (destruct Hw as [_ Hb _];
        exact (proj1 (List.Forall_forall _ _) Hb unit Hin)).
  apply bind_Ok in H as (cView & job0 & Ha & H).
  pose proof (allocateView_unit _ _ _ _ Ha) as Hv0.
  pose proof (grown_allocateView unit _ _ _ _ Ha Hlt) as G0.
  destruct (allocateView_spec _ _ _ _ Ha Hw Hin) as (Hw0 & He0 & Hx0).
  apply allocateView_next in Ha as [-> Hn].
  match type of H with
  | ?k ?j = _ =>
      assert (Hk : keeps [unit; Job.nextXrefId job] k)
  end.
  { keeps_auto ltac:(first
      [ apply keeps_ingestControlFlowInsertionPoint
      | apply keeps_ingestNodes; in_views ]). }
  destruct (Hk _ _ _ H Hw0) as [Hw' He'].
  { constructor; [|constructor; [exact Hx0 | constructor]].
    destruct He0 as [[new0 Hnew0] _ _ _ _ _ _ _]. rewrite Hnew0.
    apply in_or_app. now left. }
  split; [exact Hw'|]. split; [eapply extends_trans; eassumption|].
  split.
  { destruct (extends_unit _ _ _ He' Hv0) as (v' & Hv' & Hx' & Hp').
    eapply childView_found; eassumption. }
  apply bind_Ok in H as (tagName & job1 & H1 & H).
  apply bind_Ok in H as ([] & job2 & H2 & H).
  apply bind_Ok in H as ([] & job3 & H3 & H).
  apply bind_Ok in H as (caseExpr & job4 & H4 & H).
  apply bind_Ok in H as ([] & job5 & H5 & H).
  inv_monad.
  exists (createTemplateOp (Job.nextXrefId job) tagName "Conditional" NsHTML
            None span).
  split; [reflexivity|]. simpl branchChildren.
  assert (G1 : grown unit []
                 (if Nat.eqb i 0
                  then projectedBindings (Job.nextXrefId job) children
                  else []) job job1).
  { destruct (Nat.eqb i 0).
    - apply ingestControlFlowInsertionPoint_grown in H1.
      exact (grown_trans _ _ _ _ _ _ _ _ G0 H1).
    - inv_monad. exact G0. }
  assert (G2 : grown unit []
                 (if Nat.eqb i 0
                  then projectedBindings (Job.nextXrefId job) children
                  else []) job job2).
  { destruct alias as [a|]; [|inv_monad; exact G1].
    apply (grown_then_untouched unit _ _ [Job.nextXrefId job] _ _ _ G1);
      [|exact Hlt | intros [Heq|[]]; lia].
    exact (touches_setContextVariable [Job.nextXrefId job] _ _ _
             (or_introl eq_refl) _ _ _ H2). }
  apply grown_pushCreate in H3.
  pose proof (grown_trans _ _ _ _ _ _ _ _ G2 H3) as G3.
  rewrite app_nil_r in G3. simpl in G3.
  assert (G4 : grown unit [TemplateOp
                             (createTemplateOp (Job.nextXrefId job) tagName
                                "Conditional" NsHTML None span)]
                 (if Nat.eqb i 0
                  then projectedBindings (Job.nextXrefId job) children
                  else []) job job4).
  { apply (grown_then_untouched unit _ _ [] _ _ _ G3);
      [|exact Hlt | intros []].
    refine (touches_optM [] _ _ _ _ _ _ H4).
    intros e. apply touches_convertAst. }
  apply (grown_then_untouched unit _ _ [Job.nextXrefId job] _ _ _ G4);
    [|exact Hlt | intros [Heq|[]]; lia].
  exact (touches_ingestNodes env fuel [Job.nextXrefId job] _ children
           (or_introl eq_refl) _ _ _ H5).
Qed.

Lemma childView_extends (job job' : Job.t) (parent x : XrefId) :
  childView job parent x → extends job job' → wellFormed job' →
  childView job' parent x.
Proof.
  intros (v & Hv & Hp) He Hw'. unfold Job.view in Hv.
  apply find_some in Hv as [Hin Hx]. apply Nat.eqb_eq in Hx.
  destruct (extends_unit _ _ _ He Hin) as (v' & Hin' & Hx' & Hp').
  eapply childView_found; [exact Hw' | exact Hin' | congruence | congruence].
Qed.

Lemma ingestIfBranches_view (unit : XrefId) (branches : list IfBlockBranch) :
  ∀ i first acc job first' conditions job',
    ingestIfBranches env (ingestNodes env fuel) unit i branches first acc job
    = Ok ((first', conditions), job') →
    first = head (map (fun c => (cc_target c, cc_targetSlot c)) acc) →
    wellFormed job → In unit (viewIds job) →
    ∃ new templates,
      conditions = acc ++ new
      ∧ first' = head (map (fun c => (cc_target c, cc_targetSlot c))
                         conditions)
      ∧ Forall2 (fun b c => conditionOf (branchExpression b) (branchAlias b) c)
          branches new
      ∧ increasingWithin (Job.nextXrefId job) (Job.nextXrefId job')
          (map cc_target new)
      ∧ map TemplateOp.xref templates = map cc_target new
      ∧ wellFormed job' ∧ extends job job'
      ∧ Forall (childView job' unit) (map cc_target new)
      ∧ grown unit (map TemplateOp templates)
          (match branches with
           | b :: _ =>
               if Nat.eqb i 0
               then projectedBindings (Job.nextXrefId job) (branchChildren b)
               else []
           | [] => []
           end) job job'.
Proof.
  induction branches as [|b l IH];
    intros i first acc job first' conditions job' H Hfirst Hw Hin;
    simpl in H.
  - inv_monad. exists [], []. rewrite app_nil_r.
    split; [reflexivity|]. split; [reflexivity|]. split; [constructor|].
    split; [simpl; lia|]. split; [reflexivity|]. split; [exact Hw|].
    split; [apply extends_refl|]. split; [constructor|].
    apply grown_same; [lia | reflexivity].
  - apply bind_Ok in H as ([f1 c1] & job1 & Hb & H).
    pose proof (ingestIfBranch_view _ _ _ _ _ _ _ _ Hb Hw Hin)
      as (Hw1 & He1 & Hc1 & t & Ht & G1).
    apply ingestIfBranch_spec in Hb as (c & [= -> ->] & Hc & Htc & Hlt).
    assert (Hin1 : In unit (viewIds job1)).
    { destruct He1 as [[n Hn] _ _ _ _ _ _ _]. rewrite Hn.
      apply in_or_app. now left. }
    apply IH in H
      as (new & ts & -> & -> & Hnew & Hinc & Hts & Hw' & He' & Hviews & G);
      [| exact (first_head first acc [c] Hfirst) | exact Hw1 | exact Hin1].
    exists (c :: new), (t :: ts). rewrite <- app_assoc.
    split; [reflexivity|]. split; [reflexivity|].
    split; [now constructor|]. split.
    { simpl. split; [lia|].
      eapply increasingWithin_weaken; [| |exact Hinc]; lia. }
    split; [simpl; congruence|]. split; [exact Hw'|].
    split; [eapply extends_trans; eassumption|]. split.
    { simpl. constructor; [|exact Hviews]. rewrite Htc.
      eapply childView_extends; eassumption. }
    assert (Hrest : match l with
                    | b0 :: _ =>
                        if Nat.eqb (S i) 0
                        then projectedBindings (Job.nextXrefId job1)
                               (branchChildren b0)
                        else []
                    | [] => []
                    end = []) by (destruct l; reflexivity).
    rewrite Hrest in G.
    pose proof (grown_trans _ _ _ _ _ _ _ _ G1 G) as Gt.
    rewrite app_nil_r in Gt. exact Gt.
Qed.

(** X8: an [@if] block appends to the create ops of its view one template per
    branch, in order, and nothing else, and to the update ops the bindings
    that content projection copies from the root element of the first
    branch, then one conditional op, and nothing else.  The conditional has
    one condition per branch, in order: it has the alias of its branch and
    a test exactly when the branch has an expression, and it targets the
    template of the branch, whose id is that of a view the block has
    allocated under its own view; these ids come from the counter in
    increasing order.  The op itself targets the first of them and has no
    test. *)
Theorem ingestIfBlock_conditions (unit : XrefId)
    (branches : list IfBlockBranch) (sourceSpan : SourceSpan)
    (job job' : Job.t) (u : Unit.t) :
  ingestIfBlock env (ingestNodes env fuel) unit branches sourceSpan job
  = Ok (tt, job') →
  wellFormed job → Job.view unit job = Some u →
  ∃ templates conditions,
    Job.view unit job'
    = Some (growBy (map TemplateOp templates)
              (match branches with
               | b :: _ =>
                   projectedBindings (Job.nextXrefId job) (branchChildren b)
               | [] => []
               end ++ [conditionalOf None conditions sourceSpan]) u)
    ∧ map TemplateOp.xref templates = map cc_target conditions
    ∧ Forall2 (fun b c => conditionOf (branchExpression b) (branchAlias b) c)
        branches conditions
    ∧ increasingWithin (Job.nextXrefId job) (Job.nextXrefId job')
        (map cc_target conditions)
    ∧ Forall (fun x => Job.view x job = None ∧ childView job' unit x)
        (map cc_target conditions).
Proof.
  unfold ingestIfBlock. intros H Hw Hu.
  pose proof (view_In _ _ _ Hu) as Hin.
  apply bind_Ok in H as ([first conditions] & job1 & Hb & H).
  apply ingestIfBranches_view in Hb
    as (new & ts & -> & -> & Hnew & Hinc & Hts & Hw1 & He1 & Hviews & G);
    [|reflexivity | exact Hw | exact Hin].
  pose proof H as Hp. apply grown_pushUpdate in Hp.
  destruct (grown_trans _ _ _ _ _ _ _ _ G Hp) as [Hn Hv].
  rewrite Hu in Hv. simpl in Hv, Hv. rewrite app_nil_r in Hv.
  assert (Hk : wellFormed job' ∧ extends job1 job').
  { exact (keeps_pushUpdate [] unit _ _ _ _ H Hw1 (Forall_nil_2 _)). }
  destruct Hk as [Hw' He'].
  exists ts, new. simpl in Hv. destruct (head_targets new) as [E1 E2].
  split.
  { rewrite Hv. unfold conditionalOf. rewrite <- E1, <- E2.
    destruct branches; reflexivity. }
  split; [exact Hts|]. split; [exact Hnew|].
  assert (Hn' : Job.nextXrefId job' = Job.nextXrefId job1).
  { unfold pushUpdate in H. inv_monad. reflexivity. }
  split; [now rewrite Hn'|].
  clear -Hviews Hinc Hw Hw' He'.
  revert Hinc Hviews. generalize (Job.nextXrefId job1).
  assert (Hfresh : ∀ lo hi l, increasingWithin lo hi l →
                     Forall (fun x => (lo ≤ x)%nat) l).
  { intros lo hi l. revert lo. induction l as [|x l IH]; intros lo Hl;
      constructor; destruct Hl as [Hx Hl]; [exact Hx|].
    eapply List.Forall_impl; [|exact (IH _ Hl)]. simpl. intros. lia. }
  intros hi Hinc Hviews. apply Hfresh in Hinc.
  induction Hviews as [|x l Hx _ IH]; constructor.
  - apply Forall_cons in Hinc as [Hlo _]. split.
    + now apply view_fresh.
    + eapply childView_extends; eassumption.
  - apply IH. now apply Forall_cons in Hinc as [_ Hinc].
Qed.

Lemma ingestSwitchCases_view (unit : XrefId) (startSourceSpan : SourceSpan)
    (cases : list SwitchBlockCase) :
  ∀ first acc job first' conditions job',
    ingestSwitchCases env (ingestNodes env fuel) unit startSourceSpan cases
      first acc job
    = Ok ((first', conditions), job') →
    first = head (map (fun c => (cc_target c, cc_targetSlot c)) acc) →
    wellFormed job → In unit (viewIds job) →
    ∃ new templates,
      conditions = acc ++ new
      ∧ first' = head (map (fun c => (cc_target c, cc_targetSlot c))
                         conditions)
      ∧ Forall2 (fun b c => conditionOf (caseExpression b) None c) cases new
      ∧ increasingWithin (Job.nextXrefId job) (Job.nextXrefId job')
          (map cc_target new)
      ∧ map TemplateOp.xref templates = map cc_target new
      ∧ wellFormed job' ∧ extends job job'
      ∧ Forall (childView job' unit) (map cc_target new)
      ∧ grown unit (map TemplateOp templates) [] job job'.
Proof.
  induction cases as [|[expression children span] l IH];
    intros first acc job first' conditions job' H Hfirst Hw Hin; simpl in H.
  - inv_monad. exists [], []. rewrite app_nil_r.
    split; [reflexivity|]. split; [reflexivity|]. split; [constructor|].
    split; [simpl; lia|]. split; [reflexivity|]. split; [exact Hw|].
    split; [apply extends_refl|]. split; [constructor|].
    apply grown_same; [lia | reflexivity].
  - assert (Hlt : (unit < Job.nextXrefId job)%nat)
      by (destruct Hw as [_ Hb _];
          exact (proj1 (List.Forall_forall _ _) Hb unit Hin)).
    apply bind_Ok in H as (cView & job0 & Ha & H).
    pose proof (allocateView_unit _ _ _ _ Ha) as Hv0.
    pose proof (grown_allocateView unit _ _ _ _ Ha Hlt) as G0.
    destruct (allocateView_spec _ _ _ _ Ha Hw Hin) as (Hw0 & He0 & Hx0).
    apply allocateView_next in Ha as [-> Hn].
    assert (Hin0 : In unit (viewIds job0)).
    { destruct He0 as [[n0 Hn0] _ _ _ _ _ _ _]. rewrite Hn0.
      apply in_or_app. now left. }
    apply bind_Ok in H as ([] & job1 & H1 & H).
    apply bind_Ok in H as (caseExpr & job2 & H2 & H).
    apply bind_Ok in H as ([] & job3 & H3 & H).
    (* the views, up to the end of this case *)
    assert (Hk : wellFormed job3 ∧ extends job0 job3).
    { assert (Hus : Forall (fun x => In x (viewIds job0))
                      [unit; Job.nextXrefId job])
        by (constructor; [exact Hin0 | constructor; [exact Hx0|constructor]]).
      destruct (keeps_pushCreate [unit; Job.nextXrefId job] _ _ _ _ _ H1 Hw0
                  Hus) as [Hw1 He1].
      pose proof (extends_In _ _ _ He1 Hus) as Hus1.
      assert (Hk2 : keeps [unit; Job.nextXrefId job]
                      (optM (fun e => convertAst env e startSourceSpan)
                         expression))
        by (apply keeps_optM; intros e; apply keeps_convertAst).
      destruct (Hk2 _ _ _ H2 Hw1 Hus1) as [Hw2 He2].
      pose proof (extends_In _ _ _ He2 Hus1) as Hus2.
      destruct (keeps_ingestNodes env fuel [unit; Job.nextXrefId job]
                  (Job.nextXrefId job) children
                  (or_intror (or_introl eq_refl)) _ _ _ H3 Hw2 Hus2)
        as [Hw3 He3].
      split; [exact Hw3|].
      eapply extends_trans; [|exact He3].
      eapply extends_trans; eassumption. }
    destruct Hk as [Hw3 He3].
    (* the view of the block, up to the end of this case *)
    pose proof H1 as G1. apply grown_pushCreate in G1.
    pose proof (grown_trans _ _ _ _ _ _ _ _ G0 G1) as G01. simpl in G01.
    assert (G2 : grown unit
                   [TemplateOp (createTemplateOp (Job.nextXrefId job) None
                                  "Case" NsHTML None span)] [] job job2).
    { apply (grown_then_untouched unit _ _ [] _ _ _ G01);
        [|exact Hlt | intros []].
      refine (touches_optM [] _ _ _ _ _ _ H2).
      intros e. apply touches_convertAst. }
    assert (G3 : grown unit
                   [TemplateOp (createTemplateOp (Job.nextXrefId job) None
                                  "Case" NsHTML None span)] [] job job3).
    { apply (grown_then_untouched unit _ _ [Job.nextXrefId job] _ _ _ G2);
        [|exact Hlt | intros [Heq|[]]; lia].
      exact (touches_ingestNodes env fuel [Job.nextXrefId job] _ children
               (or_introl eq_refl) _ _ _ H3). }
    assert (Hin3 : In unit (viewIds job3)).
    { destruct He3 as [[n3 Hn3] _ _ _ _ _ _ _]. rewrite Hn3.
      apply in_or_app. now left. }
    assert (Hc3 : childView job3 unit (Job.nextXrefId job)).
    { destruct (extends_unit _ _ _ He3 Hv0) as (v' & Hv' & Hx' & Hp').
      eapply childView_found; eassumption. }
    apply IH in H
      as (new & ts & -> & -> & Hnew & Hinc & Hts & Hw' & He' & Hviews & G);
      [| | exact Hw3 | exact Hin3].
    + eexists (_ :: new),
        (createTemplateOp (Job.nextXrefId job) None "Case" NsHTML None span
         :: ts).
      rewrite <- app_assoc.
      split; [reflexivity|]. split; [reflexivity|]. split.
      { constructor; [|exact Hnew]. split; [reflexivity|]. simpl.
        destruct expression; simpl in H2; inv_monad; split; congruence. }
      split.
      { simpl. split; [lia|].
        pose proof (ext_next _ _ He3) as Hn3.
        eapply increasingWithin_weaken; [| |exact Hinc]; lia. }
      split; [simpl; now rewrite Hts|]. split; [exact Hw'|].
      split.
      { eapply extends_trans; [exact He0|].
        eapply extends_trans; eassumption. }
      split.
      { simpl. constructor; [|exact Hviews].
        eapply childView_extends; eassumption. }
      pose proof (grown_trans _ _ _ _ _ _ _ _ G3 G) as Gt. exact Gt.
    + match goal with
      | |- _ = head (map _ (_ ++ [?c])) =>
          exact (first_head first acc [c] Hfirst)
      end.
Qed.

(** X9: an [@switch] block ingests its cases in order and then converts the
    expression it switches on.  It appends to the create ops of its view
    one template per case, in order, and nothing else, and to the update ops
    one conditional op, and nothing else.  The conditional tests the
    converted expression and has one condition per case, in order, without
    alias, with a test exactly when the case has an expression; each
    condition targets the template of its case, whose id is that of a view
    the block has allocated under its own view, the ids coming from the
    counter in increasing order before the expression is converted.  The op
    itself targets the first of them. *)
Theorem ingestSwitchBlock_conditions (unit : XrefId) (expression : AST)
    (cases : list SwitchBlockCase) (sourceSpan startSourceSpan : SourceSpan)
    (job job' : Job.t) (u : Unit.t) :
  ingestSwitchBlock env (ingestNodes env fuel) unit expression cases
    sourceSpan startSourceSpan job
  = Ok (tt, job') →
  wellFormed job → Job.view unit job = Some u →
  ∃ templates conditions test job1 job2,
    Job.view unit job1 = Some (growBy (map TemplateOp templates) [] u)
    ∧ convertAst env expression None job1 = Ok (test, job2)
    ∧ job' = Job.updateUnit unit
               (fun u => Unit.set_update
                           (Unit.update u
                            ++ [conditionalOf (Some test) conditions
                                  sourceSpan]) u)
               job2
    ∧ Job.view unit job'
      = Some (growBy (map TemplateOp templates)
                [conditionalOf (Some test) conditions sourceSpan] u)
    ∧ map TemplateOp.xref templates = map cc_target conditions
    ∧ Forall2 (fun b c => conditionOf (caseExpression b) None c)
        cases conditions
    ∧ increasingWithin (Job.nextXrefId job) (Job.nextXrefId job1)
        (map cc_target conditions)
    ∧ Forall (fun x => Job.view x job = None ∧ childView job' unit x)
        (map cc_target conditions).
Proof.
  unfold ingestSwitchBlock. intros H Hw Hu.
  pose proof (view_In _ _ _ Hu) as Hin.
  pose proof (view_below _ _ _ Hw Hu) as Hlt.
  apply bind_Ok in H as ([first conditions] & job1 & Hb & H).
  apply ingestSwitchCases_view in Hb
    as (new & ts & -> & -> & Hnew & Hinc & Hts & Hw1 & He1 & Hviews & G);
    [|reflexivity | exact Hw | exact Hin].
  apply bind_Ok in H as (test & job2 & Ht & H).
  assert (Hk2 : wellFormed job2 ∧ extends job1 job2).
  { exact (keeps_convertAst env [] _ _ _ _ _ Ht Hw1 (Forall_nil_2 _)). }
  destruct Hk2 as [Hw2 He2].
  assert (Hk : wellFormed job' ∧ extends job2 job').
  { exact (keeps_pushUpdate [] unit _ _ _ _ H Hw2 (Forall_nil_2 _)). }
  destruct Hk as [Hw' He'].
  assert (G2 : grown unit (map TemplateOp ts) [] job job2).
  { apply (grown_then_untouched unit _ _ [] _ _ _ G);
      [|exact Hlt | intros []].
    exact (touches_convertAst env [] _ _ _ _ _ Ht). }
  pose proof H as Hp. apply grown_pushUpdate in Hp.
  destruct (grown_trans _ _ _ _ _ _ _ _ G2 Hp) as [_ Hv].
  rewrite Hu in Hv. simpl in Hv. rewrite app_nil_r in Hv.
  destruct G as [Hn1 Hv1]. rewrite Hu in Hv1. simpl in Hv1.
  destruct (head_targets new) as [E1 E2].
  unfold pushUpdate in H. inv_monad.
  exists ts, new, test, job1, job2.
  split; [exact Hv1|]. split; [exact Ht|].
  split; [unfold conditionalOf; now rewrite <- E1, <- E2|].
  split; [rewrite Hv; unfold conditionalOf; now rewrite <- E1, <- E2|].
  split; [exact Hts|]. split; [exact Hnew|]. split; [exact Hinc|].
  assert (He : extends job1
                 (Job.updateUnit unit
                    (fun u0 => Unit.set_update
                       (Unit.update u0
                        ++ [createConditionalOp
                              (fst <$> head (map (fun c => (cc_target c,
                                                           cc_targetSlot c))
                                               new))
                              (snd <$> head (map (fun c => (cc_target c,
                                                           cc_targetSlot c))
                                               new))
                              (Some test) new sourceSpan]) u0) job2))
    by (eapply extends_trans; eassumption).
  clear -Hviews Hinc Hw Hw' He.
  revert Hinc Hviews. generalize (Job.nextXrefId job1).
  assert (Hfresh : ∀ lo hi l, increasingWithin lo hi l →
                     Forall (fun x => (lo ≤ x)%nat) l).
  { intros lo hi l. revert lo. induction l as [|x l IH]; intros lo Hl;
      constructor; destruct Hl as [Hx Hl]; [exact Hx|].
    eapply List.Forall_impl; [|exact (IH _ Hl)]. simpl. intros. lia. }
  intros hi Hinc Hviews. apply Hfresh in Hinc.
  induction Hviews as [|x l Hx _ IH]; constructor.
  - apply Forall_cons in Hinc as [Hlo _]. split.
    + now apply view_fresh.
    + eapply childView_extends; eassumption.
  - apply IH. now apply Forall_cons in Hinc as [_ Hinc].
Qed.
End Conditionals.

(** An [@if] whose aliased branch has a single root element, and an
    [@else], in the root view of a new job. *)
Lemma ingestIfBlock_conditions_witness :
  ∃ job',
    ingestIfBlock plainEnv (ingestNodes plainEnv 5) 0 ifElse None deferJob
    = Ok (tt, job')
    ∧ ∃ templates conditions,
        Job.view 0 job'
        = Some (growBy (map TemplateOp templates)
                  (projectedBindings 1 [divFoo]
                   ++ [conditionalOf None conditions None])
                  (Unit.empty 0 None))
        ∧ map TemplateOp.xref templates = map cc_target conditions
        ∧ Forall2 (fun b c =>
                     conditionOf (branchExpression b) (branchAlias b) c)
            ifElse conditions
        ∧ increasingWithin 1 (Job.nextXrefId job') (map cc_target conditions)
        ∧ Forall (fun x => Job.view x deferJob = None ∧ childView job' 0 x)
            (map cc_target conditions).
Proof.
  destruct (ingestIfBlock plainEnv (ingestNodes plainEnv 5) 0 ifElse None
              deferJob) as [[[] job']|] eqn:E;
    [|vm_compute in E; discriminate E].
  exists job'. split; [reflexivity|].
  exact (ingestIfBlock_conditions plainEnv 5 0 ifElse None deferJob job'
           (Unit.empty 0 None) E (wellFormed_new _ _ _) eq_refl).
Defined.

(** An [@switch] on a piped expression with a case and a default, in the
    root view of a new job. *)
Lemma ingestSwitchBlock_conditions_witness :
  ∃ job',
    ingestSwitchBlock plainEnv (ingestNodes plainEnv 5) 0 switchedOn
      switchCases None None deferJob
    = Ok (tt, job')
    ∧ ∃ templates conditions test job1 job2,
        Job.view 0 job1
        = Some (growBy (map TemplateOp templates) [] (Unit.empty 0 None))
        ∧ convertAst plainEnv switchedOn None job1 = Ok (test, job2)
        ∧ job' = Job.updateUnit 0
                   (fun u => Unit.set_update
                               (Unit.update u
                                ++ [conditionalOf (Some test) conditions
                                      None]) u)
                   job2
        ∧ Job.view 0 job'
          = Some (growBy (map TemplateOp templates)
                    [conditionalOf (Some test) conditions None]
                    (Unit.empty 0 None))
        ∧ map TemplateOp.xref templates = map cc_target conditions
        ∧ Forall2 (fun b c => conditionOf (caseExpression b) None c)
            switchCases conditions
        ∧ increasingWithin 1 (Job.nextXrefId job1)
            (map cc_target conditions)
        ∧ Forall (fun x => Job.view x deferJob = None ∧ childView job' 0 x)
            (map cc_target conditions).
Proof.
  destruct (ingestSwitchBlock plainEnv (ingestNodes plainEnv 5) 0 switchedOn
              switchCases None None deferJob) as [[[] job']|] eqn:E;
    [|vm_compute in E; discriminate E].
  exists job'. split; [reflexivity|].
  exact (ingestSwitchBlock_conditions plainEnv 5 0 switchedOn switchCases
           None None deferJob job' (Unit.empty 0 None) E
           (wellFormed_new _ _ _) eq_refl).
Defined.

(** ** Listeners *)

Lemma rev_cons_inv {A} (l : list A) (x : A) (r : list A) :
  List.rev l = x :: r → l = List.rev r ++ [x].
Proof.
  intros H. rewrite <- (rev_involutive l), H. reflexivity.
Qed.

(** X10: ingesting an event binding first refuses an animation event without
    a phase.  On a structural template it then only records the name of the
    output, and converts nothing.  Otherwise it converts the handler's
    expressions in order and pushes one listener that does not yet consume
    [$event], whose handler has one statement per expression, the last one
    returned. *)
Theorem ingestListener_handler (env : Collaborators) (unit opXref : XrefId)
    (opHandle : SlotHandle) (opTag : option string) (el : ElementLike)
    (output : BoundEvent) (job job' : Job.t) :
  ingestListener env unit opXref opHandle opTag el output job = Ok (tt, job') →
  (be_type output = Animation → is_Some (be_phase output))
  ∧ if el_isTemplate el && negb (isPlainTemplate env (el_tagName el))
    then job' = Job.updateUnit unit
                  (fun u => Unit.set_create
                              (Unit.create u
                               ++ [ExtractedAttributeOp opXref BkProperty
                                     (be_name output) None]) u) job
    else ∃ exprs returned job1,
        mapM (fun a => convertAst env a (be_handlerSpan output))
          (handlerExpressions output) job
        = Ok (exprs ++ [returned], job1)
        ∧ job' = Job.updateUnit unit
                   (fun u => Unit.set_create
                      (Unit.create u
                       ++ [ListenerOp
                             (ListenerOp.set_handler
                                (handlerStatements exprs returned) false
                                (createListenerOp opXref opHandle
                                   (be_name output) opTag (be_phase output)
                                   false (be_sourceSpan output)))]) u) job1.
Proof.
  unfold ingestListener. intros H.
  assert (Hphase : be_type output = Animation → is_Some (be_phase output)).
  { intros Ht. rewrite Ht in H. destruct (be_phase output); [eauto|discriminate H]. }
  split; [exact Hphase|].
  assert (H' :
    (if el_isTemplate el && negb (isPlainTemplate env (el_tagName el))
     then pushCreate unit
            [ExtractedAttributeOp opXref BkProperty (be_name output) None]
     else
       match handlerExpressions output with
       | [] => throw "Expected listener to have non-empty expression list."
       | _ :: _ =>
           let* expressions :=
             mapM (fun expr => convertAst env expr (be_handlerSpan output))
               (handlerExpressions output) in
           match List.rev expressions with
           | [] => throw "Expected listener to have non-empty expression list."
           | returnExpr :: others =>
               pushCreate unit
                 [ListenerOp
                    (ListenerOp.set_handler
                       (handlerStatements (List.rev others) returnExpr) false
                       (createListenerOp opXref opHandle (be_name output)
                          opTag (be_phase output) false
                          (be_sourceSpan output)))]
           end
       end) job = Ok (tt, job')).
  { clear Hphase.
    destruct (be_type output); [exact H|].
    destruct (be_phase output) eqn:Hp; [exact H | discriminate H]. }
  clear H Hphase.
  destruct (el_isTemplate el && negb (isPlainTemplate env (el_tagName el))).
  - unfold pushCreate in H'. inv_monad. reflexivity.
  - destruct (handlerExpressions output) as [|h hs] eqn:Hh; [discriminate H'|].
    inv_monad.
    match type of H' with
    | match List.rev ?l with _ => _ end _ = _ =>
        destruct (List.rev l) as [|returned others] eqn:Hrev;
        [discriminate H'|]; apply rev_cons_inv in Hrev; subst l
    end.
    unfold pushCreate in H'. inv_monad.
    exists (List.rev others), returned. eexists. split; [exact Ha | reflexivity].
Qed.

(** A [(click)] handler of two expressions on a button. *)
Lemma ingestListener_handler_witness :
  ∃ job',
    ingestListener plainEnv 0 1 newSlotHandle (Some "button") buttonElement
      clickOutput deferJob = Ok (tt, job')
    ∧ ∃ exprs returned job1,
        mapM (fun a => convertAst plainEnv a None)
          (handlerExpressions clickOutput) deferJob
        = Ok (exprs ++ [returned], job1)
        ∧ job' = Job.updateUnit 0
                   (fun u => Unit.set_create
                      (Unit.create u
                       ++ [ListenerOp
                             (ListenerOp.set_handler
                                (handlerStatements exprs returned) false
                                (createListenerOp 1 newSlotHandle "click"
                                   (Some "button") None false None))]) u)
                   job1.
Proof.
  destruct (ingestListener plainEnv 0 1 newSlotHandle (Some "button")
              buttonElement clickOutput deferJob) as [[[] job']|] eqn:E.
  - exists job'. split; [reflexivity|].
    exact (proj2 (ingestListener_handler _ _ _ _ _ _ _ _ _ E)).
  - vm_compute in E. discriminate E.
Defined.

(** ** Reification: the handler assertion, and the shape of the job *)

Lemma rmap_Throw_inv {A B} (f : A → Result B) (l : list A) (m : string) :
  rmap f l = Throw m → ∃ x, In x l ∧ f x = Throw m.
Proof.
  induction l as [|x l IH]; simpl; [discriminate|].
  destruct (f x) as [y|m'] eqn:Hx; simpl.
  - destruct (rmap f l) as [ys|m'']; simpl; [discriminate|].
    intros [= ->]. destruct (IH eq_refl) as (x' & ? & ?). eauto.
  - intros [= ->]. eauto.
Qed.

Lemma rmap_length {A B} (f : A → Result B) (l : list A) (l' : list B) :
  rmap f l = Ok l' → length l' = length l.
Proof. intros H%rmap_Forall2. symmetry. eapply Forall2_length; eassumption. Qed.

(** X11: a listener's handler fails to reify only where one of its ops fails
    to reify, with that op's error: the assertion that expects reified
    statements never fires, since every op that reifies is a statement. *)
Theorem reifyListenerHandler_fails_in_ops (name : option string)
    (ops : list UpdateOp) (consumes : bool) :
  (∀ m, reifyListenerHandler name ops consumes = Throw m →
        ∃ op, In op ops ∧ reifyUpdateOp op = Throw m)
  ∧ isOk (reifyListenerHandler name ops consumes)
    = forallb (fun op => isOk (reifyUpdateOp op)) ops.
Proof.
  unfold reifyListenerHandler, reifyUpdateOperations.
  destruct (rmap reifyUpdateOp ops) as [ops'|m'] eqn:Hops; simpl.
  - assert (Hst : ∃ sts, rmap expectStatement ops' = Ok sts).
    { apply rmap_Forall2 in Hops. clear -Hops.
      induction Hops as [|op op' l l' Hop _ [sts IH]]; simpl; [eauto|].
      apply reifyUpdateOp_statement in Hop as (st & -> & _).
      simpl. rewrite IH. simpl. eauto. }
    destruct Hst as [sts ->]. simpl. split; [discriminate|].
    symmetry. apply forallb_forall. intros op Hop.
    apply rmap_Forall2 in Hops.
    destruct (Forall2_In_l _ _ _ _ Hops Hop) as (op' & _ & ->). reflexivity.
  - split.
    + intros m [= ->]. now apply rmap_Throw_inv.
    + apply rmap_Throw_inv in Hops as (op & Hin & Hop). symmetry.
      apply not_true_is_false. intros Hall.
      rewrite forallb_forall in Hall. specialize (Hall op Hin).
      now rewrite Hop in Hall.
Qed.

(** A handler with an unresolved read of [$event] fails with that op's error. *)
Lemma reifyListenerHandler_fails_in_ops_witness :
  reifyListenerHandler (Some "h") [strayEventRead] false
  = Throw "AssertionError: unresolved LexicalRead of $event"
  ∧ ∃ op, In op [strayEventRead]
          ∧ reifyUpdateOp op
            = Throw "AssertionError: unresolved LexicalRead of $event".
Proof.
  assert (H : reifyListenerHandler (Some "h") [strayEventRead] false
              = Throw "AssertionError: unresolved LexicalRead of $event")
    by (vm_compute; reflexivity).
  split; [exact H|].
  exact (proj1 (reifyListenerHandler_fails_in_ops _ _ _) _ H).
Defined.

(** X12: reification rewrites the ops in place: the job keeps its views, each
    with its id, parent, context variables, aliases, names and counts, and
    with as many create ops and as many update ops as before; nothing else
    of the job changes. *)
Theorem reify_keeps_shape (job job' : Job.t) :
  reify job = Ok job' →
  Forall2 sameShape (Job.units job) (Job.units job')
  ∧ job' = Job.set_units (Job.units job') job.
Proof.
  unfold reify. intros H. inv_monad. split; [|reflexivity].
  simpl. apply rmap_Forall2 in Ha.
  eapply Forall2_impl; [exact Ha|]. intros u u' Hu. simpl in Hu.
  unfold reifyUnit, reifyCreateOperations, reifyUpdateOperations in Hu.
  inv_monad. apply rmap_length in Ha0, Ha1.
  unfold sameShape. simpl. repeat split; assumption.
Qed.

(** Reification of [sampleJob]. *)
Lemma reify_keeps_shape_witness :
  ∃ job',
    reify sampleJob = Ok job'
    ∧ Forall2 sameShape (Job.units sampleJob) (Job.units job')
    ∧ job' = Job.set_units (Job.units job') sampleJob.
Proof.
  destruct (reify sampleJob) as [job'|] eqn:E.
  - exists job'. split; [reflexivity|]. exact (reify_keeps_shape _ _ E).
  - vm_compute in E. discriminate E.
Defined.

(** ** Host bindings *)

Lemma hostShaped_advanced (n : nat) (job : Job.t) bs ls :
  hostShaped job bs ls → hostShaped (advanced n job) bs ls.
Proof. intros H. exact H. Qed.

Lemma hostShaped_pushUpdate (job : Job.t) (op : UpdateOp) bs ls :
  hostShaped job bs ls →
  hostShaped
    (Job.updateUnit (Job.root job)
       (fun u => Unit.set_update (Unit.update u ++ [op]) u) job)
    (bs ++ [bindingOf op]) ls.
Proof.
  intros (Hr & Hk & root & Hu & Hx & Hb & Hl).
  split; [exact Hr|]. split; [exact Hk|].
  unfold Job.updateUnit. simpl. rewrite Hu, Hr. simpl. rewrite Hx. simpl.
  eexists. split; [reflexivity|]. simpl. split; [exact Hx|].
  split; [|exact Hl]. now rewrite map_app, Hb.
Qed.

Lemma hostShaped_pushCreate (job : Job.t) (op : CreateOp) bs ls :
  hostShaped job bs ls →
  hostShaped
    (Job.updateUnit (Job.root job)
       (fun u => Unit.set_create (Unit.create u ++ [op]) u) job)
    bs (ls ++ [listenerOf op]).
Proof.
  intros (Hr & Hk & root & Hu & Hx & Hb & Hl).
  split; [exact Hr|]. split; [exact Hk|].
  unfold Job.updateUnit. simpl. rewrite Hu, Hr. simpl. rewrite Hx. simpl.
  eexists. split; [reflexivity|]. simpl. split; [exact Hx|].
  split; [exact Hb|]. now rewrite map_app, Hl.
Qed.

Section HostBindings.
Variable env : Collaborators.

Lemma ingestHostProperty_shape (p : ParsedProperty) (isText : bool)
    (job job' : Job.t) bs ls :
  ingestHostProperty env p isText job = Ok (tt, job') →
  hostShaped job bs ls →
  hostShaped job' (bs ++ [propertySummary isText p]) ls.
Proof.
  unfold ingestHostProperty. intros H Hs. inv_monad.
  match type of H with pushUpdate _ _ ?s = _ => rename s into job1 end.
  assert (Hj : ∃ n, job1 = advanced n job).
  { destruct (pp_expression p) eqn:Hp; inv_monad;
      try (apply convertAst_convertsWell in Ha0 as [-> _]; eauto).
    apply (mapM_convertsWell env) in Ha0 as [-> _]; [eauto|].
    apply List.Forall_forall. intros ? _. apply convertAst_convertsWell. }
  destruct Hj as [n ->]. unfold pushUpdate in H. inv_monad.
  pose proof (proj1 Hs) as Hr.
  match goal with
  | |- hostShaped
         (Job.updateUnit _
            (fun u => Unit.set_update (Unit.update u ++ [?op]) u) ?j) _ _ =>
      replace (propertySummary isText p) with (bindingOf op)
        by (unfold propertySummary; simpl; now rewrite Hr);
      exact (hostShaped_pushUpdate j op _ _ Hs)
  end.
Qed.

Lemma ingestHostAttribute_shape (name : string) (value : Expr)
    (job job' : Job.t) bs ls :
  ingestHostAttribute name value job = Ok (tt, job') →
  hostShaped job bs ls →
  hostShaped job' (bs ++ [Some (0, BkAttribute, name, true)]) ls.
Proof.
  unfold ingestHostAttribute, pushUpdate. intros H Hs. inv_monad.
  pose proof (proj1 Hs) as Hr.
  match goal with
  | |- hostShaped
         (Job.updateUnit _
            (fun u => Unit.set_update (Unit.update u ++ [?op]) u) ?j) _ _ =>
      replace (Some (0, BkAttribute, name, true)) with (bindingOf op)
        by (simpl; now rewrite Hr);
      exact (hostShaped_pushUpdate j op _ _ Hs)
  end.
Qed.

Lemma ingestHostEvent_shape (event : ParsedEvent) (job job' : Job.t) bs ls :
  ingestHostEvent env event job = Ok (tt, job') →
  hostShaped job bs ls →
  hostShaped job' bs (ls ++ [Some (0, pe_name event, true, 1)]).
Proof.
  unfold ingestHostEvent, pushCreate. intros H Hs. inv_monad.
  apply convertAst_convertsWell in Ha0 as [-> _].
  pose proof (proj1 Hs) as Hr.
  match goal with
  | |- hostShaped
         (Job.updateUnit _
            (fun u => Unit.set_create (Unit.create u ++ [?op]) u) ?j) _ _ =>
      replace (Some (0, pe_name event, true, 1)) with (listenerOf op)
        by (simpl; now rewrite Hr);
      exact (hostShaped_pushCreate j op _ _ Hs)
  end.
Qed.

Lemma forEach_shape {A B} (body : A → M Job.t unit)
    (P : Job.t → list B → Prop) (summary : A → B) (l : list A) :
  (∀ x job job' acc,
     body x job = Ok (tt, job') → P job acc → P job' (acc ++ [summary x])) →
  ∀ job job' acc,
    forEach body l job = Ok (tt, job') → P job acc →
    P job' (acc ++ map summary l).
Proof.
  intros Hb. induction l as [|x l IH]; simpl; intros job job' acc H HP;
    inv_monad.
  - now rewrite app_nil_r.
  - change (acc ++ summary x :: map summary l)
      with (acc ++ [summary x] ++ map summary l).
    rewrite (app_assoc acc [summary x] (map summary l)).
    eapply IH; [exact H|]. eapply Hb; eassumption.
Qed.

(** X13: a host binding job has its root unit alone, with id 0.  Its update
    ops are one binding per host property, then one per host attribute, in
    the order given: a property whose name starts with [attr.] is bound as an
    attribute under the rest of the name, an animation property as an
    animation; an attribute is a text attribute.  Its create ops are one host
    listener per event, in order, with a single handler op. *)
Theorem ingestHostBinding_ops (input : HostBindingInput) (job : Job.t) :
  ingestHostBinding env input = Ok job →
  hostShaped job
    (map (propertySummary false) (default [] (hb_properties input))
     ++ map (fun '(name, _) => Some (0, BkAttribute, name, true))
          (hb_attributes input))
    (map (fun event => Some (0, pe_name event, true, 1))
       (default [] (hb_events input))).
Proof.
  unfold ingestHostBinding. intros H. inv_monad. destruct a as [[] job1].
  inv_monad.
  assert (H0 : hostShaped (newHostBindingJob (hb_componentName input)) [] []).
  { split; [reflexivity|]. split; [reflexivity|].
    eexists. repeat split; reflexivity. }
  pose proof (forEach_shape _ (fun j acc => hostShaped j acc [])
                (propertySummary false) _
                (fun x j j' acc Hx =>
                   ingestHostProperty_shape x false j j' acc [] Hx)
                _ _ [] Ha0 H0) as H1.
  pose proof (forEach_shape _ (fun j acc => hostShaped j acc [])
                (fun '(name, _) => Some (0, BkAttribute, name, true)) _
                (fun x => match x with
                          | (name, value) =>
                              fun j j' acc Hx =>
                                ingestHostAttribute_shape name value j j' acc
                                  [] Hx
                          end) _ _ _ Ha1 H1) as H2.
  exact (forEach_shape _
           (fun j acc =>
              hostShaped j
                (map (propertySummary false)
                   (default [] (hb_properties input))
                 ++ map (fun '(name, _) => Some (0, BkAttribute, name, true))
                      (hb_attributes input)) acc)
           (fun event => Some (0, pe_name event, true, 1)) _
           (fun x j j' acc Hx => ingestHostEvent_shape x j j' _ acc Hx)
           _ _ [] Ha H2).
Qed.
End HostBindings.

(** The bindings and the listener of [sampleHost]. *)
Lemma ingestHostBinding_ops_witness :
  ∃ job,
    ingestHostBinding plainEnv sampleHost = Ok job
    ∧ hostShaped job
        [Some (0, BkAttribute, "role", false);
         Some (0, BkAnimation, "fade", false);
         Some (0, BkAttribute, "class", true)]
        [Some (0, "click", true, 1)].
Proof.
  destruct (ingestHostBinding plainEnv sampleHost) as [job|] eqn:E.
  - exists job. split; [reflexivity|].
    exact (ingestHostBinding_ops _ _ _ E).
  - vm_compute in E. discriminate E.
Defined.

(** ** [$event] resolution, run again *)

Lemma bind_run {S A B} (c : M S A) (k : A → M S B) (s s' : S) (a : A)
    (r : Result (B * S)) :
  c s = Ok (a, s') → k a s' = r → bind c k s = r.
Proof. unfold bind. now intros -> ->. Qed.

Ltac run_fixed :=
  lazymatch goal with
  | |- bind _ _ _ = _ => eapply bind_run; [run_fixed | simpl; run_fixed]
  | |- _ =>
      first [ reflexivity
            | match goal with H : fixedPoint _ _ |- _ => apply H end ]
  end.

Section Settles.
Context {S : Type} (transform : Expr → VisitorContextFlag → M S Expr).

Lemma mapM_settles_Forall (flags : VisitorContextFlag) (l l' : list Expr)
    (s s' : S) :
  Forall (settles transform) l →
  mapM (fun e => transformExpressionsInExpression transform e flags) l s
  = Ok (l', s') →
  fixedPoint (fun flags2 => mapM (fun e => transformExpressionsInExpression transform e flags2) l') l'.
Proof.
  intros Hl. revert l' s s'.
  induction Hl as [|x l Hx _ IH]; simpl; intros l' s s' H; inv_monad;
    intros flags2 st2.
  - reflexivity.
  - apply Hx in Ha. apply IH in Ha0. simpl. run_fixed.
Qed.

Lemma mapM_entries_settles (flags : VisitorContextFlag)
    (es es' : list (string * Expr * bool)) (s s' : S) :
  Forall (settles transform) (map (fun '(_, v, _) => v) es) →
  mapM (fun '(k, v, q) =>
          let* v' := transformExpressionsInExpression transform v flags in
          ret (k, v', q)) es s = Ok (es', s') →
  fixedPoint (fun flags2 => mapM (fun '(k, v, q) =>
            let* v' := transformExpressionsInExpression transform v flags2 in
            ret (k, v', q)) es') es'.
Proof.
  revert es' s s'.
  induction es as [|[[k v] q] es IH]; simpl; intros es' s s' Hl H;
    inv_monad; intros flags2 st2.
  - reflexivity.
  - apply List.Forall_cons_iff in Hl as [Hv Hl].
    apply Hv in Ha1. apply (IH _ _ _ Hl) in Ha0.
    simpl. run_fixed.
Qed.

Hypothesis transform_settles : ∀ e, settles transform e.

Lemma mapM_settles (flags : VisitorContextFlag) (l l' : list Expr) (s s' : S) :
  mapM (fun e => transformExpressionsInExpression transform e flags) l s
  = Ok (l', s') →
  fixedPoint (fun flags2 => mapM (fun e => transformExpressionsInExpression transform e flags2) l') l'.
Proof.
  apply mapM_settles_Forall. apply List.Forall_forall. intros e _.
  apply transform_settles.
Qed.

Lemma optM_settles (flags : VisitorContextFlag) (o o' : option Expr)
    (s s' : S) :
  optM (fun e => transformExpressionsInExpression transform e flags) o s
  = Ok (o', s') →
  fixedPoint (fun flags2 => optM (fun e => transformExpressionsInExpression transform e flags2) o') o'.
Proof.
  destruct o; simpl; intros H; inv_monad; intros flags2 st2; simpl;
    [|reflexivity].
  apply transform_settles in Ha. run_fixed.
Qed.

Lemma interpolation_settles (flags : VisitorContextFlag)
    (i i' : Interpolation) (s s' : S) :
  transformExpressionsInInterpolation transform i flags s = Ok (i', s') →
  fixedPoint (transformExpressionsInInterpolation transform i') i'.
Proof.
  unfold transformExpressionsInInterpolation. intros H. inv_monad.
  intros flags2 st2. apply mapM_settles in Ha. run_fixed.
Qed.

Lemma eoi_settles (flags : VisitorContextFlag) (e e' : ExprOrInterpolation)
    (s s' : S) :
  transformExpressionOrInterpolation transform e flags s = Ok (e', s') →
  fixedPoint (transformExpressionOrInterpolation transform e') e'.
Proof.
  destruct e; simpl; intros H; inv_monad; intros flags2 st2; simpl.
  - apply transform_settles in Ha. run_fixed.
  - apply interpolation_settles in Ha. run_fixed.
Qed.

Lemma stmt_settles (flags : VisitorContextFlag) (st st' : Stmt) (s s' : S) :
  transformExpressionsInStatement transform st flags s = Ok (st', s') →
  fixedPoint (transformExpressionsInStatement transform st') st'.
Proof.
  destruct st; simpl; intros H; inv_monad; intros flags2 st2; simpl;
    first [apply transform_settles in Ha | apply optM_settles in Ha];
    run_fixed.
Qed.

Lemma conditions_settles (flags : VisitorContextFlag)
    (l l' : list ConditionalCase) (s s' : S) :
  mapM (transformConditionalCase transform flags) l s = Ok (l', s') →
  fixedPoint (fun flags2 => mapM (transformConditionalCase transform flags2) l') l'.
Proof.
  revert l' s s'.
  induction l as [|x l IH]; simpl; intros l' s s' H; inv_monad;
    intros flags2 st2.
  - reflexivity.
  - unfold transformConditionalCase in Ha. inv_monad.
    apply optM_settles in Ha1. apply IH in Ha0.
    simpl. unfold transformConditionalCase at 1.
    run_fixed.
Qed.

Ltac settle_facts :=
  repeat match goal with
         | H : transformExpressionsInExpression transform _ _ _ = Ok _
           |- _ => apply transform_settles in H
         | H : optM _ _ _ = Ok _ |- _ => apply optM_settles in H
         | H : transformExpressionOrInterpolation _ _ _ _ = Ok _ |- _ =>
             apply eoi_settles in H
         | H : transformExpressionsInInterpolation _ _ _ _ = Ok _ |- _ =>
             apply interpolation_settles in H
         | H : transformExpressionsInStatement _ _ _ _ = Ok _ |- _ =>
             apply stmt_settles in H
         | H : mapM (transformConditionalCase _ _) _ _ = Ok _ |- _ =>
             apply conditions_settles in H
         end.

Ltac settle_goal := intros ? ?; simpl; run_fixed.

Lemma updateOp_settles (flags : VisitorContextFlag) (op op' : UpdateOp)
    (s s' : S) :
  transformExpressionsInUpdateOp transform op flags s = Ok (op', s') →
  fixedPoint (transformExpressionsInUpdateOp transform op') op'.
Proof.
  destruct op; simpl; intros H; inv_monad; settle_facts; settle_goal.
Qed.

Lemma handlerOps_settles (flags : VisitorContextFlag) (l l' : list UpdateOp)
    (s s' : S) :
  mapM (fun op => transformExpressionsInUpdateOp transform op flags) l s
  = Ok (l', s') →
  fixedPoint
    (fun flags2 =>
       mapM (fun op => transformExpressionsInUpdateOp transform op flags2) l')
    l'.
Proof.
  revert l' s s'.
  induction l as [|x l IH]; simpl; intros l' s s' H; inv_monad;
    intros flags2 st2.
  - reflexivity.
  - apply updateOp_settles in Ha. apply IH in Ha0. simpl. run_fixed.
Qed.
End Settles.

Lemma dollarEvent_settles (e : Expr) : settles dollarEventTransform e.
Proof.
  induction e as [e IH] using Expr_children_ind.
  intros flags s e' s' H.
  destruct e; simpl in H, IH;
    try match goal with v : (XrefId + Expr)%type |- _ => destruct v end;
    try match goal with o : option Expr |- _ => destruct o end;
    simpl in H, IH; inv_monad.
  all: repeat match goal with
              | IH : Forall _ (_ :: _) |- _ =>
                  apply List.Forall_cons_iff in IH; destruct IH
              | IH : settles _ ?c,
                H : transformExpressionsInExpression _ ?c _ _ = Ok _
                |- _ => apply IH in H; clear IH
              | IH : Forall _ ?l,
                H : mapM _ ?l _ = Ok _ |- _ =>
                  apply (mapM_settles_Forall _ _ _ _ _ _ IH) in H; clear IH
              | IH : Forall _ (map _ ?l), H : mapM _ ?l _ = Ok _ |- _ =>
                  apply (mapM_entries_settles _ _ _ _ _ _ IH) in H; clear IH
              end.
  all: simpl in H;
    try match type of H with
        | context [String.eqb ?n ?m] => destruct (String.eqb n m) eqn:?
        end; inv_monad.
  all: intros flags2 st2; simpl; try run_fixed.
  unfold bind, ret. simpl. now rewrite Heqb.
Qed.

Lemma transformDollarEventOp_settles (op op' : CreateOp) :
  transformDollarEventOp op = Ok op' → transformDollarEventOp op' = Ok op'.
Proof.
  destruct op; simpl; intros H; inv_monad; try reflexivity.
  apply (handlerOps_settles _ dollarEvent_settles) in Ha0.
  unfold transformDollarEventOp. simpl.
  rewrite (bind_run _ _ _ _ _ _ (Ha0 _ _) eq_refl). reflexivity.
Qed.

Lemma resolveUnit_settles (unit unit' : Unit.t) :
  ResolveDollarEvent.resolveUnit unit = Ok unit' →
  ResolveDollarEvent.resolveUnit unit' = Ok unit'.
Proof.
  unfold ResolveDollarEvent.resolveUnit, transformDollarEvent,
    transformDollarEventU.
  intros H. rewrite rmap_id in H. inv_monad. simpl.
  rewrite (rmap_idem _ _ _ transformDollarEventOp_settles Ha). simpl.
  rewrite rmap_id. reflexivity.
Qed.

(** X14: running the [$event] phase on a job it returned succeeds and returns
    that job again: no read of [$event] is left to rewrite, and a listener
    that consumes [$event] stays marked. *)
Theorem resolveDollarEvent_idempotent (job job' : Job.t) :
  resolveDollarEvent job = Ok job' → resolveDollarEvent job' = Ok job'.
Proof.
  unfold resolveDollarEvent. intros H. inv_monad. simpl.
  rewrite (rmap_idem _ _ _ resolveUnit_settles Ha). reflexivity.
Qed.

(** The phase on a job with an unresolved listener, and on its result. *)
Lemma resolveDollarEvent_idempotent_witness :
  ∃ job',
    resolveDollarEvent unresolvedJob = Ok job'
    ∧ resolveDollarEvent job' = Ok job'.
Proof.
  destruct (resolveDollarEvent unresolvedJob) as [job'|] eqn:E.
  - exists job'. split; [reflexivity|].
    exact (resolveDollarEvent_idempotent _ _ E).
  - vm_compute in E. discriminate E.
Defined.

(** ** [$event] resolution and sanitizer resolution are independent *)

Lemma transformDollarEventOp_slot (op op' : CreateOp) :
  transformDollarEventOp op = Ok op' →
  op' = op ∨ (consumesSlot op = None ∧ consumesSlot op' = None).
Proof.
  destruct op; try (intros [= <-]; now left).
  intros H. apply transformDollarEventOp_listener in H as (ops' & -> & _).
  right. split; reflexivity.
Qed.

Lemma createOpXrefMap_resolved (ops ops' : list CreateOp) :
  Forall2 (fun op op' => transformDollarEventOp op = Ok op') ops ops' →
  ∀ m : gmap XrefId CreateOp,
    foldl (fun (m : gmap XrefId CreateOp) op =>
             match consumesSlot op with
             | Some x => <[x := op]> m
             | None => m
             end) m ops'
    = foldl (fun (m : gmap XrefId CreateOp) op =>
               match consumesSlot op with
               | Some x => <[x := op]> m
               | None => m
               end) m ops.
Proof.
  induction 1 as [|op op' l l' Hop _ IH]; intros m; simpl; [reflexivity|].
  apply transformDollarEventOp_slot in Hop as [->|[-> ->]]; apply IH.
Qed.

Lemma resolveUnit_commute truthy sens (u u1 : Unit.t) :
  ResolveDollarEvent.resolveUnit u = Ok u1 →
  match ResolveSanitizers.resolveUnit truthy sens u with
  | Ok u2 =>
      ∃ u3, ResolveDollarEvent.resolveUnit u2 = Ok u3
            ∧ ResolveSanitizers.resolveUnit truthy sens u1 = Ok u3
  | Throw m => ResolveSanitizers.resolveUnit truthy sens u1 = Throw m
  end.
Proof.
  unfold ResolveDollarEvent.resolveUnit, transformDollarEvent,
    transformDollarEventU.
  intros H. rewrite rmap_id in H.
  destruct (rmap transformDollarEventOp (Unit.create u)) as [c|] eqn:Hc;
    [|discriminate H].
  simpl in H. injection H as <-.
  unfold ResolveSanitizers.resolveUnit, createOpXrefMap. simpl.
  rewrite (createOpXrefMap_resolved _ _ (rmap_Forall2 _ _ _ Hc)).
  destruct (rmap _ (Unit.update u)) as [ops|m]; simpl; [|reflexivity].
  rewrite Hc, rmap_id. simpl. eexists. split; reflexivity.
Qed.

Lemma rmap_commute {A} (f g : A → Result A) (l l1 : list A) :
  (∀ x x1, f x = Ok x1 →
           match g x with
           | Ok x2 => ∃ x3, f x2 = Ok x3 ∧ g x1 = Ok x3
           | Throw m => g x1 = Throw m
           end) →
  rmap f l = Ok l1 →
  match rmap g l with
  | Ok l2 => ∃ l3, rmap f l2 = Ok l3 ∧ rmap g l1 = Ok l3
  | Throw m => rmap g l1 = Throw m
  end.
Proof.
  intros Hfg H%rmap_Forall2.
  induction H as [|x x1 l l1 Hx _ IH]; simpl; [eauto|].
  specialize (Hfg _ _ Hx).
  destruct (g x) as [x2|m]; simpl.
  - destruct Hfg as (x3 & Hf & ->). simpl.
    destruct (rmap g l) as [l2|m]; simpl.
    + destruct IH as (l3 & Hl & ->). simpl. rewrite Hf, Hl. simpl. eauto.
    + now rewrite IH.
  - now rewrite Hfg.
Qed.

(** X15: [$event] resolution and sanitizer resolution do not interfere: on a
    job that [$event] resolution accepts, sanitizer resolution gives the same
    job whether it runs before or after it, and fails after it exactly when
    it fails before it, with the same error. *)
Theorem resolveDollarEvent_resolveSanitizers_commute truthy sens
    (job job1 : Job.t) :
  resolveDollarEvent job = Ok job1 →
  match resolveSanitizers truthy sens job with
  | Ok job2 =>
      ∃ job3, resolveDollarEvent job2 = Ok job3
              ∧ resolveSanitizers truthy sens job1 = Ok job3
  | Throw m => resolveSanitizers truthy sens job1 = Throw m
  end.
Proof.
  unfold resolveDollarEvent, resolveSanitizers. intros H.
  destruct (rmap ResolveDollarEvent.resolveUnit (Job.units job))
    as [us1|] eqn:H1; [|discriminate H].
  simpl in H. injection H as <-. simpl.
  pose proof (rmap_commute _ (ResolveSanitizers.resolveUnit truthy sens) _ _
                (resolveUnit_commute truthy sens) H1) as Hc.
  destruct (rmap (ResolveSanitizers.resolveUnit truthy sens) (Job.units job))
    as [us2|m]; simpl.
  - destruct Hc as (us3 & -> & ->). simpl. eauto.
  - now rewrite Hc.
Qed.

(** A listener and a URL property, resolved in either order. *)
Lemma resolveDollarEvent_resolveSanitizers_commute_witness :
  ∃ job1 job2 job3,
    resolveDollarEvent listenerAndUrlJob = Ok job1
    ∧ resolveSanitizers allTruthy notSensitive listenerAndUrlJob = Ok job2
    ∧ resolveDollarEvent job2 = Ok job3
    ∧ resolveSanitizers allTruthy notSensitive job1 = Ok job3.
Proof.
  destruct (resolveDollarEvent listenerAndUrlJob) as [job1|] eqn:E1;
    [|vm_compute in E1; discriminate E1].
  pose proof (resolveDollarEvent_resolveSanitizers_commute allTruthy
                notSensitive _ _ E1) as H.
  destruct (resolveSanitizers allTruthy notSensitive listenerAndUrlJob)
    as [job2|] eqn:E2; [|vm_compute in E2; discriminate E2].
  destruct H as (job3 & H3 & H4). exists job1, job2, job3. auto.
Defined.

(** ** The i18n context phase *)

Lemma pushedBy_nil (s s' : State) :
  pushed s' = pushed s → nextXrefId s' = nextXrefId s → pushedBy s s' [].
Proof.
  intros Hp Hn. split; [|split]; simpl; [now rewrite app_nil_r | reflexivity | lia].
Qed.

Lemma pushedBy_one (s s' : State) (c : I18nContextOp.t) :
  pushed s' = pushed s ++ [I18nContextOp c] →
  I18nContextOp.xref c = nextXrefId s →
  nextXrefId s' = S (nextXrefId s) →
  pushedBy s s' [c].
Proof.
  intros Hp Hx Hn. split; [|split]; simpl; [exact Hp | now rewrite Hx | lia].
Qed.

Lemma pushedBy_app (s1 s2 s3 : State) (n1 n2 : list I18nContextOp.t) :
  pushedBy s1 s2 n1 → pushedBy s2 s3 n2 → pushedBy s1 s3 (n1 ++ n2).
Proof.
  intros (Hp1 & Hx1 & Hn1) (Hp2 & Hx2 & Hn2). repeat split.
  - now rewrite Hp2, Hp1, map_app, app_assoc.
  - rewrite map_app, length_app, seq_app, Hx1, Hx2, Hn1. reflexivity.
  - rewrite Hn2, Hn1, length_app. lia.
Qed.

Lemma firstPassOp_spec (op op' : CreateOp) (s s' : State) :
  firstPassOp op s = Ok (op', s') →
  ∃ new,
    pushedBy s s' new
    ∧ forgetContext op' = forgetContext op
    ∧ rootBlocks [op'] = rootContextOps new.
Proof.
  unfold firstPassOp. intros H.
  destruct op; simpl in H;
    try (inv_monad; exists [];
         split; [now apply pushedBy_nil | split; reflexivity]).
  - (* I18nStart *)
    destruct (Nat.eqb (I18nStartOp.xref op) (I18nStartOp.root op)) eqn:Hroot.
    + unfold CreateI18nContexts.allocateXrefId, push, setRootContext,
        setCurrent in H. inv_monad. simpl.
      eexists [_]. split; [|split].
      * apply pushedBy_one; reflexivity.
      * reflexivity.
      * unfold rootBlocks, rootContextOps. simpl. rewrite Hroot. reflexivity.
    + unfold setCurrent in H. inv_monad. exists [].
      split; [now apply pushedBy_nil|]. split; [reflexivity|].
      unfold rootBlocks. simpl. now rewrite Hroot.
  - (* I18nEnd *)
    unfold setCurrent in H. inv_monad. exists [].
    split; [now apply pushedBy_nil | split; reflexivity].
  - (* IcuStart *)
    inv_monad. destruct (currentI18nOp _) as [cur|]; [|discriminate H].
    destruct (negb _).
    + unfold CreateI18nContexts.allocateXrefId, push in H. inv_monad.
      eexists [_]. split; [|split].
      * apply pushedBy_one; reflexivity.
      * reflexivity.
      * reflexivity.
    + inv_monad. exists []. split; [now apply pushedBy_nil|].
      split; reflexivity.
Qed.

Lemma rootBlocks_app (l1 l2 : list CreateOp) :
  rootBlocks (l1 ++ l2) = rootBlocks l1 ++ rootBlocks l2.
Proof. apply omap_app. Qed.

Lemma rootContextOps_app (l1 l2 : list I18nContextOp.t) :
  rootContextOps (l1 ++ l2) = rootContextOps l1 ++ rootContextOps l2.
Proof. apply omap_app. Qed.

Lemma rootBlocks_contexts (new : list I18nContextOp.t) :
  rootBlocks (map I18nContextOp new) = [].
Proof. induction new as [|c new IH]; [reflexivity | exact IH]. Qed.

Lemma mapM_firstPassOp_spec (ops : list CreateOp) :
  ∀ s ops' s',
    mapM firstPassOp ops s = Ok (ops', s') →
    ∃ new,
      pushedBy s s' new
      ∧ map forgetContext ops' = map forgetContext ops
      ∧ rootBlocks ops' = rootContextOps new.
Proof.
  induction ops as [|op ops IH]; intros s ops' s' H; simpl in H.
  - inv_monad. exists []. split; [now apply pushedBy_nil|].
    split; reflexivity.
  - inv_monad.
    match goal with
    | H1 : firstPassOp _ _ = Ok _, H2 : mapM _ _ _ = Ok _ |- _ =>
        apply firstPassOp_spec in H1 as (n1 & P1 & F1 & R1);
        apply IH in H2 as (n2 & P2 & F2 & R2)
    end.
    exists (n1 ++ n2). split; [eapply pushedBy_app; eassumption|].
    split.
    + simpl. now rewrite F1, F2.
    + rewrite rootContextOps_app, <- R1, <- R2, <- rootBlocks_app.
      reflexivity.
Qed.

Lemma set_create_create (ops : list CreateOp) (u : Unit.t) :
  Unit.set_create (Unit.create u) (Unit.set_create ops u) = u.
Proof. destruct u; reflexivity. Qed.

Lemma firstPassUnit_spec (u u' : Unit.t) (s s' : State) :
  firstPassUnit u s = Ok (u', s') →
  ∃ new,
    contextsAdded u u' new
    ∧ map I18nContextOp.xref new
      = seq (CreateI18nContexts.nextXrefId s) (length new)
    ∧ CreateI18nContexts.nextXrefId s'
      = CreateI18nContexts.nextXrefId s + length new.
Proof.
  unfold firstPassUnit. intros H. inv_monad.
  match goal with
  | H1 : mapM _ _ _ = Ok _ |- _ =>
      apply mapM_firstPassOp_spec in H1 as (new & (Hp & Hx & Hn) & Hf & Hr)
  end.
  simpl in Hp, Hx, Hn. exists new. split; [|split; assumption].
  split.
  - eexists. rewrite Hp. split; [reflexivity|]. split; assumption.
  - apply set_create_create.
Qed.

Lemma mapM_firstPassUnit_spec (us : list Unit.t) :
  ∀ s us' s',
    mapM firstPassUnit us s = Ok (us', s') →
    ∃ news,
      Forall3 contextsAdded us us' news
      ∧ map I18nContextOp.xref (concat news)
        = seq (CreateI18nContexts.nextXrefId s) (length (concat news))
      ∧ CreateI18nContexts.nextXrefId s'
        = CreateI18nContexts.nextXrefId s + length (concat news).
Proof.
  induction us as [|u us IH]; intros s us' s' H; simpl in H.
  - inv_monad. exists []. split; [constructor|]. split; simpl; [reflexivity|lia].
  - inv_monad.
    match goal with
    | H1 : firstPassUnit _ _ = Ok _, H2 : mapM _ _ _ = Ok _ |- _ =>
        apply firstPassUnit_spec in H1 as (n1 & C1 & X1 & N1);
        apply IH in H2 as (ns & Cs & Xs & Ns)
    end.
    exists (n1 :: ns). split; [now constructor|]. simpl.
    rewrite map_app, length_app, seq_app, X1, Xs, Ns, N1.
    split; [reflexivity | lia].
Qed.

Lemma forgetContext_secondPassOp (roots : gmap XrefId XrefId) (op : CreateOp) :
  forgetContext (secondPassOp roots op) = forgetContext op.
Proof.
  destruct op; try reflexivity. simpl.
  destruct (negb _); reflexivity.
Qed.

Lemma rootBlocks_secondPass (roots : gmap XrefId XrefId) (ops : list CreateOp) :
  rootBlocks (map (secondPassOp roots) ops) = rootBlocks ops.
Proof.
  induction ops as [|op ops IH]; [reflexivity|].
  change (rootBlocks ([secondPassOp roots op] ++ map (secondPassOp roots) ops)
          = rootBlocks ([op] ++ ops)).
  rewrite !rootBlocks_app, IH. f_equal.
  destruct op; try reflexivity. unfold rootBlocks. simpl.
  destruct (Nat.eqb _ _) eqn:E; simpl; rewrite E; reflexivity.
Qed.

Lemma secondPass_contexts (roots : gmap XrefId XrefId)
    (new : list I18nContextOp.t) :
  map (secondPassOp roots) (map I18nContextOp new) = map I18nContextOp new.
Proof. induction new as [|c new IH]; simpl; [reflexivity | now rewrite IH]. Qed.

Lemma contextsAdded_secondPass (roots : gmap XrefId XrefId)
    (u u' : Unit.t) (new : list I18nContextOp.t) :
  contextsAdded u u' new → contextsAdded u (secondPassUnit roots u') new.
Proof.
  intros [(ops' & Hc & Hf & Hr) Hrest]. split.
  - exists (map (secondPassOp roots) ops'). unfold secondPassUnit. simpl.
    rewrite Hc, map_app, secondPass_contexts. split; [reflexivity|].
    split.
    + rewrite <- Hf, !map_map. apply map_ext. intros op.
      apply forgetContext_secondPassOp.
    + now rewrite rootBlocks_secondPass.
  - rewrite <- Hrest at 2. unfold secondPassUnit. destruct u'; reflexivity.
Qed.

(** X16: the i18n context phase leaves every op of every view in its place and
    changes nothing of it but the context of i18n block and ICU ops; it puts
    the new context ops at the end of the view's creation list, and among
    them one root context for each root i18n block of the view, in the order
    of the blocks, that names the block and its message and that the block
    names as its context.  The ids of the new context ops are the job's next
    ids in order, and the id counter moves past them; nothing else of the
    job changes. *)
Theorem createI18nContexts_adds_contexts (job job' : Job.t) :
  createI18nContexts job = Ok job' →
  ∃ news,
    Forall3 contextsAdded (Job.units job) (Job.units job') news
    ∧ map I18nContextOp.xref (concat news)
      = seq (Job.nextXrefId job) (length (concat news))
    ∧ job' = Job.set_nextXrefId (Job.nextXrefId job + length (concat news))
               (Job.set_units (Job.units job') job).
Proof.
  unfold createI18nContexts. intros H.
  destruct (mapM firstPassUnit _ _) as [[us s]|] eqn:E; [|discriminate H].
  simpl in H. injection H as <-.
  apply mapM_firstPassUnit_spec in E as (news & Hc & Hx & Hn).
  simpl in Hx, Hn. exists news. split; [|split].
  - simpl. clear Hx Hn.
    induction Hc; simpl; constructor; auto using contextsAdded_secondPass.
  - exact Hx.
  - rewrite Hn. reflexivity.
Qed.

(** The phase on [icuInChildBlock]. *)
Lemma createI18nContexts_adds_contexts_witness :
  ∃ job',
    createI18nContexts icuInChildBlock = Ok job'
    ∧ ∃ news,
        Forall3 contextsAdded (Job.units icuInChildBlock) (Job.units job') news
        ∧ map I18nContextOp.xref (concat news)
          = seq (Job.nextXrefId icuInChildBlock) (length (concat news))
        ∧ job' = Job.set_nextXrefId
                   (Job.nextXrefId icuInChildBlock + length (concat news))
                   (Job.set_units (Job.units job') icuInChildBlock).
Proof.
  destruct (createI18nContexts icuInChildBlock) as [job'|] eqn:E.
  - exists job'. split; [reflexivity|].
    exact (createI18nContexts_adds_contexts _ _ E).
  - vm_compute in E. discriminate E.
Defined.

Lemma firstPassOp_open (op : CreateOp) (s : State) :
  match firstPassOp op s with
  | Ok (_, s') =>
      enclosedOp (blockOpen s) op = true
      ∧ blockOpen s' = openAfterOp (blockOpen s) op
  | Throw _ => enclosedOp (blockOpen s) op = false
  end.
Proof.
  unfold blockOpen.
  destruct op; try (split; reflexivity).
  - simpl. destruct (Nat.eqb _ _); split; reflexivity.
  - simpl. unfold bind, get.
    destruct (currentI18nOp s) as [cur|] eqn:E; [|reflexivity].
    destruct (negb _); simpl; rewrite E; split; reflexivity.
Qed.

Lemma mapM_firstPassOp_open (ops : list CreateOp) :
  ∀ s,
    match mapM firstPassOp ops s with
    | Ok (_, s') =>
        icusEnclosed (blockOpen s) ops = true
        ∧ blockOpen s' = openAfter (blockOpen s) ops
    | Throw _ => icusEnclosed (blockOpen s) ops = false
    end.
Proof.
  induction ops as [|op ops IH]; intros s; simpl; [split; reflexivity|].
  unfold bind at 1. pose proof (firstPassOp_open op s) as H1.
  destruct (firstPassOp op s) as [[op' s1]|].
  - destruct H1 as [-> <-]. specialize (IH s1). unfold bind at 1.
    destruct (mapM firstPassOp ops s1) as [[ops' s2]|]; simpl; exact IH.
  - now rewrite H1.
Qed.

Lemma firstPassUnit_open (u : Unit.t) (s : State) :
  match firstPassUnit u s with
  | Ok (_, s') =>
      icusEnclosed (blockOpen s) (Unit.create u) = true
      ∧ blockOpen s' = openAfter (blockOpen s) (Unit.create u)
  | Throw _ => icusEnclosed (blockOpen s) (Unit.create u) = false
  end.
Proof.
  unfold firstPassUnit, bind, modify, get, ret. cbv beta iota.
  match goal with
  | |- context [mapM firstPassOp _ ?s0] =>
      pose proof (mapM_firstPassOp_open (Unit.create u) s0) as H;
      change (blockOpen s0) with (blockOpen s) in H
  end.
  destruct (mapM firstPassOp _ _) as [[ops s1]|]; exact H.
Qed.

Lemma icusEnclosed_app (open : bool) (l1 l2 : list CreateOp) :
  icusEnclosed open (l1 ++ l2)
  = icusEnclosed open l1 && icusEnclosed (openAfter open l1) l2.
Proof.
  revert open. induction l1 as [|op l1 IH]; intros open; simpl;
    [reflexivity|].
  now rewrite IH, andb_assoc.
Qed.

Lemma mapM_firstPassUnit_open (us : list Unit.t) :
  ∀ s,
    isOk (mapM firstPassUnit us s)
    = icusEnclosed (blockOpen s) (concat (map Unit.create us)).
Proof.
  induction us as [|u us IH]; intros s; simpl; [reflexivity|].
  rewrite icusEnclosed_app, isOk_bind.
  pose proof (firstPassUnit_open u s) as H1.
  destruct (firstPassUnit u s) as [[u' s1]|]; [|now rewrite H1].
  destruct H1 as [-> <-]. rewrite isOk_bind, <- IH.
  destruct (mapM firstPassUnit us s1) as [[us' s2]|]; reflexivity.
Qed.

(** X17: the i18n context phase fails exactly when, walking the creation ops
    of the views in the order of the job's views, it meets an ICU start op while
    no i18n block is open: a block opened by an i18n start op stays open,
    across views, until the next i18n end op. *)
Theorem createI18nContexts_succeeds_iff (job : Job.t) :
  isOk (createI18nContexts job)
  = icusEnclosed false (concat (map Unit.create (Job.units job))).
Proof.
  unfold createI18nContexts.
  match goal with
  | |- context [mapM firstPassUnit _ ?s0] =>
      pose proof (mapM_firstPassUnit_open (Job.units job) s0) as H
  end.
  change (blockOpen _) with false in H. rewrite <- H.
  destruct (mapM firstPassUnit _ _) as [[us s]|]; reflexivity.
Qed.

Lemma rootsKnown_nil (roots : gmap XrefId XrefId) : rootsKnown roots roots [].
Proof.
  split; [now left | trivial |].
  intros r c (b & [] & _).
Qed.

Lemma rootAmong_app (l1 l2 : list CreateOp) (r : XrefId) (c : option XrefId) :
  rootAmong (l1 ++ l2) r c ↔ rootAmong l1 r c ∨ rootAmong l2 r c.
Proof.
  unfold rootAmong. split.
  - intros (b & Hin & H). apply in_app_or in Hin as [Hin|Hin];
      [left | right]; now exists b.
  - intros [(b & Hin & H)|(b & Hin & H)]; exists b;
      (split; [apply in_or_app; auto | exact H]).
Qed.

Lemma rootsKnown_app (r0 r1 r2 : gmap XrefId XrefId) (l1 l2 : list CreateOp) :
  rootsKnown r0 r1 l1 → rootsKnown r1 r2 l2 → rootsKnown r0 r2 (l1 ++ l2).
Proof.
  intros [F1 K1 A1] [F2 K2 A2]. split.
  - intros r c H. apply F2 in H as [H|H].
    + apply F1 in H as [H|H]; [now left|].
      right. apply rootAmong_app. now left.
    + right. apply rootAmong_app. now right.
  - intros r H. auto.
  - intros r c H. apply rootAmong_app in H as [H|H]; eauto.
Qed.

Lemma rootsKnown_same (roots : gmap XrefId XrefId) (ops : list CreateOp) :
  (∀ r c, ¬ rootAmong ops r c) → rootsKnown roots roots ops.
Proof.
  intros Hno. split; [now left | trivial |].
  intros r c H. now apply Hno in H.
Qed.

Lemma firstPassOp_roots (op op' : CreateOp) (s s' : State) :
  firstPassOp op s = Ok (op', s') →
  rootsKnown (CreateI18nContexts.rootContexts s)
    (CreateI18nContexts.rootContexts s') [op'].
Proof.
  unfold firstPassOp. intros H.
  destruct op; simpl in H;
    try (inv_monad; apply rootsKnown_same;
         intros r c (b & [Hb|[]] & _); discriminate Hb).
  - destruct (Nat.eqb (I18nStartOp.xref op) (I18nStartOp.root op)) eqn:Hroot.
    + unfold CreateI18nContexts.allocateXrefId, push, setRootContext,
        setCurrent in H. inv_monad. simpl.
      apply Nat.eqb_eq in Hroot. split.
      * intros r c H.
        destruct (decide (r = I18nStartOp.xref op)) as [->|Hne].
        -- rewrite lookup_insert_eq in H. injection H as <-. right.
           eexists. split; [left; reflexivity|]. simpl. auto.
        -- rewrite lookup_insert_ne in H by congruence. now left.
      * intros r H. apply lookup_insert_is_Some. 
        destruct (decide (I18nStartOp.xref op = r)); auto.
      * intros r c (b & [Hb|[]] & _ & <- & _). injection Hb as <-. simpl.
        rewrite lookup_insert_eq. eauto.
    + unfold setCurrent in H. inv_monad. simpl. apply rootsKnown_same.
      intros r c (b & [Hb|[]] & Hx & _). injection Hb as <-.
      apply Nat.eqb_neq in Hroot. contradiction.
  - unfold setCurrent in H. inv_monad. apply rootsKnown_same.
    intros r c (b & [Hb|[]] & _); discriminate Hb.
  - inv_monad. destruct (currentI18nOp _) as [cur|]; [|discriminate H].
    destruct (negb _).
    + unfold CreateI18nContexts.allocateXrefId, push in H. inv_monad.
      apply rootsKnown_same.
      intros r c (b & [Hb|[]] & _); discriminate Hb.
    + inv_monad. apply rootsKnown_same.
      intros r c (b & [Hb|[]] & _); discriminate Hb.
Qed.

Lemma mapM_firstPassOp_roots (ops : list CreateOp) :
  ∀ s ops' s',
    mapM firstPassOp ops s = Ok (ops', s') →
    rootsKnown (CreateI18nContexts.rootContexts s)
      (CreateI18nContexts.rootContexts s') ops'.
Proof.
  induction ops as [|op ops IH]; intros s ops' s' H; simpl in H.
  - inv_monad. apply rootsKnown_nil.
  - inv_monad.
    match goal with
    | H1 : firstPassOp _ _ = Ok _, H2 : mapM _ _ _ = Ok _ |- _ =>
        apply firstPassOp_roots in H1; apply IH in H2;
        exact (rootsKnown_app _ _ _ [_] _ H1 H2)
    end.
Qed.

Lemma rootAmong_contexts (new : list I18nContextOp.t) (r : XrefId)
    (c : option XrefId) :
  ¬ rootAmong (map I18nContextOp new) r c.
Proof.
  intros (b & Hin & _). apply in_map_iff in Hin as (x & Hx & _).
  discriminate Hx.
Qed.

Lemma firstPassUnit_roots (u u' : Unit.t) (s s' : State) :
  firstPassUnit u s = Ok (u', s') →
  rootsKnown (CreateI18nContexts.rootContexts s)
    (CreateI18nContexts.rootContexts s') (Unit.create u').
Proof.
  unfold firstPassUnit. intros H. inv_monad.
  match goal with
  | H1 : mapM _ _ _ = Ok _ |- _ =>
      pose proof (mapM_firstPassOp_spec _ _ _ _ H1) as (new & (Hp & _) & _);
      apply mapM_firstPassOp_roots in H1
  end.
  simpl in *. rewrite Hp. simpl.
  eapply rootsKnown_app; [eassumption|].
  apply rootsKnown_same. intros r c. apply rootAmong_contexts.
Qed.

Lemma mapM_firstPassUnit_roots (us : list Unit.t) :
  ∀ s us' s',
    mapM firstPassUnit us s = Ok (us', s') →
    rootsKnown (CreateI18nContexts.rootContexts s)
      (CreateI18nContexts.rootContexts s') (concat (map Unit.create us')).
Proof.
  induction us as [|u us IH]; intros s us' s' H; simpl in H.
  - inv_monad. apply rootsKnown_nil.
  - inv_monad.
    match goal with
    | H1 : firstPassUnit _ _ = Ok _, H2 : mapM _ _ _ = Ok _ |- _ =>
        apply firstPassUnit_roots in H1; apply IH in H2;
        exact (rootsKnown_app _ _ _ _ _ H1 H2)
    end.
Qed.

Lemma secondPassOp_child (roots : gmap XrefId XrefId) (op : CreateOp)
    (o : I18nStartOp.t) :
  secondPassOp roots op = I18nStartOp o →
  I18nStartOp.xref o ≠ I18nStartOp.root o →
  I18nStartOp.context o = roots !! I18nStartOp.root o.
Proof.
  destruct op; try discriminate. simpl.
  destruct (Nat.eqb _ _) eqn:E; simpl; intros H Hne; injection H as <-.
  - apply Nat.eqb_eq in E. contradiction.
  - reflexivity.
Qed.

Lemma secondPassOp_root (roots : gmap XrefId XrefId) (op : CreateOp)
    (b : I18nStartOp.t) :
  I18nStartOp.xref b = I18nStartOp.root b →
  secondPassOp roots op = I18nStartOp b ↔ op = I18nStartOp b.
Proof.
  intros Hb. destruct op; try easy. simpl.
  destruct (Nat.eqb _ _) eqn:E; simpl; [easy|].
  apply Nat.eqb_neq in E. split; intros H; injection H as <-;
    simpl in Hb; contradiction.
Qed.

Lemma rootBlockOf_secondPass (roots : gmap XrefId XrefId) (us : list Unit.t)
    (job : Job.t) (r : XrefId) (c : option XrefId) :
  Job.units job = map (secondPassUnit roots) us →
  rootBlockOf job r c ↔ rootAmong (concat (map Unit.create us)) r c.
Proof.
  unfold rootBlockOf, rootAmong. intros ->. split.
  - intros (u & b & Hu & Hb & Hx & H).
    apply in_map_iff in Hu as (u1 & <- & Hu1). simpl in Hb.
    apply in_map_iff in Hb as (op & Hop & Hin).
    apply secondPassOp_root in Hop as ->; [|exact Hx].
    exists b. split; [|auto].
    apply in_concat. exists (Unit.create u1). split; [|exact Hin].
    now apply in_map.
  - intros (b & Hb & Hx & H).
    apply in_concat in Hb as (l & Hl & Hb).
    apply in_map_iff in Hl as (u1 & <- & Hu1).
    exists (secondPassUnit roots u1), b. split; [now apply in_map|].
    split; [|auto]. simpl. apply in_map_iff. exists (I18nStartOp b).
    split; [|exact Hb]. now apply secondPassOp_root.
Qed.

(** X18: after the i18n context phase a child i18n block (one that is not its
    own root) has the context of a root block of the job whose id is the
    child's root; it has no context exactly when the job has no root block
    of that id, in any view. *)
Theorem createI18nContexts_child_blocks (job job' : Job.t) :
  createI18nContexts job = Ok job' →
  ∀ u o,
    In u (Job.units job') → In (I18nStartOp o) (Unit.create u) →
    I18nStartOp.xref o ≠ I18nStartOp.root o →
    match I18nStartOp.context o with
    | Some c => rootBlockOf job' (I18nStartOp.root o) (Some c)
    | None => ∀ c, ¬ rootBlockOf job' (I18nStartOp.root o) c
    end.
Proof.
  unfold createI18nContexts. intros H u o Hu Ho Hchild.
  destruct (mapM firstPassUnit _ _) as [[us s]|] eqn:E; [|discriminate H].
  simpl in H. injection H as <-.
  apply mapM_firstPassUnit_roots in E as [Hfound _ Hall]. simpl in *.
  apply in_map_iff in Hu as (u1 & <- & Hu1). simpl in Ho.
  apply in_map_iff in Ho as (op & Hop & _).
  apply secondPassOp_child in Hop; [|exact Hchild]. rewrite Hop.
  destruct (CreateI18nContexts.rootContexts s !! I18nStartOp.root o)
    as [c|] eqn:El.
  - apply Hfound in El as [El|El]; [now rewrite lookup_empty in El|].
    eapply rootBlockOf_secondPass; [reflexivity | exact El].
  - intros c Hc.
    eapply rootBlockOf_secondPass in Hc; [|reflexivity].
    apply Hall in Hc. rewrite El in Hc. now destruct Hc.
Qed.

(** The child block of [icuInChildBlock] gets the context of its root block. *)
Lemma createI18nContexts_child_blocks_witness :
  ∃ job' u o,
    createI18nContexts icuInChildBlock = Ok job'
    ∧ In u (Job.units job')
    ∧ In (I18nStartOp o) (Unit.create u)
    ∧ I18nStartOp.xref o ≠ I18nStartOp.root o
    ∧ I18nStartOp.context o = Some 5
    ∧ rootBlockOf job' (I18nStartOp.root o) (Some 5).
Proof.
  eexists _, _, _.
  split; [vm_compute; reflexivity|].
  split; [right; left; reflexivity|].
  split; [left; reflexivity|].
  split; [simpl; lia|].
  split; [reflexivity|].
  exact (createI18nContexts_child_blocks icuInChildBlock _
           ltac:(vm_compute; reflexivity) _ _
           ltac:(right; left; reflexivity) ltac:(left; reflexivity)
           ltac:(simpl; lia)).
Defined.
